(** * quickjscpp: a shallow embedding of the binding layer (quickjs.hpp)

    The development follows the header: engine values and host handles
    first, then the exception bridge ([value::check_throw],
    [value::do_throw], [value::handle_pending_exception]), call marshaling
    ([jsvalue_list], [functions::call_common_args], the closure handlers),
    class registration and the weak-identity table, and finally the
    handle tracker with the destructors of [value], [context] and
    [runtime].

    Host functions that may throw a C++ exception are written in a small
    state-and-exception monad [M]; [assert] failures and null
    dereferences are the outcome [Crash]. *)

From Stdlib Require Import ZArith Lia.
From stdpp Require Import base numbers strings list gmap.

Set Default Proof Using "Type".

(** ** Engine values *)

Definition JSContext := nat.
Definition JSClassID := nat.
Definition void_ptr := nat.

(** [JSValue]: the tagged engine value.  [JS_OBJECT p] is a reference to
    the heap object at address [p]; [JS_EXCEPTION] is the marker an engine
    call returns when it left a pending exception. *)
Inductive JSValue :=
| JS_UNDEFINED
| JS_NULL
| JS_EXCEPTION
| JS_BOOL (b : bool)
| JS_INT (i : Z)
| JS_STRING (s : string)
| JS_OBJECT (p : nat).

Definition JS_TRUE := JS_BOOL true.
Definition JS_FALSE := JS_BOOL false.

Global Instance JSValue_eq_dec : EqDecision JSValue.
Proof. solve_decision. Defined.

Definition JS_IsException (v : JSValue) : bool :=
  match v with JS_EXCEPTION => true | _ => false end.
Definition JS_IsUndefined (v : JSValue) : bool :=
  match v with JS_UNDEFINED => true | _ => false end.
Definition JS_IsNull (v : JSValue) : bool :=
  match v with JS_NULL => true | _ => false end.
Definition JS_IsBool (v : JSValue) : bool :=
  match v with JS_BOOL _ => true | _ => false end.
Definition JS_IsNumber (v : JSValue) : bool :=
  match v with JS_INT _ => true | _ => false end.
Definition JS_IsString (v : JSValue) : bool :=
  match v with JS_STRING _ => true | _ => false end.
Definition JS_IsObject (v : JSValue) : bool :=
  match v with JS_OBJECT _ => true | _ => false end.

(** Script-side strict equality on the values of the model: object
    references are equal exactly when they are the same heap object. *)
Definition js_strict_eq (a b : JSValue) : bool := bool_decide (a = b).

(** ** Host handles and exception types *)

(** [class value]: [ctx_] is the [JSContext*] (null = [None]) and [val_]
    the wrapped reference; the tracker links ([owner_] and the list entry)
    live in [Module Tracker] below. *)
Record value := mk_value { ctx_ : option JSContext; val_ : JSValue }.

Global Instance value_eq_dec : EqDecision value.
Proof. solve_decision. Defined.

(** [value()]: [ctx_{nullptr}], [val_{0}]. *)
Definition value_default : value := mk_value None (JS_INT 0).

(** [value::valid]. *)
Definition valid (v : value) : bool :=
  match ctx_ v with Some _ => true | None => false end.

(** The exception classes of the header, and [user_exception] for any
    other native type (such as [my_exception] of the examples), identified
    by a type tag and carrying its payload. *)
Inductive cpp_exception :=
| exception (what : string)
| invalid_context
| value_error (what stack : string)
| value_exception_msg (what : string)
| value_exception (v : value)
| throw_exception (v : value)
| user_exception (type_id : nat) (payload : string).

Global Instance cpp_exception_eq_dec : EqDecision cpp_exception.
Proof. solve_decision. Defined.

(** [exception::what]; [throw_exception] overrides it, [invalid_context]
    passes its literal to the base constructor. *)
Definition what_of (e : cpp_exception) : string :=
  match e with
  | exception w => w
  | invalid_context => "invalid context"
  | value_error w _ => w
  | value_exception_msg w => w
  | value_exception _ => ""
  | throw_exception _ => "thrown exception"
  | user_exception _ _ => ""
  end.

(** [catch (const throw_exception&)] matches this and nothing else. *)
Definition is_throw_exception (e : cpp_exception) : bool :=
  match e with throw_exception _ => true | _ => false end.

(** [class args]: the vector of values and the receiver. *)
Record args := mk_args { items : list value; this_ : value }.

(** ** Native callables and scripts *)

(** The argument kinds of a variadic call site, one per overload of
    [jsvalue_list::new_jsvalue] (the [int64_t], [double] and callable
    overloads are left out: the model has no floating-point values). *)
Inductive call_arg :=
| arg_value (v : value)
| arg_cstr (s : string)
| arg_string (s : string)
| arg_bool (b : bool)
| arg_int32 (i : Z)
| arg_uint32 (u : Z).

(** What the body of a native callable does, as a tree of the effects it
    has on the binding layer; the decisions in between are Rocq code.
    - [NReturn v]: [return v;] ([return {};] is [NReturn value_default],
      also the result of a void callable);
    - [NThrow e]: [throw e;];
    - [NCall f t a k h]: [try { r = f.call(t, a...); k r } catch (e) { h e }],
      a callable that does not catch takes [h := NThrow];
    - [NException x k]: [r = value::exception(ctx, x); k r];
    - [NPrint s k]: appends a line to the host log ([printed_] of the tests). *)
Inductive nprog :=
| NReturn (v : value)
| NThrow (e : cpp_exception)
| NCall (func thisObj : value) (a : list call_arg)
        (k : value -> nprog) (h : cpp_exception -> nprog)
| NException (ctx : JSContext) (exval : JSValue) (k : value -> nprog)
| NPrint (line : string) (k : nprog).

(** Declared parameter types handled by [values::convert], and the
    converted values. *)
Inductive param_type := p_value | p_string | p_int32 | p_uint32 | p_int64 | p_bool.
Inductive param_val :=
| c_value (v : value)
| c_string (s : string)
| c_int32 (i : Z)
| c_uint32 (u : Z)
| c_int64 (i : Z)
| c_bool (b : bool).

(** A native callable wrapped by [detail::closures]: its positional
    parameter types ([N] is their number), whether its first parameter is
    [const args&] (then the handler is [handle_closure_expand_with_args]
    and the body is given [Some] argument list, otherwise [None]), and its
    body. *)
Record callable := mk_callable {
  params : list param_type;
  first_is_args : bool;
  body : option args -> list param_val -> nprog
}.

(** Script code, as the tree of what it asks of the engine.  A script can
    observe a thrown value only through [STry].
    - [SReturn v], [SThrow v];
    - [SCall f t a k]: [x = f.call(t, a...); k x];
    - [SGetGlobal n k]: reads a property of the global object;
    - [STry b h k]: [try { x = b } catch (ex) { x = h ex }; k x]. *)
Inductive sprog :=
| SReturn (v : JSValue)
| SThrow (v : JSValue)
| SCall (func this_val : JSValue) (argv : list JSValue) (k : JSValue -> sprog)
| SGetGlobal (name : string) (k : JSValue -> sprog)
| STry (body : sprog) (handler : JSValue -> sprog) (k : JSValue -> sprog).

(** A native class registered with the engine: the class definition
    ([id], [name], [ctor_argc]), whether it is [class_def_shared], and the
    constructor [ClassType(const args&)] of the native type. *)
Record class_definition := mk_class_definition {
  id : JSClassID;
  name : string;
  ctor_argc : nat;
  shared : bool;
  construct : args -> nprog
}.

(** ** The engine heap *)

Inductive JSClass :=
| JS_CLASS_OBJECT
| JS_CLASS_ERROR (is_uncatchable_error : bool)
| JS_CLASS_BYTECODE_FUNCTION (code : JSValue -> list JSValue -> sprog)
| JS_CLASS_C_CLOSURE (f : callable)
| JS_CLASS_C_FUNCTION_ctor (cdef : class_definition)
| JS_CLASS_native (cid : JSClassID) (opaque : option void_ptr).

Record JSObject := mk_JSObject { class_of : JSClass; props : gmap string JSValue }.

(** [context::class_info]. *)
Record class_info := mk_class_info { ctor : JSValue; proto : JSValue }.

(** [runtime::inst_ref]. *)
Record inst_ref := mk_inst_ref { refs_ : N; weak_val_ : JSValue }.

(** The host [context] object reached through [JS_GetContextOpaque]:
    the call level, the pending exception token and the class table. *)
Record context := mk_context {
  clevel_ : Z;
  excpt_ : option cpp_exception;
  classes_ : gmap JSClassID class_info
}.

(** Engine-side data of a [JSContext]: its global object and its opaque
    pointer. *)
Record JSContextData := mk_JSContextData {
  global_obj : nat;
  ctx_opaque : option context
}.

(** The whole state: the engine heap (live objects by address, and the
    next fresh address) with its pending exception and registered
    classes, the contexts, the runtime's weak-identity table and the next
    fresh address of a native instance, the host log, and a ghost log of
    the values that script [catch] clauses received. *)
Record state := mk_state {
  heap : gmap nat JSObject;
  next_obj : nat;
  current_exception : JSValue;
  class_array : gmap JSClassID class_definition;
  ctxs : gmap JSContext JSContextData;
  weak_object_refs_ : gmap void_ptr inst_ref;
  next_inst : void_ptr;
  printed_ : list string;
  catch_log : list JSValue
}.

(** ** The monad of host code *)

Inductive outcome (A : Type) :=
| Ok (a : A)
| Thrown (e : cpp_exception)
| Crash
| OutOfFuel.
Arguments Ok {A} a.
Arguments Thrown {A} e.
Arguments Crash {A}.
Arguments OutOfFuel {A}.

Definition M (A : Type) : Type := state -> outcome A * state.

Global Instance M_ret : MRet M := fun A a st => (Ok a, st).

Global Instance M_bind : MBind M := fun A B f m st =>
  match m st with
  | (Ok a, st') => f a st'
  | (Thrown e, st') => (Thrown e, st')
  | (Crash, st') => (Crash, st')
  | (OutOfFuel, st') => (OutOfFuel, st')
  end.

Definition throw {A} (e : cpp_exception) : M A := fun st => (Thrown e, st).
Definition crash {A} : M A := fun st => (Crash, st).
Definition get_state : M state := fun st => (Ok st, st).
Definition modify (f : state -> state) : M unit := fun st => (Ok tt, f st).

(** [try { m } catch (e) { h e }]. *)
Definition try_catch {A} (m : M A) (h : cpp_exception -> M A) : M A :=
  fun st =>
    match m st with
    | (Thrown e, st') => h e st'
    | r => r
    end.

(** A scope whose local object has the destructor [d]: [d] runs when the
    scope is left normally and when it is left by an exception. *)
Definition scoped {A} (d : M unit) (m : M A) : M A :=
  fun st =>
    match m st with
    | (Ok a, st') => (_ ← d; mret a) st'
    | (Thrown e, st') => (_ ← d; throw e) st'
    | r => r
    end.

(** ** State updates *)

Definition set_heap (h : gmap nat JSObject) (n : nat) (st : state) : state :=
  mk_state h n (current_exception st) (class_array st) (ctxs st)
           (weak_object_refs_ st) (next_inst st) (printed_ st) (catch_log st).
Definition set_current_exception (v : JSValue) (st : state) : state :=
  mk_state (heap st) (next_obj st) v (class_array st) (ctxs st)
           (weak_object_refs_ st) (next_inst st) (printed_ st) (catch_log st).
Definition set_class_array (c : gmap JSClassID class_definition) (st : state) : state :=
  mk_state (heap st) (next_obj st) (current_exception st) c (ctxs st)
           (weak_object_refs_ st) (next_inst st) (printed_ st) (catch_log st).
Definition set_ctxs (c : gmap JSContext JSContextData) (st : state) : state :=
  mk_state (heap st) (next_obj st) (current_exception st) (class_array st) c
           (weak_object_refs_ st) (next_inst st) (printed_ st) (catch_log st).
Definition set_weak_object_refs (w : gmap void_ptr inst_ref) (st : state) : state :=
  mk_state (heap st) (next_obj st) (current_exception st) (class_array st) (ctxs st)
           w (next_inst st) (printed_ st) (catch_log st).
Definition set_next_inst (n : void_ptr) (st : state) : state :=
  mk_state (heap st) (next_obj st) (current_exception st) (class_array st) (ctxs st)
           (weak_object_refs_ st) n (printed_ st) (catch_log st).
Definition set_printed (l : list string) (st : state) : state :=
  mk_state (heap st) (next_obj st) (current_exception st) (class_array st) (ctxs st)
           (weak_object_refs_ st) (next_inst st) l (catch_log st).
Definition set_catch_log (l : list JSValue) (st : state) : state :=
  mk_state (heap st) (next_obj st) (current_exception st) (class_array st) (ctxs st)
           (weak_object_refs_ st) (next_inst st) (printed_ st) l.

(** ** Engine primitives

    Modelled from the spec: the script engine is an external collaborator
    (spec sections 1 and 6), used through "allocate a value handle",
    "get/set properties by name", "throw/fetch/reset a catchable or
    uncatchable error value", "get/set an object's opaque payload".  What
    follows is the least engine that has these operations; reference
    counts are not represented (an object lives until the engine frees it,
    see [JS_FreeObject]), nor are prototypes; properties are data
    properties here, and accessor properties are added in [Accessors]. *)

Definition JS_Throw (ctx : JSContext) (obj : JSValue) : M JSValue :=
  _ ← modify (set_current_exception obj); mret JS_EXCEPTION.

Definition JS_GetException (ctx : JSContext) : M JSValue :=
  st ← get_state;
  _ ← modify (set_current_exception JS_NULL);
  mret (current_exception st).

Definition new_object (o : JSObject) : M JSValue :=
  st ← get_state;
  _ ← modify (set_heap (<[next_obj st := o]> (heap st)) (S (next_obj st)));
  mret (JS_OBJECT (next_obj st)).

Definition object_at (st : state) (v : JSValue) : option JSObject :=
  match v with JS_OBJECT p => heap st !! p | _ => None end.

Definition JS_NewObject (ctx : JSContext) : M JSValue :=
  new_object (mk_JSObject JS_CLASS_OBJECT ∅).

Definition JS_NewError (ctx : JSContext) : M JSValue :=
  new_object (mk_JSObject (JS_CLASS_ERROR false) ∅).

Definition JS_IsError (st : state) (v : JSValue) : bool :=
  match object_at st v with
  | Some (mk_JSObject (JS_CLASS_ERROR _) _) => true
  | _ => false
  end.

Definition JS_IsUncatchableError (st : state) (v : JSValue) : bool :=
  match object_at st v with
  | Some (mk_JSObject (JS_CLASS_ERROR u) _) => u
  | _ => false
  end.

Definition JS_SetUncatchableError (ctx : JSContext) (v : JSValue) (flag : bool) : M unit :=
  st ← get_state;
  match v, object_at st v with
  | JS_OBJECT p, Some (mk_JSObject (JS_CLASS_ERROR _) ps) =>
      modify (set_heap (<[p := mk_JSObject (JS_CLASS_ERROR flag) ps]> (heap st)) (next_obj st))
  | _, _ => mret tt
  end.

(** The function added by the patch [0002-Add-JS_NewUncatchableError]. *)
Definition JS_NewUncatchableError (ctx : JSContext) : M JSValue :=
  obj ← JS_NewError ctx;
  _ ← JS_SetUncatchableError ctx obj true;
  mret obj.

(** The text of the "stack" property the engine gives an Error it
    throws; its content plays no role here. *)
Definition backtrace : string := "    at <anonymous>".

Definition JS_ThrowError (ctx : JSContext) (ename msg : string) : M JSValue :=
  obj ← new_object (mk_JSObject (JS_CLASS_ERROR false)
           (<["name" := JS_STRING ename]>
            (<["message" := JS_STRING msg]>
             (<["stack" := JS_STRING backtrace]> ∅))));
  JS_Throw ctx obj.

Definition JS_ThrowTypeError (ctx : JSContext) (msg : string) : M JSValue :=
  JS_ThrowError ctx "TypeError" msg.

Definition JS_ThrowReferenceError (ctx : JSContext) (msg : string) : M JSValue :=
  JS_ThrowError ctx "ReferenceError" msg.

Definition JS_IsFunction (st : state) (v : JSValue) : bool :=
  match object_at st v with
  | Some (mk_JSObject (JS_CLASS_BYTECODE_FUNCTION _) _)
  | Some (mk_JSObject (JS_CLASS_C_CLOSURE _) _)
  | Some (mk_JSObject (JS_CLASS_C_FUNCTION_ctor _) _) => true
  | _ => false
  end.

Definition JS_GetPropertyStr (ctx : JSContext) (this_obj : JSValue) (prop : string) : M JSValue :=
  st ← get_state;
  match this_obj with
  | JS_OBJECT p =>
      match heap st !! p with
      | Some o => mret (default JS_UNDEFINED (props o !! prop))
      | None => crash
      end
  | JS_UNDEFINED | JS_NULL =>
      JS_ThrowTypeError ctx ("cannot read property '" +:+ prop +:+ "' of undefined")
  | JS_EXCEPTION => mret JS_EXCEPTION
  | _ => mret JS_UNDEFINED
  end.

(** Returns [1] on success and [-1] with a pending exception. *)
Definition JS_SetPropertyStr (ctx : JSContext) (this_obj : JSValue) (prop : string)
    (val : JSValue) : M Z :=
  st ← get_state;
  match this_obj with
  | JS_OBJECT p =>
      match heap st !! p with
      | Some o =>
          _ ← modify (set_heap (<[p := mk_JSObject (class_of o) (<[prop := val]> (props o))]>
                                  (heap st)) (next_obj st));
          mret 1%Z
      | None => crash
      end
  | JS_UNDEFINED | JS_NULL =>
      _ ← JS_ThrowTypeError ctx ("cannot set property '" +:+ prop +:+ "' of undefined");
      mret (-1)%Z
  | _ =>
      _ ← JS_ThrowTypeError ctx "not an object";
      mret (-1)%Z
  end.

Definition JS_GetGlobalObject (ctx : JSContext) : M JSValue :=
  st ← get_state;
  match ctxs st !! ctx with
  | Some d => mret (JS_OBJECT (global_obj d))
  | None => crash
  end.

(** [JS_GetContextOpaque], already cast to [context*]: [None] is null. *)
Definition JS_GetContextOpaque (st : state) (ctx : JSContext) : option context :=
  d ← ctxs st !! ctx; ctx_opaque d.

(** Writes through a [context*] obtained from [JS_GetContextOpaque]. *)
Definition update_context (ctx : JSContext) (f : context -> context) : M unit :=
  st ← get_state;
  match ctxs st !! ctx with
  | Some (mk_JSContextData g (Some c)) =>
      modify (set_ctxs (<[ctx := mk_JSContextData g (Some (f c))]> (ctxs st)))
  | _ => crash
  end.

Definition JS_NewObjectProtoClass (ctx : JSContext) (proto : JSValue) (cid : JSClassID) : M JSValue :=
  new_object (mk_JSObject (JS_CLASS_native cid None) ∅).

Definition JS_GetOpaque (st : state) (v : JSValue) (cid : JSClassID) : option void_ptr :=
  match object_at st v with
  | Some (mk_JSObject (JS_CLASS_native cid' o) _) => if decide (cid' = cid) then o else None
  | _ => None
  end.

Definition JS_SetOpaque (v : JSValue) (opaque : void_ptr) : M unit :=
  st ← get_state;
  match v, object_at st v with
  | JS_OBJECT p, Some (mk_JSObject (JS_CLASS_native cid _) ps) =>
      modify (set_heap (<[p := mk_JSObject (JS_CLASS_native cid (Some opaque)) ps]> (heap st))
                       (next_obj st))
  | _, _ => mret tt
  end.

(** The engine's value conversions, with their coercion rules, are taken
    as given: [None] is a failed conversion (a null C string, a negative
    return code); [JS_ToBool] returns [-1], [0] or [1]. *)
Class Conversions := {
  JS_ToCString : state -> JSValue -> option string;
  JS_ToBool : state -> JSValue -> Z;
  JS_ToInt32 : state -> JSValue -> option Z;
  JS_ToUint32 : state -> JSValue -> option Z;
  JS_ToInt64 : state -> JSValue -> option Z
}.

Global Instance value_inhabited : Inhabited value := populate value_default.

(** [static_cast<int32_t>] of an integer: reduction modulo 2^32 into
    [-2^31, 2^31). *)
Definition static_cast_int32 (x : Z) : Z :=
  ((x + 2 ^ 31) mod 2 ^ 32 - 2 ^ 31)%Z.

(** [unsigned int] arithmetic of [call_level::val_type]. *)
Definition uint_wrap (x : Z) : Z := (x mod 2 ^ 32)%Z.

Definition JS_NewInt32 (ctx : JSContext) (val : Z) : JSValue := JS_INT val.
Definition JS_NewString (ctx : JSContext) (s : string) : JSValue := JS_STRING s.

(** ** The binding layer

    Everything that calls into the engine is written against [JS_Call],
    the engine's function call, which is tied to the script interpreter
    after the section. *)
Section Bridge.
Context `{Conversions}.
Variable JS_Call : JSContext -> JSValue -> JSValue -> list JSValue -> M JSValue.

(** *** [class value] *)

(** [value::throw_value_exception]. *)
Definition throw_value_exception {A} (msg : string) : M A :=
  throw (value_exception_msg msg).

(** [value::validate]; on success it hands back the non-null [ctx_]. *)
Definition validate (v : value) : M JSContext :=
  match ctx_ v with
  | Some ctx => mret ctx
  | None => throw_value_exception "no context"
  end.

(** [value(JSContext*, JSValue, bool dup)]. *)
Definition value_ctor (ctx : option JSContext) (val : JSValue) : M value :=
  let v := mk_value ctx val in
  _ ← validate v; mret v.

(** [explicit value(JSContext*, const value&)]. *)
Definition value_copy_in (ctx : option JSContext) (other : value) : value :=
  match ctx, ctx_ other with
  | Some c, Some _ => mk_value (Some c) (val_ other)
  | _, _ => mk_value None (JS_INT 0)
  end.

(** [value::steal]: the raw reference, and the handle as it is left. *)
Definition steal (v : value) : M (JSValue * value) :=
  _ ← validate v;
  mret (val_ v, mk_value None (JS_INT 0)).

Definition is_null (v : value) : M bool :=
  _ ← validate v; mret (JS_IsNull (val_ v)).
Definition is_undefined (v : value) : M bool :=
  _ ← validate v; mret (JS_IsUndefined (val_ v)).
Definition is_exception (v : value) : M bool :=
  _ ← validate v; st ← get_state; mret (JS_IsError st (val_ v)).
Definition is_function (v : value) : M bool :=
  _ ← validate v; st ← get_state; mret (JS_IsFunction st (val_ v)).
Definition is_number (v : value) : M bool :=
  _ ← validate v; mret (JS_IsNumber (val_ v)).
Definition is_object (v : value) : M bool :=
  _ ← validate v; mret (JS_IsObject (val_ v)).
Definition is_string (v : value) : M bool :=
  _ ← validate v; mret (JS_IsString (val_ v)).
Definition is_bool (v : value) : M bool :=
  _ ← validate v; mret (JS_IsBool (val_ v)).

(** [value::as_cstring]: [None] is a [cstring] holding a null pointer. *)
Definition as_cstring (v : value) : M (option string) :=
  _ ← validate v; st ← get_state; mret (JS_ToCString st (val_ v)).

(** [cstring::str]. *)
Definition cstring_str (c : option string) : string := default "" c.

(** The non-throwing conversions [as_bool(bool&)], ...: the success flag
    and the value left in the out parameter. *)
Definition as_bool_out (v : value) : M (bool * bool) :=
  if valid v then
    st ← get_state;
    let ret := JS_ToBool st (val_ v) in
    if (ret <? 0)%Z then mret (false, false)
    else mret (true, negb (ret =? 0)%Z)
  else mret (false, false).

Definition as_int32_out (v : value) : M (bool * Z) :=
  st ← get_state;
  match (if valid v then JS_ToInt32 st (val_ v) else None) with
  | Some i => mret (true, i)
  | None => mret (false, 0%Z)
  end.

Definition as_uint32_out (v : value) : M (bool * Z) :=
  st ← get_state;
  match (if valid v then JS_ToUint32 st (val_ v) else None) with
  | Some i => mret (true, i)
  | None => mret (false, 0%Z)
  end.

Definition as_int64_out (v : value) : M (bool * Z) :=
  st ← get_state;
  match (if valid v then JS_ToInt64 st (val_ v) else None) with
  | Some i => mret (true, i)
  | None => mret (false, 0%Z)
  end.

(** [as_string(std::string&)] leaves the out parameter [val] alone when
    it fails. *)
Definition as_string_out (v : value) (val : string) : M (bool * string) :=
  if valid v then
    c ← as_cstring v;
    match c with
    | Some s => mret (true, s)
    | None => mret (false, val)
    end
  else mret (false, val).

Definition as_bool (v : value) : M bool :=
  _ ← validate v;
  '(ok, r) ← as_bool_out v;
  if ok : bool then mret r else throw_value_exception "not a int32 value".

Definition as_int32 (v : value) : M Z :=
  _ ← validate v;
  '(ok, r) ← as_int32_out v;
  if ok : bool then mret r else throw_value_exception "not a int32 value".

Definition as_uint32 (v : value) : M Z :=
  _ ← validate v;
  '(ok, r) ← as_uint32_out v;
  if ok : bool then mret r else throw_value_exception "not a uint32 value".

Definition as_int64 (v : value) : M Z :=
  _ ← validate v;
  '(ok, r) ← as_int64_out v;
  if ok : bool then mret r else throw_value_exception "not a int64 value".

Definition as_string (v : value) : M string :=
  _ ← validate v;
  '(ok, r) ← as_string_out v "";
  if ok : bool then mret r else throw_value_exception "not a string value".

(** [value::undefined], [value::null]. *)
Definition value_undefined (ctx : option JSContext) : M value :=
  value_ctor ctx JS_UNDEFINED.
Definition value_null (ctx : option JSContext) : M value :=
  value_ctor ctx JS_NULL.

(** [value::get_context], as the key of the context. *)
Definition get_context (v : value) : M JSContext := validate v.

(** [value::get_property]. *)
Definition get_property (v : value) (name : string) : M value :=
  ctx ← validate v;
  r ← JS_GetPropertyStr ctx (val_ v) name;
  value_ctor (Some ctx) r.

(** *** The exception bridge *)

(** [context::store_exception] and [context::pop_exception], through the
    pointer [JS_GetContextOpaque] returned. *)
Definition store_exception (ctx : JSContext) (excpt : cpp_exception) : M unit :=
  st ← get_state;
  match JS_GetContextOpaque st ctx with
  | Some c =>
      match excpt_ c with
      | None => update_context ctx (fun c => mk_context (clevel_ c) (Some excpt) (classes_ c))
      | Some _ => crash
      end
  | None => crash
  end.

Definition pop_exception (ctx : JSContext) : M (option cpp_exception) :=
  st ← get_state;
  match JS_GetContextOpaque st ctx with
  | Some c =>
      _ ← update_context ctx (fun c => mk_context (clevel_ c) None (classes_ c));
      mret (excpt_ c)
  | None => crash
  end.

(** [value::do_throw], called on the handle [this] with the fetched
    exception value [exval]. *)
Definition do_throw {A} (this exval : value) : M A :=
  st ← get_state;
  if JS_IsError st (val_ this) then
    stack ← get_property exval "stack";
    u ← is_undefined stack;
    w ← as_cstring exval;
    s ← (if negb u then as_cstring stack else mret None);
    throw (value_error (cstring_str w) (cstring_str s))
  else
    match ctx_ this ≫= JS_GetContextOpaque st with
    | Some c =>
        if (1 <? clevel_ c)%Z then throw (throw_exception exval)
        else throw (value_exception exval)
    | None => crash
    end.

(** [value::handle_pending_exception]. *)
Definition handle_pending_exception (this : value) : M unit :=
  ctx ← get_context this;
  excpt ← pop_exception ctx;
  match excpt with
  | Some e => throw e
  | None => mret tt
  end.

(** [value::check_throw]. *)
Definition check_throw (this : value) (check_exceptions : bool) : M unit :=
  match ctx_ this with
  | Some ctx =>
      _ ← (if check_exceptions then handle_pending_exception this else mret tt);
      if JS_IsException (val_ this) then
        ex ← JS_GetException ctx;
        exval ← value_ctor (Some ctx) ex;
        do_throw this exval
      else mret tt
  | None => mret tt
  end.

(** [value::set_property(const char*, value)]. *)
Definition set_property (this : value) (name : string) (val : value) : M bool :=
  ctx ← validate this;
  '(raw, _) ← steal val;
  ret ← JS_SetPropertyStr ctx (val_ this) name raw;
  if (ret <? 0)%Z then
    ex ← JS_GetException ctx;
    exval ← value_ctor (Some ctx) ex;
    do_throw this exval
  else mret (negb (ret =? 0)%Z).

(** *** Call marshaling *)

(** The overloads of [jsvalue_list::new_jsvalue]. *)
Definition new_jsvalue (ctx : JSContext) (a : call_arg) : JSValue :=
  match a with
  | arg_value val => if valid val then val_ val else JS_UNDEFINED
  | arg_cstr str => JS_NewString ctx str
  | arg_string str => JS_STRING str
  | arg_bool val => if val then JS_TRUE else JS_FALSE
  | arg_int32 val => JS_NewInt32 ctx val
  | arg_uint32 val => JS_NewInt32 ctx (static_cast_int32 val)
  end.

(** [context::call_level]: constructor and destructor. *)
Definition call_level_enter (ctx : JSContext) : M unit :=
  _ ← update_context ctx (fun c => mk_context (uint_wrap (clevel_ c + 1)) (excpt_ c) (classes_ c));
  st ← get_state;
  match JS_GetContextOpaque st ctx with
  | Some c => if (clevel_ c =? 0)%Z then crash else mret tt
  | None => crash
  end.

Definition call_level_leave (ctx : JSContext) : M unit :=
  st ← get_state;
  match JS_GetContextOpaque st ctx with
  | Some c =>
      if (0 <? clevel_ c)%Z then
        update_context ctx (fun c => mk_context (uint_wrap (clevel_ c - 1)) (excpt_ c) (classes_ c))
      else crash
  | None => crash
  end.

(** [functions::call_common_args]. *)
Definition call_common_args (func : value) (ctx : JSContext) (thisObj : value)
    (avals : list JSValue) : M value :=
  _ ← call_level_enter ctx;
  scoped (call_level_leave ctx)
    (r ← JS_Call ctx (val_ func) (if valid thisObj then val_ thisObj else JS_UNDEFINED) avals;
     ret ← value_ctor (Some ctx) r;
     _ ← check_throw ret true;
     mret ret).

(** [functions::call_common]: the pack is marshaled in order, then the
    call is made ([~jsvalue_list] only releases references). *)
Definition call_common (func : value) (ctx : JSContext) (thisObj : value)
    (a : list call_arg) : M value :=
  let avals := new_jsvalue ctx <$> a in
  call_common_args func ctx thisObj avals.

(** [functions::call] for an argument pack. *)
Definition functions_call (func : value) (ctx : JSContext) (thisObj : value)
    (a : list call_arg) : M value :=
  call_common func ctx thisObj a.

(** [value::call]. *)
Definition value_call (this thisObj : value) (a : list call_arg) : M value :=
  ctx ← validate this;
  functions_call this ctx thisObj a.

(** [value::operator()]. *)
Definition value_operator_call (this : value) (a : list call_arg) : M value :=
  ctx ← validate this;
  u ← value_undefined (Some ctx);
  functions_call this ctx u a.

(** [value::call_member]. *)
Definition call_member (this : value) (name : string) (a : list call_arg) : M value :=
  _ ← validate this;
  f ← get_property this name;
  value_call f this a.

(** *** Native callables *)

(** Runs the body of a native callable. *)
Fixpoint run_nprog (p : nprog) : M value :=
  match p with
  | NReturn v => mret v
  | NThrow e => throw e
  | NCall func thisObj a k h =>
      fun st =>
        match value_call func thisObj a st with
        | (Ok r, st') => run_nprog (k r) st'
        | (Thrown e, st') => run_nprog (h e) st'
        | (Crash, st') => (Crash, st')
        | (OutOfFuel, st') => (OutOfFuel, st')
        end
  | NException ctx exval k =>
      r ← JS_Throw ctx exval;
      v ← value_ctor (Some ctx) r;
      run_nprog (k v)
  | NPrint line k =>
      _ ← modify (fun st => set_printed (printed_ st ++ [line]) st);
      run_nprog k
  end.

(** [args::args]: a vector of [max N argc] default values, then the two
    loops, the first over the actual arguments and the second padding up
    to [N] ([ctx] is the engine's, never null, so no constructor throws). *)
Definition args_ctor (ctx : JSContext) (N : nat) (this_obj : JSValue)
    (argv : list JSValue) : args :=
  let argc := length argv in
  let vec0 := replicate (if bool_decide (argc < N) then N else argc) value_default in
  let vec1 :=
    foldl (fun vec i => <[i := mk_value (Some ctx) (default JS_UNDEFINED (argv !! i))]> vec)
          vec0 (seq 0 argc) in
  let vec2 :=
    foldl (fun vec i => <[i := mk_value (Some ctx) JS_UNDEFINED]> vec)
          vec1 (seq argc (N - argc)) in
  mk_args vec2 (mk_value (Some ctx) this_obj).

(** [values::convert]: the conversion operator chosen by the declared
    parameter type. *)
Definition convert (p : param_type) (val_ : value) : M param_val :=
  match p with
  | p_value => mret (c_value val_)
  | p_string =>
      b ← is_string val_;
      if b : bool then
        '(ok, r) ← as_string_out val_ "";
        mret (c_string (if ok : bool then r else ""))
      else mret (c_string "")
  | p_int32 => '(ok, r) ← as_int32_out val_; mret (c_int32 (if ok : bool then r else 0%Z))
  | p_uint32 => '(ok, r) ← as_uint32_out val_; mret (c_uint32 (if ok : bool then r else 0%Z))
  | p_int64 => '(ok, r) ← as_int64_out val_; mret (c_int64 (if ok : bool then r else 0%Z))
  | p_bool => '(ok, r) ← as_bool_out val_; mret (c_bool (if ok : bool then r else false))
  end.

(** The pack expansion [values::convert(a[Is])...] over the indices
    [0 .. N-1]. *)
Definition expand_params (f : callable) (a : args) : M (list param_val) :=
  mapM (fun ip : nat * param_type => convert ip.2 (items a !!! ip.1))
       (zip (seq 0 (length (params f))) (params f)).

(** [handle_closure_expand_helper] and
    [handle_closure_expand_with_args_helper]. *)
Definition handle_closure_expand_helper (f : callable) (a : args) : M value :=
  pv ← expand_params f a;
  run_nprog (body f None pv).

Definition handle_closure_expand_with_args_helper (f : callable) (a : args) : M value :=
  pv ← expand_params f a;
  run_nprog (body f (Some a) pv).

(** The two [catch] clauses every handler that the engine calls ends
    with. *)
Definition closure_catch (ctx : JSContext) (e : cpp_exception) : M JSValue :=
  match e with
  | throw_exception v =>
      '(raw, _) ← steal v;
      JS_Throw ctx raw
  | _ =>
      _ ← store_exception ctx e;
      obj ← JS_NewUncatchableError ctx;
      JS_Throw ctx obj
  end.

(** [closures_common::handle_closure_expand]. *)
Definition handle_closure_expand (f : callable) (ctx : JSContext) (this_val : JSValue)
    (argv : list JSValue) : M JSValue :=
  try_catch
    (let a := args_ctor ctx (length (params f)) this_val argv in
     r ← handle_closure_expand_helper f a;
     let ret := value_copy_in (Some ctx) r in
     _ ← check_throw ret true;
     if valid ret then '(raw, _) ← steal ret; mret raw else mret JS_UNDEFINED)
    (closure_catch ctx).

(** [closures_common::handle_closure_expand_with_args]. *)
Definition handle_closure_expand_with_args (f : callable) (ctx : JSContext)
    (this_val : JSValue) (argv : list JSValue) : M JSValue :=
  try_catch
    (let a := args_ctor ctx (length (params f)) this_val argv in
     r ← handle_closure_expand_with_args_helper f a;
     let ret := value_copy_in (Some ctx) r in
     _ ← check_throw ret true;
     if valid ret then '(raw, _) ← steal ret; mret raw else mret JS_UNDEFINED)
    (closure_catch ctx).

(** The [handler] that [closures<FirstArg>::create] installs. *)
Definition closure_handler (f : callable) : JSContext -> JSValue -> list JSValue -> M JSValue :=
  if first_is_args f then handle_closure_expand_with_args f else handle_closure_expand f.

(** *** [class context] (the part that calls into the engine)

    A host [context] is referred to by its [JSContext]; [None] is a
    default-constructed, moved-from or abandoned context. *)

(** [context::validate]. *)
Definition context_validate (c : option JSContext) : M JSContext :=
  match c with
  | Some ctx => mret ctx
  | None => throw invalid_context
  end.

(** [context::get_global_object]. *)
Definition get_global_object (c : option JSContext) : M value :=
  ctx ← context_validate c;
  g ← JS_GetGlobalObject ctx;
  value_ctor (Some ctx) g.

(** [context::call_global]. *)
Definition call_global (c : option JSContext) (name : string) (a : list call_arg) : M value :=
  ctx ← context_validate c;
  g ← get_global_object c;
  f ← get_property g name;
  u ← value_undefined (Some ctx);
  value_operator_call f (arg_value u :: a).

(** [context::get_class_info], through a [context*]. *)
Definition get_class_info (ctx : JSContext) (cid : JSClassID) : M class_info :=
  st ← get_state;
  match JS_GetContextOpaque st ctx with
  | Some c =>
      match classes_ c !! cid with
      | Some info => mret info
      | None => throw (exception "class not registered")
      end
  | None => crash
  end.

(** *** The weak-identity table of [class runtime] *)

(** [runtime::ref_inst_value]: [std::map::insert] keeps an entry that is
    already there; the entry found or made is then [ref]ed. *)
Definition ref_inst_value (inst : void_ptr) (weak_val : JSValue) : M unit :=
  modify (fun st =>
    let tbl := weak_object_refs_ st in
    let tbl' :=
      match tbl !! inst with
      | Some _ => tbl
      | None => <[inst := mk_inst_ref 0 weak_val]> tbl
      end in
    set_weak_object_refs
      (alter (fun r => mk_inst_ref (refs_ r + 1) (weak_val_ r)) inst tbl') st).

(** [runtime::unref_inst_value]; [refs_] is a [size_t]. *)
Definition unref_inst_value (inst : void_ptr) : M unit :=
  st ← get_state;
  match weak_object_refs_ st !! inst with
  | Some r =>
      let n := ((refs_ r + (2 ^ 64 - 1)) mod 2 ^ 64)%N in
      if (n =? 0)%N then modify (set_weak_object_refs (delete inst (weak_object_refs_ st)))
      else modify (set_weak_object_refs
                     (<[inst := mk_inst_ref n (weak_val_ r)]> (weak_object_refs_ st)))
  | None => crash
  end.

(** [runtime::get_inst_value]: [Some ref] when it returns [true]. *)
Definition get_inst_value (ctx : JSContext) (inst : void_ptr) : M (option JSValue) :=
  st ← get_state;
  mret (weak_val_ <$> weak_object_refs_ st !! inst).

(** *** [detail::classes] *)

(** [classes::class_make_object_for_inst]; the opaque payload is the
    heap cell of a [shared_ptr], identified with the instance it holds. *)
Definition class_make_object_for_inst (cdef : class_definition) (ctx : JSContext)
    (inst : void_ptr) : M JSValue :=
  ref ← get_inst_value ctx inst;
  match ref with
  | Some r => mret r
  | None =>
      info ← get_class_info ctx (id cdef);
      pv ← value_ctor (Some ctx) (proto info);
      '(praw, _) ← steal pv;
      o ← JS_NewObjectProtoClass ctx praw (id cdef);
      obj ← value_ctor (Some ctx) o;
      _ ← ref_inst_value inst (val_ obj);
      _ ← JS_SetOpaque (val_ obj) inst;
      '(raw, _) ← steal obj;
      mret raw
  end.

(** [value(JSContext*, const std::shared_ptr<ClassType>&)]. *)
Definition value_of_inst (cdef : class_definition) (ctx : option JSContext)
    (inst : void_ptr) : M value :=
  c ← validate (mk_value ctx (JS_INT 0));
  r ← class_make_object_for_inst cdef c inst;
  let v := mk_value ctx r in
  _ ← check_throw v false;
  mret v.

(** [new ClassType(a)] and [std::make_shared<ClassType>(a)]: the
    constructor runs, then the instance has its address. *)
Definition new_instance (cdef : class_definition) (a : args) : M void_ptr :=
  _ ← run_nprog (construct cdef a);
  st ← get_state;
  _ ← modify (set_next_inst (S (next_inst st)));
  mret (next_inst st).

(** [classes::class_make_inst], both overloads. *)
Definition class_make_inst (cdef : class_definition) (ctx : JSContext)
    (new_target : JSValue) (argv : list JSValue) : M JSValue :=
  target ← value_ctor (Some ctx) new_target;
  proto ← get_property target "prototype";
  if negb (valid proto) then mret JS_EXCEPTION
  else
    pe ← is_exception proto;
    if pe : bool then '(raw, _) ← steal proto; mret raw
    else
      o ← JS_NewObjectProtoClass ctx (val_ proto) (id cdef);
      obj ← value_ctor (Some ctx) o;
      if negb (valid obj) then mret JS_EXCEPTION
      else
        oe ← is_exception obj;
        _ ← (if oe : bool then mret tt
             else
               let a := args_ctor ctx (ctor_argc cdef) (val_ obj) argv in
               raw ← new_instance cdef a;
               _ ← (if shared cdef then ref_inst_value raw (val_ obj) else mret tt);
               JS_SetOpaque (val_ obj) raw);
        '(raw, _) ← steal obj;
        mret raw.

(** [classes::ctor]. *)
Definition classes_ctor (cdef : class_definition) (ctx : JSContext)
    (new_target : JSValue) (argv : list JSValue) : M JSValue :=
  try_catch (class_make_inst cdef ctx new_target argv) (closure_catch ctx).

(** [classes::get_inst]: the raw overload returns the pointer, the shared
    one dereferences it. *)
Definition get_inst (cdef : class_definition) (val : JSValue) : M (option void_ptr) :=
  st ← get_state;
  match JS_GetOpaque st val (id cdef) with
  | Some p => mret (Some p)
  | None => if shared cdef then crash else mret None
  end.

(** [classes::finalizer], both overloads. *)
Definition classes_finalizer (cdef : class_definition) (val : JSValue) : M unit :=
  st ← get_state;
  match JS_GetOpaque st val (id cdef) with
  | Some raw => if shared cdef then unref_inst_value raw else mret tt
  | None => mret tt
  end.

(** The finalizer the engine has for an object: the one its class was
    registered with. *)
Definition object_finalizer (o : JSObject) (val : JSValue) : M unit :=
  st ← get_state;
  match class_of o with
  | JS_CLASS_native cid _ =>
      match class_array st !! cid with
      | Some cdef => classes_finalizer cdef val
      | None => mret tt
      end
  | _ => mret tt
  end.

(** The engine frees an object: the finalizer of its class runs, then
    the object is gone. *)
Definition JS_FreeObject (p : nat) : M unit :=
  st ← get_state;
  match heap st !! p with
  | Some o =>
      _ ← object_finalizer o (JS_OBJECT p);
      modify (fun st => set_heap (delete p (heap st)) (next_obj st) st)
  | None => crash
  end.

(** A C++ exception must not leave a function the engine called. *)
Definition no_escape {A} (m : M A) : M A :=
  fun st =>
    match m st with
    | (Thrown _, st') => (Crash, st')
    | r => r
    end.

Definition JS_CallConstructor (ctx : JSContext) (func_obj : JSValue)
    (argv : list JSValue) : M JSValue :=
  st ← get_state;
  match object_at st func_obj with
  | Some (mk_JSObject (JS_CLASS_C_FUNCTION_ctor cdef) _) =>
      no_escape (classes_ctor cdef ctx func_obj argv)
  | _ => JS_ThrowTypeError ctx "not a constructor"
  end.

(** [context::make_object]: the outcome, and the out parameter [inst] as
    it is when the function is left. *)
Definition make_object (c : option JSContext) (cdef : class_definition)
    (a : list value) (inst : option void_ptr)
    : state -> (outcome value * option void_ptr) * state :=
  fun st =>
    match (ctx ← context_validate c;
           info ← get_class_info ctx (id cdef);
           let av := val_ <$> a in
           r ← JS_CallConstructor ctx (ctor info) av;
           ret ← value_ctor (Some ctx) r;
           _ ← check_throw ret true;
           mret ret) st with
    | (Ok ret, st1) =>
        match (if valid ret then e ← is_exception ret; mret (negb e) else mret false) st1 with
        | (Ok true, st2) =>
            match get_inst cdef (val_ ret) st2 with
            | (Ok i, st3) => ((Ok ret, i), st3)
            | (Thrown e, st3) => ((Thrown e, inst), st3)
            | (Crash, st3) => ((Crash, inst), st3)
            | (OutOfFuel, st3) => ((OutOfFuel, inst), st3)
            end
        | (Ok false, st2) => ((Ok ret, None), st2)
        | (Thrown e, st2) => ((Thrown e, inst), st2)
        | (Crash, st2) => ((Crash, inst), st2)
        | (OutOfFuel, st2) => ((OutOfFuel, inst), st2)
        end
    | (Thrown e, st1) => ((Thrown e, inst), st1)
    | (Crash, st1) => ((Crash, inst), st1)
    | (OutOfFuel, st1) => ((OutOfFuel, inst), st1)
    end.

(** [JS_SetConstructor]. *)
Definition JS_SetConstructor (ctx : JSContext) (func_obj proto : JSValue) : M unit :=
  _ ← JS_SetPropertyStr ctx func_obj "prototype" proto;
  _ ← JS_SetPropertyStr ctx proto "constructor" func_obj;
  mret tt.

(** [context::register_class]; the member table of the class is not
    represented.  [classes_.insert] makes the new [class_info] before it
    looks for the key: when the class is already in [classes_], the new
    entry is dropped, and [~class_info] asserts that its [ctor] was
    cleaned up, which it was not. *)
Definition register_class (c : option JSContext) (cdef : class_definition) : M unit :=
  ctx ← context_validate c;
  _ ← (if decide (id cdef = 0) then crash else mret tt);
  st ← get_state;
  _ ← (match class_array st !! id cdef with
       | Some _ => mret tt
       | None => modify (set_class_array (<[id cdef := cdef]> (class_array st)))
       end);
  po ← JS_NewObject ctx;
  proto ← value_ctor (Some ctx) po;
  co ← new_object (mk_JSObject (JS_CLASS_C_FUNCTION_ctor cdef) ∅);
  ctor ← value_ctor (Some ctx) co;
  ce ← (if valid ctor then is_exception ctor else mret true);
  if ce : bool then throw (exception "failed to create class constructor")
  else
    pd ← value_ctor (Some ctx) (val_ proto);
    '(praw, _) ← steal pd;
    _ ← JS_SetConstructor ctx (val_ ctor) praw;
    g ← get_global_object c;
    _ ← set_property g (name cdef) ctor;
    '(craw, _) ← steal ctor;
    '(praw', _) ← steal proto;
    st' ← get_state;
    match JS_GetContextOpaque st' ctx ≫= (fun c => classes_ c !! id cdef) with
    | Some _ => crash
    | None =>
        update_context ctx (fun c =>
          mk_context (clevel_ c) (excpt_ c)
            (<[id cdef := mk_class_info craw praw']> (classes_ c)))
    end.

(** *** Scripts *)

(** The engine runs script code.  [STry] is the only place where a
    pending exception is looked at, and an uncatchable error passes it by
    (the patch: "an error that javascript cannot catch"); a value handed
    to a [catch] clause is recorded in the ghost [catch_log]. *)
Fixpoint exec_sprog (ctx : JSContext) (s : sprog) : M JSValue :=
  match s with
  | SReturn v => mret v
  | SThrow v => JS_Throw ctx v
  | SCall func this_val argv k =>
      r ← JS_Call ctx func this_val argv;
      if JS_IsException r then mret JS_EXCEPTION else exec_sprog ctx (k r)
  | SGetGlobal name k =>
      g ← JS_GetGlobalObject ctx;
      st ← get_state;
      match object_at st g ≫= (fun o => props o !! name) with
      | Some v => exec_sprog ctx (k v)
      | None => JS_ThrowReferenceError ctx ("'" +:+ name +:+ "' is not defined")
      end
  | STry body handler k =>
      r ← exec_sprog ctx body;
      if JS_IsException r then
        st ← get_state;
        if JS_IsUncatchableError st (current_exception st) then mret JS_EXCEPTION
        else
          ex ← JS_GetException ctx;
          _ ← modify (fun st => set_catch_log (catch_log st ++ [ex]) st);
          r' ← exec_sprog ctx (handler ex);
          if JS_IsException r' then mret JS_EXCEPTION else exec_sprog ctx (k r')
      else exec_sprog ctx (k r)
  end.

(** One call of the engine: a script function runs its code, a C closure
    its handler. *)
Definition JS_Call_body (ctx : JSContext) (func_obj this_val : JSValue)
    (argv : list JSValue) : M JSValue :=
  st ← get_state;
  match object_at st func_obj with
  | Some (mk_JSObject (JS_CLASS_BYTECODE_FUNCTION code) _) =>
      exec_sprog ctx (code this_val argv)
  | Some (mk_JSObject (JS_CLASS_C_CLOSURE f) _) =>
      no_escape (closure_handler f ctx this_val argv)
  | Some (mk_JSObject (JS_CLASS_C_FUNCTION_ctor _) _) =>
      JS_ThrowTypeError ctx "must be called with new"
  | _ => JS_ThrowTypeError ctx "not a function"
  end.

(** [context::eval]: the source text is given as the script it parses
    to. *)
Definition eval (c : option JSContext) (src : sprog) : M value :=
  ctx ← context_validate c;
  r ← exec_sprog ctx src;
  ret ← value_ctor (Some ctx) r;
  _ ← check_throw ret true;
  mret ret.

End Bridge.

(** The engine's [JS_Call]; the fuel bounds the depth of nested calls. *)
Fixpoint JS_Call `{Conversions} (fuel : nat) (ctx : JSContext) (func_obj this_val : JSValue)
    (argv : list JSValue) : M JSValue :=
  match fuel with
  | 0 => fun st => (OutOfFuel, st)
  | S n => JS_Call_body (JS_Call n) ctx func_obj this_val argv
  end.

(** * Properties *)

(** Rewriting with the monad's operations. *)
Lemma bind_Ok {A B} (m : M A) (f : A -> M B) st a st' :
  m st = (Ok a, st') -> (m ≫= f) st = f a st'.
Proof. intros Hm. unfold mbind, M_bind. by rewrite Hm. Qed.

Lemma bind_Thrown {A B} (m : M A) (f : A -> M B) st e st' :
  m st = (Thrown e, st') -> (m ≫= f) st = (Thrown e, st').
Proof. intros Hm. unfold mbind, M_bind. by rewrite Hm. Qed.

Lemma bind_ret {A B} (a : A) (f : A -> M B) st : (mret a ≫= f) st = f a st.
Proof. reflexivity. Qed.

Lemma try_catch_Ok {A} (m : M A) h st a st' :
  m st = (Ok a, st') -> try_catch m h st = (Ok a, st').
Proof. intros Hm. unfold try_catch. by rewrite Hm. Qed.

Lemma try_catch_Thrown {A} (m : M A) h st e st' :
  m st = (Thrown e, st') -> try_catch m h st = h e st'.
Proof. intros Hm. unfold try_catch. by rewrite Hm. Qed.

Ltac munfold :=
  unfold mbind, M_bind, mret, M_ret, throw, crash, get_state, modify,
         throw_value_exception in *.

(** ** Marshaling of [uint32_t] arguments *)

Lemma static_cast_int32_small (u : Z) :
  (0 <= u < 2 ^ 31)%Z -> static_cast_int32 u = u.
Proof.
  intros Hu. unfold static_cast_int32.
  rewrite Z.mod_small by lia. lia.
Qed.

Lemma static_cast_int32_large (u : Z) :
  (2 ^ 31 <= u < 2 ^ 32)%Z -> static_cast_int32 u = (u - 2 ^ 32)%Z.
Proof.
  intros Hu. unfold static_cast_int32.
  replace (u + 2 ^ 31)%Z with ((u - 2 ^ 31) + 1 * 2 ^ 32)%Z by lia.
  rewrite Z.mod_add by lia.
  rewrite Z.mod_small by lia. lia.
Qed.

(** C10: a [uint32_t] argument [u] of a variadic call site is marshaled
    by [new_jsvalue(uint32_t)] as [JS_NewInt32] of its reinterpretation as
    a signed 32-bit integer: below 2^31 the script sees [u], from 2^31 on
    it sees the negative number [u - 2^32]; and a call made with [u]
    ([value::call], [value::operator()]) is the call made with that
    [int32_t]. *)
Theorem C10_uint32_argument_reinterpreted_as_int32 `{Conversions}
    (JS_Call : JSContext -> JSValue -> JSValue -> list JSValue -> M JSValue)
    (ctx : JSContext) (u : Z) (Hu : (0 <= u < 2 ^ 32)%Z) :
  new_jsvalue ctx (arg_uint32 u) = JS_NewInt32 ctx (static_cast_int32 u)
  /\ ((u < 2 ^ 31)%Z -> new_jsvalue ctx (arg_uint32 u) = JS_INT u)
  /\ ((2 ^ 31 <= u)%Z ->
        new_jsvalue ctx (arg_uint32 u) = JS_INT (u - 2 ^ 32)
        /\ (u - 2 ^ 32 < 0)%Z
        /\ new_jsvalue ctx (arg_uint32 u) <> JS_INT u)
  /\ (forall func thisObj rest st,
        value_call JS_Call func thisObj (arg_uint32 u :: rest) st
        = value_call JS_Call func thisObj (arg_int32 (static_cast_int32 u) :: rest) st)
  /\ (forall func rest st,
        value_operator_call JS_Call func (arg_uint32 u :: rest) st
        = value_operator_call JS_Call func (arg_int32 (static_cast_int32 u) :: rest) st).
Proof.
  split; [reflexivity|].
  split.
  { intros Hlt. simpl. unfold JS_NewInt32. by rewrite static_cast_int32_small by lia. }
  split.
  { intros Hge. simpl. unfold JS_NewInt32.
    rewrite static_cast_int32_large by lia.
    split; [done|]. split; [lia|]. intros Heq. injection Heq. lia. }
  split; reflexivity.
Qed.

(** ** [context::call_global] *)

(** C9: [c.call_global(name, a1, ..., an)] on a valid context calls the
    global property [name] through [functions::call_common_args] with the
    receiver [undefined] and with [n + 1] arguments, a leading
    [undefined] before the marshaled [a1 .. an]: the engine call made is
    [JS_Call ctx f JS_UNDEFINED (JS_UNDEFINED :: marshaled)]. *)
Theorem C9_call_global_leading_undefined `{Conversions}
    (JS_Call : JSContext -> JSValue -> JSValue -> list JSValue -> M JSValue)
    (ctx : JSContext) (name : string) (a : list call_arg) (st : state)
    (d : JSContextData) (o : JSObject)
    (Hctx : ctxs st !! ctx = Some d)
    (Hglobal : heap st !! global_obj d = Some o) :
  let f := default JS_UNDEFINED (props o !! name) in
  let avals := JS_UNDEFINED :: (new_jsvalue ctx <$> a) in
  call_global JS_Call (Some ctx) name a st
  = (_ ← call_level_enter ctx;
     scoped (call_level_leave ctx)
       (r ← JS_Call ctx f JS_UNDEFINED avals;
        ret ← value_ctor (Some ctx) r;
        _ ← check_throw ret true;
        mret ret)) st
  /\ call_global JS_Call (Some ctx) name a st
     = call_common_args JS_Call (mk_value (Some ctx) f) ctx
         (mk_value (Some ctx) JS_UNDEFINED) avals st
  /\ length avals = S (length a).
Proof.
  intros f avals.
  assert (Hcall : call_global JS_Call (Some ctx) name a st
     = call_common_args JS_Call (mk_value (Some ctx) f) ctx
         (mk_value (Some ctx) JS_UNDEFINED) avals st).
  { unfold call_global, get_global_object, get_property, context_validate,
      JS_GetGlobalObject, JS_GetPropertyStr, value_undefined, value_ctor,
      value_operator_call, functions_call, call_common, validate.
    munfold. simpl. rewrite Hctx. simpl. rewrite Hglobal. reflexivity. }
  split; [|split].
  - rewrite Hcall. reflexivity.
  - exact Hcall.
  - subst avals. simpl. by rewrite length_fmap.
Qed.

(** ** Methods of an invalid [value] *)

Lemma validate_invalid (v : value) (st : state) :
  valid v = false ->
  validate v st = (Thrown (value_exception_msg "no context"), st).
Proof. unfold valid, validate. by destruct (ctx_ v). Qed.

Lemma validate_valid (v : value) (st : state) (ctx : JSContext) :
  ctx_ v = Some ctx -> validate v st = (Ok ctx, st).
Proof. unfold validate. by intros ->. Qed.

(** C4, as stated, fails: a method of a default-constructed value raises
    [value_exception] with the message "no context", which is neither the
    type [invalid_context] nor its message. *)
Lemma C4_invalid_value_raises_no_context :
  valid value_default = false
  /\ (forall st, is_null value_default st
                 = (Thrown (value_exception_msg "no context"), st))
  /\ value_exception_msg "no context" <> invalid_context
  /\ what_of (value_exception_msg "no context") <> what_of invalid_context.
Proof. repeat split; done. Qed.

(** The outcome "[value_exception] with the message "no context", state
    unchanged". *)
Definition raises_no_context {A} (r : outcome A * state) (st : state) : Prop :=
  r = (Thrown (value_exception_msg "no context"), st).

(** C4, amended: on an invalid value (null [ctx_]) every method that
    starts with [validate()] raises [value_exception] with the message
    "no context" and leaves the state alone: the type predicates, the
    throwing conversions, [as_cstring], [get_context], [get_property],
    [set_property], [steal], [call], [operator()] and [call_member].  The
    non-throwing conversions return [false], [valid()] returns [false],
    [check_throw] does nothing, and passed as a call argument the value
    is marshaled as [undefined]. *)
Theorem C4_invalid_value_methods `{Conversions}
    (JS_Call : JSContext -> JSValue -> JSValue -> list JSValue -> M JSValue)
    (v : value) (st : state) (Hinvalid : valid v = false) :
  (raises_no_context (is_null v st) st
   /\ raises_no_context (is_undefined v st) st
   /\ raises_no_context (is_exception v st) st
   /\ raises_no_context (is_function v st) st
   /\ raises_no_context (is_number v st) st
   /\ raises_no_context (is_object v st) st
   /\ raises_no_context (is_string v st) st
   /\ raises_no_context (is_bool v st) st)
  /\ (raises_no_context (as_bool v st) st
      /\ raises_no_context (as_int32 v st) st
      /\ raises_no_context (as_uint32 v st) st
      /\ raises_no_context (as_int64 v st) st
      /\ raises_no_context (as_string v st) st
      /\ raises_no_context (as_cstring v st) st)
  /\ (raises_no_context (get_context v st) st
      /\ raises_no_context (steal v st) st
      /\ (forall name, raises_no_context (get_property v name st) st)
      /\ (forall name val, raises_no_context (set_property v name val st) st))
  /\ ((forall thisObj a, raises_no_context (value_call JS_Call v thisObj a st) st)
      /\ (forall a, raises_no_context (value_operator_call JS_Call v a st) st)
      /\ (forall name a, raises_no_context (call_member JS_Call v name a st) st))
  /\ (as_bool_out v st = (Ok (false, false), st)
      /\ as_int32_out v st = (Ok (false, 0%Z), st)
      /\ as_uint32_out v st = (Ok (false, 0%Z), st)
      /\ as_int64_out v st = (Ok (false, 0%Z), st)
      /\ (forall val, as_string_out v val st = (Ok (false, val), st)))
  /\ (forall b, check_throw v b st = (Ok tt, st))
  /\ (forall ctx, new_jsvalue ctx (arg_value v) = JS_UNDEFINED)
  /\ what_of (value_exception_msg "no context") = "no context".
Proof.
  pose proof (validate_invalid v st Hinvalid) as Hv.
  assert (Hb : forall B (f : JSContext -> M B),
             raises_no_context ((validate v ≫= f) st) st).
  { intros B f. by apply bind_Thrown. }
  unfold valid in Hinvalid.
  repeat split; intros;
    try (by apply Hb);
    try exact Hv.
  - unfold as_bool_out, valid. by destruct (ctx_ v).
  - unfold as_int32_out, valid. by destruct (ctx_ v).
  - unfold as_uint32_out, valid. by destruct (ctx_ v).
  - unfold as_int64_out, valid. by destruct (ctx_ v).
  - unfold as_string_out, valid. by destruct (ctx_ v).
  - unfold check_throw. by destruct (ctx_ v).
  - simpl. unfold valid. by destruct (ctx_ v).
Qed.

(** ** The argument list of a native closure *)

Lemma foldl_insert_seq_length {A} (g : nat -> A) (n start : nat) (l : list A) :
  length (foldl (fun vec i => <[i := g i]> vec) l (seq start n)) = length l.
Proof.
  revert start l. induction n as [|n IH]; intros start l; simpl; [done|].
  by rewrite IH, length_insert.
Qed.

Lemma foldl_insert_seq_lookup {A} (g : nat -> A) (n start : nat) (l : list A) (j : nat) :
  start + n <= length l ->
  foldl (fun vec i => <[i := g i]> vec) l (seq start n) !! j
  = if bool_decide (start <= j < start + n) then Some (g j) else l !! j.
Proof.
  revert start l. induction n as [|n IH]; intros start l Hlen; simpl.
  - rewrite bool_decide_eq_false_2 by lia. done.
  - rewrite IH by (rewrite length_insert; lia).
    destruct (decide (j = start)) as [->|Hne].
    + rewrite bool_decide_eq_false_2 by lia.
      rewrite bool_decide_eq_true_2 by lia.
      apply list_lookup_insert_eq. lia.
    + rewrite list_lookup_insert_ne by done.
      destruct (decide (S start <= j < S start + n)).
      * rewrite !bool_decide_eq_true_2 by lia. done.
      * rewrite !bool_decide_eq_false_2 by lia. done.
Qed.

Lemma args_ctor_length (ctx : JSContext) (N : nat) (this_obj : JSValue) (argv : list JSValue) :
  length (items (args_ctor ctx N this_obj argv)) = N `max` length argv.
Proof.
  unfold args_ctor. simpl.
  rewrite !foldl_insert_seq_length, length_replicate.
  case_bool_decide; lia.
Qed.

Lemma args_ctor_lookup (ctx : JSContext) (N : nat) (this_obj : JSValue)
    (argv : list JSValue) (i : nat) :
  items (args_ctor ctx N this_obj argv) !! i
  = if bool_decide (i < length argv)
    then Some (mk_value (Some ctx) (default JS_UNDEFINED (argv !! i)))
    else if bool_decide (i < N) then Some (mk_value (Some ctx) JS_UNDEFINED)
    else None.
Proof.
  unfold args_ctor. simpl.
  set (m := if bool_decide (length argv < N) then N else length argv).
  assert (Hm : m = N `max` length argv) by (subst m; case_bool_decide; lia).
  rewrite foldl_insert_seq_lookup
    by (rewrite foldl_insert_seq_length, length_replicate; lia).
  rewrite foldl_insert_seq_lookup by (rewrite length_replicate; lia).
  destruct (decide (i < length argv)) as [Hlt|Hge].
  - rewrite bool_decide_eq_false_2 by lia.
    rewrite !bool_decide_eq_true_2 by lia. done.
  - rewrite (bool_decide_eq_false_2 (i < length argv)) by done.
    rewrite (bool_decide_eq_false_2 (0 <= i < 0 + length argv)) by lia.
    destruct (decide (i < N)) as [HN|HN].
    + rewrite !bool_decide_eq_true_2 by lia. done.
    + rewrite !bool_decide_eq_false_2 by lia.
      apply lookup_replicate_None. lia.
Qed.

(** Every entry of an argument list built by [args::args] is a valid
    value of the engine's context. *)
Lemma args_ctor_entries_valid (ctx : JSContext) (N : nat) (this_obj : JSValue)
    (argv : list JSValue) (i : nat) (x : value) :
  items (args_ctor ctx N this_obj argv) !! i = Some x -> ctx_ x = Some ctx.
Proof.
  rewrite args_ctor_lookup. repeat case_bool_decide; naive_solver.
Qed.

(** A conversion of a valid value reads the state and does not throw. *)
Lemma convert_valid `{Conversions} (p : param_type) (x : value) (st : state) :
  valid x = true -> exists y, convert p x st = (Ok y, st).
Proof.
  unfold valid. intros Hx. destruct (ctx_ x) as [c|] eqn:Hc; [|done].
  destruct p; unfold convert, is_string, as_string_out, as_cstring,
    as_int32_out, as_uint32_out, as_int64_out, as_bool_out, validate, valid;
    munfold; rewrite ?Hc; simpl.
  - eauto.
  - destruct (JS_IsString (val_ x)); simpl; [|eauto].
    destruct (JS_ToCString st (val_ x)); eauto.
  - destruct (JS_ToInt32 st (val_ x)); eauto.
  - destruct (JS_ToUint32 st (val_ x)); eauto.
  - destruct (JS_ToInt64 st (val_ x)); eauto.
  - destruct (JS_ToBool st (val_ x) <? 0)%Z; eauto.
Qed.

Lemma mapM_pure {A B} (g : A -> M B) (l : list A) (st : state) :
  (forall x, x ∈ l -> exists y, g x st = (Ok y, st)) ->
  exists ys, mapM g l st = (Ok ys, st)
             /\ length ys = length l
             /\ forall i x, l !! i = Some x ->
                  exists y, ys !! i = Some y /\ g x st = (Ok y, st).
Proof.
  induction l as [|x l IH]; intros Hl; simpl.
  - exists []. split; [done|]. split; [done|]. intros i x Hx. done.
  - destruct (Hl x) as [y Hy]; [by left|].
    destruct IH as (ys & Hys & Hlen & Hlk); [intros z Hz; apply Hl; by right|].
    exists (y :: ys). split; [|split].
    + rewrite (bind_Ok _ _ _ _ _ Hy). by rewrite (bind_Ok _ _ _ _ _ Hys).
    + simpl. by rewrite Hlen.
    + intros [|i] z Hz; simpl in *.
      * inversion Hz; subst. eauto.
      * by apply Hlk.
Qed.

(** The pack expansion of a closure over an argument list built by
    [args::args] for its arity: one converted entry per declared
    parameter, in order, the state untouched. *)
Lemma expand_params_args_ctor `{Conversions} (f : callable) (ctx : JSContext)
    (this_val : JSValue) (argv : list JSValue) (st : state) :
  let a := args_ctor ctx (length (params f)) this_val argv in
  exists pv, expand_params f a st = (Ok pv, st)
             /\ length pv = length (params f)
             /\ forall i p, params f !! i = Some p ->
                  exists x y, items a !! i = Some x /\ pv !! i = Some y
                              /\ convert p x st = (Ok y, st).
Proof.
  intros a. unfold expand_params.
  set (g := fun ip : nat * param_type => convert ip.2 (items a !!! ip.1)).
  assert (Hin : forall i p, params f !! i = Some p ->
            exists x, items a !! i = Some x /\ valid x = true).
  { intros i p Hp. apply lookup_lt_Some in Hp.
    destruct (items a !! i) as [x|] eqn:Hx.
    - exists x. split; [done|]. unfold valid. subst a.
      by rewrite (args_ctor_entries_valid _ _ _ _ _ _ Hx).
    - apply lookup_ge_None in Hx. subst a. rewrite args_ctor_length in Hx. lia. }
  destruct (mapM_pure g (zip (seq 0 (length (params f))) (params f)) st)
    as (pv & Hpv & Hlen & Hlk).
  { intros [i p] Hip. apply list_elem_of_lookup in Hip as [j Hj].
    apply lookup_zip_with_Some in Hj as (i' & p' & Heq & Hi' & Hp').
    inversion Heq; subst i' p'.
    apply lookup_seq in Hi' as [-> _]. simpl in *.
    destruct (Hin _ _ Hp') as (x & Hx & Hvalid).
    subst g. simpl. rewrite (list_lookup_total_correct _ _ _ Hx).
    by apply convert_valid. }
  exists pv. split; [done|]. split.
  { rewrite Hlen, length_zip_with, length_seq. lia. }
  intros i p Hp.
  destruct (Hin _ _ Hp) as (x & Hx & Hvalid).
  destruct (Hlk i (i, p)) as (y & Hy & Hg).
  { apply lookup_zip_with_Some. exists i, p. split; [done|]. split; [|done].
    apply lookup_seq. split; [done|]. by apply lookup_lt_Some in Hp. }
  exists x, y. split; [done|]. split; [done|].
  subst g. simpl in Hg. by rewrite (list_lookup_total_correct _ _ _ Hx) in Hg.
Qed.

(** What a closure handler does with the value [r] its callable
    returned: the function's [return] statement, inside the [try]. *)
Definition closure_return `{Conversions} (ctx : JSContext) (r : value) : M JSValue :=
  let ret := value_copy_in (Some ctx) r in
  _ ← check_throw ret true;
  if valid ret then '(raw, _) ← steal ret; mret raw else mret JS_UNDEFINED.

Lemma try_catch_bind_Ok {A B C} (m : M A) (a : A) (g : A -> M B) (k : B -> M C)
    (h : cpp_exception -> M C) (st : state) :
  m st = (Ok a, st) ->
  try_catch (r ← (x ← m; g x); k r) h st = try_catch (r ← g a; k r) h st.
Proof.
  intros Hm. unfold try_catch. unfold mbind at 1 3, M_bind.
  by rewrite (bind_Ok _ _ _ _ _ Hm).
Qed.

(** C5: a native closure of declared positional arity [N] called with
    [k] script arguments gets an argument list of length [max N k] whose
    entries below [k] are the arguments and whose entries [k .. N-1] are
    [undefined]; its positional parameters are the conversions of the
    entries [0 .. N-1], exactly [N] of them, so arguments beyond [N] are
    not expanded, while a callable that takes [const args&] is handed
    the whole list.  The handlers the engine calls
    ([handle_closure_expand], [handle_closure_expand_with_args], and
    [closure_handler], which is the one installed for the callable) run
    the callable on exactly these parameters and this list, inside their
    [try], and return what it returns. *)
Theorem C5_args_padded_and_truncated `{Conversions}
    (JS_Call : JSContext -> JSValue -> JSValue -> list JSValue -> M JSValue)
    (f : callable) (ctx : JSContext) (this_val : JSValue) (argv : list JSValue)
    (st : state) :
  let N := length (params f) in
  let k := length argv in
  let a := args_ctor ctx N this_val argv in
  length (items a) = N `max` k
  /\ (forall i x, argv !! i = Some x -> items a !! i = Some (mk_value (Some ctx) x))
  /\ (forall i, k <= i < N -> items a !! i = Some (mk_value (Some ctx) JS_UNDEFINED))
  /\ this_ a = mk_value (Some ctx) this_val
  /\ exists pv,
       expand_params f a st = (Ok pv, st)
       /\ length pv = N
       /\ (forall i p, params f !! i = Some p ->
             exists x y, items a !! i = Some x /\ pv !! i = Some y
                         /\ convert p x st = (Ok y, st))
       /\ handle_closure_expand_helper JS_Call f a st
          = run_nprog JS_Call (body f None pv) st
       /\ handle_closure_expand_with_args_helper JS_Call f a st
          = run_nprog JS_Call (body f (Some a) pv) st
       /\ handle_closure_expand JS_Call f ctx this_val argv st
          = try_catch (r ← run_nprog JS_Call (body f None pv); closure_return ctx r)
              (closure_catch ctx) st
       /\ handle_closure_expand_with_args JS_Call f ctx this_val argv st
          = try_catch (r ← run_nprog JS_Call (body f (Some a) pv); closure_return ctx r)
              (closure_catch ctx) st
       /\ closure_handler JS_Call f ctx this_val argv st
          = try_catch
              (r ← run_nprog JS_Call (body f (if first_is_args f then Some a else None) pv);
               closure_return ctx r)
              (closure_catch ctx) st.
Proof.
  intros N k a. split; [apply args_ctor_length|].
  split.
  { intros i x Hx. subst a. rewrite args_ctor_lookup.
    rewrite bool_decide_eq_true_2 by (by apply lookup_lt_Some in Hx).
    by rewrite Hx. }
  split.
  { intros i Hi. subst a k. rewrite args_ctor_lookup.
    rewrite bool_decide_eq_false_2 by lia.
    by rewrite bool_decide_eq_true_2 by lia. }
  split; [done|].
  destruct (expand_params_args_ctor f ctx this_val argv st) as (pv & Hpv & Hlen & Hlk).
  exists pv. split; [done|]. split; [done|]. split; [done|].
  assert (Hplain : handle_closure_expand JS_Call f ctx this_val argv st
            = try_catch (r ← run_nprog JS_Call (body f None pv); closure_return ctx r)
                (closure_catch ctx) st).
  { unfold handle_closure_expand, handle_closure_expand_helper.
    exact (try_catch_bind_Ok _ pv (fun pv => run_nprog JS_Call (body f None pv))
             (closure_return ctx) _ st Hpv). }
  assert (Hargs : handle_closure_expand_with_args JS_Call f ctx this_val argv st
            = try_catch (r ← run_nprog JS_Call (body f (Some a) pv); closure_return ctx r)
                (closure_catch ctx) st).
  { unfold handle_closure_expand_with_args, handle_closure_expand_with_args_helper.
    exact (try_catch_bind_Ok _ pv (fun pv => run_nprog JS_Call (body f (Some a) pv))
             (closure_return ctx) _ st Hpv). }
  unfold handle_closure_expand_helper, handle_closure_expand_with_args_helper.
  split; [|split; [|split; [done|split; [done|]]]].
  - exact (bind_Ok _ (fun pv => run_nprog JS_Call (body f None pv)) _ _ _ Hpv).
  - exact (bind_Ok _ (fun pv => run_nprog JS_Call (body f (Some a) pv)) _ _ _ Hpv).
  - unfold closure_handler. by destruct (first_is_args f).
Qed.

(** ** The host context behind a [JSContext] *)

(** The state with the host context of [ctx] replaced by [c]. *)
Definition put_context (ctx : JSContext) (c : context) (st : state) : state :=
  set_ctxs (alter (fun d => mk_JSContextData (global_obj d) (Some c)) ctx (ctxs st)) st.

Lemma JS_GetContextOpaque_Some (st : state) (ctx : JSContext) (c : context) :
  JS_GetContextOpaque st ctx = Some c ->
  exists g, ctxs st !! ctx = Some (mk_JSContextData g (Some c)).
Proof.
  unfold JS_GetContextOpaque. intros Hc.
  destruct (ctxs st !! ctx) as [[g o]|] eqn:Hd; simpl in Hc; [|done].
  subst o. by exists g.
Qed.

Lemma update_context_Ok (st : state) (ctx : JSContext) (c : context) (f : context -> context) :
  JS_GetContextOpaque st ctx = Some c ->
  update_context ctx f st = (Ok tt, put_context ctx (f c) st).
Proof.
  intros Hc. apply JS_GetContextOpaque_Some in Hc as [g Hg].
  unfold update_context, put_context. munfold. rewrite Hg. simpl.
  f_equal. f_equal. apply map_eq. intros i.
  destruct (decide (i = ctx)) as [->|Hne].
  - rewrite lookup_insert_eq, lookup_alter_eq, Hg. done.
  - rewrite lookup_insert_ne, lookup_alter_ne by done. done.
Qed.

Lemma JS_GetContextOpaque_put (st : state) (ctx : JSContext) (c c' : context) :
  JS_GetContextOpaque st ctx = Some c ->
  JS_GetContextOpaque (put_context ctx c' st) ctx = Some c'.
Proof.
  intros Hc. apply JS_GetContextOpaque_Some in Hc as [g Hg].
  unfold JS_GetContextOpaque, put_context. simpl.
  rewrite lookup_alter_eq, Hg. done.
Qed.

Lemma JS_GetContextOpaque_put_ne (st : state) (ctx ctx' : JSContext) (c' : context) :
  ctx <> ctx' ->
  JS_GetContextOpaque (put_context ctx c' st) ctx' = JS_GetContextOpaque st ctx'.
Proof.
  intros Hne. unfold JS_GetContextOpaque, put_context. simpl.
  by rewrite lookup_alter_ne.
Qed.

(** [store_exception] on a context without a pending token, and
    [pop_exception]. *)
Lemma store_exception_Ok (st : state) (ctx : JSContext) (c : context) (e : cpp_exception) :
  JS_GetContextOpaque st ctx = Some c -> excpt_ c = None ->
  store_exception ctx e st
  = (Ok tt, put_context ctx (mk_context (clevel_ c) (Some e) (classes_ c)) st).
Proof.
  intros Hc He. unfold store_exception.
  rewrite (bind_Ok get_state _ st st st) by done.
  rewrite Hc, He. by rewrite (update_context_Ok _ _ _ _ Hc).
Qed.

Lemma pop_exception_Ok (st : state) (ctx : JSContext) (c : context) :
  JS_GetContextOpaque st ctx = Some c ->
  pop_exception ctx st
  = (Ok (excpt_ c), put_context ctx (mk_context (clevel_ c) None (classes_ c)) st).
Proof.
  intros Hc. unfold pop_exception.
  rewrite (bind_Ok get_state _ st st st) by done.
  rewrite Hc. by rewrite (bind_Ok _ _ _ _ _ (update_context_Ok _ _ _ _ Hc)).
Qed.

(** [call_level] on a counter that does not overflow. *)
Lemma call_level_enter_Ok (st : state) (ctx : JSContext) (c : context) :
  JS_GetContextOpaque st ctx = Some c ->
  (0 <= clevel_ c < 2 ^ 32 - 1)%Z ->
  call_level_enter ctx st
  = (Ok tt, put_context ctx (mk_context (clevel_ c + 1) (excpt_ c) (classes_ c)) st).
Proof.
  intros Hc Hl. unfold call_level_enter.
  rewrite (bind_Ok _ _ _ _ _ (update_context_Ok _ _ _ _ Hc)).
  unfold uint_wrap. rewrite Z.mod_small by lia.
  set (st' := put_context _ _ _).
  rewrite (bind_Ok get_state _ st' st' st') by done.
  subst st'. rewrite (JS_GetContextOpaque_put _ _ _ _ Hc). simpl.
  destruct (clevel_ c + 1 =? 0)%Z eqn:Hz; [lia|done].
Qed.

Lemma call_level_leave_Ok (st : state) (ctx : JSContext) (c : context) :
  JS_GetContextOpaque st ctx = Some c ->
  (0 < clevel_ c < 2 ^ 32)%Z ->
  call_level_leave ctx st
  = (Ok tt, put_context ctx (mk_context (clevel_ c - 1) (excpt_ c) (classes_ c)) st).
Proof.
  intros Hc Hl. unfold call_level_leave.
  rewrite (bind_Ok get_state _ st st st) by done.
  rewrite Hc. destruct (0 <? clevel_ c)%Z eqn:Hz; [|lia].
  rewrite (update_context_Ok _ _ _ _ Hc).
  unfold uint_wrap. by rewrite Z.mod_small by lia.
Qed.

(** ** The closure boundary *)

Lemma JS_NewUncatchableError_Ok (ctx : JSContext) (st : state) :
  JS_NewUncatchableError ctx st
  = (Ok (JS_OBJECT (next_obj st)),
     set_heap (<[next_obj st := mk_JSObject (JS_CLASS_ERROR true) ∅]>
                 (<[next_obj st := mk_JSObject (JS_CLASS_ERROR false) ∅]> (heap st)))
              (S (next_obj st)) st).
Proof.
  unfold JS_NewUncatchableError, JS_NewError, new_object, JS_SetUncatchableError, object_at.
  munfold. simpl. rewrite lookup_insert_eq. done.
Qed.

(** The state a handler leaves when it forwards the native exception
    [e]: the token is stored on the context and a fresh uncatchable error
    is the engine's pending exception. *)
Definition forwarded (ctx : JSContext) (e : cpp_exception) (c : context) (st : state) : state :=
  let st1 := put_context ctx (mk_context (clevel_ c) (Some e) (classes_ c)) st in
  set_current_exception (JS_OBJECT (next_obj st))
    (set_heap (<[next_obj st := mk_JSObject (JS_CLASS_ERROR true) ∅]>
                 (<[next_obj st := mk_JSObject (JS_CLASS_ERROR false) ∅]> (heap st)))
              (S (next_obj st)) st1).

Lemma closure_catch_forwards (ctx : JSContext) (e : cpp_exception) (c : context) (st : state) :
  is_throw_exception e = false ->
  JS_GetContextOpaque st ctx = Some c -> excpt_ c = None ->
  closure_catch ctx e st = (Ok JS_EXCEPTION, forwarded ctx e c st).
Proof.
  intros He Hc Hn.
  assert (Hgo : (_ ← store_exception ctx e;
                 obj ← JS_NewUncatchableError ctx;
                 JS_Throw ctx obj) st = (Ok JS_EXCEPTION, forwarded ctx e c st)).
  { rewrite (bind_Ok _ _ _ _ _ (store_exception_Ok _ _ _ e Hc Hn)).
    rewrite (bind_Ok _ _ _ _ _ (JS_NewUncatchableError_Ok _ _)).
    reflexivity. }
  destruct e; try done; exact Hgo.
Qed.

Lemma forwarded_uncatchable (ctx : JSContext) (e : cpp_exception) (c : context) (st : state) :
  JS_IsUncatchableError (forwarded ctx e c st) (current_exception (forwarded ctx e c st)) = true.
Proof.
  unfold JS_IsUncatchableError, forwarded, object_at. simpl.
  by rewrite lookup_insert_eq.
Qed.

Lemma forwarded_context (ctx : JSContext) (e : cpp_exception) (c : context) (st : state) :
  JS_GetContextOpaque st ctx = Some c ->
  JS_GetContextOpaque (forwarded ctx e c st) ctx
  = Some (mk_context (clevel_ c) (Some e) (classes_ c)).
Proof. intros Hc. exact (JS_GetContextOpaque_put _ _ _ _ Hc). Qed.

(** A handler that caught [throw_exception(v)] throws [v] into the
    script: an ordinary pending exception, no token. *)
Lemma closure_catch_throws (ctx : JSContext) (v : value) (st : state) :
  valid v = true ->
  closure_catch ctx (throw_exception v) st
  = (Ok JS_EXCEPTION, set_current_exception (val_ v) st).
Proof.
  unfold valid. intros Hv. destruct (ctx_ v) as [c|] eqn:Hc; [|done].
  unfold closure_catch, steal.
  rewrite (bind_Ok _ _ _ _ _
             (bind_Ok _ _ _ _ _ (validate_valid v st c Hc))).
  reflexivity.
Qed.

(** The body of a closure handler up to its [catch] clauses. *)
Definition closure_try (JS_Call : JSContext -> JSValue -> JSValue -> list JSValue -> M JSValue)
    `{Conversions} (f : callable) (ctx : JSContext) (this_val : JSValue)
    (argv : list JSValue) : M value :=
  let a := args_ctor ctx (length (params f)) this_val argv in
  if first_is_args f then handle_closure_expand_with_args_helper JS_Call f a
  else handle_closure_expand_helper JS_Call f a.

Lemma closure_handler_Thrown `{Conversions}
    (JS_Call : JSContext -> JSValue -> JSValue -> list JSValue -> M JSValue)
    (f : callable) (ctx : JSContext) (this_val : JSValue) (argv : list JSValue)
    (st st1 : state) (e : cpp_exception) :
  closure_try JS_Call f ctx this_val argv st = (Thrown e, st1) ->
  closure_handler JS_Call f ctx this_val argv st = closure_catch ctx e st1.
Proof.
  unfold closure_try, closure_handler. intros Hf.
  destruct (first_is_args f);
    unfold handle_closure_expand_with_args, handle_closure_expand;
    apply try_catch_Thrown; by apply bind_Thrown.
Qed.

(** ** Native exceptions that are not meant for the script *)

(** Script code around one call: the call itself, whose continuation is
    arbitrary, inside any nesting of [try/catch] statements with arbitrary
    handlers and continuations. *)
Inductive sctx :=
| CHole (k : JSValue -> sprog)
| CTry (c : sctx) (handler : JSValue -> sprog) (k : JSValue -> sprog).

Fixpoint plug (c : sctx) (func this_val : JSValue) (argv : list JSValue) : sprog :=
  match c with
  | CHole k => SCall func this_val argv k
  | CTry c handler k => STry (plug c func this_val argv) handler k
  end.

(** When the call ends with an uncatchable error pending, so does the
    script, in the same state: no handler and no continuation runs. *)
Lemma exec_plug_uncatchable
    (JS_Call : JSContext -> JSValue -> JSValue -> list JSValue -> M JSValue)
    (c : sctx) (ctx : JSContext) (func this_val : JSValue) (argv : list JSValue)
    (st st2 : state) :
  JS_Call ctx func this_val argv st = (Ok JS_EXCEPTION, st2) ->
  JS_IsUncatchableError st2 (current_exception st2) = true ->
  exec_sprog JS_Call ctx (plug c func this_val argv) st = (Ok JS_EXCEPTION, st2).
Proof.
  intros Hcall Hunc. induction c as [k|c IH handler k]; simpl.
  - by rewrite (bind_Ok _ _ _ _ _ Hcall).
  - rewrite (bind_Ok _ _ _ _ _ IH). simpl.
    rewrite (bind_Ok get_state _ st2 st2 st2) by done.
    by rewrite Hunc.
Qed.

(** The engine call of a C closure whose callable throws a native
    exception other than [throw_exception]. *)
Lemma JS_Call_closure_forwards `{Conversions} (fuel : nat) (ctx : JSContext) (p : nat)
    (f : callable) (ps : gmap string JSValue) (this_val : JSValue) (argv : list JSValue)
    (st st1 : state) (c1 : context) (e : cpp_exception) :
  heap st !! p = Some (mk_JSObject (JS_CLASS_C_CLOSURE f) ps) ->
  closure_try (JS_Call fuel) f ctx this_val argv st = (Thrown e, st1) ->
  is_throw_exception e = false ->
  JS_GetContextOpaque st1 ctx = Some c1 -> excpt_ c1 = None ->
  JS_Call (S fuel) ctx (JS_OBJECT p) this_val argv st
  = (Ok JS_EXCEPTION, forwarded ctx e c1 st1).
Proof.
  intros Hp Hf He Hc Hn. simpl. unfold JS_Call_body.
  rewrite (bind_Ok get_state _ st st st) by done.
  simpl. rewrite Hp. unfold no_escape.
  rewrite (closure_handler_Thrown _ _ _ _ _ _ _ _ Hf).
  by rewrite (closure_catch_forwards _ _ _ _ He Hc Hn).
Qed.

(** At the native boundary: the engine call came back with the marker
    and a token is pending, so [check_throw(true)] rethrows the token. *)
Lemma call_common_args_rethrows
    (JS_Call : JSContext -> JSValue -> JSValue -> list JSValue -> M JSValue)
    `{Conversions} (func thisObj : value) (ctx : JSContext) (avals : list JSValue)
    (st st2 : state) (cx c2 : context) (e : cpp_exception) :
  JS_GetContextOpaque st ctx = Some cx ->
  (0 <= clevel_ cx < 2 ^ 32 - 1)%Z ->
  JS_Call ctx (val_ func) (if valid thisObj then val_ thisObj else JS_UNDEFINED) avals
    (put_context ctx (mk_context (clevel_ cx + 1) (excpt_ cx) (classes_ cx)) st)
  = (Ok JS_EXCEPTION, st2) ->
  JS_GetContextOpaque st2 ctx = Some c2 ->
  excpt_ c2 = Some e ->
  (0 < clevel_ c2 < 2 ^ 32)%Z ->
  call_common_args JS_Call func ctx thisObj avals st
  = (Thrown e,
     put_context ctx (mk_context (clevel_ c2 - 1) None (classes_ c2))
       (put_context ctx (mk_context (clevel_ c2) None (classes_ c2)) st2)).
Proof.
  intros Hcx Hl Hcall Hc2 He Hl2. unfold call_common_args.
  rewrite (bind_Ok _ _ _ _ _ (call_level_enter_Ok _ _ _ Hcx Hl)).
  unfold scoped.
  rewrite (bind_Ok _ _ _ _ _ Hcall).
  rewrite (bind_Ok (value_ctor (Some ctx) JS_EXCEPTION) _ st2
             (mk_value (Some ctx) JS_EXCEPTION) st2) by reflexivity.
  rewrite (bind_Thrown (check_throw (mk_value (Some ctx) JS_EXCEPTION) true) _ st2 e
             (put_context ctx (mk_context (clevel_ c2) None (classes_ c2)) st2)); cycle 1.
  { unfold check_throw. simpl. apply bind_Thrown.
    unfold handle_pending_exception.
    rewrite (bind_Ok (get_context (mk_value (Some ctx) JS_EXCEPTION)) _ st2 ctx st2)
      by reflexivity.
    rewrite (bind_Ok _ _ _ _ _ (pop_exception_Ok _ _ _ Hc2)). by rewrite He. }
  erewrite (bind_Ok (call_level_leave ctx)); cycle 1.
  { apply call_level_leave_Ok; [by eapply JS_GetContextOpaque_put|done]. }
  reflexivity.
Qed.

(** X21: a native callable [f], wrapped as the closure object [p], is
    called by the script function [q] from inside any nesting of
    [try/catch], and [q] is called from native code ([value::call], at
    any call level).  If [f] throws a native exception [e] that is not a
    [throw_exception], then the handler stores [e] as the context's
    pending token and throws an uncatchable error; no [catch] clause of
    the script runs (the ghost log of caught values, and the host log,
    are as [f] left them); and the native call rethrows [e] itself, with
    the token cleared and the call level restored. *)
Theorem X21_native_exception_forwarded_by_call `{Conversions} (fuel : nat) (ctx : JSContext)
    (c : sctx) (q p : nat) (code : JSValue -> list JSValue -> sprog)
    (qs ps : gmap string JSValue) (f : callable) (thisObj : value) (a : list call_arg)
    (this_val : JSValue) (argv : list JSValue) (st st1 : state) (cx c1 : context)
    (e : cpp_exception)
    (Hq : heap st !! q = Some (mk_JSObject (JS_CLASS_BYTECODE_FUNCTION code) qs))
    (Hcode : code (if valid thisObj then val_ thisObj else JS_UNDEFINED)
                  (new_jsvalue ctx <$> a)
             = plug c (JS_OBJECT p) this_val argv)
    (Hp : heap st !! p = Some (mk_JSObject (JS_CLASS_C_CLOSURE f) ps))
    (Hcx : JS_GetContextOpaque st ctx = Some cx)
    (Hlevel : (0 <= clevel_ cx < 2 ^ 32 - 1)%Z)
    (Hthrows : closure_try (JS_Call fuel) f ctx this_val argv
                 (put_context ctx (mk_context (clevel_ cx + 1) (excpt_ cx) (classes_ cx)) st)
               = (Thrown e, st1))
    (Hkind : is_throw_exception e = false)
    (Hc1 : JS_GetContextOpaque st1 ctx = Some c1)
    (Hnone : excpt_ c1 = None)
    (Hbalanced : clevel_ c1 = (clevel_ cx + 1)%Z) :
  let entered := put_context ctx (mk_context (clevel_ cx + 1) (excpt_ cx) (classes_ cx)) st in
  let thrown := forwarded ctx e c1 st1 in
  JS_Call (S fuel) ctx (JS_OBJECT p) this_val argv entered = (Ok JS_EXCEPTION, thrown)
  /\ JS_GetContextOpaque thrown ctx = Some (mk_context (clevel_ c1) (Some e) (classes_ c1))
  /\ JS_IsUncatchableError thrown (current_exception thrown) = true
  /\ exec_sprog (JS_Call (S fuel)) ctx (plug c (JS_OBJECT p) this_val argv) entered
     = (Ok JS_EXCEPTION, thrown)
  /\ exists st',
       value_call (JS_Call (S (S fuel))) (mk_value (Some ctx) (JS_OBJECT q)) thisObj a st
       = (Thrown e, st')
       /\ catch_log st' = catch_log st1
       /\ printed_ st' = printed_ st1
       /\ JS_GetContextOpaque st' ctx = Some (mk_context (clevel_ cx) None (classes_ c1))
       /\ JS_IsUncatchableError st' (current_exception st') = true.
Proof.
  intros entered thrown.
  assert (Hclosure : JS_Call (S fuel) ctx (JS_OBJECT p) this_val argv entered
                     = (Ok JS_EXCEPTION, thrown)).
  { by apply (JS_Call_closure_forwards fuel ctx p f ps this_val argv entered st1 c1 e). }
  assert (Hunc : JS_IsUncatchableError thrown (current_exception thrown) = true)
    by apply forwarded_uncatchable.
  assert (Htoken : JS_GetContextOpaque thrown ctx
                   = Some (mk_context (clevel_ c1) (Some e) (classes_ c1)))
    by (by apply forwarded_context).
  assert (Hscript : exec_sprog (JS_Call (S fuel)) ctx (plug c (JS_OBJECT p) this_val argv)
                      entered = (Ok JS_EXCEPTION, thrown))
    by (by apply exec_plug_uncatchable).
  do 4 (split; [done|]).
  eexists. split.
  { unfold value_call.
    rewrite (bind_Ok (validate (mk_value (Some ctx) (JS_OBJECT q))) _ st ctx st)
      by reflexivity.
    unfold functions_call, call_common.
    apply (call_common_args_rethrows (JS_Call (S (S fuel))) _ thisObj ctx _ st thrown cx
             (mk_context (clevel_ c1) (Some e) (classes_ c1)) e); try done.
    - change (JS_Call_body (JS_Call (S fuel)) ctx (JS_OBJECT q)
                (if valid thisObj then val_ thisObj else JS_UNDEFINED)
                (new_jsvalue ctx <$> a) entered = (Ok JS_EXCEPTION, thrown)).
      unfold JS_Call_body.
      rewrite (bind_Ok get_state _ entered entered entered) by done.
      change (object_at entered (JS_OBJECT q)) with (heap st !! q).
      rewrite Hq, Hcode. exact Hscript.
    - simpl. lia. }
  split; [done|]. split; [done|]. split.
  - simpl clevel_. simpl classes_.
    erewrite JS_GetContextOpaque_put by (by eapply JS_GetContextOpaque_put).
    by replace (clevel_ c1 - 1)%Z with (clevel_ cx) by lia.
  - exact Hunc.
Qed.

(** ** Values thrown for the script *)

(** What [check_throw] does on a handle of the context [ctx]: with
    [check_exceptions] a pending token is taken and rethrown; otherwise,
    when the handle holds the marker, the engine's pending exception is
    fetched and thrown by [do_throw], which tests [JS_IsError] on the
    marker itself, so that the call level alone chooses the exception
    type. *)
Lemma check_throw_run `{Conversions} (ctx : JSContext) (x : JSValue) (b : bool)
    (st : state) (c : context) :
  JS_GetContextOpaque st ctx = Some c ->
  let popped := put_context ctx (mk_context (clevel_ c) None (classes_ c)) st in
  let exval := mk_value (Some ctx) (current_exception st) in
  check_throw (mk_value (Some ctx) x) b st
  = match (if b then excpt_ c else None) with
    | Some e => (Thrown e, popped)
    | None =>
        let st' := if b then popped else st in
        if JS_IsException x then
          (Thrown (if (1 <? clevel_ c)%Z then throw_exception exval
                   else value_exception exval),
           set_current_exception JS_NULL st')
        else (Ok tt, st')
    end.
Proof.
  intros Hc popped exval. unfold check_throw. simpl.
  assert (Hpending :
    (if b then handle_pending_exception (mk_value (Some ctx) x) else mret tt) st
    = match (if b then excpt_ c else None) with
      | Some e => (Thrown e, popped)
      | None => (Ok tt, if b then popped else st)
      end).
  { destruct b; [|done].
    unfold handle_pending_exception.
    rewrite (bind_Ok (get_context (mk_value (Some ctx) x)) _ st ctx st) by reflexivity.
    rewrite (bind_Ok _ _ _ _ _ (pop_exception_Ok _ _ _ Hc)).
    by destruct (excpt_ c). }
  destruct (if b then excpt_ c else None) as [e|] eqn:Htoken.
  { by rewrite (bind_Thrown _ _ _ _ _ Hpending). }
  rewrite (bind_Ok _ _ _ _ _ Hpending).
  set (st' := if b then popped else st).
  destruct (JS_IsException x) eqn:Hx; [|done].
  assert (Hc' : exists c', JS_GetContextOpaque (set_current_exception JS_NULL st') ctx
                           = Some c' /\ clevel_ c' = clevel_ c).
  { subst st'. destruct b.
    - eexists. split; [exact (JS_GetContextOpaque_put _ _ _ _ Hc)|done].
    - exists c. split; [exact Hc|done]. }
  destruct Hc' as (c' & Hc' & Hlevel).
  rewrite (bind_Ok (JS_GetException ctx) _ st' (current_exception st')
             (set_current_exception JS_NULL st')) by reflexivity.
  rewrite (bind_Ok (value_ctor (Some ctx) (current_exception st')) _ _
             (mk_value (Some ctx) (current_exception st'))
             (set_current_exception JS_NULL st')) by reflexivity.
  unfold do_throw.
  rewrite (bind_Ok get_state _ _ (set_current_exception JS_NULL st')
             (set_current_exception JS_NULL st')) by done.
  destruct x; try done.
  change (JS_IsError (set_current_exception JS_NULL st')
            (val_ (mk_value (Some ctx) JS_EXCEPTION))) with false.
  change (ctx_ (mk_value (Some ctx) JS_EXCEPTION)
            ≫= JS_GetContextOpaque (set_current_exception JS_NULL st'))
    with (JS_GetContextOpaque (set_current_exception JS_NULL st') ctx).
  rewrite Hc', Hlevel.
  assert (Hex : current_exception st' = current_exception st)
    by (subst st'; by destruct b).
  rewrite Hex. by destruct (1 <? clevel_ c)%Z.
Qed.

(** [check_throw] on the marker with no token pending. *)
Lemma check_throw_marker `{Conversions} (ctx : JSContext) (b : bool) (st : state)
    (c : context) :
  JS_GetContextOpaque st ctx = Some c ->
  excpt_ c = None ->
  let st' := if b then put_context ctx (mk_context (clevel_ c) None (classes_ c)) st else st in
  let exval := mk_value (Some ctx) (current_exception st) in
  check_throw (mk_value (Some ctx) JS_EXCEPTION) b st
  = (Thrown (if (1 <? clevel_ c)%Z then throw_exception exval else value_exception exval),
     set_current_exception JS_NULL st').
Proof.
  intros Hc Hn st' exval. rewrite (check_throw_run _ _ _ _ _ Hc).
  rewrite Hn. by destruct b.
Qed.

(** At the native boundary: the engine call came back with the marker,
    a thrown value [x] is pending and no token is. *)
Lemma call_common_args_throws_value
    (JS_Call : JSContext -> JSValue -> JSValue -> list JSValue -> M JSValue)
    `{Conversions} (func thisObj : value) (ctx : JSContext) (avals : list JSValue)
    (st st2 : state) (cx c2 : context) :
  JS_GetContextOpaque st ctx = Some cx ->
  (0 <= clevel_ cx < 2 ^ 32 - 1)%Z ->
  JS_Call ctx (val_ func) (if valid thisObj then val_ thisObj else JS_UNDEFINED) avals
    (put_context ctx (mk_context (clevel_ cx + 1) (excpt_ cx) (classes_ cx)) st)
  = (Ok JS_EXCEPTION, st2) ->
  JS_GetContextOpaque st2 ctx = Some c2 ->
  excpt_ c2 = None ->
  (0 < clevel_ c2 < 2 ^ 32)%Z ->
  let exval := mk_value (Some ctx) (current_exception st2) in
  call_common_args JS_Call func ctx thisObj avals st
  = (Thrown (if (1 <? clevel_ c2)%Z then throw_exception exval else value_exception exval),
     put_context ctx (mk_context (clevel_ c2 - 1) None (classes_ c2))
       (set_current_exception JS_NULL
          (put_context ctx (mk_context (clevel_ c2) None (classes_ c2)) st2))).
Proof.
  intros Hcx Hl Hcall Hc2 Hn Hl2 exval. unfold call_common_args.
  rewrite (bind_Ok _ _ _ _ _ (call_level_enter_Ok _ _ _ Hcx Hl)).
  unfold scoped.
  rewrite (bind_Ok _ _ _ _ _ Hcall).
  rewrite (bind_Ok (value_ctor (Some ctx) JS_EXCEPTION) _ st2
             (mk_value (Some ctx) JS_EXCEPTION) st2) by reflexivity.
  rewrite (bind_Thrown _ _ _ _ _ (check_throw_marker ctx true st2 c2 Hc2 Hn)).
  erewrite (bind_Ok (call_level_leave ctx)); cycle 1.
  { apply (call_level_leave_Ok _ ctx (mk_context (clevel_ c2) None (classes_ c2)));
      [|done].
    exact (JS_GetContextOpaque_put _ _ _ _ Hc2). }
  reflexivity.
Qed.

(** The engine call of a C closure whose callable throws
    [throw_exception(v)]. *)
Lemma JS_Call_closure_throws `{Conversions} (fuel : nat) (ctx : JSContext) (p : nat)
    (f : callable) (ps : gmap string JSValue) (this_val : JSValue) (argv : list JSValue)
    (st st1 : state) (v : value) :
  heap st !! p = Some (mk_JSObject (JS_CLASS_C_CLOSURE f) ps) ->
  closure_try (JS_Call fuel) f ctx this_val argv st = (Thrown (throw_exception v), st1) ->
  valid v = true ->
  JS_Call (S fuel) ctx (JS_OBJECT p) this_val argv st
  = (Ok JS_EXCEPTION, set_current_exception (val_ v) st1).
Proof.
  intros Hp Hf Hv. simpl. unfold JS_Call_body.
  rewrite (bind_Ok get_state _ st st st) by done.
  simpl. rewrite Hp. unfold no_escape.
  rewrite (closure_handler_Thrown _ _ _ _ _ _ _ _ Hf).
  by rewrite (closure_catch_throws _ _ _ Hv).
Qed.

(** The script [try { f(...) } catch (ex) { throw ex }] around a call
    that ends with a catchable value pending: the [catch] clause receives
    the value and throws it again. *)
Lemma exec_try_rethrow
    (JS_Call : JSContext -> JSValue -> JSValue -> list JSValue -> M JSValue)
    (ctx : JSContext) (func this_val : JSValue) (argv : list JSValue)
    (k0 k : JSValue -> sprog) (st st1 : state) :
  JS_Call ctx func this_val argv st = (Ok JS_EXCEPTION, st1) ->
  JS_IsUncatchableError st1 (current_exception st1) = false ->
  exec_sprog JS_Call ctx (STry (SCall func this_val argv k0) (fun ex => SThrow ex) k) st
  = (Ok JS_EXCEPTION,
     set_current_exception (current_exception st1)
       (set_catch_log (catch_log st1 ++ [current_exception st1])
          (set_current_exception JS_NULL st1))).
Proof.
  intros Hcall Hplain. simpl.
  rewrite (bind_Ok _ _ st JS_EXCEPTION st1) by (by rewrite (bind_Ok _ _ _ _ _ Hcall)).
  simpl.
  rewrite (bind_Ok get_state _ st1 st1 st1) by done.
  rewrite Hplain. reflexivity.
Qed.

(** C1, amended: a native callable [f] (the closure object [p]) is called
    by the script function [q] inside [try { f(...) } catch (ex) { throw ex }],
    and [q] is called from native code at any call level.  If [f] throws
    [throw_exception(v)] for a valid [v] that is not an uncatchable error,
    then at every call level the handler turns it into an immediate
    catchable engine throw of [v] (no token is stored), the [catch] clause
    of the script receives [v], and the native call that the rethrown
    value reaches raises [throw_exception] carrying [v] when its call
    level is above 1 and [value_exception] carrying [v] when it is 1. *)
Theorem C1_thrown_value_stays_catchable `{Conversions} (fuel : nat) (ctx : JSContext)
    (q p : nat) (code : JSValue -> list JSValue -> sprog)
    (qs ps : gmap string JSValue) (f : callable) (thisObj : value) (a : list call_arg)
    (this_val : JSValue) (argv : list JSValue) (k0 k : JSValue -> sprog)
    (st st1 : state) (cx c1 : context) (v : value)
    (Hq : heap st !! q = Some (mk_JSObject (JS_CLASS_BYTECODE_FUNCTION code) qs))
    (Hcode : code (if valid thisObj then val_ thisObj else JS_UNDEFINED)
                  (new_jsvalue ctx <$> a)
             = STry (SCall (JS_OBJECT p) this_val argv k0) (fun ex => SThrow ex) k)
    (Hp : heap st !! p = Some (mk_JSObject (JS_CLASS_C_CLOSURE f) ps))
    (Hcx : JS_GetContextOpaque st ctx = Some cx)
    (Hlevel : (0 <= clevel_ cx < 2 ^ 32 - 1)%Z)
    (Hthrows : closure_try (JS_Call fuel) f ctx this_val argv
                 (put_context ctx (mk_context (clevel_ cx + 1) (excpt_ cx) (classes_ cx)) st)
               = (Thrown (throw_exception v), st1))
    (Hvalid : valid v = true)
    (Hplain : JS_IsUncatchableError st1 (val_ v) = false)
    (Hc1 : JS_GetContextOpaque st1 ctx = Some c1)
    (Hnone : excpt_ c1 = None)
    (Hbalanced : clevel_ c1 = (clevel_ cx + 1)%Z) :
  let entered := put_context ctx (mk_context (clevel_ cx + 1) (excpt_ cx) (classes_ cx)) st in
  let exval := mk_value (Some ctx) (val_ v) in
  JS_Call (S fuel) ctx (JS_OBJECT p) this_val argv entered
  = (Ok JS_EXCEPTION, set_current_exception (val_ v) st1)
  /\ JS_GetContextOpaque (set_current_exception (val_ v) st1) ctx = Some c1
  /\ (exists st2,
        exec_sprog (JS_Call (S fuel)) ctx
          (STry (SCall (JS_OBJECT p) this_val argv k0) (fun ex => SThrow ex) k) entered
        = (Ok JS_EXCEPTION, st2)
        /\ catch_log st2 = catch_log st1 ++ [val_ v]
        /\ current_exception st2 = val_ v)
  /\ exists st',
       value_call (JS_Call (S (S fuel))) (mk_value (Some ctx) (JS_OBJECT q)) thisObj a st
       = (Thrown (if (1 <? clevel_ cx + 1)%Z then throw_exception exval
                  else value_exception exval), st')
       /\ catch_log st' = catch_log st1 ++ [val_ v]
       /\ JS_GetContextOpaque st' ctx = Some (mk_context (clevel_ cx) None (classes_ c1)).
Proof.
  intros entered exval.
  assert (Hclosure : JS_Call (S fuel) ctx (JS_OBJECT p) this_val argv entered
                     = (Ok JS_EXCEPTION, set_current_exception (val_ v) st1)).
  { by apply (JS_Call_closure_throws fuel ctx p f ps this_val argv entered st1 v). }
  pose proof (exec_try_rethrow (JS_Call (S fuel)) ctx (JS_OBJECT p) this_val argv k0 k
                entered _ Hclosure Hplain) as Hscript.
  set (st2 := set_current_exception (val_ v)
                (set_catch_log (catch_log st1 ++ [val_ v])
                   (set_current_exception JS_NULL (set_current_exception (val_ v) st1)))).
  change (exec_sprog (JS_Call (S fuel)) ctx
            (STry (SCall (JS_OBJECT p) this_val argv k0) (fun ex => SThrow ex) k) entered
          = (Ok JS_EXCEPTION, st2)) in Hscript.
  assert (Hc2 : JS_GetContextOpaque st2 ctx = Some c1) by exact Hc1.
  split; [done|]. split; [done|]. split.
  { exists st2. split; [exact Hscript|]. done. }
  assert (Hcall : JS_Call (S (S fuel)) ctx (val_ (mk_value (Some ctx) (JS_OBJECT q)))
                    (if valid thisObj then val_ thisObj else JS_UNDEFINED)
                    (new_jsvalue ctx <$> a) entered = (Ok JS_EXCEPTION, st2)).
  { change (JS_Call_body (JS_Call (S fuel)) ctx (JS_OBJECT q)
              (if valid thisObj then val_ thisObj else JS_UNDEFINED)
              (new_jsvalue ctx <$> a) entered = (Ok JS_EXCEPTION, st2)).
    unfold JS_Call_body.
    rewrite (bind_Ok get_state _ entered entered entered) by done.
    change (object_at entered (JS_OBJECT q)) with (heap st !! q).
    rewrite Hq, Hcode. exact Hscript. }
  assert (Hl1 : (0 < clevel_ c1 < 2 ^ 32)%Z) by lia.
  pose proof (call_common_args_throws_value (JS_Call (S (S fuel)))
                (mk_value (Some ctx) (JS_OBJECT q)) thisObj ctx (new_jsvalue ctx <$> a)
                st st2 cx c1 Hcx Hlevel Hcall Hc2 Hnone Hl1) as Hboundary.
  eexists. split.
  { unfold value_call.
    rewrite (bind_Ok (validate (mk_value (Some ctx) (JS_OBJECT q))) _ st ctx st)
      by reflexivity.
    unfold functions_call, call_common.
    rewrite <- Hbalanced. exact Hboundary. }
  split; [done|].
  erewrite JS_GetContextOpaque_put; cycle 1.
  { exact (JS_GetContextOpaque_put _ _ _ _ Hc2). }
  by replace (clevel_ c1 - 1)%Z with (clevel_ cx) by lia.
Qed.

(** * Examples

    The examples run on one context, [the_ctx], and with engine
    conversions given on the values that occur in them: primitive values
    and Error objects, whose string is "name: message" (a number is not
    converted to a string there, nor a string to a number). *)

Definition example_conversions : Conversions := {|
  JS_ToCString st v :=
    match v with
    | JS_STRING s => Some s
    | JS_UNDEFINED => Some "undefined"
    | JS_NULL => Some "null"
    | JS_BOOL true => Some "true"
    | JS_BOOL false => Some "false"
    | JS_OBJECT p =>
        match heap st !! p with
        | Some (mk_JSObject (JS_CLASS_ERROR _) ps) =>
            match ps !! "name", ps !! "message" with
            | Some (JS_STRING n), Some (JS_STRING m) => Some (n +:+ ": " +:+ m)
            | _, _ => Some "Error"
            end
        | _ => None
        end
    | JS_INT _ | JS_EXCEPTION => None
    end;
  JS_ToBool st v :=
    match v with
    | JS_BOOL true => 1
    | JS_BOOL false | JS_UNDEFINED | JS_NULL => 0
    | JS_INT i => if (i =? 0)%Z then 0 else 1
    | JS_STRING s => if String.eqb s "" then 0 else 1
    | JS_OBJECT _ => 1
    | JS_EXCEPTION => -1
    end%Z;
  JS_ToInt32 st v :=
    match v with
    | JS_INT i => Some i
    | JS_BOOL true => Some 1%Z
    | JS_BOOL false | JS_UNDEFINED | JS_NULL => Some 0%Z
    | _ => None
    end;
  JS_ToUint32 st v :=
    match v with
    | JS_INT i => Some (i mod 2 ^ 32)%Z
    | JS_BOOL true => Some 1%Z
    | JS_BOOL false | JS_UNDEFINED | JS_NULL => Some 0%Z
    | _ => None
    end;
  JS_ToInt64 st v :=
    match v with
    | JS_INT i => Some i
    | JS_BOOL true => Some 1%Z
    | JS_BOOL false | JS_UNDEFINED | JS_NULL => Some 0%Z
    | _ => None
    end
|}.

#[local] Existing Instance example_conversions.

Definition the_ctx : JSContext := 1.

(** [value(ctx, x)] in [the_ctx]. *)
Definition in_ctx (x : JSValue) : value := mk_value (Some the_ctx) x.

(** A state with the heap [h], whose object [0] is the global object,
    and the host context at call level [level]. *)
Definition example_state (h : gmap nat JSObject) (n : nat) (level : Z) : state :=
  mk_state h n JS_NULL ∅
    {[ the_ctx := mk_JSContextData 0 (Some (mk_context level None ∅)) ]}
    ∅ 0 [] [].

(** *** The test [ThrowExceptionPropagation]

    [call_recursive(l, f, a)] of the test, without its [print] calls
    (the ghost log records what the [catch] clause receives). *)
Definition call_recursive (this_val : JSValue) (argv : list JSValue) : sprog :=
  let l := default JS_UNDEFINED (argv !! 0) in
  let f := default JS_UNDEFINED (argv !! 1) in
  let a := default JS_UNDEFINED (argv !! 2) in
  STry (SGetGlobal "call_recursive" (fun cr => SCall f JS_UNDEFINED [l; cr; a] SReturn))
       (fun ex => SThrow ex)
       SReturn.

(** [t::handler(a, level, func, action)] of the test; [self] is the
    closure object that wraps it (the test wraps [handler] anew at each
    level, here the one object is passed on). *)
Definition handler (self : JSValue) : callable :=
  mk_callable [p_uint32; p_value; p_string] true
    (fun a pv =>
       match a, pv with
       | Some a, [c_uint32 level; c_value func; c_string action] =>
           if (level =? 0)%Z then
             if String.eqb action "throw exception" then
               NThrow (throw_exception (mk_value (ctx_ (this_ a)) (JS_STRING "did throw")))
             else if String.eqb action "return exception value" then
               NException the_ctx (JS_STRING "returned exception") NReturn
             else NReturn (items a !!! 2)
           else
             NCall func (mk_value (ctx_ func) JS_UNDEFINED)
               [arg_uint32 (level - 1); arg_value (mk_value (ctx_ func) self);
                arg_string action]
               NReturn NThrow
       | _, _ => NReturn value_default
       end).

Definition propagation_heap : gmap nat JSObject :=
  <[0 := mk_JSObject JS_CLASS_OBJECT {[ "call_recursive" := JS_OBJECT 1 ]}]>
  (<[1 := mk_JSObject (JS_CLASS_BYTECODE_FUNCTION call_recursive) ∅]>
  (<[2 := mk_JSObject (JS_CLASS_C_CLOSURE (handler (JS_OBJECT 2))) ∅]> ∅)).

Definition propagation_state : state := example_state propagation_heap 3 0.

(** [g_.call_member("call_recursive", 3, f, action)]. *)
Definition propagation_run (action : string) : outcome value * state :=
  call_member (H := example_conversions) (JS_Call (H := example_conversions) 20)
    (in_ctx (JS_OBJECT 0)) "call_recursive"
    [arg_int32 3; arg_value (in_ctx (JS_OBJECT 2)); arg_cstr action]
    propagation_state.

(** The other two cases the test checks: a returned exception value
    surfaces as [value_exception] after every level caught it, and a
    plain return value comes back through all levels. *)
Example propagation_return_exception_value :
  (propagation_run "return exception value").1
  = Thrown (value_exception (in_ctx (JS_STRING "returned exception")))
  /\ catch_log (propagation_run "return exception value").2
     = replicate 4 (JS_STRING "returned exception").
Proof. vm_compute. done. Qed.

Example propagation_stop_recursion :
  (propagation_run "stop recursion").1 = Ok (in_ctx (JS_STRING "stop recursion"))
  /\ catch_log (propagation_run "stop recursion").2 = [].
Proof. vm_compute. done. Qed.

(** C1, as stated, fails on the scenario of the spec and of the test:
    [call_recursive] is entered at levels 3, 2, 1, 0 and the handler
    throws [throw_exception("did throw")] at level 0, four native call
    levels deep.  The [catch] clause of every script frame receives the
    thrown value (four entries in the ghost log), no token is left
    pending, and the outermost caller gets [value_exception]. *)
Lemma C1_intermediate_catch_observes_throw :
  (propagation_run "throw exception").1
  = Thrown (value_exception (in_ctx (JS_STRING "did throw")))
  /\ catch_log (propagation_run "throw exception").2
     = [JS_STRING "did throw"; JS_STRING "did throw";
        JS_STRING "did throw"; JS_STRING "did throw"]
  /\ JS_GetContextOpaque (propagation_run "throw exception").2 the_ctx
     = Some (mk_context 0 None ∅).
Proof. vm_compute. done. Qed.

(** *** A guarded call of a throwing callable

    The script function [guarded] is [try { thrower() } catch (ex) { throw ex }],
    and [thrower e] a native callable that throws [e]. *)
Definition thrower (e : cpp_exception) : callable :=
  mk_callable [] true (fun _ _ => NThrow e).

Definition guarded (this_val : JSValue) (argv : list JSValue) : sprog :=
  STry (SCall (JS_OBJECT 2) JS_UNDEFINED [] SReturn) (fun ex => SThrow ex) SReturn.

Definition guarded_heap (e : cpp_exception) : gmap nat JSObject :=
  <[0 := mk_JSObject JS_CLASS_OBJECT {[ "guarded" := JS_OBJECT 1 ]}]>
  (<[1 := mk_JSObject (JS_CLASS_BYTECODE_FUNCTION guarded) ∅]>
  (<[2 := mk_JSObject (JS_CLASS_C_CLOSURE (thrower e)) ∅]> ∅)).

Definition my_exception : cpp_exception := user_exception 7 "unrecoverable error".

(** X21 at an input: [guarded] is called from native code at call level
    0 and [thrower] throws [my_exception]; the caller gets [my_exception]
    and the [catch] clause has received nothing. *)
Lemma X21_native_exception_forwarded_by_call_witness :
  exists st',
    value_call (H := example_conversions) (JS_Call (H := example_conversions) 2)
      (in_ctx (JS_OBJECT 1)) value_default [] (example_state (guarded_heap my_exception) 3 0)
    = (Thrown my_exception, st')
    /\ catch_log st' = []
    /\ JS_GetContextOpaque st' the_ctx = Some (mk_context 0 None ∅).
Proof.
  destruct (X21_native_exception_forwarded_by_call (H := example_conversions) 0 the_ctx
              (CTry (CHole SReturn) (fun ex => SThrow ex) SReturn) 1 2 guarded ∅ ∅
              (thrower my_exception) value_default [] JS_UNDEFINED []
              (example_state (guarded_heap my_exception) 3 0)
              (put_context the_ctx (mk_context 1 None ∅)
                 (example_state (guarded_heap my_exception) 3 0))
              (mk_context 0 None ∅) (mk_context 1 None ∅) my_exception)
    as (_ & _ & _ & _ & st' & Hrun & Hlog & _ & Hctx & _);
    try (vm_compute; reflexivity).
  { vm_compute. split; [discriminate 1 | reflexivity]. }
  exists st'. split; [exact Hrun|]. split; [exact Hlog|exact Hctx].
Defined.

(** C1 (amended) at an input: [guarded] is called from native code that
    is itself at call level 1, and [thrower] throws
    [throw_exception("thrown")]; the [catch] clause receives the value and
    the native call, at level 2, raises [throw_exception] with it. *)
Lemma C1_thrown_value_stays_catchable_witness :
  exists st',
    value_call (H := example_conversions) (JS_Call (H := example_conversions) 2)
      (in_ctx (JS_OBJECT 1)) value_default []
      (example_state (guarded_heap (throw_exception (in_ctx (JS_STRING "thrown")))) 3 1)
    = (Thrown (throw_exception (in_ctx (JS_STRING "thrown"))), st')
    /\ catch_log st' = [JS_STRING "thrown"]
    /\ JS_GetContextOpaque st' the_ctx = Some (mk_context 1 None ∅).
Proof.
  destruct (C1_thrown_value_stays_catchable (H := example_conversions) 0 the_ctx
              1 2 guarded ∅ ∅
              (thrower (throw_exception (in_ctx (JS_STRING "thrown"))))
              value_default [] JS_UNDEFINED [] SReturn SReturn
              (example_state (guarded_heap (throw_exception (in_ctx (JS_STRING "thrown")))) 3 1)
              (put_context the_ctx (mk_context 2 None ∅)
                 (example_state
                    (guarded_heap (throw_exception (in_ctx (JS_STRING "thrown")))) 3 1))
              (mk_context 1 None ∅) (mk_context 2 None ∅) (in_ctx (JS_STRING "thrown")))
    as (_ & _ & _ & st' & Hrun & Hlog & Hctx);
    try (vm_compute; reflexivity).
  { vm_compute. split; [discriminate 1 | reflexivity]. }
  exists st'. split; [exact Hrun|]. split; [exact Hlog|exact Hctx].
Defined.

(** *** [call_global]

    Two global script functions: [count] returns [arguments.length] and
    [first] returns [arguments[0]]. *)
Definition global_heap : gmap nat JSObject :=
  <[0 := mk_JSObject JS_CLASS_OBJECT
           (<["count" := JS_OBJECT 1]> {[ "first" := JS_OBJECT 2 ]})]>
  (<[1 := mk_JSObject
            (JS_CLASS_BYTECODE_FUNCTION
               (fun _ argv => SReturn (JS_INT (Z.of_nat (length argv))))) ∅]>
  (<[2 := mk_JSObject
            (JS_CLASS_BYTECODE_FUNCTION
               (fun _ argv => SReturn (default JS_NULL (argv !! 0)))) ∅]> ∅)).

(** C9 at an input: [call_global("count", 7)] counts two arguments and
    [call_global("first", 7)] sees [undefined], not [7], as the first. *)
Lemma C9_call_global_leading_undefined_witness :
  (call_global (H := example_conversions) (JS_Call (H := example_conversions) 1)
     (Some the_ctx) "count" [arg_int32 7] (example_state global_heap 3 0)).1
  = Ok (in_ctx (JS_INT 2))
  /\ (call_global (H := example_conversions) (JS_Call (H := example_conversions) 1)
        (Some the_ctx) "first" [arg_int32 7] (example_state global_heap 3 0)).1
     = Ok (in_ctx JS_UNDEFINED).
Proof.
  split.
  - rewrite (proj1 (proj2 (C9_call_global_leading_undefined
               (H := example_conversions) (JS_Call (H := example_conversions) 1)
               the_ctx "count" [arg_int32 7] (example_state global_heap 3 0)
               (mk_JSContextData 0 (Some (mk_context 0 None ∅)))
               (mk_JSObject JS_CLASS_OBJECT
                  (<["count" := JS_OBJECT 1]> {[ "first" := JS_OBJECT 2 ]}))
               ltac:(vm_compute; reflexivity) ltac:(vm_compute; reflexivity)))).
    vm_compute. reflexivity.
  - rewrite (proj1 (proj2 (C9_call_global_leading_undefined
               (H := example_conversions) (JS_Call (H := example_conversions) 1)
               the_ctx "first" [arg_int32 7] (example_state global_heap 3 0)
               (mk_JSContextData 0 (Some (mk_context 0 None ∅)))
               (mk_JSObject JS_CLASS_OBJECT
                  (<["count" := JS_OBJECT 1]> {[ "first" := JS_OBJECT 2 ]}))
               ltac:(vm_compute; reflexivity) ltac:(vm_compute; reflexivity)))).
    vm_compute. reflexivity.
Defined.

(** C10 at an input: [0xFFFFFFFF] is marshaled as [-1] and [0x80000000]
    as [-2147483648]. *)
Lemma C10_uint32_argument_reinterpreted_as_int32_witness :
  new_jsvalue the_ctx (arg_uint32 4294967295) = JS_INT (-1)
  /\ new_jsvalue the_ctx (arg_uint32 2147483648) = JS_INT (-2147483648).
Proof.
  split.
  - exact (proj1 (proj1 (proj2 (proj2
             (C10_uint32_argument_reinterpreted_as_int32 (H := example_conversions)
                (JS_Call (H := example_conversions) 0) the_ctx 4294967295
                ltac:(lia)))) ltac:(lia))).
  - exact (proj1 (proj1 (proj2 (proj2
             (C10_uint32_argument_reinterpreted_as_int32 (H := example_conversions)
                (JS_Call (H := example_conversions) 0) the_ctx 2147483648
                ltac:(lia)))) ltac:(lia))).
Defined.

(** C4 (amended) at an input: the methods of a default-constructed
    value and of a value that was stolen. *)
Lemma C4_invalid_value_methods_witness :
  is_null value_default (example_state global_heap 3 0)
  = (Thrown (value_exception_msg "no context"), example_state global_heap 3 0)
  /\ get_property (mk_value None (JS_INT 0)) "x" (example_state global_heap 3 0)
     = (Thrown (value_exception_msg "no context"), example_state global_heap 3 0).
Proof.
  pose proof (C4_invalid_value_methods (H := example_conversions)
                (JS_Call (H := example_conversions) 0) value_default
                (example_state global_heap 3 0) eq_refl) as Hm.
  split.
  - exact (proj1 (proj1 Hm)).
  - exact (proj1 (proj2 (proj2 (proj1 (proj2 (proj2 Hm))))) "x").
Defined.

(** ** Script errors at the host boundary *)

(** [check_throw] raises [value_error] only by rethrowing a pending
    token that is one: the exception it makes from the engine's pending
    exception is [throw_exception] or [value_exception], also when the
    pending exception is an Error object, because [do_throw] tests
    [JS_IsError] on the handle [check_throw] is called on, which holds
    the marker. *)
Lemma check_throw_value_error_is_token `{Conversions} (this : value) (b : bool)
    (st st' : state) (w s : string) :
  check_throw this b st = (Thrown (value_error w s), st') ->
  match ctx_ this with
  | Some ctx =>
      match JS_GetContextOpaque st ctx with
      | Some c => b = true /\ excpt_ c = Some (value_error w s)
      | None => False
      end
  | None => False
  end.
Proof.
  destruct this as [[ctx|] x]; simpl; [|done].
  destruct (JS_GetContextOpaque st ctx) as [c|] eqn:Hc.
  - rewrite (check_throw_run _ _ _ _ _ Hc).
    destruct b; simpl.
    + destruct (excpt_ c) as [e|].
      * intros Hrun. inversion Hrun; subst. done.
      * destruct (JS_IsException x), (1 <? clevel_ c)%Z; intros Hrun; inversion Hrun.
    + destruct (JS_IsException x), (1 <? clevel_ c)%Z; intros Hrun; inversion Hrun.
  - unfold check_throw. simpl. intros Hrun. destruct b.
    + unfold handle_pending_exception, get_context, pop_exception in Hrun.
      munfold. simpl in Hrun. rewrite Hc in Hrun. done.
    + rewrite (bind_ret tt) in Hrun.
      destruct x; simpl in Hrun; try done.
      unfold JS_GetException, value_ctor, do_throw in Hrun. munfold.
      simpl in Hrun. unfold JS_GetContextOpaque in Hc, Hrun. simpl in Hrun.
      destruct (ctxs st !! ctx) as [[g [c|]]|]; simpl in *; done.
Qed.

(** C7 fails on the code at the test's own input (the test
    [CallGlobalFunction] expects this outcome): [call_global] of a name
    that is not defined makes the engine throw [TypeError: not a function],
    an Error object with a "stack" property, and the host gets
    [value_exception] holding that object, not [value_error]. *)
Lemma C7_type_error_raises_value_exception :
  let r := call_global (H := example_conversions) (JS_Call (H := example_conversions) 1)
             (Some the_ctx) "non_existing" [] (example_state global_heap 3 0) in
  r.1 = Thrown (value_exception (in_ctx (JS_OBJECT 3)))
  /\ JS_IsError r.2 (JS_OBJECT 3) = true
  /\ (as_string (H := example_conversions) (in_ctx (JS_OBJECT 3)) r.2).1
     = Ok "TypeError: not a function"
  /\ (get_property (in_ctx (JS_OBJECT 3)) "stack" r.2).1 = Ok (in_ctx (JS_STRING backtrace))
  /\ (forall w s, r.1 <> Thrown (value_error w s)).
Proof. vm_compute. repeat split; try done. Qed.

(** The same for a script that throws an Error object it holds. *)
Definition error_heap : gmap nat JSObject :=
  <[0 := mk_JSObject JS_CLASS_OBJECT ∅]>
  (<[1 := mk_JSObject (JS_CLASS_ERROR false)
            (<["name" := JS_STRING "Error"]>
             (<["message" := JS_STRING "boom"]> {[ "stack" := JS_STRING backtrace ]}))]> ∅).

Example thrown_error_object_raises_value_exception :
  (eval (H := example_conversions) (JS_Call (H := example_conversions) 1)
     (Some the_ctx) (SThrow (JS_OBJECT 1)) (example_state error_heap 2 0)).1
  = Thrown (value_exception (in_ctx (JS_OBJECT 1))).
Proof. vm_compute. reflexivity. Qed.

(** ** [context::make_object] *)

(** C8, amended: [make_object] on a valid context with the class
    registered, once the constructor call has come back with [r].  A
    pending token is rethrown and a pending engine exception is raised
    as [throw_exception] or [value_exception] (by the call level); in both
    cases nothing is returned and [out_instance] is left as it was.
    Otherwise the object is returned, and [out_instance] receives the
    instance in its opaque slot, or is cleared when the object is an
    Error object. *)
Theorem C8_make_object_out_instance `{Conversions}
    (JS_Call : JSContext -> JSValue -> JSValue -> list JSValue -> M JSValue)
    (ctx : JSContext) (cdef : class_definition) (a : list value)
    (inst : option void_ptr) (st st1 : state) (c c1 : context) (info : class_info)
    (r : JSValue)
    (Hc : JS_GetContextOpaque st ctx = Some c)
    (Hinfo : classes_ c !! id cdef = Some info)
    (Hcall : JS_CallConstructor JS_Call ctx (ctor info) (val_ <$> a) st = (Ok r, st1))
    (Hc1 : JS_GetContextOpaque st1 ctx = Some c1) :
  let popped := put_context ctx (mk_context (clevel_ c1) None (classes_ c1)) st1 in
  let ret := mk_value (Some ctx) r in
  let exval := mk_value (Some ctx) (current_exception st1) in
  make_object JS_Call (Some ctx) cdef a inst st
  = match excpt_ c1 with
    | Some e => ((Thrown e, inst), popped)
    | None =>
        if JS_IsException r then
          ((Thrown (if (1 <? clevel_ c1)%Z then throw_exception exval
                    else value_exception exval), inst),
           set_current_exception JS_NULL popped)
        else if JS_IsError popped r then ((Ok ret, None), popped)
        else
          match JS_GetOpaque popped r (id cdef) with
          | Some p => ((Ok ret, Some p), popped)
          | None => if shared cdef then ((Crash, inst), popped)
                    else ((Ok ret, None), popped)
          end
    end.
Proof.
  intros popped ret exval. unfold make_object. cbv zeta.
  assert (Hprefix :
    (ctx0 ← context_validate (Some ctx);
     info0 ← get_class_info ctx0 (id cdef);
     r0 ← JS_CallConstructor JS_Call ctx0 (ctor info0) (val_ <$> a);
     ret0 ← value_ctor (Some ctx0) r0;
     _ ← check_throw ret0 true;
     mret ret0) st
    = match check_throw ret true st1 with
      | (Ok _, s) => (Ok ret, s)
      | (Thrown e, s) => (Thrown e, s)
      | (Crash, s) => (Crash, s)
      | (OutOfFuel, s) => (OutOfFuel, s)
      end).
  { rewrite (bind_Ok (context_validate (Some ctx)) _ st ctx st) by reflexivity.
    rewrite (bind_Ok (get_class_info ctx (id cdef)) _ st info st); cycle 1.
    { unfold get_class_info.
      rewrite (bind_Ok get_state _ st st st) by done. by rewrite Hc, Hinfo. }
    rewrite (bind_Ok _ _ _ _ _ Hcall).
    rewrite (bind_Ok (value_ctor (Some ctx) r) _ st1 ret st1) by reflexivity.
    unfold mbind at 1, M_bind at 1.
    by destruct (check_throw ret true st1) as [[[]| | |] s]. }
  rewrite Hprefix. subst ret.
  rewrite (check_throw_run _ _ _ _ _ Hc1). cbv zeta.
  fold popped. fold exval.
  destruct (excpt_ c1) as [e|]; [done|].
  destruct (JS_IsException r) eqn:Hr; [done|].
  change ((if valid (mk_value (Some ctx) r)
           then e ← is_exception (mk_value (Some ctx) r); mret (negb e)
           else mret false) popped)
    with (Ok (negb (JS_IsError popped r)), popped).
  cbv iota beta.
  destruct (JS_IsError popped r) eqn:He; simpl negb; cbv iota; [done|].
  unfold get_inst.
  rewrite (bind_Ok get_state _ popped popped popped) by done.
  change (val_ (mk_value (Some ctx) r)) with r.
  destruct (JS_GetOpaque popped r (id cdef)) as [p|]; [done|].
  by destruct (shared cdef).
Qed.

(** *** A native class, as in [example/classes.cpp]

    The constructor of [my_class] throws [my_exception] for the argument
    "fatal" and [throw_exception("the exception")] for "throw". *)
Definition my_class : class_definition :=
  mk_class_definition 1 "my_class" 1 false
    (fun a =>
       match val_ <$> (items a !! 0) with
       | Some (JS_STRING s) =>
           if String.eqb s "fatal" then NThrow my_exception
           else if String.eqb s "throw" then
             NThrow (throw_exception (mk_value (ctx_ (this_ a)) (JS_STRING "the exception")))
           else NReturn value_default
       | _ => NReturn value_default
       end).

(** The state after [ctx.register_class<my_class>()] on a fresh
    context. *)
Definition registered : state :=
  (register_class (Some the_ctx) my_class
     (example_state {[ 0 := mk_JSObject JS_CLASS_OBJECT ∅ ]} 1 0)).2.

Definition registered_context : context :=
  mk_context 0 None {[ id my_class := mk_class_info (JS_OBJECT 2) (JS_OBJECT 1) ]}.

Example register_class_my_class :
  (register_class (Some the_ctx) my_class
     (example_state {[ 0 := mk_JSObject JS_CLASS_OBJECT ∅ ]} 1 0)).1 = Ok tt
  /\ JS_GetContextOpaque registered the_ctx = Some registered_context.
Proof. vm_compute. done. Qed.

(** A second [ctx.register_class<my_class>()] on the same context runs
    into the assertion of [~class_info]. *)
Example register_class_my_class_twice :
  (register_class (Some the_ctx) my_class registered).1 = Crash.
Proof. vm_compute. done. Qed.

(** [ctx.make_object<my_class>({arg}, inst)] with [inst] holding the
    address 99 beforehand. *)
Definition make_my_class (arg : string) : (outcome value * option void_ptr) * state :=
  make_object (JS_Call 1) (Some the_ctx) my_class [in_ctx (JS_STRING arg)] (Some 99) registered.

Example make_object_success :
  (make_my_class "created by make_object").1 = (Ok (in_ctx (JS_OBJECT 3)), Some 0)
  /\ JS_GetOpaque (make_my_class "created by make_object").2 (JS_OBJECT 3) 1 = Some 0.
Proof. vm_compute. done. Qed.

(** C8, as stated, fails: when the constructor throws, [make_object]
    returns no value at all, it raises ([value_exception] for a thrown
    value, the native exception itself otherwise), and [out_instance]
    still holds what it held before the call: it is not cleared. *)
Lemma C8_make_object_raises_and_keeps_out_instance :
  (make_my_class "throw").1
  = (Thrown (value_exception (in_ctx (JS_STRING "the exception"))), Some 99)
  /\ (make_my_class "fatal").1 = (Thrown my_exception, Some 99)
  /\ ((make_my_class "throw").1).2 <> None.
Proof. vm_compute. done. Qed.

(** C8 (amended) at an input: the constructor call comes back with the
    marker and the thrown value pending. *)
Lemma C8_make_object_out_instance_witness :
  (make_my_class "throw").1
  = (Thrown (value_exception (in_ctx (JS_STRING "the exception"))), Some 99).
Proof.
  unfold make_my_class.
  rewrite (C8_make_object_out_instance (JS_Call 1) the_ctx my_class
             [in_ctx (JS_STRING "throw")] (Some 99) registered
             (JS_CallConstructor (JS_Call 1) the_ctx (JS_OBJECT 2) [JS_STRING "throw"]
                registered).2
             registered_context registered_context
             (mk_class_info (JS_OBJECT 2) (JS_OBJECT 1)) JS_EXCEPTION
             ltac:(vm_compute; reflexivity) ltac:(vm_compute; reflexivity)
             ltac:(vm_compute; reflexivity) ltac:(vm_compute; reflexivity)).
  vm_compute. reflexivity.
Defined.

(** * Identity of the wrappers of shared instances *)

(** The class [cid] is registered with the engine as a shared class. *)
Definition shared_class (st : state) (cid : JSClassID) : Prop :=
  exists cd, class_array st !! cid = Some cd /\ shared cd = true.

(** The weak-identity table and the heap agree: an entry of the table
    points to a live wrapper of its instance and counts one reference,
    every live wrapper of a shared class is the one its instance's entry
    points to, addresses from [next_obj] on are free, and a class is
    registered under its own id. *)
Record weak_inv (st : state) : Prop := mk_weak_inv {
  inv_entry : forall inst r,
    weak_object_refs_ st !! inst = Some r ->
    refs_ r = 1%N
    /\ exists p cid ps,
         weak_val_ r = JS_OBJECT p
         /\ heap st !! p = Some (mk_JSObject (JS_CLASS_native cid (Some inst)) ps)
         /\ shared_class st cid;
  inv_wrapper : forall p cid inst ps,
    heap st !! p = Some (mk_JSObject (JS_CLASS_native cid (Some inst)) ps) ->
    shared_class st cid ->
    exists r, weak_object_refs_ st !! inst = Some r /\ weak_val_ r = JS_OBJECT p;
  inv_fresh : forall p, next_obj st <= p -> heap st !! p = None;
  inv_ids : forall cid cd, class_array st !! cid = Some cd -> id cd = cid
}.

(** What the engine and the host do to wrappers: the host asks for the
    wrapper of an instance of a registered shared class, and the engine
    frees an object (running its finalizer) whenever it decides to. *)
Inductive wrapper_step : state -> state -> Prop :=
| step_wrap (cdef : class_definition) (ctx : JSContext) (inst : void_ptr)
    (st st' : state) (v : JSValue) :
    class_array st !! id cdef = Some cdef ->
    shared cdef = true ->
    class_make_object_for_inst cdef ctx inst st = (Ok v, st') ->
    wrapper_step st st'
| step_free (p : nat) (st st' : state) :
    JS_FreeObject p st = (Ok tt, st') ->
    wrapper_step st st'.

(** The state after a new wrapper was made for [inst]. *)
Definition wrapped (cdef : class_definition) (inst : void_ptr) (st : state) : state :=
  let n := next_obj st in
  set_heap (<[n := mk_JSObject (JS_CLASS_native (id cdef) (Some inst)) ∅]>
              (<[n := mk_JSObject (JS_CLASS_native (id cdef) None) ∅]> (heap st)))
           (S n)
    (set_weak_object_refs
       (alter (fun r => mk_inst_ref (refs_ r + 1) (weak_val_ r)) inst
          (<[inst := mk_inst_ref 0 (JS_OBJECT n)]> (weak_object_refs_ st)))
       (set_heap (<[n := mk_JSObject (JS_CLASS_native (id cdef) None) ∅]> (heap st))
                 (S n) st)).

Lemma class_make_object_for_inst_found (cdef : class_definition) (ctx : JSContext)
    (inst : void_ptr) (st : state) (r : inst_ref) :
  weak_object_refs_ st !! inst = Some r ->
  class_make_object_for_inst cdef ctx inst st = (Ok (weak_val_ r), st).
Proof.
  intros Hr. unfold class_make_object_for_inst, get_inst_value. munfold.
  simpl. by rewrite Hr.
Qed.

Lemma class_make_object_for_inst_new (cdef : class_definition) (ctx : JSContext)
    (inst : void_ptr) (st st' : state) (v : JSValue) :
  weak_object_refs_ st !! inst = None ->
  class_make_object_for_inst cdef ctx inst st = (Ok v, st') ->
  v = JS_OBJECT (next_obj st) /\ st' = wrapped cdef inst st.
Proof.
  intros Hr. unfold class_make_object_for_inst, get_inst_value, get_class_info,
    value_ctor, steal, validate, JS_NewObjectProtoClass, new_object, ref_inst_value,
    JS_SetOpaque, object_at.
  munfold. simpl. rewrite Hr. simpl.
  destruct (JS_GetContextOpaque st ctx) as [c|]; [|done].
  destruct (classes_ c !! id cdef) as [info|]; [|done].
  simpl. rewrite Hr. rewrite lookup_insert_eq.
  intros Hrun. inversion Hrun. done.
Qed.

Lemma weak_inv_wrapped (cdef : class_definition) (inst : void_ptr) (st : state) :
  weak_inv st ->
  class_array st !! id cdef = Some cdef -> shared cdef = true ->
  weak_object_refs_ st !! inst = None ->
  weak_inv (wrapped cdef inst st).
Proof.
  intros [Hentry Hwrapper Hfresh Hids] Hreg Hshared Hnone.
  assert (Hn : heap st !! next_obj st = None) by (by apply Hfresh).
  split; unfold wrapped; simpl.
  - intros inst' r. destruct (decide (inst' = inst)) as [->|Hne].
    + rewrite lookup_alter_eq, lookup_insert_eq. simpl.
      intros Hr. inversion Hr; subst r. simpl. split; [done|].
      exists (next_obj st), (id cdef), ∅. split; [done|].
      split; [by rewrite lookup_insert_eq|]. by exists cdef.
    + rewrite lookup_alter_ne, lookup_insert_ne by done.
      intros Hr. destruct (Hentry _ _ Hr) as (Hrefs & p & cid & ps & Hv & Hp & Hsh).
      split; [done|]. exists p, cid, ps. split; [done|]. split; [|done].
      rewrite !lookup_insert_ne; [done| |]; intros <-; by rewrite Hn in Hp.
  - intros p cid inst' ps. destruct (decide (p = next_obj st)) as [->|Hne].
    + rewrite lookup_insert_eq. intros Hp _. inversion Hp; subst.
      exists (mk_inst_ref (0 + 1) (JS_OBJECT (next_obj st))).
      by rewrite lookup_alter_eq, lookup_insert_eq.
    + rewrite !lookup_insert_ne by done. intros Hp Hsh.
      destruct (Hwrapper _ _ _ _ Hp Hsh) as (r & Hr & Hv).
      exists r. split; [|done].
      assert (inst' <> inst) by (intros ->; by rewrite Hnone in Hr).
      by rewrite lookup_alter_ne, lookup_insert_ne.
  - intros p Hp. rewrite !lookup_insert_ne by lia. apply Hfresh. lia.
  - exact Hids.
Qed.

(** The finalizer of a live object, in a state where table and heap
    agree: it leaves the heap and the classes alone, and removes the
    entry of the instance when the object is the wrapper of one. *)
Lemma object_finalizer_run (st st' : state) (p : nat) (o : JSObject) :
  weak_inv st ->
  heap st !! p = Some o ->
  object_finalizer o (JS_OBJECT p) st = (Ok tt, st') ->
  heap st' = heap st /\ next_obj st' = next_obj st /\ class_array st' = class_array st
  /\ ((weak_object_refs_ st' = weak_object_refs_ st
       /\ forall cid inst ps,
            o = mk_JSObject (JS_CLASS_native cid (Some inst)) ps -> ~ shared_class st cid)
      \/ (exists cid inst ps,
            o = mk_JSObject (JS_CLASS_native cid (Some inst)) ps
            /\ shared_class st cid
            /\ weak_object_refs_ st' = delete inst (weak_object_refs_ st))).
Proof.
  intros [Hentry Hwrapper Hfresh Hids] Hp.
  unfold object_finalizer. rewrite (bind_Ok get_state _ st st st) by done.
  assert (Hsame : forall s, (Ok tt, st) = (Ok tt, s) ->
            (forall cid inst ps,
               o = mk_JSObject (JS_CLASS_native cid (Some inst)) ps -> ~ shared_class st cid) ->
            heap s = heap st /\ next_obj s = next_obj st /\ class_array s = class_array st
            /\ ((weak_object_refs_ s = weak_object_refs_ st
                 /\ forall cid inst ps,
                      o = mk_JSObject (JS_CLASS_native cid (Some inst)) ps ->
                      ~ shared_class st cid)
                \/ (exists cid inst ps,
                      o = mk_JSObject (JS_CLASS_native cid (Some inst)) ps
                      /\ shared_class st cid
                      /\ weak_object_refs_ s = delete inst (weak_object_refs_ st)))).
  { intros s Hs Hno. inversion Hs; subst s. repeat split; try done. by left. }
  destruct o as [[| | | | |cid opq] ps]; simpl;
    try (intros Hrun; apply (Hsame _ Hrun); intros ???; discriminate).
  destruct (class_array st !! cid) as [cd|] eqn:Hcd; cycle 1.
  { intros Hrun. apply (Hsame _ Hrun). intros cid' inst ps' Heq (cd & Hcd' & _).
    inversion Heq; subst. by rewrite Hcd in Hcd'. }
  pose proof (Hids _ _ Hcd) as Hid.
  unfold classes_finalizer. rewrite (bind_Ok get_state _ st st st) by done.
  unfold JS_GetOpaque, object_at. rewrite Hp. rewrite Hid.
  destruct (decide (cid = cid)) as [_|]; [|done].
  destruct opq as [inst|]; cycle 1.
  { intros Hrun. apply (Hsame _ Hrun). intros ???; discriminate. }
  destruct (shared cd) eqn:Hsh; cycle 1.
  { intros Hrun. apply (Hsame _ Hrun). intros cid' inst' ps' Heq (cd' & Hcd' & Hsh').
    inversion Heq; subst. rewrite Hcd in Hcd'. inversion Hcd'; subst. congruence. }
  assert (Hshared : shared_class st cid) by (by exists cd).
  destruct (Hwrapper _ _ _ _ Hp Hshared) as (r & Hr & Hv).
  destruct (Hentry _ _ Hr) as (Hrefs & _).
  unfold unref_inst_value. rewrite (bind_Ok get_state _ st st st) by done.
  rewrite Hr, Hrefs. simpl. intros Hrun. inversion Hrun; subst st'. simpl.
  repeat split; try done. right. exists cid, inst, ps. done.
Qed.

Lemma JS_FreeObject_run (p : nat) (st st' : state) :
  weak_inv st ->
  JS_FreeObject p st = (Ok tt, st') ->
  weak_inv st' /\ heap st' = delete p (heap st) /\ class_array st' = class_array st
  /\ next_obj st' = next_obj st.
Proof.
  intros Hinv. unfold JS_FreeObject.
  rewrite (bind_Ok get_state _ st st st) by done.
  destruct (heap st !! p) as [o|] eqn:Hp; [|done].
  destruct (object_finalizer o (JS_OBJECT p) st) as [[[]| | |] sf] eqn:Hf;
    try (rewrite (bind_Thrown _ _ _ _ _ Hf); done);
    try (unfold mbind, M_bind; rewrite Hf; done).
  rewrite (bind_Ok _ _ _ _ _ Hf). intros Hrun. inversion Hrun; subst st'. clear Hrun.
  destruct (object_finalizer_run _ _ _ _ Hinv Hp Hf) as (Hheap & Hnext & Hclasses & Htable).
  destruct Hinv as [Hentry Hwrapper Hfresh Hids].
  assert (Hshared : forall h n cid,
            shared_class (set_heap h n sf) cid <-> shared_class st cid).
  { intros h n cid. unfold shared_class. simpl. by rewrite Hclasses. }
  split; [|simpl; by rewrite Hheap].
  split; simpl; rewrite ?Hheap, ?Hnext, ?Hclasses.
  - intros inst' r Hr.
    assert (Hr' : weak_object_refs_ st !! inst' = Some r).
    { destruct Htable as [[Heq _]|(cid & inst & ps & _ & _ & Heq)];
        rewrite Heq in Hr; [done|].
      by apply lookup_delete_Some in Hr as [_ Hr]. }
    destruct (Hentry _ _ Hr') as (Hrefs & p' & cid' & ps' & Hv & Hp' & Hsh).
    split; [done|]. exists p', cid', ps'. split; [done|]. split; [|by apply Hshared].
    rewrite lookup_delete_ne; [done|]. intros <-.
    rewrite Hp in Hp'. inversion Hp'; subst o.
    destruct Htable as [[_ Hno]|(cid & inst & ps & Ho & _ & Heq)].
    + by apply (Hno _ _ _ eq_refl).
    + inversion Ho; subst. rewrite Heq in Hr. by rewrite lookup_delete_eq in Hr.
  - intros p' cid' inst' ps' Hp' Hsh. apply Hshared in Hsh.
    apply lookup_delete_Some in Hp' as [Hne Hp'].
    destruct (Hwrapper _ _ _ _ Hp' Hsh) as (r & Hr & Hv).
    exists r. split; [|done].
    destruct Htable as [[-> _]|(cid & inst & ps & Ho & Hsh0 & ->)]; [done|].
    subst o. rewrite lookup_delete_ne; [done|]. intros <-.
    destruct (Hwrapper _ _ _ _ Hp Hsh0) as (r0 & Hr0 & Hv0).
    rewrite Hr in Hr0. inversion Hr0; subst r0. rewrite Hv in Hv0. by inversion Hv0.
  - intros q Hq. rewrite lookup_delete_None. right. by apply Hfresh.
  - exact Hids.
Qed.

(** A step keeps the invariant and the registered classes; addresses
    are never handed out twice, so an object that was allocated either
    stays as it is or is freed for good. *)
Definition persists (st st' : state) : Prop :=
  class_array st' = class_array st
  /\ next_obj st <= next_obj st'
  /\ forall p, p < next_obj st -> heap st' !! p = heap st !! p \/ heap st' !! p = None.

Lemma wrapper_step_inv (st st' : state) :
  weak_inv st -> wrapper_step st st' -> weak_inv st' /\ persists st st'.
Proof.
  intros Hinv Hstep. destruct Hstep as [cdef ctx inst st st' v Hreg Hsh Hrun|p st st' Hrun].
  - destruct (weak_object_refs_ st !! inst) as [r|] eqn:Hr.
    + rewrite (class_make_object_for_inst_found _ _ _ _ _ Hr) in Hrun.
      inversion Hrun; subst. split; [done|]. split; [done|]. split; [done|]. by left.
    + destruct (class_make_object_for_inst_new _ _ _ _ _ _ Hr Hrun) as [-> ->].
      split; [by apply weak_inv_wrapped|]. split; [done|].
      split; [unfold wrapped; simpl; lia|].
      intros p Hp. left. unfold wrapped. simpl. by rewrite !lookup_insert_ne by lia.
  - destruct (JS_FreeObject_run _ _ _ Hinv Hrun) as (Hinv' & Hheap & Hclasses & Hnext).
    split; [done|]. split; [done|]. split; [lia|].
    intros q Hq. rewrite Hheap. destruct (decide (q = p)) as [->|Hne].
    + right. by rewrite lookup_delete_eq.
    + left. by rewrite lookup_delete_ne.
Qed.

Lemma wrapper_steps_inv (st st' : state) :
  weak_inv st -> rtc wrapper_step st st' -> weak_inv st' /\ persists st st'.
Proof.
  intros Hinv Hsteps. induction Hsteps as [st|st st1 st2 Hstep Hsteps IH].
  - split; [done|]. split; [done|]. split; [done|]. by left.
  - destruct (wrapper_step_inv _ _ Hinv Hstep) as (Hinv1 & Hc1 & Hn1 & Ho1).
    destruct (IH Hinv1) as (Hinv2 & Hc2 & Hn2 & Ho2).
    split; [done|]. split; [congruence|]. split; [lia|].
    intros p Hp.
    destruct (Ho2 p ltac:(lia)) as [Heq2|Hdead]; [|by right].
    rewrite Heq2. by apply Ho1.
Qed.

Lemma persists_object (st st' : state) (p : nat) (o o' : JSObject) :
  weak_inv st -> persists st st' ->
  heap st !! p = Some o -> heap st' !! p = Some o' -> o' = o.
Proof.
  intros Hinv (_ & _ & Hobj) Hp Hp'.
  assert (Hlt : p < next_obj st).
  { destruct (decide (p < next_obj st)) as [|Hge]; [done|].
    rewrite (inv_fresh _ Hinv) in Hp by lia. done. }
  destruct (Hobj p Hlt) as [Heq|Hdead]; congruence.
Qed.

(** What one request for the wrapper of [inst] establishes. *)
Lemma class_make_object_for_inst_wrapper (cdef : class_definition) (ctx : JSContext)
    (inst : void_ptr) (st st' : state) (v : JSValue) :
  weak_inv st ->
  class_array st !! id cdef = Some cdef -> shared cdef = true ->
  class_make_object_for_inst cdef ctx inst st = (Ok v, st') ->
  weak_inv st' /\ persists st st'
  /\ exists p cid ps,
       v = JS_OBJECT p
       /\ heap st' !! p = Some (mk_JSObject (JS_CLASS_native cid (Some inst)) ps)
       /\ shared_class st' cid.
Proof.
  intros Hinv Hreg Hsh Hrun.
  destruct (wrapper_step_inv st st' Hinv (step_wrap _ _ _ _ _ _ Hreg Hsh Hrun))
    as [Hinv' Hpers].
  split; [done|]. split; [done|].
  destruct (weak_object_refs_ st !! inst) as [r|] eqn:Hr.
  - rewrite (class_make_object_for_inst_found _ _ _ _ _ Hr) in Hrun.
    inversion Hrun; subst.
    destruct (inv_entry _ Hinv _ _ Hr) as (_ & p & cid & ps & Hv & Hp & Hs).
    by exists p, cid, ps.
  - destruct (class_make_object_for_inst_new _ _ _ _ _ _ Hr Hrun) as [-> ->].
    exists (next_obj st), (id cdef), ∅. split; [done|].
    split; [unfold wrapped; simpl; by rewrite lookup_insert_eq|].
    by exists cdef.
Qed.

(** C6: in a state where the weak-identity table and the heap agree, ask
    for the wrapper of the shared instance [inst] and get [v]; let the
    host ask for further wrappers and the engine free objects as they
    please; if [v] is still alive then, asking again for the wrapper of
    [inst] (from any context of the runtime) returns [v] itself and
    allocates nothing, so the two values are strictly equal, while the
    wrapper of any other shared instance is not strictly equal to [v]. *)
Theorem C6_shared_instance_wrapper_identity (cdef : class_definition)
    (ctx ctx' : JSContext) (inst : void_ptr) (st0 st1 st2 : state) (v : JSValue) :
  weak_inv st0 ->
  class_array st0 !! id cdef = Some cdef -> shared cdef = true ->
  class_make_object_for_inst cdef ctx inst st0 = (Ok v, st1) ->
  rtc wrapper_step st1 st2 ->
  is_Some (object_at st2 v) ->
  (exists v2, class_make_object_for_inst cdef ctx' inst st2 = (Ok v2, st2)
              /\ js_strict_eq v v2 = true)
  /\ forall cdef' inst' v' st3,
       class_array st2 !! id cdef' = Some cdef' -> shared cdef' = true ->
       inst' <> inst ->
       class_make_object_for_inst cdef' ctx' inst' st2 = (Ok v', st3) ->
       js_strict_eq v v' = false.
Proof.
  intros Hinv0 Hreg Hsh Hfirst Hsteps [o2 Halive].
  destruct (class_make_object_for_inst_wrapper _ _ _ _ _ _ Hinv0 Hreg Hsh Hfirst)
    as (Hinv1 & _ & p & cid & ps & -> & Hp1 & Hs1).
  destruct (wrapper_steps_inv _ _ Hinv1 Hsteps) as [Hinv2 Hpers].
  simpl in Halive.
  pose proof (persists_object _ _ _ _ _ Hinv1 Hpers Hp1 Halive) as ->.
  assert (Hs2 : shared_class st2 cid).
  { destruct Hpers as [Hc _]. unfold shared_class. by rewrite Hc. }
  destruct (inv_wrapper _ Hinv2 _ _ _ _ Halive Hs2) as (r & Hr & Hv).
  split.
  - exists (JS_OBJECT p).
    rewrite (class_make_object_for_inst_found _ _ _ _ _ Hr), Hv.
    split; [done|]. unfold js_strict_eq. by apply bool_decide_eq_true.
  - intros cdef' inst' v' st3 Hreg' Hsh' Hne Hother.
    destruct (class_make_object_for_inst_wrapper _ _ _ _ _ _ Hinv2 Hreg' Hsh' Hother)
      as (_ & Hpers' & p' & cid' & ps' & -> & Hp' & _).
    unfold js_strict_eq. apply bool_decide_eq_false. intros Heq.
    inversion Heq; subst p'.
    pose proof (persists_object _ _ _ _ _ Hinv2 Hpers' Halive Hp') as Hsame.
    inversion Hsame. congruence.
Qed.

(** The invariant holds when no wrapper was made yet. *)
Definition no_instance (o : JSObject) : bool :=
  match class_of o with
  | JS_CLASS_native _ (Some _) => false
  | _ => true
  end.

Lemma weak_inv_no_wrappers (st : state) :
  weak_object_refs_ st = ∅ ->
  map_Forall (fun p o => p < next_obj st /\ no_instance o = true) (heap st) ->
  map_Forall (fun cid cd => id cd = cid) (class_array st) ->
  weak_inv st.
Proof.
  intros Htable Hheap Hids. split.
  - intros inst r. by rewrite Htable, lookup_empty.
  - intros p cid inst ps Hp _. by destruct (Hheap _ _ Hp) as [_ ?].
  - intros p Hge. destruct (heap st !! p) as [o|] eqn:Hp; [|done].
    destruct (Hheap _ _ Hp) as [? _]. lia.
  - exact Hids.
Qed.

(** *** The shared class of [example/classes.cpp] *)
Definition my_class_shared : class_definition :=
  mk_class_definition 2 "my_class_shared" 1 true (fun a => NReturn value_default).

(** The state after [ctx.register_class<my_class_shared>()] on a fresh
    context. *)
Definition registered_shared : state :=
  (register_class (Some the_ctx) my_class_shared
     (example_state {[ 0 := mk_JSObject JS_CLASS_OBJECT ∅ ]} 1 0)).2.

Example weak_inv_registered_shared : weak_inv registered_shared.
Proof.
  apply weak_inv_no_wrappers.
  - by vm_compute.
  - apply (bool_decide_unpack _). by vm_compute.
  - apply (bool_decide_unpack _). by vm_compute.
Qed.

(** [some_other_instance] and one more instance, by their addresses. *)
Definition some_other_instance : void_ptr := 7.
Definition another_instance : void_ptr := 8.

(** [var o1 = get_other_instance()], then a wrapper for the other
    instance. *)
Definition wrapped_once : state :=
  wrapped my_class_shared some_other_instance registered_shared.
Definition wrapped_twice : state :=
  wrapped my_class_shared another_instance wrapped_once.

(** C6 at an input: [o1 === o2] for two wrappers of
    [some_other_instance], and the wrapper of the other instance is a
    different object. *)
Lemma C6_shared_instance_wrapper_identity_witness :
  (exists v2, class_make_object_for_inst my_class_shared the_ctx some_other_instance
                wrapped_twice = (Ok v2, wrapped_twice)
              /\ js_strict_eq (JS_OBJECT 3) v2 = true)
  /\ js_strict_eq (JS_OBJECT 3) (JS_OBJECT 4) = false.
Proof.
  destruct (C6_shared_instance_wrapper_identity my_class_shared the_ctx the_ctx
              some_other_instance registered_shared wrapped_once wrapped_twice
              (JS_OBJECT 3) weak_inv_registered_shared
              ltac:(vm_compute; reflexivity) ltac:(reflexivity)
              ltac:(vm_compute; reflexivity)
              (rtc_once _ _ (step_wrap my_class_shared the_ctx another_instance
                               wrapped_once wrapped_twice (JS_OBJECT 4)
                               ltac:(vm_compute; reflexivity) ltac:(reflexivity)
                               ltac:(vm_compute; reflexivity)))
              ltac:(vm_compute; eexists; reflexivity)) as [Hsame Hother].
  split; [exact Hsame|].
  apply (Hother my_class_shared another_instance (JS_OBJECT 4) wrapped_twice);
    [vm_compute; reflexivity|reflexivity|discriminate|vm_compute; reflexivity].
Defined.

(** * Lifetime tracking: [value], [context] and [runtime] objects

    The host objects themselves, by their addresses: a [value] object
    holds its [owner_] and its handle, a [context] object its engine
    context, its [owner_] and the intrusive list [values_], and the
    runtime the list [contexts_].  An intrusive list is the list of the
    addresses of its entries, head first. *)
Module Tracker.

Record value_object := mk_value_object {
  v_owner_ : option nat;
  v_handle : value
}.

Record context_object := mk_context_object {
  c_ctx_ : option JSContext;
  c_owner_ : option nat;
  values_ : list nat
}.

(** [engine_contexts] maps a live engine context to its opaque pointer. *)
Record host := mk_host {
  values : gmap nat value_object;
  contexts : gmap nat context_object;
  contexts_ : list nat;
  engine_contexts : gmap JSContext (option nat);
  next_ctx : JSContext
}.

Definition the_runtime : nat := 0.

Definition set_values (f : gmap nat value_object -> gmap nat value_object) (h : host) : host :=
  mk_host (f (values h)) (contexts h) (contexts_ h) (engine_contexts h) (next_ctx h).
Definition set_contexts (f : gmap nat context_object -> gmap nat context_object)
    (h : host) : host :=
  mk_host (values h) (f (contexts h)) (contexts_ h) (engine_contexts h) (next_ctx h).
Definition set_contexts_ (f : list nat -> list nat) (h : host) : host :=
  mk_host (values h) (contexts h) (f (contexts_ h)) (engine_contexts h) (next_ctx h).
Definition set_engine_contexts
    (f : gmap JSContext (option nat) -> gmap JSContext (option nat)) (h : host) : host :=
  mk_host (values h) (contexts h) (contexts_ h) (f (engine_contexts h)) (next_ctx h).

(** [list_entry::unlink] of a value and of a context: the entry leaves
    the list it is linked in. *)
Definition unlink_value (a : nat) (h : host) : host :=
  set_contexts
    (fmap (fun c => mk_context_object (c_ctx_ c) (c_owner_ c)
                      (filter (fun b => b <> a) (values_ c)))) h.

Definition unlink_context (a : nat) (h : host) : host :=
  set_contexts_ (filter (fun b => b <> a)) h.

(** [owner::for_each]: the successor is read before [f] runs, so [f] may
    unlink the entry it is given. *)
Definition for_each (l : list nat) (f : nat -> host -> host) (h : host) : host :=
  foldl (fun h a => f a h) h l.

(** [value::valid] of the value object at [a]. *)
Definition value_valid (h : host) (a : nat) : bool :=
  match values h !! a with
  | Some v => valid (v_handle v)
  | None => false
  end.

(** [context::valid]. *)
Definition context_valid (h : host) (a : nat) : bool :=
  match contexts h !! a with
  | Some c => bool_decide (is_Some (c_owner_ c)) && bool_decide (is_Some (c_ctx_ c))
  | None => false
  end.

(** [value::track]. *)
Definition value_track (a : nat) (h : host) : option host :=
  match values h !! a with
  | Some v =>
      match v_owner_ v, ctx_ (v_handle v) with
      | None, Some j =>
          match engine_contexts h !! j with
          | Some (Some c) =>
              Some (set_contexts
                      (alter (fun co => mk_context_object (c_ctx_ co) (c_owner_ co)
                                          (a :: values_ co)) c)
                      (set_values <[a := mk_value_object (Some c) (v_handle v)]> h))
          | _ => None
          end
      | _, _ => Some h
      end
  | None => None
  end.

(** [value(JSContext*, JSValue)] constructing the object at [a]. *)
Definition value_ctor (a : nat) (ctx : JSContext) (val : JSValue) (h : host) : option host :=
  value_track a (set_values <[a := mk_value_object None (mk_value (Some ctx) val)]> h).

(** [value::abandon]. *)
Definition value_abandon (a : nat) (h : host) : host :=
  match values h !! a with
  | Some v =>
      let h1 := match v_owner_ v with Some _ => unlink_value a h | None => h end in
      set_values <[a := mk_value_object None value_default]> h1
  | None => h
  end.

(** [context::track]. *)
Definition context_track (a : nat) (h : host) : host :=
  match contexts h !! a with
  | Some c =>
      match c_owner_ c, c_ctx_ c with
      | None, Some _ =>
          set_contexts_ (cons a)
            (set_contexts <[a := mk_context_object (c_ctx_ c) (Some the_runtime) (values_ c)]> h)
      | _, _ => h
      end
  | None => h
  end.

(** [context::untrack]. *)
Definition context_untrack (a : nat) (h : host) : host :=
  match contexts h !! a with
  | Some c =>
      match c_owner_ c with
      | Some _ =>
          set_contexts <[a := mk_context_object (c_ctx_ c) None (values_ c)]>
            (unlink_context a h)
      | None => h
      end
  | None => h
  end.

(** [context::track(context& from)]. *)
Definition context_track_from (a from : nat) (h : host) : host :=
  let h1 := context_untrack from h in
  let h2 := context_untrack a h1 in
  match contexts h2 !! a with
  | Some c =>
      match c_ctx_ c with
      | Some _ =>
          set_contexts_ (cons a)
            (set_contexts <[a := mk_context_object (c_ctx_ c) (Some the_runtime) (values_ c)]> h2)
      | None => h2
      end
  | None => h2
  end.

(** [context()], the default constructor, for the object at [a]. *)
Definition context_default (a : nat) (h : host) : host :=
  set_contexts <[a := mk_context_object None None []]> h.

(** [context(runtime* own, JSRuntime* rt)]: [owner_] is set by the
    initializer list before [track] runs. *)
Definition context_ctor (a : nat) (own : nat) (h : host) : host :=
  let j := next_ctx h in
  context_track a
    (mk_host (values h) (<[a := mk_context_object (Some j) (Some own) []]> (contexts h))
       (contexts_ h) (<[j := Some a]> (engine_contexts h)) (S j)).

(** [ctx_ = std::move(from.ctx_)] followed by [JS_SetContextOpaque]: the
    engine context the target held is freed. *)
Definition move_ctx_ (a from : nat) (keep_owner : option nat -> option nat -> option nat)
    (h : host) : host :=
  match contexts h !! a, contexts h !! from with
  | Some c, Some f =>
      let freed := match c_ctx_ c with
                   | Some old => delete old (engine_contexts h)
                   | None => engine_contexts h
                   end in
      let opaque := match c_ctx_ f with
                    | Some j => <[j := Some a]> freed
                    | None => freed
                    end in
      mk_host (values h)
        (<[a := mk_context_object (c_ctx_ f) (keep_owner (c_owner_ c) (c_owner_ f)) (values_ c)]>
           (<[from := mk_context_object None (c_owner_ f) (values_ f)]> (contexts h)))
        (contexts_ h) opaque (next_ctx h)
  | _, _ => h
  end.

(** [context& operator=(context&& from)]. *)
Definition context_move_assign (a from : nat) (h : host) : host :=
  if decide (from = a) then h
  else context_track_from a from (move_ctx_ a from (fun mine _ => mine) h).

(** [context(context&& from)] for the new object at [a]. *)
Definition context_move_ctor (a from : nat) (h : host) : host :=
  context_track_from a from
    (move_ctx_ a from (fun _ theirs => theirs) (context_default a h)).

(** [context::abandon]. *)
Definition context_abandon (a : nat) (h : host) : host :=
  match contexts h !! a with
  | Some c =>
      let h1 := match c_ctx_ c with
                | Some j =>
                    set_engine_contexts (delete j)
                      (set_contexts <[a := mk_context_object None (c_owner_ c) (values_ c)]> h)
                | None => h
                end in
      match c_owner_ c with
      | Some _ =>
          set_contexts (alter (fun c1 => mk_context_object (c_ctx_ c1) None (values_ c1)) a)
            (unlink_context a h1)
      | None => h1
      end
  | None => h
  end.

(** [context::~context], the members' destructors included. *)
Definition context_dtor (a : nat) (h : host) : host :=
  match contexts h !! a with
  | Some c =>
      let h1 := for_each (values_ c) value_abandon h in
      let h2 := context_untrack a h1 in
      let h3 := match c_ctx_ c with
                | Some j => set_engine_contexts (delete j) h2
                | None => h2
                end in
      set_contexts (delete a) h3
  | None => h
  end.

(** [runtime::~runtime]. *)
Definition runtime_dtor (h : host) : host :=
  for_each (contexts_ h) context_abandon h.

(** *** The operations of [value]

    The constructors, assignments and the destructor of [value].  An
    operation that dereferences a null context pointer or runs into an
    assertion has no result. *)

(** A write to [ctx_] and [val_] of the value object at [a]. *)
Definition set_handle (a : nat) (hdl : value) (h : host) : host :=
  set_values (alter (fun v => mk_value_object (v_owner_ v) hdl) a) h.

(** [list_entry::is_linked] of the value object at [a]. *)
Definition is_linked (a : nat) (h : host) : bool :=
  bool_decide (map_Exists (fun _ co => a ∈ values_ co) (contexts h)).

(** [value::value()]. *)
Definition value_default_ctor (a : nat) (h : host) : host :=
  set_values <[a := mk_value_object None value_default]> h.

(** [value::untrack]. *)
Definition value_untrack (a : nat) (h : host) : host :=
  match values h !! a with
  | Some v =>
      match v_owner_ v with
      | Some _ => set_values <[a := mk_value_object None (v_handle v)]> (unlink_value a h)
      | None => h
      end
  | None => h
  end.

(** [value::track(value& from)]. *)
Definition value_track_from (a from : nat) (h : host) : option host :=
  let h1 := value_untrack from h in
  let h2 := value_untrack a h1 in
  match values h2 !! a with
  | Some v =>
      match ctx_ (v_handle v) with
      | Some j =>
          match engine_contexts h2 !! j with
          | Some (Some c) =>
              Some (set_contexts
                      (alter (fun co => mk_context_object (c_ctx_ co) (c_owner_ co)
                                          (a :: values_ co)) c)
                      (set_values <[a := mk_value_object (Some c) (v_handle v)]> h2))
          | _ => None
          end
      | None => Some h2
      end
  | None => None
  end.

(** [value::value(value&& from)] for the new object at [a]. *)
Definition value_move_ctor (a from : nat) (h : host) : option host :=
  match values h !! from with
  | Some f =>
      let h1 := set_values <[a := mk_value_object None (v_handle f)]> h in
      let h2 := set_handle from value_default h1 in
      if valid (v_handle f) then value_track_from a from h2 else Some h2
  | None => None
  end.

(** [value::value(const value& other)] for the new object at [a]. *)
Definition value_copy_ctor (a other : nat) (h : host) : option host :=
  match values h !! other with
  | Some o =>
      let h1 := set_values
                  <[a := mk_value_object None (mk_value (ctx_ (v_handle o)) (JS_INT 0))]> h in
      if valid (v_handle o) then
        h2 ← value_track a h1;
        Some (set_handle a (v_handle o) h2)
      else Some h1
  | None => None
  end.

(** [value& value::operator=(const value& other)]. *)
Definition value_copy_assign (a other : nat) (h : host) : option host :=
  if decide (other = a) then Some h
  else
    match values h !! a, values h !! other with
    | Some v, Some o =>
        let h1 := if valid (v_handle v) then value_untrack a h else h in
        let h2 := set_handle a (mk_value (ctx_ (v_handle o)) (val_ (v_handle v))) h1 in
        if valid (v_handle o) then
          h3 ← value_track a h2;
          Some (set_handle a (v_handle o) h3)
        else Some (set_handle a value_default h2)
    | _, _ => None
    end.

(** [value& value::operator=(value&& from)]: in the branch where the
    target holds nothing, [track()] runs before [ctx_] is assigned. *)
Definition value_move_assign (a from : nat) (h : host) : option host :=
  if decide (from = a) then Some h
  else
    match values h !! a, values h !! from with
    | Some v, Some f =>
        h1 ← (if valid (v_handle v) then
                Some (if valid (v_handle f) then h else value_untrack a h)
              else if valid (v_handle f) then value_track a h
              else Some h);
        let h2 := set_handle from value_default (set_handle a (v_handle f) h1) in
        Some (if valid (v_handle f) then value_untrack from h2 else h2)
    | _, _ => None
    end.

(** [value::steal] on a valid value: the list links stay. *)
Definition value_steal (a : nat) (h : host) : host :=
  if value_valid h a then set_handle a value_default h else h.

(** [value::~value], and [~list_entry] with its assertion. *)
Definition value_dtor (a : nat) (h : host) : option host :=
  let h1 := value_untrack a h in
  if is_linked a h1 then None else Some (set_values (delete a) h1).

(** *** The fixture of the tests

    [rt_], [ctx_] (at address 10) and [g_] (at address 20) as the
    fixture's [SetUp] leaves them: [ctx_ = rt_.new_context()] moves from
    a temporary (at address 11) into the default-constructed [ctx_], and
    [g_ = ctx_.get_global_object()] moves from a temporary (at address
    21) into the default-constructed [g_]. *)
Definition fixture_context : host :=
  context_dtor 11
    (context_move_assign 10 11
       (context_ctor 11 the_runtime (context_default 10 (mk_host ∅ ∅ [] ∅ 1)))).

Definition fixture : option host :=
  h1 ← value_ctor 21 1 (JS_OBJECT 0) (value_default_ctor 20 fixture_context);
  h2 ← value_move_assign 20 21 h1;
  value_dtor 21 h2.

(** [quickjs::context ctx = rt.new_context();] of the examples, the
    returned object constructed in place, and a value made through it. *)
Definition in_place : option host :=
  value_ctor 20 1 (JS_OBJECT 0) (context_ctor 10 the_runtime (mk_host ∅ ∅ [] ∅ 1)).




(** A value made through a live context is linked in the list of the
    context object the engine context points to. *)
Lemma value_ctor_linked (a c : nat) (ctx : JSContext) (val : JSValue)
    (co : context_object) (h : host) :
  engine_contexts h !! ctx = Some (Some c) -> contexts h !! c = Some co ->
  exists h' co', value_ctor a ctx val h = Some h'
                 /\ contexts h' !! c = Some co' /\ a ∈ values_ co'
                 /\ value_valid h' a = true.
Proof.
  intros Hctx Hc. unfold value_ctor, value_track. simpl.
  rewrite lookup_insert_eq. simpl. rewrite Hctx.
  eexists _, _. split; [done|]. simpl.
  rewrite lookup_alter_eq, Hc. simpl. split; [done|]. split; [by left|].
  unfold value_valid. simpl. by rewrite lookup_insert_eq.
Qed.

Lemma context_abandon_values (a : nat) (h : host) :
  values (context_abandon a h) = values h.
Proof.
  unfold context_abandon. destruct (contexts h !! a) as [c|]; [|done].
  by destruct (c_ctx_ c), (c_owner_ c).
Qed.

Lemma runtime_dtor_values (h : host) : values (runtime_dtor h) = values h.
Proof.
  unfold runtime_dtor, for_each. generalize (contexts_ h). intros l.
  revert h. induction l as [|a l IH]; intros h; [done|].
  simpl. by rewrite IH, context_abandon_values.
Qed.

(** C3 fails on the code for the runtime: [~runtime] abandons the
    contexts linked in [contexts_] and never touches a value, so the
    validity of every value object is what it was before; in the
    fixture of the tests, [g_] still reports [valid()] after the runtime
    is gone while its context is invalid and its engine context freed,
    and a context constructed in place was never linked, so it stays
    valid as well. *)
Theorem C3_runtime_destruction_keeps_values_valid :
  (forall h a, value_valid (runtime_dtor h) a = value_valid h a)
  /\ (exists h, fixture = Some h
        /\ value_valid (runtime_dtor h) 20 = true
        /\ context_valid (runtime_dtor h) 10 = false
        /\ engine_contexts (runtime_dtor h) !! 1 = None)
  /\ (exists h, in_place = Some h
        /\ value_valid (runtime_dtor h) 20 = true
        /\ context_valid (runtime_dtor h) 10 = true).
Proof.
  split; [|split].
  - intros h a. unfold value_valid. by rewrite runtime_dtor_values.
  - eexists. split; [by vm_compute|]. by vm_compute.
  - eexists. split; [by vm_compute|]. by vm_compute.
Qed.

(** Destroying a context at the fixture and in place: [g_], which was
    move-assigned into a default-constructed value, is in no list and
    stays valid when [ctx_] is destroyed; a value constructed in place is
    in the list of its context and is invalidated. *)
Example fixture_context_destroyed :
  (exists h, fixture = Some h
             /\ value_valid h 20 = true
             /\ value_valid (context_dtor 10 h) 20 = true)
  /\ (exists h, in_place = Some h
                /\ value_valid h 20 = true
                /\ value_valid (context_dtor 10 h) 20 = false).
Proof.
  split; eexists; (split; [by vm_compute|]); by vm_compute.
Qed.

End Tracker.

(** * Further properties of the binding layer *)

(** ** The pending exception token *)

Lemma put_context_twice (ctx : JSContext) (c c' : context) (st : state) :
  put_context ctx c' (put_context ctx c st) = put_context ctx c' st.
Proof.
  unfold put_context, set_ctxs. simpl. f_equal.
  apply map_eq. intros i. destruct (decide (i = ctx)) as [->|Hne].
  - rewrite !lookup_alter_eq. by destruct (ctxs st !! ctx).
  - by rewrite !lookup_alter_ne.
Qed.

(** X1: [store_exception] followed by [pop_exception] hands back the
    stored exception and empties the slot, so that a second
    [pop_exception] finds nothing and the context is as it was; storing
    while a token is pending runs into the assertion of
    [store_exception]. *)
Theorem X1_exception_token_round_trip (ctx : JSContext) (e : cpp_exception)
    (c : context) (st : state) :
  JS_GetContextOpaque st ctx = Some c ->
  match excpt_ c with
  | None =>
      (_ ← store_exception ctx e;
       first ← pop_exception ctx;
       second ← pop_exception ctx;
       mret (first, second)) st
      = (Ok (Some e, None), put_context ctx c st)
  | Some _ => store_exception ctx e st = (Crash, st)
  end.
Proof.
  intros Hc. destruct (excpt_ c) as [e0|] eqn:He.
  - unfold store_exception.
    rewrite (bind_Ok get_state _ st st st) by done. by rewrite Hc, He.
  - rewrite (bind_Ok _ _ _ _ _ (store_exception_Ok _ _ _ e Hc He)).
    set (c1 := mk_context (clevel_ c) (Some e) (classes_ c)).
    pose proof (JS_GetContextOpaque_put _ _ _ c1 Hc) as Hc1.
    rewrite (bind_Ok _ _ _ _ _ (pop_exception_Ok _ _ _ Hc1)).
    set (c2 := mk_context (clevel_ c1) None (classes_ c1)).
    pose proof (JS_GetContextOpaque_put _ _ _ c2 Hc1) as Hc2.
    rewrite (bind_Ok _ _ _ _ _ (pop_exception_Ok _ _ _ Hc2)).
    unfold mret, M_ret. f_equal.
    assert (Hsame : mk_context (clevel_ c2) None (classes_ c2) = c)
      by (destruct c; simpl in *; by subst).
    rewrite Hsame. by rewrite !put_context_twice.
Qed.

Lemma X1_exception_token_round_trip_witness :
  (_ ← store_exception the_ctx my_exception;
   first ← pop_exception the_ctx;
   second ← pop_exception the_ctx;
   mret (first, second)) (example_state ∅ 0 0)
  = (Ok (Some my_exception, None),
     put_context the_ctx (mk_context 0 None ∅) (example_state ∅ 0 0)).
Proof.
  exact (X1_exception_token_round_trip the_ctx my_exception (mk_context 0 None ∅)
           (example_state ∅ 0 0) eq_refl).
Defined.

(** ** What [check_throw] raises *)

(** X2: on a handle of a live context, what [check_throw] raises is
    one of two things.  Asked to look for a stored native exception and
    finding one, it rethrows that exception as it is, whatever its type
    and whether or not the handle holds the marker: the slot is emptied
    and the engine's pending exception stays where it is.  Otherwise the
    handle holds the marker, and [check_throw] raises [throw_exception]
    above call level 1 and [value_exception] at or below it, never a
    [value_error], holding the engine's pending exception whatever that
    is (an Error object included), which is then cleared. *)
Theorem X2_check_throw_raises `{Conversions} (ctx : JSContext) (x : JSValue) (b : bool)
    (st st' : state) (c : context) (e : cpp_exception) :
  JS_GetContextOpaque st ctx = Some c ->
  check_throw (mk_value (Some ctx) x) b st = (Thrown e, st') ->
  (b = true /\ excpt_ c = Some e
   /\ st' = put_context ctx (mk_context (clevel_ c) None (classes_ c)) st
   /\ JS_GetContextOpaque st' ctx = Some (mk_context (clevel_ c) None (classes_ c))
   /\ current_exception st' = current_exception st)
  \/ ((b = false \/ excpt_ c = None)
      /\ x = JS_EXCEPTION
      /\ e = (if (1 <? clevel_ c)%Z
              then throw_exception (mk_value (Some ctx) (current_exception st))
              else value_exception (mk_value (Some ctx) (current_exception st)))
      /\ (forall w s, e <> value_error w s)
      /\ current_exception st' = JS_NULL).
Proof.
  intros Hc. rewrite (check_throw_run _ _ _ _ _ Hc).
  destruct b; simpl.
  - destruct (excpt_ c) as [e0|].
    + intros Hrun. inversion Hrun; subst. left.
      split; [done|]. split; [done|]. split; [done|].
      split; [exact (JS_GetContextOpaque_put _ _ _ _ Hc)|done].
    + destruct x; simpl; intros Hrun; inversion Hrun; subst.
      right. split; [by right|]. split; [done|].
      split; [by destruct (1 <? clevel_ c)%Z|].
      split; [|done]. intros w s. by destruct (1 <? clevel_ c)%Z.
  - destruct x; simpl; intros Hrun; inversion Hrun; subst.
    right. split; [by left|]. split; [done|].
    split; [by destruct (1 <? clevel_ c)%Z|].
    split; [|done]. intros w s. by destruct (1 <? clevel_ c)%Z.
Qed.

(** Two runs at call level 0.  The engine has thrown the Error object
    [1] and the host looks at the marker: [value_exception] with the
    Error object, and nothing is pending afterwards.  A [value_error] is
    stored on the context while the engine's pending exception is the
    Error object [1], and the host looks at a handle that holds a
    number: the stored [value_error] is rethrown and the Error object is
    still pending. *)
Lemma X2_check_throw_raises_witness :
  ((true = false \/ excpt_ (mk_context 0 None ∅) = None)
   /\ JS_EXCEPTION = JS_EXCEPTION
   /\ value_exception (in_ctx (JS_OBJECT 1))
      = (if (1 <? clevel_ (mk_context 0 None ∅))%Z
         then throw_exception (in_ctx (JS_OBJECT 1))
         else value_exception (in_ctx (JS_OBJECT 1)))
   /\ (forall w s, value_exception (in_ctx (JS_OBJECT 1)) <> value_error w s)
   /\ current_exception
        (check_throw (in_ctx JS_EXCEPTION) true
           (set_current_exception (JS_OBJECT 1) (example_state error_heap 2 0))).2 = JS_NULL)
  /\ (check_throw (in_ctx (JS_INT 5)) true
        (put_context the_ctx (mk_context 0 (Some (value_error "boom" "")) ∅)
           (set_current_exception (JS_OBJECT 1) (example_state error_heap 2 0)))).1
     = Thrown (value_error "boom" "")
  /\ current_exception
       (check_throw (in_ctx (JS_INT 5)) true
          (put_context the_ctx (mk_context 0 (Some (value_error "boom" "")) ∅)
             (set_current_exception (JS_OBJECT 1) (example_state error_heap 2 0)))).2
     = JS_OBJECT 1.
Proof.
  split.
  - destruct (X2_check_throw_raises the_ctx JS_EXCEPTION true
                (set_current_exception (JS_OBJECT 1) (example_state error_heap 2 0))
                (check_throw (in_ctx JS_EXCEPTION) true
                   (set_current_exception (JS_OBJECT 1) (example_state error_heap 2 0))).2
                (mk_context 0 None ∅) (value_exception (in_ctx (JS_OBJECT 1)))
                ltac:(vm_compute; reflexivity) ltac:(vm_compute; reflexivity))
      as [(_ & Htoken & _)|Hmarker].
    + discriminate Htoken.
    + exact Hmarker.
  - split; [vm_compute; reflexivity|].
    destruct (X2_check_throw_raises the_ctx (JS_INT 5) true
                (put_context the_ctx (mk_context 0 (Some (value_error "boom" "")) ∅)
                   (set_current_exception (JS_OBJECT 1) (example_state error_heap 2 0)))
                (check_throw (in_ctx (JS_INT 5)) true
                   (put_context the_ctx (mk_context 0 (Some (value_error "boom" "")) ∅)
                      (set_current_exception (JS_OBJECT 1)
                         (example_state error_heap 2 0)))).2
                (mk_context 0 (Some (value_error "boom" "")) ∅) (value_error "boom" "")
                ltac:(vm_compute; reflexivity) ltac:(vm_compute; reflexivity))
      as [(_ & _ & _ & _ & Hpending)|(_ & Hx & _)].
    + rewrite Hpending. reflexivity.
    + discriminate Hx.
Defined.

(** ** Exceptions that leave a handler the engine called *)

Lemma try_catch_escapes {A} (m : M A) (h : cpp_exception -> M A) (st st' : state)
    (e : cpp_exception) :
  try_catch m h st = (Thrown e, st') ->
  exists e0 st0, m st = (Thrown e0, st0) /\ h e0 st0 = (Thrown e, st').
Proof.
  unfold try_catch. destruct (m st) as [[a|e0| |] st0] eqn:Hm; try done.
  intros Hh. by exists e0, st0.
Qed.

(** The two [catch] clauses raise only when the caught
    [throw_exception] holds no value: [e.val().steal()] validates. *)
Lemma closure_catch_escapes (ctx : JSContext) (e0 e : cpp_exception) (st0 st' : state) :
  closure_catch ctx e0 st0 = (Thrown e, st') ->
  e = value_exception_msg "no context" /\ st' = st0
  /\ exists v, e0 = throw_exception v /\ valid v = false.
Proof.
  assert (Hforward : forall x,
            (_ ← store_exception ctx x; obj ← JS_NewUncatchableError ctx; JS_Throw ctx obj) st0
            = (Thrown e, st') -> False).
  { intros x.
    destruct (store_exception ctx x st0) as [[[]|e1| |] s1] eqn:Hstore.
    - rewrite (bind_Ok _ _ _ _ _ Hstore).
      by rewrite (bind_Ok _ _ _ _ _ (JS_NewUncatchableError_Ok _ _)).
    - exfalso. revert Hstore. unfold store_exception.
      rewrite (bind_Ok get_state _ st0 st0 st0) by done.
      destruct (JS_GetContextOpaque st0 ctx) as [c|] eqn:Hc; [|done].
      destruct (excpt_ c); [done|].
      by rewrite (update_context_Ok _ _ _ _ Hc).
    - unfold mbind, M_bind. by rewrite Hstore.
    - unfold mbind, M_bind. by rewrite Hstore. }
  destruct e0 as [w| |w s|w|v|v|t p]; simpl; try (intros Hrun; by destruct (Hforward _ Hrun)).
  unfold steal, validate, valid, JS_Throw, throw_value_exception, throw. munfold.
  destruct (ctx_ v) as [c|] eqn:Hv; simpl; intros Hrun; inversion Hrun; subst.
  split; [done|]. split; [done|]. exists v. by rewrite Hv.
Qed.

(** X3: the only exception that leaves a closure handler or a class
    constructor handler, and so unwinds through the engine's frames, is
    the [value_exception] "no context" that the handler's own [catch]
    clause raises when the callable threw a [throw_exception] holding no
    value; every other exception is turned into an engine exception. *)
Theorem X3_handler_escape `{Conversions}
    (JS_Call : JSContext -> JSValue -> JSValue -> list JSValue -> M JSValue)
    (f : callable) (cdef : class_definition) (ctx : JSContext) (this_val : JSValue)
    (argv : list JSValue) (st st' : state) (e : cpp_exception) :
  closure_handler JS_Call f ctx this_val argv st = (Thrown e, st')
  \/ classes_ctor JS_Call cdef ctx this_val argv st = (Thrown e, st') ->
  e = value_exception_msg "no context".
Proof.
  intros [Hrun|Hrun].
  - unfold closure_handler, handle_closure_expand_with_args, handle_closure_expand in Hrun.
    destruct (first_is_args f);
      apply try_catch_escapes in Hrun as (e0 & st0 & _ & Hcatch);
      by apply closure_catch_escapes in Hcatch as [-> _].
  - unfold classes_ctor in Hrun.
    apply try_catch_escapes in Hrun as (e0 & st0 & _ & Hcatch).
    by apply closure_catch_escapes in Hcatch as [-> _].
Qed.

(** A callable that does [throw quickjs::throw_exception();]. *)
Lemma X3_handler_escape_witness :
  closure_handler (JS_Call 1) (thrower (throw_exception value_default)) the_ctx
    JS_UNDEFINED [] (example_state ∅ 0 0)
  = (Thrown (value_exception_msg "no context"), example_state ∅ 0 0)
  /\ value_exception_msg "no context" = value_exception_msg "no context".
Proof.
  split; [vm_compute; reflexivity|].
  apply (X3_handler_escape (JS_Call 1) (thrower (throw_exception value_default)) my_class
           the_ctx JS_UNDEFINED [] (example_state ∅ 0 0) (example_state ∅ 0 0)).
  left. vm_compute. reflexivity.
Defined.

(** ** Throwing a value made by [value::type_error] *)

(** [value::type_error] and [value::reference_error]. *)
Definition value_type_error `{Conversions} (ctx : JSContext) (str : string) : M value :=
  r ← JS_ThrowTypeError ctx str;
  value_ctor (Some ctx) r.

Definition value_reference_error `{Conversions} (ctx : JSContext) (str : string) : M value :=
  r ← JS_ThrowReferenceError ctx str;
  value_ctor (Some ctx) r.

(** X4: [value::type_error] and [value::reference_error] return a handle
    that holds the exception marker, the Error object being the engine's
    pending exception.  When a callable throws [throw_exception] with
    such a handle, the handler's [catch] clause passes the marker to
    [JS_Throw]: the pending exception becomes the marker, and the host
    boundary then raises its exception with the marker as the value, not
    with the Error object. *)
Theorem X4_thrown_error_handle_is_marker `{Conversions} (ctx : JSContext) (str : string)
    (reference : bool) (c : context) (st : state) :
  JS_GetContextOpaque st ctx = Some c -> excpt_ c = None ->
  exists st1 st2,
    (v ← (if reference then value_reference_error ctx str else value_type_error ctx str);
     closure_catch ctx (throw_exception v)) st = (Ok JS_EXCEPTION, st1)
    /\ JS_IsError st1 (JS_OBJECT (next_obj st)) = true
    /\ current_exception st1 = JS_EXCEPTION
    /\ check_throw (mk_value (Some ctx) JS_EXCEPTION) true st1
       = (Thrown (if (1 <? clevel_ c)%Z
                  then throw_exception (mk_value (Some ctx) JS_EXCEPTION)
                  else value_exception (mk_value (Some ctx) JS_EXCEPTION)), st2).
Proof.
  intros Hc He.
  assert (Hthrow : forall ename,
    exists st1,
      (v ← (r ← JS_ThrowError ctx ename str; value_ctor (Some ctx) r);
       closure_catch ctx (throw_exception v)) st = (Ok JS_EXCEPTION, st1)
      /\ JS_IsError st1 (JS_OBJECT (next_obj st)) = true
      /\ current_exception st1 = JS_EXCEPTION
      /\ JS_GetContextOpaque st1 ctx = Some c).
  { intros ename. eexists. split; [|split; [|split]].
    - unfold JS_ThrowError, new_object, JS_Throw, value_ctor, validate. munfold. simpl.
      reflexivity.
    - unfold JS_IsError, object_at. simpl. by rewrite lookup_insert_eq.
    - done.
    - exact Hc. }
  destruct (Hthrow (if reference then "ReferenceError" else "TypeError"))
    as (st1 & Hrun & Herr & Hex & Hc1).
  exists st1. eexists. split; [by destruct reference|]. split; [done|]. split; [done|].
  rewrite (check_throw_run _ _ _ _ _ Hc1). simpl. rewrite He, Hex. simpl.
  by destruct (1 <? clevel_ c)%Z.
Qed.

(** [throw quickjs::throw_exception(quickjs::value::type_error(ctx, "not a function"))]
    of the asynchronous example. *)
Lemma X4_thrown_error_handle_is_marker_witness :
  exists st1 st2,
    (v ← value_type_error the_ctx "not a function";
     closure_catch the_ctx (throw_exception v)) (example_state ∅ 0 0) = (Ok JS_EXCEPTION, st1)
    /\ JS_IsError st1 (JS_OBJECT 0) = true
    /\ current_exception st1 = JS_EXCEPTION
    /\ check_throw (in_ctx JS_EXCEPTION) true st1
       = (Thrown (value_exception (in_ctx JS_EXCEPTION)), st2).
Proof.
  exact (X4_thrown_error_handle_is_marker the_ctx "not a function" false
           (mk_context 0 None ∅) (example_state ∅ 0 0) eq_refl eq_refl).
Defined.

(** ** The call level is restored by every call *)

(** The call level of the host context behind [j], if there is one. *)
Definition level_of (st : state) (j : JSContext) : option Z :=
  clevel_ <$> JS_GetContextOpaque st j.

Definition same_levels (st st' : state) : Prop :=
  forall j, level_of st' j = level_of st j.

(** [clevel_] is an [unsigned int]. *)
Definition levels_ok (st : state) : Prop :=
  forall j l, level_of st j = Some l -> (0 <= l < 2 ^ 32)%Z.

(** The computation came back, by a return or by an exception. *)
Definition settled {A} (r : outcome A) : Prop :=
  match r with Ok _ | Thrown _ => True | Crash | OutOfFuel => False end.

(** [m] leaves the host contexts alone. *)
Definition keeps_contexts {A} (m : M A) : Prop :=
  forall st r st', m st = (r, st') -> ctxs st' = ctxs st.

(** Whenever [m] comes back, every call level is what it was. *)
Definition balanced {A} (m : M A) : Prop :=
  forall st r st', levels_ok st -> m st = (r, st') -> settled r -> same_levels st st'.

Lemma same_levels_refl (st : state) : same_levels st st.
Proof. by intros j. Qed.

Lemma same_levels_trans (st1 st2 st3 : state) :
  same_levels st1 st2 -> same_levels st2 st3 -> same_levels st1 st3.
Proof. intros H12 H23 j. by rewrite H23, H12. Qed.

Lemma same_levels_ok (st st' : state) :
  same_levels st st' -> levels_ok st -> levels_ok st'.
Proof. intros Hsame Hok j l Hl. apply (Hok j). by rewrite <- Hsame. Qed.

Lemma keeps_contexts_balanced {A} (m : M A) : keeps_contexts m -> balanced m.
Proof.
  intros Hm st r st' _ Hrun _ j. unfold level_of, JS_GetContextOpaque.
  by rewrite (Hm _ _ _ Hrun).
Qed.

Lemma keeps_contexts_bind {A B} (m : M A) (f : A -> M B) :
  keeps_contexts m -> (forall a, keeps_contexts (f a)) -> keeps_contexts (m ≫= f).
Proof.
  intros Hm Hf st r st'. unfold mbind, M_bind.
  destruct (m st) as [[a|e| |] st1] eqn:Hrun; pose proof (Hm _ _ _ Hrun) as H1.
  - intros Hrun2. rewrite (Hf _ _ _ _ Hrun2). done.
  - by intros [= <- <-].
  - by intros [= <- <-].
  - by intros [= <- <-].
Qed.

Lemma balanced_bind {A B} (m : M A) (f : A -> M B) :
  balanced m -> (forall a, balanced (f a)) -> balanced (m ≫= f).
Proof.
  intros Hm Hf st r st' Hok. unfold mbind, M_bind.
  destruct (m st) as [[a|e| |] st1] eqn:Hrun.
  - intros Hrun2 Hr. pose proof (Hm _ _ _ Hok Hrun I) as H1.
    apply (same_levels_trans _ st1); [done|].
    by apply (Hf a st1 r st'); [apply (same_levels_ok st)| |].
  - intros [= <- <-] _. by apply (Hm _ _ _ Hok Hrun).
  - by intros [= <- <-].
  - by intros [= <- <-].
Qed.

Lemma balanced_try_catch {A} (m : M A) (h : cpp_exception -> M A) :
  balanced m -> (forall e, balanced (h e)) -> balanced (try_catch m h).
Proof.
  intros Hm Hh st r st' Hok. unfold try_catch.
  destruct (m st) as [[a|e| |] st1] eqn:Hrun.
  - intros [= <- <-] _. by apply (Hm _ _ _ Hok Hrun).
  - intros Hrun2 Hr. pose proof (Hm _ _ _ Hok Hrun I) as H1.
    apply (same_levels_trans _ st1); [done|].
    by apply (Hh e st1 r st'); [apply (same_levels_ok st)| |].
  - by intros [= <- <-].
  - by intros [= <- <-].
Qed.

Lemma balanced_no_escape {A} (m : M A) : balanced m -> balanced (no_escape m).
Proof.
  intros Hm st r st' Hok. unfold no_escape.
  destruct (m st) as [[a|e| |] st1] eqn:Hrun; intros [= <- <-]; try done.
  intros _. by apply (Hm _ _ _ Hok Hrun).
Qed.

Lemma balanced_ret {A} (a : A) : balanced (mret a).
Proof. apply keeps_contexts_balanced. by intros st r st' [= <- <-]. Qed.

Lemma balanced_throw {A} (e : cpp_exception) : balanced (throw (A := A) e).
Proof. apply keeps_contexts_balanced. by intros st r st' [= <- <-]. Qed.

Lemma balanced_crash {A} : balanced (crash (A := A)).
Proof. apply keeps_contexts_balanced. by intros st r st' [= <- <-]. Qed.

Lemma balanced_get_state : balanced get_state.
Proof. apply keeps_contexts_balanced. by intros st r st' [= <- <-]. Qed.

(** A state update that leaves [ctxs] alone. *)
Lemma balanced_modify (f : state -> state) :
  (forall st, ctxs (f st) = ctxs st) -> balanced (modify f).
Proof. intros Hf. apply keeps_contexts_balanced. intros st r st' [= <- <-]. apply Hf. Qed.

(** A write through the context pointer that keeps the call level. *)
Lemma balanced_update_context (ctx : JSContext) (f : context -> context) :
  (forall c, clevel_ (f c) = clevel_ c) -> balanced (update_context ctx f).
Proof.
  intros Hf st r st' _. unfold update_context.
  rewrite (bind_Ok get_state _ st st st) by done.
  destruct (ctxs st !! ctx) as [[g [c|]]|] eqn:Hctx; try (by intros [= <- <-]).
  intros [= <- <-] _ j. unfold level_of, JS_GetContextOpaque. simpl.
  destruct (decide (j = ctx)) as [->|Hne].
  - rewrite lookup_insert_eq, Hctx. simpl. by rewrite Hf.
  - by rewrite lookup_insert_ne.
Qed.

Create HintDb balance discriminated.

#[local] Hint Resolve balanced_ret balanced_throw balanced_crash balanced_get_state : balance.
#[local] Hint Extern 2 (balanced (_ ≫= _)) => apply balanced_bind; [|intros ?] : balance.
#[local] Hint Extern 2 (balanced (try_catch _ _)) => apply balanced_try_catch; [|intros ?] : balance.
#[local] Hint Extern 2 (balanced (no_escape _)) => apply balanced_no_escape : balance.
#[local] Hint Extern 3 (balanced (modify _)) => apply balanced_modify; intros ?; reflexivity : balance.
#[local] Hint Extern 3 (balanced (if ?b then _ else _)) => destruct b : balance.
#[local] Hint Extern 3 (balanced (match ?x with _ => _ end)) => destruct x : balance.
#[local] Hint Extern 3 (balanced (let '(_, _) := ?x in _)) => destruct x : balance.

Ltac balance := eauto 30 with balance.

Section Balance.
Context `{Conversions}.
Variable JS_Call : JSContext -> JSValue -> JSValue -> list JSValue -> M JSValue.
Hypothesis JS_Call_balanced :
  forall ctx func_obj this_val argv, balanced (JS_Call ctx func_obj this_val argv).

Lemma balanced_validate (v : value) : balanced (validate v).
Proof. unfold validate, throw_value_exception. balance. Qed.

Lemma balanced_value_ctor (ctx : option JSContext) (x : JSValue) :
  balanced (value_ctor ctx x).
Proof. unfold value_ctor. pose proof balanced_validate. balance. Qed.

Lemma balanced_steal (v : value) : balanced (steal v).
Proof. unfold steal. pose proof balanced_validate. balance. Qed.

Lemma balanced_JS_Throw (ctx : JSContext) (x : JSValue) : balanced (JS_Throw ctx x).
Proof. unfold JS_Throw. balance. Qed.

Lemma balanced_JS_GetException (ctx : JSContext) : balanced (JS_GetException ctx).
Proof. unfold JS_GetException. balance. Qed.

Lemma balanced_new_object (o : JSObject) : balanced (new_object o).
Proof. unfold new_object. balance. Qed.

Lemma balanced_JS_ThrowError (ctx : JSContext) (ename msg : string) :
  balanced (JS_ThrowError ctx ename msg).
Proof.
  unfold JS_ThrowError. pose proof balanced_new_object. pose proof balanced_JS_Throw. balance.
Qed.

Lemma balanced_JS_NewUncatchableError (ctx : JSContext) :
  balanced (JS_NewUncatchableError ctx).
Proof.
  unfold JS_NewUncatchableError, JS_NewError, JS_SetUncatchableError.
  pose proof balanced_new_object. balance.
Qed.

Lemma balanced_JS_GetPropertyStr (ctx : JSContext) (this_obj : JSValue) (prop : string) :
  balanced (JS_GetPropertyStr ctx this_obj prop).
Proof.
  unfold JS_GetPropertyStr, JS_ThrowTypeError. pose proof balanced_JS_ThrowError. balance.
Qed.

Lemma balanced_JS_GetGlobalObject (ctx : JSContext) : balanced (JS_GetGlobalObject ctx).
Proof. unfold JS_GetGlobalObject. balance. Qed.

Lemma balanced_get_property (v : value) (name : string) : balanced (get_property v name).
Proof.
  unfold get_property.
  pose proof balanced_validate. pose proof balanced_JS_GetPropertyStr.
  pose proof balanced_value_ctor. balance.
Qed.

Lemma balanced_as_cstring (v : value) : balanced (as_cstring v).
Proof. unfold as_cstring. pose proof balanced_validate. balance. Qed.

Lemma balanced_is_undefined (v : value) : balanced (is_undefined v).
Proof. unfold is_undefined. pose proof balanced_validate. balance. Qed.

Lemma balanced_store_exception (ctx : JSContext) (e : cpp_exception) :
  balanced (store_exception ctx e).
Proof.
  unfold store_exception.
  assert (balanced (update_context ctx
            (fun c => mk_context (clevel_ c) (Some e) (classes_ c))))
    by (by apply balanced_update_context).
  balance.
Qed.

Lemma balanced_pop_exception (ctx : JSContext) : balanced (pop_exception ctx).
Proof.
  unfold pop_exception.
  assert (balanced (update_context ctx
            (fun c => mk_context (clevel_ c) None (classes_ c))))
    by (by apply balanced_update_context).
  balance.
Qed.

Lemma balanced_do_throw {A} (this exval : value) : balanced (do_throw (A := A) this exval).
Proof.
  unfold do_throw.
  pose proof balanced_get_property. pose proof balanced_is_undefined.
  pose proof balanced_as_cstring. balance.
Qed.

Lemma balanced_check_throw (this : value) (b : bool) : balanced (check_throw this b).
Proof.
  unfold check_throw, handle_pending_exception, get_context.
  pose proof balanced_validate. pose proof balanced_pop_exception.
  pose proof balanced_JS_GetException. pose proof balanced_value_ctor.
  pose proof (@balanced_do_throw unit). balance.
Qed.

(** [call_level]'s constructor comes back only when the context is
    there and the counter does not wrap. *)
Lemma call_level_enter_settled (ctx : JSContext) (st st1 : state) (r : outcome unit) :
  levels_ok st -> call_level_enter ctx st = (r, st1) -> settled r ->
  exists c, JS_GetContextOpaque st ctx = Some c
            /\ (0 <= clevel_ c < 2 ^ 32 - 1)%Z
            /\ st1 = put_context ctx (mk_context (clevel_ c + 1) (excpt_ c) (classes_ c)) st.
Proof.
  intros Hok Hrun Hr.
  destruct (JS_GetContextOpaque st ctx) as [c|] eqn:Hc.
  - assert (Hl : (0 <= clevel_ c < 2 ^ 32)%Z).
    { apply (Hok ctx). unfold level_of. by rewrite Hc. }
    exists c. split; [done|].
    destruct (decide (clevel_ c = 2 ^ 32 - 1)%Z) as [Hmax|Hlt].
    + exfalso. revert Hrun. unfold call_level_enter.
      rewrite (bind_Ok _ _ _ _ _ (update_context_Ok _ _ _ _ Hc)).
      set (st2 := put_context _ _ _).
      rewrite (bind_Ok get_state _ st2 st2 st2) by done.
      subst st2. rewrite (JS_GetContextOpaque_put _ _ _ _ Hc). simpl.
      unfold uint_wrap. rewrite Hmax. simpl.
      intros [= <- <-]. done.
    + split; [lia|].
      rewrite (call_level_enter_Ok _ _ _ Hc) in Hrun by lia. by inversion Hrun.
  - exfalso. revert Hrun. unfold call_level_enter, update_context.
    unfold JS_GetContextOpaque in Hc. munfold.
    destruct (ctxs st !! ctx) as [[g [c|]]|]; simpl in Hc; try done;
      intros [= <- <-]; done.
Qed.

Lemma level_of_put_context (ctx j : JSContext) (c c' : context) (st : state) :
  JS_GetContextOpaque st ctx = Some c ->
  level_of (put_context ctx c' st) j
  = if decide (j = ctx) then Some (clevel_ c') else level_of st j.
Proof.
  intros Hc. unfold level_of. destruct (decide (j = ctx)) as [->|Hne].
  - by rewrite (JS_GetContextOpaque_put _ _ _ _ Hc).
  - by rewrite JS_GetContextOpaque_put_ne.
Qed.

(** [functions::call_common_args]: the [call_level] object restores the
    level when the call returns and when it throws. *)
Lemma balanced_call_common_args (func : value) (ctx : JSContext) (thisObj : value)
    (avals : list JSValue) :
  balanced (call_common_args JS_Call func ctx thisObj avals).
Proof using JS_Call_balanced.
  intros st r st' Hok. unfold call_common_args, mbind at 1, M_bind at 1.
  destruct (call_level_enter ctx st) as [r1 st1] eqn:Henter.
  destruct r1 as [[]|e| |]; try (by intros [= <- <-]).
  2:{ destruct (call_level_enter_settled _ _ _ _ Hok Henter I) as (c & Hc & Hl & _).
      by rewrite (call_level_enter_Ok _ _ _ Hc Hl) in Henter. }
  destruct (call_level_enter_settled _ _ _ _ Hok Henter I) as (c & Hc & Hl & ->).
  set (c1 := mk_context (clevel_ c + 1) (excpt_ c) (classes_ c)).
  set (st1 := put_context ctx c1 st).
  assert (Hok1 : levels_ok st1).
  { intros j l. subst st1. rewrite (level_of_put_context _ _ _ _ _ Hc).
    destruct (decide (j = ctx)) as [->|Hne].
    - intros [= <-]. simpl. lia.
    - apply Hok. }
  assert (Hbody : balanced
            (r ← JS_Call ctx (val_ func)
                   (if valid thisObj then val_ thisObj else JS_UNDEFINED) avals;
             ret ← value_ctor (Some ctx) r;
             _ ← check_throw ret true;
             mret ret)).
  { pose proof balanced_value_ctor. pose proof balanced_check_throw. balance. }
  unfold scoped.
  destruct ((r ← JS_Call ctx (val_ func)
                   (if valid thisObj then val_ thisObj else JS_UNDEFINED) avals;
             ret ← value_ctor (Some ctx) r;
             _ ← check_throw ret true;
             mret ret) st1) as [r2 st2] eqn:Hrun2.
  assert (Hleave : settled r2 ->
            exists c2, JS_GetContextOpaque st2 ctx = Some c2
                       /\ clevel_ c2 = (clevel_ c + 1)%Z
                       /\ same_levels st1 st2
                       /\ call_level_leave ctx st2
                          = (Ok tt, put_context ctx
                                      (mk_context (clevel_ c2 - 1) (excpt_ c2) (classes_ c2)) st2)).
  { intros Hr2. pose proof (Hbody _ _ _ Hok1 Hrun2 Hr2) as Hsame.
    pose proof (Hsame ctx) as Hlevel.
    subst st1. rewrite (level_of_put_context _ _ _ _ _ Hc) in Hlevel.
    rewrite decide_True in Hlevel by done. unfold level_of in Hlevel.
    destruct (JS_GetContextOpaque st2 ctx) as [c2|] eqn:Hc2; [|done].
    simpl in Hlevel. injection Hlevel as Hlevel.
    exists c2. split; [done|]. split; [done|]. split; [done|].
    apply call_level_leave_Ok; [done|]. rewrite Hlevel. lia. }
  assert (Hback : forall c2,
            JS_GetContextOpaque st2 ctx = Some c2 -> clevel_ c2 = (clevel_ c + 1)%Z ->
            same_levels st1 st2 ->
            same_levels st
              (put_context ctx (mk_context (clevel_ c2 - 1) (excpt_ c2) (classes_ c2)) st2)).
  { intros c2 Hc2 Hlevel Hsame j.
    rewrite (level_of_put_context _ _ _ _ _ Hc2). specialize (Hsame j).
    subst st1. rewrite (level_of_put_context _ _ _ _ _ Hc) in Hsame.
    destruct (decide (j = ctx)) as [->|Hne].
    - simpl. unfold level_of. rewrite Hc. simpl. f_equal. lia.
    - done. }
  destruct r2 as [a|e| |]; try (by intros [= <- <-]).
  - destruct (Hleave I) as (c2 & Hc2 & Hlevel & Hsame & Hrun3).
    rewrite (bind_Ok _ _ _ _ _ Hrun3). intros [= <- <-] _. by apply Hback.
  - destruct (Hleave I) as (c2 & Hc2 & Hlevel & Hsame & Hrun3).
    rewrite (bind_Ok _ _ _ _ _ Hrun3). intros [= <- <-] _. by apply Hback.
Qed.

Lemma balanced_value_call (this thisObj : value) (a : list call_arg) :
  balanced (value_call JS_Call this thisObj a).
Proof using JS_Call_balanced.
  unfold value_call, functions_call, call_common.
  pose proof balanced_validate. pose proof balanced_call_common_args. balance.
Qed.

Lemma balanced_value_operator_call (this : value) (a : list call_arg) :
  balanced (value_operator_call JS_Call this a).
Proof using JS_Call_balanced.
  unfold value_operator_call, value_undefined, functions_call, call_common.
  pose proof balanced_validate. pose proof balanced_value_ctor.
  pose proof balanced_call_common_args. balance.
Qed.

Lemma balanced_call_member (this : value) (name : string) (a : list call_arg) :
  balanced (call_member JS_Call this name a).
Proof using JS_Call_balanced.
  unfold call_member.
  pose proof balanced_validate. pose proof balanced_get_property.
  pose proof balanced_value_call. balance.
Qed.

Lemma balanced_run_nprog (p : nprog) : balanced (run_nprog JS_Call p).
Proof using JS_Call_balanced.
  induction p as [v|e|func thisObj a k IHk h IHh|ctx exval k IHk|line k IHk]; simpl.
  - balance.
  - balance.
  - intros st r st' Hok.
    destruct (value_call JS_Call func thisObj a st) as [[x|e| |] st1] eqn:Hcall;
      try (by intros [= <- <-]).
    + intros Hrun Hr. pose proof (balanced_value_call _ _ _ _ _ _ Hok Hcall I) as H1.
      apply (same_levels_trans _ st1); [done|].
      by apply (IHk x st1 r st'); [apply (same_levels_ok st)| |].
    + intros Hrun Hr. pose proof (balanced_value_call _ _ _ _ _ _ Hok Hcall I) as H1.
      apply (same_levels_trans _ st1); [done|].
      by apply (IHh e st1 r st'); [apply (same_levels_ok st)| |].
  - pose proof balanced_JS_Throw. pose proof balanced_value_ctor. balance.
  - balance.
Qed.

Lemma balanced_convert (p : param_type) (x : value) : balanced (convert p x).
Proof.
  apply keeps_contexts_balanced. intros st r st'.
  destruct p; unfold convert, is_string, as_string_out, as_cstring, as_int32_out,
    as_uint32_out, as_int64_out, as_bool_out, validate; munfold;
    repeat case_match; intros; unfold throw in *; by simplify_eq.
Qed.

Lemma balanced_mapM {A B} (g : A -> M B) (l : list A) :
  (forall x, balanced (g x)) -> balanced (mapM g l).
Proof. intros Hg. induction l as [|x l IH]; simpl; balance. Qed.

Lemma balanced_closure_try (f : callable) (ctx : JSContext) (this_val : JSValue)
    (argv : list JSValue) :
  balanced (handle_closure_expand_helper JS_Call f
              (args_ctor ctx (length (params f)) this_val argv))
  /\ balanced (handle_closure_expand_with_args_helper JS_Call f
                 (args_ctor ctx (length (params f)) this_val argv)).
Proof using JS_Call_balanced.
  unfold handle_closure_expand_helper, handle_closure_expand_with_args_helper, expand_params.
  pose proof balanced_run_nprog. pose proof balanced_convert.
  split; (apply balanced_bind; [apply balanced_mapM; intros ?; balance|intros ?; balance]).
Qed.

Lemma balanced_closure_catch (ctx : JSContext) (e : cpp_exception) :
  balanced (closure_catch ctx e).
Proof.
  unfold closure_catch.
  pose proof balanced_steal. pose proof balanced_JS_Throw.
  pose proof balanced_store_exception. pose proof balanced_JS_NewUncatchableError.
  destruct e; balance.
Qed.

Lemma balanced_closure_handler (f : callable) (ctx : JSContext) (this_val : JSValue)
    (argv : list JSValue) :
  balanced (closure_handler JS_Call f ctx this_val argv).
Proof using JS_Call_balanced.
  unfold closure_handler, handle_closure_expand_with_args, handle_closure_expand.
  destruct (balanced_closure_try f ctx this_val argv) as [Hplain Hargs].
  pose proof balanced_check_throw. pose proof balanced_steal.
  pose proof balanced_closure_catch.
  destruct (first_is_args f); balance.
Qed.

Lemma balanced_exec_sprog (ctx : JSContext) (s : sprog) : balanced (exec_sprog JS_Call ctx s).
Proof using JS_Call_balanced.
  pose proof balanced_JS_Throw. pose proof balanced_JS_GetGlobalObject.
  pose proof balanced_JS_GetException.
  assert (forall msg, balanced (JS_ThrowReferenceError ctx msg))
    by (intros msg; apply balanced_JS_ThrowError).
  induction s as [v|v|func this_val argv k IHk|name k IHk|body IHb handler IHh k IHk];
    simpl; balance.
Qed.

Lemma balanced_JS_Call_body (ctx : JSContext) (func_obj this_val : JSValue)
    (argv : list JSValue) :
  balanced (JS_Call_body JS_Call ctx func_obj this_val argv).
Proof using JS_Call_balanced.
  unfold JS_Call_body.
  pose proof balanced_exec_sprog. pose proof balanced_closure_handler.
  assert (forall msg, balanced (JS_ThrowTypeError ctx msg))
    by (intros msg; apply balanced_JS_ThrowError).
  apply balanced_bind; [balance|]. intros st.
  destruct (object_at st func_obj) as [[[]]|]; balance.
Qed.

Lemma balanced_eval (c : option JSContext) (src : sprog) : balanced (eval JS_Call c src).
Proof using JS_Call_balanced.
  unfold eval, context_validate.
  pose proof balanced_exec_sprog. pose proof balanced_value_ctor.
  pose proof balanced_check_throw. balance.
Qed.

Lemma balanced_call_global (c : option JSContext) (name : string) (a : list call_arg) :
  balanced (call_global JS_Call c name a).
Proof using JS_Call_balanced.
  unfold call_global, get_global_object, context_validate, value_undefined.
  pose proof balanced_JS_GetGlobalObject. pose proof balanced_value_ctor.
  pose proof balanced_get_property. pose proof balanced_value_operator_call. balance.
Qed.

End Balance.

Lemma balanced_JS_Call `{Conversions} (fuel : nat) (ctx : JSContext)
    (func_obj this_val : JSValue) (argv : list JSValue) :
  balanced (JS_Call fuel ctx func_obj this_val argv).
Proof.
  revert ctx func_obj this_val argv. induction fuel as [|n IH]; intros ctx f t a.
  - by intros st r st' _ [= <- <-].
  - simpl. by apply balanced_JS_Call_body.
Qed.

(** [m], run from [st], restores the call levels whenever it comes back. *)
Definition restores {A} (m : M A) (st : state) : Prop :=
  forall r st', m st = (r, st') -> settled r -> same_levels st st'.

(** X5: every entry point through which the host calls into the engine
    ([value::call], [value::operator()], [value::call_member],
    [context::call_global], [context::eval]) leaves the call level of
    every context as it found it, when it returns and when it throws,
    whatever scripts and native callables run in between and however
    deeply they call each other. *)
Theorem X5_call_level_restored `{Conversions} (fuel : nat) (st : state) :
  levels_ok st ->
  (forall this thisObj a, restores (value_call (JS_Call fuel) this thisObj a) st)
  /\ (forall this a, restores (value_operator_call (JS_Call fuel) this a) st)
  /\ (forall this name a, restores (call_member (JS_Call fuel) this name a) st)
  /\ (forall c name a, restores (call_global (JS_Call fuel) c name a) st)
  /\ (forall c src, restores (eval (JS_Call fuel) c src) st).
Proof.
  intros Hok.
  pose proof (balanced_JS_Call fuel) as Hcall.
  repeat split; intros; intros r st' Hrun Hr.
  - exact (balanced_value_call _ Hcall _ _ _ _ _ _ Hok Hrun Hr).
  - exact (balanced_value_operator_call _ Hcall _ _ _ _ _ Hok Hrun Hr).
  - exact (balanced_call_member _ Hcall _ _ _ _ _ _ Hok Hrun Hr).
  - exact (balanced_call_global _ Hcall _ _ _ _ _ _ Hok Hrun Hr).
  - exact (balanced_eval _ Hcall _ _ _ _ _ Hok Hrun Hr).
Qed.

Lemma levels_ok_example_state (h : gmap nat JSObject) (n : nat) (level : Z) :
  (0 <= level < 2 ^ 32)%Z -> levels_ok (example_state h n level).
Proof.
  intros Hl j l. unfold level_of, JS_GetContextOpaque, example_state. simpl.
  destruct (decide (j = the_ctx)) as [->|Hne].
  - rewrite lookup_singleton_eq. simpl. intros [= <-]. done.
  - by rewrite lookup_singleton_ne.
Qed.

(** The test [ThrowExceptionPropagation]: four nested native calls, left
    by an exception; the level is 0 again. *)
Lemma X5_call_level_restored_witness :
  (propagation_run "throw exception").1
  = Thrown (value_exception (in_ctx (JS_STRING "did throw")))
  /\ level_of (propagation_run "throw exception").2 the_ctx
     = level_of propagation_state the_ctx.
Proof.
  split; [vm_compute; reflexivity|].
  destruct (X5_call_level_restored 20 propagation_state
              (levels_ok_example_state propagation_heap 3 0 ltac:(lia)))
    as (_ & _ & Hmember & _).
  apply (Hmember (in_ctx (JS_OBJECT 0)) "call_recursive"
           [arg_int32 3; arg_value (in_ctx (JS_OBJECT 2)); arg_cstr "throw exception"]
           (propagation_run "throw exception").1 (propagation_run "throw exception").2).
  - unfold propagation_run. by destruct (call_member _ _ _ _ _).
  - vm_compute. exact I.
Defined.

(** ** Native classes *)

(** X6: making an object of a class that was not registered in the
    context raises [exception] "class not registered" and changes nothing:
    [make_object] leaves the state and its out parameter alone, and so
    does the [value] constructor for a shared instance that has no
    wrapper yet. *)
Theorem X6_class_not_registered `{Conversions}
    (JS_Call : JSContext -> JSValue -> JSValue -> list JSValue -> M JSValue)
    (ctx : JSContext) (cdef : class_definition) (c : context) (a : list value)
    (out : option void_ptr) (inst : void_ptr) (st : state) :
  JS_GetContextOpaque st ctx = Some c ->
  classes_ c !! id cdef = None ->
  weak_object_refs_ st !! inst = None ->
  make_object JS_Call (Some ctx) cdef a out st
  = ((Thrown (exception "class not registered"), out), st)
  /\ value_of_inst cdef (Some ctx) inst st
     = (Thrown (exception "class not registered"), st)
  /\ what_of (exception "class not registered") = "class not registered".
Proof.
  intros Hc Hclass Hinst.
  assert (Hinfo : get_class_info ctx (id cdef) st
                  = (Thrown (exception "class not registered"), st)).
  { unfold get_class_info. rewrite (bind_Ok get_state _ st st st) by done.
    by rewrite Hc, Hclass. }
  split; [|split; [|done]].
  - unfold make_object.
    rewrite (bind_Ok (context_validate (Some ctx)) _ st ctx st) by done.
    by rewrite (bind_Thrown _ _ _ _ _ Hinfo).
  - unfold value_of_inst.
    rewrite (bind_Ok (validate (mk_value (Some ctx) (JS_INT 0))) _ st ctx st) by done.
    assert (Hmake : class_make_object_for_inst cdef ctx inst st
                    = (Thrown (exception "class not registered"), st)).
    { unfold class_make_object_for_inst, get_inst_value.
      rewrite (bind_Ok (st0 ← get_state; mret (weak_val_ <$> weak_object_refs_ st0 !! inst))
                 _ st None st) by (munfold; by rewrite Hinst).
      by rewrite (bind_Thrown _ _ _ _ _ Hinfo). }
    by rewrite (bind_Thrown _ _ _ _ _ Hmake).
Qed.

(** [my_class_shared] was never registered in the context of
    [registered], which knows [my_class]. *)
Lemma X6_class_not_registered_witness :
  make_object (JS_Call 1) (Some the_ctx) my_class_shared [] (Some 99) registered
  = ((Thrown (exception "class not registered"), Some 99), registered)
  /\ value_of_inst my_class_shared (Some the_ctx) some_other_instance registered
     = (Thrown (exception "class not registered"), registered)
  /\ what_of (exception "class not registered") = "class not registered".
Proof.
  exact (X6_class_not_registered (JS_Call 1) the_ctx my_class_shared registered_context
           [] (Some 99) some_other_instance registered
           ltac:(vm_compute; reflexivity) ltac:(vm_compute; reflexivity)
           ltac:(vm_compute; reflexivity)).
Defined.

(** X7: the weak-identity table never dangles.  From a state where table
    and heap agree, however many wrappers the host asks for and whichever
    objects the engine frees, every entry of the table still points to a
    live wrapper object that holds the entry's instance, and counts one
    reference. *)
Theorem X7_weak_table_never_dangles (st st' : state) (inst : void_ptr) (r : inst_ref) :
  weak_inv st -> rtc wrapper_step st st' ->
  weak_object_refs_ st' !! inst = Some r ->
  refs_ r = 1%N
  /\ exists p cid ps,
       weak_val_ r = JS_OBJECT p
       /\ heap st' !! p = Some (mk_JSObject (JS_CLASS_native cid (Some inst)) ps)
       /\ JS_GetOpaque st' (weak_val_ r) cid = Some inst.
Proof.
  intros Hinv Hsteps Hr.
  destruct (wrapper_steps_inv _ _ Hinv Hsteps) as [Hinv' _].
  destruct (inv_entry _ Hinv' _ _ Hr) as (Hrefs & p & cid & ps & Hv & Hp & _).
  split; [done|]. exists p, cid, ps. split; [done|]. split; [done|].
  unfold JS_GetOpaque, object_at. rewrite Hv, Hp. by rewrite decide_True.
Qed.

(** Every live object can be freed: the finalizer of a shared wrapper
    finds its entry. *)
Lemma JS_FreeObject_total (p : nat) (o : JSObject) (st : state) :
  weak_inv st -> heap st !! p = Some o ->
  exists st', JS_FreeObject p st = (Ok tt, st').
Proof.
  intros Hinv Hp.
  assert (Hfin : exists sf, object_finalizer o (JS_OBJECT p) st = (Ok tt, sf)).
  { unfold object_finalizer. rewrite (bind_Ok get_state _ st st st) by done.
    destruct o as [[| | | | |cid opq] ps]; simpl; try (by eexists).
    destruct (class_array st !! cid) as [cd|] eqn:Hcd; [|by eexists].
    pose proof (inv_ids _ Hinv _ _ Hcd) as Hid.
    unfold classes_finalizer. rewrite (bind_Ok get_state _ st st st) by done.
    unfold JS_GetOpaque, object_at. rewrite Hp, Hid. rewrite decide_True by done.
    destruct opq as [inst|]; [|by eexists].
    destruct (shared cd) eqn:Hsh; [|by eexists].
    assert (Hshared : shared_class st cid) by (by exists cd).
    destruct (inv_wrapper _ Hinv _ _ _ _ Hp Hshared) as (r & Hr & _).
    unfold unref_inst_value. rewrite (bind_Ok get_state _ st st st) by done.
    rewrite Hr. destruct (_ =? _)%N; by eexists. }
  destruct Hfin as [sf Hfin]. unfold JS_FreeObject.
  rewrite (bind_Ok get_state _ st st st) by done. rewrite Hp.
  rewrite (bind_Ok _ _ _ _ _ Hfin). by eexists.
Qed.

(** X8: when the engine frees the wrapper of a shared instance, the
    finalizer removes the instance's entry from the weak-identity table,
    and the next request for a wrapper of that instance makes a new
    object at an address that was never used, not strictly equal to the
    freed one. *)
Theorem X8_wrapper_freed_and_made_anew (cdef : class_definition) (p : nat)
    (inst : void_ptr) (ps : gmap string JSValue) (st : state) :
  weak_inv st ->
  class_array st !! id cdef = Some cdef -> shared cdef = true ->
  heap st !! p = Some (mk_JSObject (JS_CLASS_native (id cdef) (Some inst)) ps) ->
  exists st1,
    JS_FreeObject p st = (Ok tt, st1)
    /\ weak_object_refs_ st1 !! inst = None
    /\ heap st1 !! p = None
    /\ forall ctx v st2,
         class_make_object_for_inst cdef ctx inst st1 = (Ok v, st2) ->
         v = JS_OBJECT (next_obj st) /\ p < next_obj st
         /\ js_strict_eq (JS_OBJECT p) v = false
         /\ JS_GetOpaque st2 v (id cdef) = Some inst
         /\ weak_val_ <$> weak_object_refs_ st2 !! inst = Some v.
Proof.
  intros Hinv Hreg Hsh Hp.
  destruct (JS_FreeObject_total _ _ _ Hinv Hp) as [st1 Hfree].
  exists st1. split; [done|].
  destruct (JS_FreeObject_run _ _ _ Hinv Hfree) as (Hinv1 & Hheap & Hclasses & Hnext).
  assert (Hlt : p < next_obj st).
  { destruct (decide (p < next_obj st)) as [|Hge]; [done|].
    rewrite (inv_fresh _ Hinv) in Hp by lia. done. }
  assert (Hgone : heap st1 !! p = None) by (by rewrite Hheap, lookup_delete_eq).
  assert (Hentry : weak_object_refs_ st1 !! inst = None).
  { destruct (weak_object_refs_ st1 !! inst) as [r|] eqn:Hr; [|done].
    destruct (inv_entry _ Hinv1 _ _ Hr) as (_ & q & cid & qs & Hv & Hq & Hs).
    assert (Hne : q <> p) by (intros ->; by rewrite Hgone in Hq).
    rewrite Hheap, lookup_delete_ne in Hq by done.
    assert (Hs0 : shared_class st cid).
    { destruct Hs as (cd & Hcd & Hshd). exists cd. by rewrite <- Hclasses. }
    assert (Hs1 : shared_class st (id cdef)) by (by exists cdef).
    destruct (inv_wrapper _ Hinv _ _ _ _ Hq Hs0) as (r1 & Hr1 & Hv1).
    destruct (inv_wrapper _ Hinv _ _ _ _ Hp Hs1) as (r2 & Hr2 & Hv2).
    rewrite Hr1 in Hr2. inversion Hr2; subst r2. rewrite Hv1 in Hv2. by inversion Hv2. }
  split; [done|]. split; [done|].
  intros ctx v st2 Hmake.
  destruct (class_make_object_for_inst_new _ _ _ _ _ _ Hentry Hmake) as [-> ->].
  rewrite Hnext. split; [done|]. split; [done|].
  split; [unfold js_strict_eq; apply bool_decide_eq_false; intros [= ->]; lia|].
  unfold wrapped. split.
  - unfold JS_GetOpaque, object_at. simpl. rewrite Hnext, lookup_insert_eq.
    by rewrite decide_True.
  - simpl. by rewrite lookup_alter_eq, lookup_insert_eq, Hnext.
Qed.

Example weak_inv_wrapped_once : weak_inv wrapped_once.
Proof.
  apply weak_inv_wrapped; [exact weak_inv_registered_shared| | |]; by vm_compute.
Qed.

(** Two wrappers were made, for [some_other_instance] and for
    [another_instance]. *)
Lemma X7_weak_table_never_dangles_witness :
  refs_ (mk_inst_ref 1 (JS_OBJECT 3)) = 1%N
  /\ exists p cid ps,
       weak_val_ (mk_inst_ref 1 (JS_OBJECT 3)) = JS_OBJECT p
       /\ heap wrapped_twice !! p
          = Some (mk_JSObject (JS_CLASS_native cid (Some some_other_instance)) ps)
       /\ JS_GetOpaque wrapped_twice (weak_val_ (mk_inst_ref 1 (JS_OBJECT 3))) cid
          = Some some_other_instance.
Proof.
  apply (X7_weak_table_never_dangles registered_shared wrapped_twice some_other_instance
           (mk_inst_ref 1 (JS_OBJECT 3)) weak_inv_registered_shared).
  - apply (rtc_l _ _ wrapped_once).
    + apply (step_wrap my_class_shared the_ctx some_other_instance _ _ (JS_OBJECT 3));
        by vm_compute.
    + apply rtc_once.
      apply (step_wrap my_class_shared the_ctx another_instance _ _ (JS_OBJECT 4));
        by vm_compute.
  - by vm_compute.
Defined.

(** The wrapper of [some_other_instance] is freed. *)
Lemma X8_wrapper_freed_and_made_anew_witness :
  exists st1,
    JS_FreeObject 3 wrapped_once = (Ok tt, st1)
    /\ weak_object_refs_ st1 !! some_other_instance = None
    /\ heap st1 !! 3 = None
    /\ forall ctx v st2,
         class_make_object_for_inst my_class_shared ctx some_other_instance st1 = (Ok v, st2) ->
         v = JS_OBJECT (next_obj wrapped_once) /\ 3 < next_obj wrapped_once
         /\ js_strict_eq (JS_OBJECT 3) v = false
         /\ JS_GetOpaque st2 v (id my_class_shared) = Some some_other_instance
         /\ weak_val_ <$> weak_object_refs_ st2 !! some_other_instance = Some v.
Proof.
  apply (X8_wrapper_freed_and_made_anew my_class_shared 3 some_other_instance ∅ wrapped_once
           weak_inv_wrapped_once); by vm_compute.
Defined.

(** ** Member functions, getters and setters of a native class *)

Section Members.
Context `{Conversions}.
Variable JS_Call : JSContext -> JSValue -> JSValue -> list JSValue -> M JSValue.

(** [classes::invoke_member]; [Func] is the member function, given the
    instance it is called on. *)
Definition invoke_member (cdef : class_definition) (Func : void_ptr -> args -> nprog)
    (ctx : JSContext) (this_val : JSValue) (argv : list JSValue) : M JSValue :=
  st ← get_state;
  match JS_GetOpaque st this_val (id cdef) with
  | Some raw =>
      try_catch
        (let a := args_ctor ctx 0 this_val argv in
         ret ← run_nprog JS_Call (Func raw a);
         if valid ret then '(r, _) ← steal ret; mret r else mret JS_UNDEFINED)
        (closure_catch ctx)
  | None => mret JS_EXCEPTION
  end.

(** [classes::invoke_getter]. *)
Definition invoke_getter (cdef : class_definition) (Getter : void_ptr -> value -> nprog)
    (ctx : JSContext) (this_val : JSValue) : M JSValue :=
  st ← get_state;
  match JS_GetOpaque st this_val (id cdef) with
  | Some raw =>
      try_catch
        (this ← value_ctor (Some ctx) this_val;
         ret ← run_nprog JS_Call (Getter raw this);
         if valid ret then '(r, _) ← steal ret; mret r else mret JS_UNDEFINED)
        (closure_catch ctx)
  | None => mret JS_EXCEPTION
  end.

(** [classes::invoke_setter]. *)
Definition invoke_setter (cdef : class_definition)
    (Setter : void_ptr -> value -> value -> nprog)
    (ctx : JSContext) (this_val val : JSValue) : M JSValue :=
  st ← get_state;
  match JS_GetOpaque st this_val (id cdef) with
  | Some raw =>
      try_catch
        (this ← value_ctor (Some ctx) this_val;
         v ← value_ctor (Some ctx) val;
         _ ← run_nprog JS_Call (Setter raw this v);
         mret JS_UNDEFINED)
        (closure_catch ctx)
  | None => mret JS_EXCEPTION
  end.

(** X9: called on a receiver that holds no instance of the class (a
    plain object, an object of another class, an object whose
    construction failed), a member function, a getter and a setter
    return the exception marker without throwing anything: the state is
    untouched, so the host boundary raises its exception with whatever
    the engine's pending-exception slot held before the call. *)
Theorem X9_member_on_foreign_receiver (cdef : class_definition)
    (Func : void_ptr -> args -> nprog) (Getter : void_ptr -> value -> nprog)
    (Setter : void_ptr -> value -> value -> nprog)
    (ctx : JSContext) (this_val val : JSValue) (argv : list JSValue)
    (c : context) (st : state) :
  JS_GetOpaque st this_val (id cdef) = None ->
  JS_GetContextOpaque st ctx = Some c -> excpt_ c = None ->
  invoke_member cdef Func ctx this_val argv st = (Ok JS_EXCEPTION, st)
  /\ invoke_getter cdef Getter ctx this_val st = (Ok JS_EXCEPTION, st)
  /\ invoke_setter cdef Setter ctx this_val val st = (Ok JS_EXCEPTION, st)
  /\ exists st',
       (r ← invoke_member cdef Func ctx this_val argv;
        check_throw (mk_value (Some ctx) r) true) st
       = (Thrown (if (1 <? clevel_ c)%Z
                  then throw_exception (mk_value (Some ctx) (current_exception st))
                  else value_exception (mk_value (Some ctx) (current_exception st))), st').
Proof.
  intros Hraw Hc He.
  assert (Hm : invoke_member cdef Func ctx this_val argv st = (Ok JS_EXCEPTION, st)).
  { unfold invoke_member. rewrite (bind_Ok get_state _ st st st) by done. by rewrite Hraw. }
  split; [done|]. split; [|split].
  - unfold invoke_getter. rewrite (bind_Ok get_state _ st st st) by done. by rewrite Hraw.
  - unfold invoke_setter. rewrite (bind_Ok get_state _ st st st) by done. by rewrite Hraw.
  - eexists. rewrite (bind_Ok _ _ _ _ _ Hm).
    rewrite (check_throw_run _ _ _ _ _ Hc). rewrite He. simpl.
    by destruct (1 <? clevel_ c)%Z.
Qed.

End Members.

(** A method of [my_class] called on the global object. *)
Lemma X9_member_on_foreign_receiver_witness :
  invoke_member (JS_Call 1) my_class (fun _ a => NReturn (this_ a)) the_ctx (JS_OBJECT 0) []
    registered = (Ok JS_EXCEPTION, registered)
  /\ invoke_getter (JS_Call 1) my_class (fun _ this => NReturn this) the_ctx (JS_OBJECT 0)
       registered = (Ok JS_EXCEPTION, registered)
  /\ invoke_setter (JS_Call 1) my_class (fun _ _ _ => NReturn value_default) the_ctx
       (JS_OBJECT 0) JS_NULL registered = (Ok JS_EXCEPTION, registered)
  /\ exists st',
       (r ← invoke_member (JS_Call 1) my_class (fun _ a => NReturn (this_ a)) the_ctx
              (JS_OBJECT 0) [];
        check_throw (mk_value (Some the_ctx) r) true) registered
       = (Thrown (if (1 <? clevel_ registered_context)%Z
                  then throw_exception (mk_value (Some the_ctx) (current_exception registered))
                  else value_exception (mk_value (Some the_ctx) (current_exception registered))),
          st').
Proof.
  apply (X9_member_on_foreign_receiver (JS_Call 1) my_class); by vm_compute.
Defined.

(** ** Conversions that throw *)

(** X10: on a valid value each throwing conversion returns what the
    engine's conversion gives and otherwise raises [value_exception],
    [as_int32], [as_uint32], [as_int64] and [as_string] with the message
    that names their type, and [as_bool] with the message of [as_int32],
    "not a int32 value"; the state is left alone either way. *)
Theorem X10_throwing_conversions `{Conversions} (v : value) (st : state) :
  valid v = true ->
  as_bool v st
  = (if (JS_ToBool st (val_ v) <? 0)%Z
     then (Thrown (value_exception_msg "not a int32 value"), st)
     else (Ok (negb (JS_ToBool st (val_ v) =? 0)%Z), st))
  /\ as_int32 v st
     = match JS_ToInt32 st (val_ v) with
       | Some i => (Ok i, st)
       | None => (Thrown (value_exception_msg "not a int32 value"), st)
       end
  /\ as_uint32 v st
     = match JS_ToUint32 st (val_ v) with
       | Some i => (Ok i, st)
       | None => (Thrown (value_exception_msg "not a uint32 value"), st)
       end
  /\ as_int64 v st
     = match JS_ToInt64 st (val_ v) with
       | Some i => (Ok i, st)
       | None => (Thrown (value_exception_msg "not a int64 value"), st)
       end
  /\ as_string v st
     = match JS_ToCString st (val_ v) with
       | Some s => (Ok s, st)
       | None => (Thrown (value_exception_msg "not a string value"), st)
       end.
Proof.
  unfold valid. intros Hv. destruct (ctx_ v) as [c|] eqn:Hc; [|done].
  unfold as_bool, as_int32, as_uint32, as_int64, as_string, as_bool_out, as_int32_out,
    as_uint32_out, as_int64_out, as_string_out, as_cstring, validate, valid.
  munfold. rewrite Hc. simpl. repeat split.
  - by destruct (JS_ToBool st (val_ v) <? 0)%Z.
  - by destruct (JS_ToInt32 st (val_ v)).
  - by destruct (JS_ToUint32 st (val_ v)).
  - by destruct (JS_ToInt64 st (val_ v)).
  - by destruct (JS_ToCString st (val_ v)).
Qed.

(** The exception marker converts to nothing. *)
Lemma X10_throwing_conversions_witness :
  as_bool (in_ctx JS_EXCEPTION) (example_state ∅ 0 0)
  = (Thrown (value_exception_msg "not a int32 value"), example_state ∅ 0 0)
  /\ as_string (in_ctx (JS_STRING "text")) (example_state ∅ 0 0)
     = (Ok "text", example_state ∅ 0 0).
Proof.
  destruct (X10_throwing_conversions (in_ctx JS_EXCEPTION) (example_state ∅ 0 0) eq_refl)
    as (Hbool & _).
  destruct (X10_throwing_conversions (in_ctx (JS_STRING "text")) (example_state ∅ 0 0) eq_refl)
    as (_ & _ & _ & _ & Hstring).
  split; [exact Hbool|exact Hstring].
Defined.

(** * Lifetime tracking: the invariant of the tracking structure

    What the operations of [value] and [context] of [Tracker] keep. *)
Module Lifetime.
Import Tracker.

(** The tracking structure is sound: the [owner_] of a value is a live
    context object that has the value in its list, an entry of a list is
    a live value whose [owner_] is that context, no list has an entry
    twice, and the opaque pointer of an engine context is the live context
    object that holds it. *)
Record wf (h : host) : Prop := mk_wf {
  wf_owner : forall a v c,
    values h !! a = Some v -> v_owner_ v = Some c ->
    exists co, contexts h !! c = Some co /\ a ∈ values_ co;
  wf_linked : forall c co a,
    contexts h !! c = Some co -> a ∈ values_ co ->
    exists v, values h !! a = Some v /\ v_owner_ v = Some c;
  wf_nodup : forall c co, contexts h !! c = Some co -> NoDup (values_ co);
  wf_engine : forall j c,
    engine_contexts h !! j = Some (Some c) ->
    exists co, contexts h !! c = Some co /\ c_ctx_ co = Some j
}.

Lemma wf_set_handle (a : nat) (hdl : value) (h : host) : wf h -> wf (set_handle a hdl h).
Proof.
  intros [Howner Hlinked Hnodup Hengine]. split; unfold set_handle; simpl.
  - intros a' v c. destruct (decide (a' = a)) as [->|Hne].
    + rewrite lookup_alter_eq. destruct (values h !! a) as [v0|] eqn:Ha; [|done].
      simpl. intros [= <-]. simpl. by apply Howner.
    + rewrite lookup_alter_ne by done. apply Howner.
  - intros c co a' Hc Hin. destruct (Hlinked _ _ _ Hc Hin) as (v & Hv & Ho).
    destruct (decide (a' = a)) as [->|Hne].
    + rewrite lookup_alter_eq, Hv. simpl. by eexists.
    + rewrite lookup_alter_ne by done. by exists v.
  - exact Hnodup.
  - exact Hengine.
Qed.

Lemma wf_value_untrack (a : nat) (h : host) : wf h -> wf (value_untrack a h).
Proof.
  intros Hwf. unfold value_untrack.
  destruct (values h !! a) as [v|] eqn:Ha; [|done].
  destruct (v_owner_ v) as [c0|] eqn:Ho; [|done].
  destruct Hwf as [Howner Hlinked Hnodup Hengine].
  split; unfold unlink_value; simpl.
  - intros a' v' c. destruct (decide (a' = a)) as [->|Hne].
    + rewrite lookup_insert_eq. by intros [= <-].
    + rewrite lookup_insert_ne by done. intros Hv' Ho'.
      destruct (Howner _ _ _ Hv' Ho') as (co & Hc & Hin).
      eexists. rewrite lookup_fmap, Hc. split; [done|]. simpl.
      apply list_elem_of_filter. done.
  - intros c co' a'. rewrite lookup_fmap.
    destruct (contexts h !! c) as [co|] eqn:Hc; [|done].
    simpl. intros [= <-]. simpl. intros [Hne Hin]%list_elem_of_filter.
    rewrite lookup_insert_ne by done. by apply (Hlinked c co).
  - intros c co'. rewrite lookup_fmap.
    destruct (contexts h !! c) as [co|] eqn:Hc; [|done].
    simpl. intros [= <-]. simpl. apply NoDup_filter. by apply (Hnodup c).
  - intros j c Hj. destruct (Hengine _ _ Hj) as (co & Hc & Hctx).
    eexists. rewrite lookup_fmap, Hc. done.
Qed.

(** Linking an unowned value into the list of the context object [c]. *)
Lemma wf_link (a c : nat) (v : value_object) (co : context_object) (h : host) :
  wf h -> values h !! a = Some v -> v_owner_ v = None -> contexts h !! c = Some co ->
  wf (set_contexts
        (alter (fun co => mk_context_object (c_ctx_ co) (c_owner_ co) (a :: values_ co)) c)
        (set_values <[a := mk_value_object (Some c) (v_handle v)]> h)).
Proof.
  intros [Howner Hlinked Hnodup Hengine] Ha Ho Hc.
  assert (Hfree : forall c' co', contexts h !! c' = Some co' -> a ∉ values_ co').
  { intros c' co' Hc' Hin. destruct (Hlinked _ _ _ Hc' Hin) as (v' & Hv' & Ho').
    rewrite Ha in Hv'. inversion Hv'; subst. congruence. }
  split; simpl.
  - intros a' v' c'. destruct (decide (a' = a)) as [->|Hne].
    + rewrite lookup_insert_eq. intros [= <-]. simpl. intros [= <-].
      eexists. rewrite lookup_alter_eq, Hc. split; [done|]. simpl. by left.
    + rewrite lookup_insert_ne by done. intros Hv' Ho'.
      destruct (Howner _ _ _ Hv' Ho') as (co' & Hc' & Hin).
      destruct (decide (c' = c)) as [->|Hnc].
      * rewrite Hc in Hc'. inversion Hc'; subst co'.
        eexists. rewrite lookup_alter_eq, Hc. split; [done|]. simpl. by right.
      * exists co'. by rewrite lookup_alter_ne.
  - intros c' co' a'. destruct (decide (c' = c)) as [->|Hnc].
    + rewrite lookup_alter_eq, Hc. simpl. intros [= <-]. simpl.
      intros [->|Hin]%elem_of_cons.
      * rewrite lookup_insert_eq. by eexists.
      * assert (a' <> a) by (intros ->; by apply (Hfree c co)).
        rewrite lookup_insert_ne by done. by apply (Hlinked c co).
    + rewrite lookup_alter_ne by done. intros Hc' Hin.
      assert (a' <> a) by (intros ->; by apply (Hfree c' co')).
      rewrite lookup_insert_ne by done. by apply (Hlinked c' co').
  - intros c' co'. destruct (decide (c' = c)) as [->|Hnc].
    + rewrite lookup_alter_eq, Hc. simpl. intros [= <-]. simpl.
      apply NoDup_cons. split; [by apply (Hfree c co)|by apply (Hnodup c)].
    + rewrite lookup_alter_ne by done. apply Hnodup.
  - intros j c' Hj. destruct (Hengine _ _ Hj) as (co' & Hc' & Hctx).
    destruct (decide (c' = c)) as [->|Hnc].
    + rewrite Hc in Hc'. inversion Hc'; subst co'.
      eexists. rewrite lookup_alter_eq, Hc. done.
    + exists co'. by rewrite lookup_alter_ne.
Qed.

Lemma wf_value_track (a : nat) (h h' : host) :
  wf h -> value_track a h = Some h' -> wf h'.
Proof.
  intros Hwf. unfold value_track.
  destruct (values h !! a) as [v|] eqn:Ha; [|done].
  destruct (v_owner_ v) as [c0|] eqn:Ho; [by intros [= <-]|].
  destruct (ctx_ (v_handle v)) as [j|]; [|by intros [= <-]].
  destruct (engine_contexts h !! j) as [[c|]|] eqn:Hj; try done.
  intros [= <-]. destruct (wf_engine _ Hwf _ _ Hj) as (co & Hc & _).
  by apply (wf_link a c v co).
Qed.

Lemma value_untrack_owner (a : nat) (h : host) (v : value_object) :
  values (value_untrack a h) !! a = Some v -> v_owner_ v = None.
Proof.
  unfold value_untrack. destruct (values h !! a) as [v0|] eqn:Ha; [|by rewrite Ha].
  destruct (v_owner_ v0) as [c|] eqn:Ho.
  - simpl. rewrite lookup_insert_eq. by intros [= <-].
  - rewrite Ha. by intros [= <-].
Qed.

Lemma value_untrack_lookup (a b : nat) (h : host) :
  v_handle <$> values (value_untrack a h) !! b = v_handle <$> values h !! b.
Proof.
  unfold value_untrack. destruct (values h !! a) as [v0|] eqn:Ha; [|done].
  destruct (v_owner_ v0) as [c|]; [|done]. simpl.
  destruct (decide (b = a)) as [->|Hne].
  - by rewrite lookup_insert_eq, Ha.
  - by rewrite lookup_insert_ne.
Qed.

Lemma value_untrack_engine (a : nat) (h : host) :
  engine_contexts (value_untrack a h) = engine_contexts h.
Proof.
  unfold value_untrack. destruct (values h !! a) as [v0|]; [|done].
  by destruct (v_owner_ v0).
Qed.

Lemma wf_value_track_from (a from : nat) (h h' : host) :
  wf h -> value_track_from a from h = Some h' -> wf h'.
Proof.
  intros Hwf. unfold value_track_from.
  pose proof (wf_value_untrack a _ (wf_value_untrack from _ Hwf)) as Hwf2.
  destruct (values (value_untrack a (value_untrack from h)) !! a) as [v|] eqn:Ha; [|done].
  destruct (ctx_ (v_handle v)) as [j|]; [|by intros [= <-]].
  destruct (engine_contexts _ !! j) as [[c|]|] eqn:Hj; try done.
  intros [= <-]. destruct (wf_engine _ Hwf2 _ _ Hj) as (co & Hc & _).
  apply (wf_link a c v co); try done.
  by apply (value_untrack_owner a (value_untrack from h) v).
Qed.

(** A new value object that nothing owns, at an address not in use. *)
Lemma wf_new_value (a : nat) (hdl : value) (h : host) :
  wf h -> values h !! a = None ->
  wf (set_values <[a := mk_value_object None hdl]> h).
Proof.
  intros [Howner Hlinked Hnodup Hengine] Ha. split; simpl.
  - intros a' v c. destruct (decide (a' = a)) as [->|Hne].
    + rewrite lookup_insert_eq. by intros [= <-].
    + rewrite lookup_insert_ne by done. apply Howner.
  - intros c co a' Hc Hin. destruct (Hlinked _ _ _ Hc Hin) as (v & Hv & Ho).
    assert (a' <> a) by (intros ->; by rewrite Ha in Hv).
    rewrite lookup_insert_ne by done. by exists v.
  - exact Hnodup.
  - exact Hengine.
Qed.

(** A value that nothing owns is in no list and may go. *)
Lemma wf_unowned (a : nat) (h : host) :
  wf h -> (forall v, values h !! a = Some v -> v_owner_ v = None) ->
  is_linked a h = false /\ wf (set_values (delete a) h).
Proof.
  intros [Howner Hlinked Hnodup Hengine] Ha.
  assert (Hfree : forall c co, contexts h !! c = Some co -> a ∉ values_ co).
  { intros c co Hc Hin. destruct (Hlinked _ _ _ Hc Hin) as (v & Hv & Ho).
    by rewrite (Ha _ Hv) in Ho. }
  split.
  - unfold is_linked. apply bool_decide_eq_false. intros (c & co & Hc & Hin).
    by apply (Hfree c co).
  - split; simpl.
    + intros a' v c [Hne Hv]%lookup_delete_Some. by apply Howner.
    + intros c co a' Hc Hin. destruct (Hlinked _ _ _ Hc Hin) as (v & Hv & Ho).
      assert (a' <> a) by (intros ->; by apply (Hfree c co)).
      exists v. by rewrite lookup_delete_ne.
    + exact Hnodup.
    + exact Hengine.
Qed.

Lemma value_abandon_untrack (a : nat) (h : host) :
  value_abandon a h = set_handle a value_default (value_untrack a h).
Proof.
  unfold value_abandon, value_untrack, set_handle.
  destruct (values h !! a) as [v|] eqn:Ha.
  - destruct (v_owner_ v) as [c|] eqn:Ho; unfold set_values, unlink_value, set_contexts; simpl;
      f_equal; apply map_eq; intros b; destruct (decide (b = a)) as [->|Hne];
      rewrite ?lookup_alter_eq, ?lookup_insert_eq, ?lookup_alter_ne, ?lookup_insert_ne,
        ?Ha by done; simpl; by rewrite ?Ho.
  - unfold set_values. destruct h as [vs cs l e n]. simpl in *. f_equal.
    apply map_eq. intros b. destruct (decide (b = a)) as [->|Hne].
    + by rewrite lookup_alter_eq, Ha.
    + by rewrite lookup_alter_ne.
Qed.

Lemma wf_value_abandon (a : nat) (h : host) : wf h -> wf (value_abandon a h).
Proof.
  intros Hwf. rewrite value_abandon_untrack.
  by apply wf_set_handle, wf_value_untrack.
Qed.

(** Two hosts whose value objects and engine contexts are the same and
    whose context objects differ at most in [owner_]. *)
Definition same_tracking (h h' : host) : Prop :=
  values h' = values h
  /\ engine_contexts h' = engine_contexts h
  /\ forall c, option_Forall2
                 (fun co' co => values_ co' = values_ co /\ c_ctx_ co' = c_ctx_ co)
                 (contexts h' !! c) (contexts h !! c).

Lemma wf_same_tracking (h h' : host) : same_tracking h h' -> wf h -> wf h'.
Proof.
  intros (Hvals & Heng & Hctx) [Howner Hlinked Hnodup Hengine].
  split; rewrite ?Hvals, ?Heng.
  - intros a v c Hv Ho. destruct (Howner _ _ _ Hv Ho) as (co & Hc & Hin).
    specialize (Hctx c). rewrite Hc in Hctx. inversion Hctx as [co' co0 [Hl _] Heq1|]; subst.
    exists co'. split; [done|]. by rewrite Hl.
  - intros c co' a Hc Hin. specialize (Hctx c). rewrite Hc in Hctx.
    inversion Hctx as [co1 co [Hl _] Heq1 Heq2|]; subst.
    apply (Hlinked c co); [done|]. by rewrite <- Hl.
  - intros c co' Hc. specialize (Hctx c). rewrite Hc in Hctx.
    inversion Hctx as [co1 co [Hl _] Heq1 Heq2|]; subst.
    rewrite Hl. by apply (Hnodup c).
  - intros j c Hj. destruct (Hengine _ _ Hj) as (co & Hc & Hcj).
    specialize (Hctx c). rewrite Hc in Hctx. inversion Hctx as [co' co0 [_ Hx] Heq1|]; subst.
    exists co'. split; [done|]. by rewrite Hx.
Qed.

Lemma same_tracking_refl (h : host) : same_tracking h h.
Proof.
  split; [done|]. split; [done|]. intros c.
  destruct (contexts h !! c); by constructor.
Qed.

Lemma same_tracking_context_untrack (a : nat) (h : host) :
  same_tracking h (context_untrack a h).
Proof.
  unfold context_untrack. destruct (contexts h !! a) as [co|] eqn:Ha;
    [|apply same_tracking_refl].
  destruct (c_owner_ co); [|apply same_tracking_refl].
  split; [done|]. split; [done|]. intros c. simpl.
  destruct (decide (c = a)) as [->|Hne].
  - rewrite lookup_insert_eq, Ha. by constructor.
  - rewrite lookup_insert_ne by done. destruct (contexts h !! c); by constructor.
Qed.

Lemma wf_value_copy_ctor (a other : nat) (h h' : host) :
  wf h -> values h !! a = None -> value_copy_ctor a other h = Some h' -> wf h'.
Proof.
  intros Hwf Ha. unfold value_copy_ctor.
  destruct (values h !! other) as [o|]; [|done].
  pose proof (wf_new_value a (mk_value (ctx_ (v_handle o)) (JS_INT 0)) h Hwf Ha) as Hwf1.
  destruct (valid (v_handle o)); [|by intros [= <-]].
  destruct (value_track a _) as [h2|] eqn:Htrack; [|done].
  simpl. intros [= <-]. apply wf_set_handle. by apply (wf_value_track a _ h2 Hwf1).
Qed.

Lemma wf_value_move_ctor (a from : nat) (h h' : host) :
  wf h -> values h !! a = None -> value_move_ctor a from h = Some h' -> wf h'.
Proof.
  intros Hwf Ha. unfold value_move_ctor.
  destruct (values h !! from) as [f|]; [|done].
  pose proof (wf_set_handle from value_default _ (wf_new_value a (v_handle f) h Hwf Ha))
    as Hwf2.
  destruct (valid (v_handle f)); [|by intros [= <-]].
  by apply wf_value_track_from.
Qed.

Lemma wf_value_copy_assign (a other : nat) (h h' : host) :
  wf h -> value_copy_assign a other h = Some h' -> wf h'.
Proof.
  intros Hwf. unfold value_copy_assign.
  destruct (decide (other = a)); [by intros [= <-]|].
  destruct (values h !! a) as [v|]; [|done].
  destruct (values h !! other) as [o|]; [|done].
  set (h1 := if valid (v_handle v) then value_untrack a h else h).
  assert (Hwf1 : wf h1) by (subst h1; destruct (valid (v_handle v)); [by apply wf_value_untrack|done]).
  pose proof (wf_set_handle a (mk_value (ctx_ (v_handle o)) (val_ (v_handle v))) h1 Hwf1)
    as Hwf2.
  destruct (valid (v_handle o)); [|intros [= <-]; by apply wf_set_handle].
  destruct (value_track a _) as [h3|] eqn:Htrack; [|done].
  simpl. intros [= <-]. apply wf_set_handle. by apply (wf_value_track a _ h3 Hwf2).
Qed.

Lemma wf_value_move_assign (a from : nat) (h h' : host) :
  wf h -> value_move_assign a from h = Some h' -> wf h'.
Proof.
  intros Hwf. unfold value_move_assign.
  destruct (decide (from = a)); [by intros [= <-]|].
  destruct (values h !! a) as [v|]; [|done].
  destruct (values h !! from) as [f|]; [|done].
  assert (Hfinish : forall h1, wf h1 ->
            wf (if valid (v_handle f)
                then value_untrack from
                       (set_handle from value_default (set_handle a (v_handle f) h1))
                else set_handle from value_default (set_handle a (v_handle f) h1))).
  { intros h1 Hwf1. destruct (valid (v_handle f));
      [apply wf_value_untrack|]; by do 2 apply wf_set_handle. }
  destruct (valid (v_handle v)).
  - simpl. intros [= <-]. apply Hfinish.
    destruct (valid (v_handle f)); [done|by apply wf_value_untrack].
  - destruct (valid (v_handle f)) eqn:Hf.
    + destruct (value_track a h) as [h1|] eqn:Htrack; [|done].
      simpl. intros [= <-].
      exact (Hfinish h1 (wf_value_track a h h1 Hwf Htrack)).
    + simpl. intros [= <-]. exact (Hfinish h Hwf).
Qed.

Lemma wf_value_steal (a : nat) (h : host) : wf h -> wf (value_steal a h).
Proof.
  intros Hwf. unfold value_steal. destruct (value_valid h a); [by apply wf_set_handle|done].
Qed.

(** The destructor's assertion holds, and the tracking stays sound. *)
Lemma wf_value_dtor (a : nat) (h : host) :
  wf h -> exists h', value_dtor a h = Some h' /\ wf h' /\ values h' !! a = None.
Proof.
  intros Hwf. unfold value_dtor.
  destruct (wf_unowned a (value_untrack a h) (wf_value_untrack a h Hwf)
              (value_untrack_owner a h)) as [-> Hwf'].
  eexists. split; [done|]. split; [done|]. simpl. by rewrite lookup_delete_eq.
Qed.

(** Hosts with the same value objects and the same lists. *)
Definition same_links (h h' : host) : Prop :=
  values h' = values h
  /\ forall c, option_Forall2 (fun co' co => values_ co' = values_ co)
                 (contexts h' !! c) (contexts h !! c).

Lemma wf_same_links (h h' : host) :
  same_links h h' ->
  (forall j c, engine_contexts h' !! j = Some (Some c) ->
               exists co, contexts h' !! c = Some co /\ c_ctx_ co = Some j) ->
  wf h -> wf h'.
Proof.
  intros (Hvals & Hctx) Hengine' [Howner Hlinked Hnodup _].
  split; rewrite ?Hvals; [| | |done].
  - intros a v c Hv Ho. destruct (Howner _ _ _ Hv Ho) as (co & Hc & Hin).
    specialize (Hctx c). rewrite Hc in Hctx. inversion Hctx as [co' co0 Hl Heq1|]; subst.
    exists co'. split; [done|]. by rewrite Hl.
  - intros c co' a Hc Hin. specialize (Hctx c). rewrite Hc in Hctx.
    inversion Hctx as [co1 co Hl Heq1 Heq2|]; subst.
    apply (Hlinked c co); [done|]. by rewrite <- Hl.
  - intros c co' Hc. specialize (Hctx c). rewrite Hc in Hctx.
    inversion Hctx as [co1 co Hl Heq1 Heq2|]; subst.
    rewrite Hl. by apply (Hnodup c).
Qed.

Lemma wf_context_abandon (c : nat) (h : host) : wf h -> wf (context_abandon c h).
Proof.
  intros Hwf. unfold context_abandon.
  destruct (contexts h !! c) as [co|] eqn:Hc; [|done].
  set (h1 := match c_ctx_ co with
             | Some j =>
                 set_engine_contexts (delete j)
                   (set_contexts <[c := mk_context_object None (c_owner_ co) (values_ co)]> h)
             | None => h
             end).
  assert (Hwf1 : wf h1).
  { subst h1. destruct (c_ctx_ co) as [j|] eqn:Hj; [|done].
    apply (wf_same_links h); [| |done].
    - split; [done|]. intros c'. simpl. destruct (decide (c' = c)) as [->|Hne].
      + rewrite lookup_insert_eq, Hc. by constructor.
      + rewrite lookup_insert_ne by done. destruct (contexts h !! c'); by constructor.
    - simpl. intros j' c' [Hne Hj']%lookup_delete_Some.
      destruct (wf_engine _ Hwf _ _ Hj') as (co' & Hc' & Hx).
      assert (c' <> c) by (intros ->; rewrite Hc in Hc'; congruence).
      exists co'. by rewrite lookup_insert_ne. }
  destruct (c_owner_ co); [|done].
  apply (wf_same_tracking h1); [|done].
  split; [done|]. split; [done|]. intros c'. simpl.
  destruct (decide (c' = c)) as [->|Hne].
  - rewrite lookup_alter_eq. destruct (contexts h1 !! c); by constructor.
  - rewrite lookup_alter_ne by done. destruct (contexts h1 !! c'); by constructor.
Qed.

Lemma wf_runtime_dtor (h : host) : wf h -> wf (runtime_dtor h).
Proof.
  unfold runtime_dtor, for_each. generalize (contexts_ h). intros l. revert h.
  induction l as [|c l IH]; intros h Hwf; [done|].
  simpl. by apply IH, wf_context_abandon.
Qed.

(** What abandoning values leaves of a context object: the same object
    with a sublist of its entries. *)
Lemma value_abandon_context (a c : nat) (h : host) :
  engine_contexts (value_abandon a h) = engine_contexts h
  /\ option_Forall2
       (fun co' co => c_ctx_ co' = c_ctx_ co /\ c_owner_ co' = c_owner_ co
                      /\ values_ co' ⊆ values_ co)
       (contexts (value_abandon a h) !! c) (contexts h !! c).
Proof.
  unfold value_abandon. destruct (values h !! a) as [v|].
  - destruct (v_owner_ v); simpl.
    + split; [done|]. rewrite lookup_fmap. destruct (contexts h !! c) as [co|]; constructor.
      simpl. split; [done|]. split; [done|].
      intros b [_ Hb]%list_elem_of_filter. done.
    + split; [done|]. destruct (contexts h !! c); by constructor.
  - split; [done|]. destruct (contexts h !! c); by constructor.
Qed.

Lemma for_each_value_abandon_context (l : list nat) (c : nat) (h : host) :
  engine_contexts (for_each l value_abandon h) = engine_contexts h
  /\ option_Forall2
       (fun co' co => c_ctx_ co' = c_ctx_ co /\ c_owner_ co' = c_owner_ co
                      /\ values_ co' ⊆ values_ co)
       (contexts (for_each l value_abandon h) !! c) (contexts h !! c).
Proof.
  unfold for_each. revert h. induction l as [|a l IH]; intros h; simpl.
  - split; [done|]. destruct (contexts h !! c); by constructor.
  - destruct (IH (value_abandon a h)) as [He Hc].
    destruct (value_abandon_context a c h) as [He1 Hc1].
    split; [congruence|].
    clear IH.
    destruct Hc as [co2 co1 (H1 & H2 & H3)|]; inversion Hc1 as [co1' co (H4 & H5 & H6)|];
      simplify_eq; constructor.
    split; [congruence|]. split; [congruence|]. intros b Hb. by apply H6, H3.
Qed.

Lemma wf_for_each_value_abandon (l : list nat) (h : host) :
  wf h -> wf (for_each l value_abandon h).
Proof.
  unfold for_each. revert h. induction l as [|a l IH]; intros h Hwf; [done|].
  simpl. by apply IH, wf_value_abandon.
Qed.

Lemma value_abandon_unowned (a b : nat) (h : host) :
  b = a \/ (forall v, values h !! b = Some v -> v_owner_ v = None) ->
  forall v, values (value_abandon a h) !! b = Some v -> v_owner_ v = None.
Proof.
  intros Hb v. unfold value_abandon. destruct (values h !! a) as [v0|] eqn:Ha.
  - destruct (decide (b = a)) as [->|Hne].
    + destruct (v_owner_ v0); simpl; rewrite lookup_insert_eq; by intros [= <-].
    + destruct Hb as [->|Hb]; [done|].
      destruct (v_owner_ v0); simpl; rewrite lookup_insert_ne by done; apply Hb.
  - destruct Hb as [->|Hb]; [by rewrite Ha|apply Hb].
Qed.

Lemma for_each_value_abandon_unowned (l : list nat) (b : nat) (h : host) :
  b ∈ l \/ (forall v, values h !! b = Some v -> v_owner_ v = None) ->
  forall v, values (for_each l value_abandon h) !! b = Some v -> v_owner_ v = None.
Proof.
  unfold for_each. revert h. induction l as [|a l IH]; intros h; simpl.
  - intros [Hin|Hb]; [by apply elem_of_nil in Hin|done].
  - intros [Hin|Hb].
    + apply elem_of_cons in Hin as [->|Hin].
      * apply IH. right. apply value_abandon_unowned. by left.
      * apply IH. by left.
    + apply IH. right. apply value_abandon_unowned. by right.
Qed.

Lemma wf_context_dtor (c : nat) (h : host) : wf h -> wf (context_dtor c h).
Proof.
  intros Hwf. unfold context_dtor.
  destruct (contexts h !! c) as [co|] eqn:Hc; [|done].
  set (h1 := for_each (values_ co) value_abandon h).
  pose proof (wf_for_each_value_abandon (values_ co) h Hwf) as Hwf1. fold h1 in Hwf1.
  destruct (for_each_value_abandon_context (values_ co) c h) as [Heng1 Hc1].
  fold h1 in Heng1, Hc1. rewrite Hc in Hc1.
  inversion Hc1 as [co1 co0 (Hx1 & Ho1 & Hl1) Heq1 Heq2|]; subst co0. symmetry in Heq1.
  assert (Hempty : forall a, a ∉ values_ co1).
  { intros a Hin. destruct (wf_linked _ Hwf1 _ _ _ Heq1 Hin) as (v & Hv & Ho).
    rewrite (for_each_value_abandon_unowned (values_ co) a h (or_introl (Hl1 _ Hin)) v Hv)
      in Ho. done. }
  set (h2 := context_untrack c h1).
  pose proof (same_tracking_context_untrack c h1) as Hsame. fold h2 in Hsame.
  pose proof (wf_same_tracking _ _ Hsame Hwf1) as Hwf2.
  destruct Hsame as (Hvals2 & Heng2 & Hctx2).
  pose proof (Hctx2 c) as Hc2. rewrite Heq1 in Hc2.
  inversion Hc2 as [co2 co0 (Hl2 & Hx2) Heq3 Heq4|]; subst co0. symmetry in Heq3.
  set (h3 := match c_ctx_ co with
             | Some j => set_engine_contexts (delete j) h2
             | None => h2
             end).
  assert (H3 : values h3 = values h2 /\ contexts h3 = contexts h2
               /\ forall j c', engine_contexts h3 !! j = Some (Some c') ->
                    engine_contexts h2 !! j = Some (Some c') /\ c_ctx_ co <> Some j).
  { subst h3. destruct (c_ctx_ co) as [j|]; simpl.
    - split; [done|]. split; [done|]. intros j' c' [Hne Hj]%lookup_delete_Some.
      split; [done|]. congruence.
    - split; [done|]. split; [done|]. intros j' c' Hj. done. }
  destruct H3 as (Hvals3 & Hctx3 & Heng3).
  destruct Hwf2 as [Howner Hlinked Hnodup Hengine].
  split; simpl; rewrite ?Hvals3, ?Hctx3.
  - intros a v c' Hv Ho. destruct (Howner _ _ _ Hv Ho) as (co' & Hc' & Hin).
    assert (c' <> c).
    { intros ->. rewrite Heq3 in Hc'. inversion Hc'; subst co'.
      rewrite Hl2 in Hin. by apply (Hempty a). }
    exists co'. by rewrite lookup_delete_ne.
  - intros c' co' a [Hne Hc']%lookup_delete_Some Hin. by apply (Hlinked c' co').
  - intros c' co' [Hne Hc']%lookup_delete_Some. by apply (Hnodup c').
  - intros j c' Hj. destruct (Heng3 _ _ Hj) as [Hj2 Hnj].
    destruct (Hengine _ _ Hj2) as (co' & Hc' & Hx).
    assert (c' <> c).
    { intros ->. rewrite Heq3 in Hc'. inversion Hc'; subst co'. congruence. }
    exists co'. by rewrite lookup_delete_ne.
Qed.

Lemma same_tracking_context_track (a : nat) (h : host) :
  same_tracking h (context_track a h).
Proof.
  unfold context_track. destruct (contexts h !! a) as [co|] eqn:Ha;
    [|apply same_tracking_refl].
  destruct (c_owner_ co); [apply same_tracking_refl|].
  destruct (c_ctx_ co) eqn:Hx; [|apply same_tracking_refl].
  split; [done|]. split; [done|]. intros c. simpl.
  destruct (decide (c = a)) as [->|Hne].
  - rewrite lookup_insert_eq, Ha. by constructor.
  - rewrite lookup_insert_ne by done. destruct (contexts h !! c); by constructor.
Qed.

Lemma same_tracking_trans (h1 h2 h3 : host) :
  same_tracking h1 h2 -> same_tracking h2 h3 -> same_tracking h1 h3.
Proof.
  intros (Hv1 & He1 & Hc1) (Hv2 & He2 & Hc2).
  split; [congruence|]. split; [congruence|]. intros c.
  specialize (Hc1 c). specialize (Hc2 c).
  destruct Hc2 as [co3 co2 [Ha Hb]|]; inversion Hc1 as [co2' co1 [Hc Hd]|]; simplify_eq;
    constructor. split; congruence.
Qed.

Lemma same_tracking_context_track_from (a from : nat) (h : host) :
  same_tracking h (context_track_from a from h).
Proof.
  unfold context_track_from.
  pose proof (same_tracking_trans _ _ _ (same_tracking_context_untrack from h)
                (same_tracking_context_untrack a (context_untrack from h))) as H2.
  revert H2. generalize (context_untrack a (context_untrack from h)). intros h2 H2.
  destruct (contexts h2 !! a) as [co|] eqn:Ha; [|done].
  destruct (c_ctx_ co) eqn:Hx; [|done].
  apply (same_tracking_trans _ h2); [done|].
  split; [done|]. split; [done|]. intros c. simpl.
  destruct (decide (c = a)) as [->|Hne].
  - rewrite lookup_insert_eq, Ha. by constructor.
  - rewrite lookup_insert_ne by done. destruct (contexts h2 !! c); by constructor.
Qed.

(** A new context object at an address not in use. *)
Lemma wf_context_default (a : nat) (h : host) :
  wf h -> contexts h !! a = None -> wf (context_default a h).
Proof.
  intros [Howner Hlinked Hnodup Hengine] Ha. split; unfold context_default; simpl.
  - intros b v c Hv Ho. destruct (Howner _ _ _ Hv Ho) as (co & Hc & Hin).
    assert (c <> a) by (intros ->; congruence).
    exists co. by rewrite lookup_insert_ne.
  - intros c co b. destruct (decide (c = a)) as [->|Hne].
    + rewrite lookup_insert_eq. intros [= <-]. simpl. by intros ?%elem_of_nil.
    + rewrite lookup_insert_ne by done. apply Hlinked.
  - intros c co. destruct (decide (c = a)) as [->|Hne].
    + rewrite lookup_insert_eq. intros [= <-]. simpl. constructor.
    + rewrite lookup_insert_ne by done. apply Hnodup.
  - intros j c Hj. destruct (Hengine _ _ Hj) as (co & Hc & Hx).
    assert (c <> a) by (intros ->; congruence).
    exists co. by rewrite lookup_insert_ne.
Qed.

Lemma wf_context_ctor (a own : nat) (h : host) :
  wf h -> contexts h !! a = None -> wf (context_ctor a own h).
Proof.
  intros [Howner Hlinked Hnodup Hengine] Ha. unfold context_ctor.
  apply (wf_same_tracking _ _ (same_tracking_context_track a _)).
  split; simpl.
  - intros b v c Hv Ho. destruct (Howner _ _ _ Hv Ho) as (co & Hc & Hin).
    assert (c <> a) by (intros ->; congruence).
    exists co. by rewrite lookup_insert_ne.
  - intros c co b. destruct (decide (c = a)) as [->|Hne].
    + rewrite lookup_insert_eq. intros [= <-]. simpl. by intros ?%elem_of_nil.
    + rewrite lookup_insert_ne by done. apply Hlinked.
  - intros c co. destruct (decide (c = a)) as [->|Hne].
    + rewrite lookup_insert_eq. intros [= <-]. simpl. constructor.
    + rewrite lookup_insert_ne by done. apply Hnodup.
  - intros j c. destruct (decide (j = next_ctx h)) as [->|Hne].
    + rewrite lookup_insert_eq. intros [= <-]. eexists. by rewrite lookup_insert_eq.
    + rewrite lookup_insert_ne by done. intros Hj.
      destruct (Hengine _ _ Hj) as (co & Hc & Hx).
      assert (c <> a) by (intros ->; congruence).
      exists co. by rewrite lookup_insert_ne.
Qed.

(** [ctx_ = std::move(from.ctx_)] with the opaque pointer set anew. *)
Lemma wf_move_ctx_ (a from : nat) (keep : option nat -> option nat -> option nat)
    (h : host) :
  a <> from -> wf h -> wf (move_ctx_ a from keep h).
Proof.
  intros Hne Hwf. unfold move_ctx_.
  destruct (contexts h !! a) as [ca|] eqn:Ha; [|done].
  destruct (contexts h !! from) as [f|] eqn:Hf; [|done].
  apply (wf_same_links h); [| |done].
  - split; [done|]. intros c. simpl.
    destruct (decide (c = a)) as [->|Hca].
    { rewrite lookup_insert_eq, Ha. by constructor. }
    rewrite lookup_insert_ne by done.
    destruct (decide (c = from)) as [->|Hcf].
    { rewrite lookup_insert_eq, Hf. by constructor. }
    rewrite lookup_insert_ne by done. destruct (contexts h !! c); by constructor.
  - simpl. intros j c Hj.
    assert (Hold : (c_ctx_ f = Some j /\ c = a)
                   \/ (c_ctx_ f <> Some j /\ c_ctx_ ca <> Some j
                       /\ engine_contexts h !! j = Some (Some c))).
    { destruct (c_ctx_ f) as [jf|] eqn:Hjf.
      - destruct (decide (j = jf)) as [->|Hnj].
        + rewrite lookup_insert_eq in Hj. left. split; [done|]. congruence.
        + rewrite lookup_insert_ne in Hj by done. right. split; [congruence|].
          destruct (c_ctx_ ca) as [old|].
          * apply lookup_delete_Some in Hj as [Hno Hj]. split; [congruence|done].
          * done.
      - right. split; [done|]. destruct (c_ctx_ ca) as [old|].
        + apply lookup_delete_Some in Hj as [Hno Hj]. split; [congruence|done].
        + done. }
    destruct Hold as [[Hjf ->]|(Hnf & Hna & Hj0)].
    + eexists. rewrite lookup_insert_eq. done.
    + destruct (wf_engine _ Hwf _ _ Hj0) as (co & Hc & Hx).
      assert (c <> a) by (intros ->; rewrite Ha in Hc; congruence).
      assert (c <> from) by (intros ->; rewrite Hf in Hc; congruence).
      exists co. by rewrite !lookup_insert_ne.
Qed.

Lemma wf_context_move_assign (a from : nat) (h : host) :
  wf h -> wf (context_move_assign a from h).
Proof.
  intros Hwf. unfold context_move_assign. destruct (decide (from = a)); [done|].
  apply (wf_same_tracking _ _ (same_tracking_context_track_from a from _)).
  by apply wf_move_ctx_.
Qed.

Lemma wf_context_move_ctor (a from : nat) (h : host) :
  wf h -> contexts h !! a = None -> wf (context_move_ctor a from h).
Proof.
  intros Hwf Ha. unfold context_move_ctor.
  apply (wf_same_tracking _ _ (same_tracking_context_track_from a from _)).
  destruct (decide (a = from)) as [->|Hne].
  - unfold move_ctx_, context_default. simpl. rewrite lookup_insert_eq.
    pose proof (wf_context_default from h Hwf Ha) as Hwf1.
    apply (wf_same_links (context_default from h)); [| |done].
    + split; [done|]. intros c. simpl.
      destruct (decide (c = from)) as [->|Hc].
      * rewrite !lookup_insert_eq. by constructor.
      * rewrite !lookup_insert_ne by done. destruct (contexts h !! c); by constructor.
    + simpl. intros j c Hj. destruct (wf_engine _ Hwf _ _ Hj) as (co & Hc & Hx).
      assert (c <> from) by (intros ->; congruence).
      exists co. by rewrite !lookup_insert_ne.
  - apply wf_move_ctx_; [done|]. by apply wf_context_default.
Qed.

Lemma wf_empty : wf (mk_host ∅ ∅ [] ∅ 1).
Proof. split; simpl; intros *; by rewrite lookup_empty. Qed.

(** What the host does with [value] and [context] objects, one
    operation at a time; a constructor builds at an address not in use. *)
Inductive lifetime_step : host -> host -> Prop :=
| step_value_default (a : nat) (h : host) :
    values h !! a = None -> lifetime_step h (value_default_ctor a h)
| step_value_ctor (a : nat) (ctx : JSContext) (x : JSValue) (h h' : host) :
    values h !! a = None -> value_ctor a ctx x h = Some h' -> lifetime_step h h'
| step_value_copy_ctor (a other : nat) (h h' : host) :
    values h !! a = None -> value_copy_ctor a other h = Some h' -> lifetime_step h h'
| step_value_move_ctor (a from : nat) (h h' : host) :
    values h !! a = None -> value_move_ctor a from h = Some h' -> lifetime_step h h'
| step_value_copy_assign (a other : nat) (h h' : host) :
    value_copy_assign a other h = Some h' -> lifetime_step h h'
| step_value_move_assign (a from : nat) (h h' : host) :
    value_move_assign a from h = Some h' -> lifetime_step h h'
| step_value_steal (a : nat) (h : host) : lifetime_step h (value_steal a h)
| step_value_dtor (a : nat) (h h' : host) :
    value_dtor a h = Some h' -> lifetime_step h h'
| step_context_default (a : nat) (h : host) :
    contexts h !! a = None -> lifetime_step h (context_default a h)
| step_context_ctor (a : nat) (h : host) :
    contexts h !! a = None -> lifetime_step h (context_ctor a the_runtime h)
| step_context_move_ctor (a from : nat) (h : host) :
    contexts h !! a = None -> lifetime_step h (context_move_ctor a from h)
| step_context_move_assign (a from : nat) (h : host) :
    lifetime_step h (context_move_assign a from h)
| step_context_dtor (c : nat) (h : host) : lifetime_step h (context_dtor c h)
| step_runtime_dtor (h : host) : lifetime_step h (runtime_dtor h).

Lemma wf_lifetime_step (h h' : host) : wf h -> lifetime_step h h' -> wf h'.
Proof.
  intros Hwf Hstep. destruct Hstep.
  - by apply wf_new_value.
  - unfold value_ctor in *. eapply wf_value_track; [|done]. by apply wf_new_value.
  - by eapply wf_value_copy_ctor.
  - by eapply wf_value_move_ctor.
  - by eapply wf_value_copy_assign.
  - by eapply wf_value_move_assign.
  - by apply wf_value_steal.
  - destruct (wf_value_dtor a h Hwf) as (h'' & Hd & Hwf' & _). congruence.
  - by apply wf_context_default.
  - by apply wf_context_ctor.
  - by apply wf_context_move_ctor.
  - by apply wf_context_move_assign.
  - by apply wf_context_dtor.
  - by apply wf_runtime_dtor.
Qed.

Lemma wf_lifetime_steps (h h' : host) : wf h -> rtc lifetime_step h h' -> wf h'.
Proof.
  intros Hwf Hsteps. induction Hsteps as [h|h h1 h2 Hstep Hsteps IH]; [done|].
  apply IH. by apply (wf_lifetime_step h).
Qed.


(** The fixture of the tests ([Tracker.fixture]), written out here to be
    followed step by step: [ctx_ = rt_.new_context()] moves from a
    temporary (address 11), and [g_ = ctx_.get_global_object()] moves
    from a temporary (address 21) into the default-constructed [g_]
    (address 20). *)
Definition set_up_context : host :=
  context_dtor 11
    (context_move_assign 10 11
       (context_ctor 11 the_runtime (context_default 10 (mk_host ∅ ∅ [] ∅ 1)))).

Definition set_up : option host :=
  h1 ← value_ctor 21 1 (JS_OBJECT 0) (value_default_ctor 20 set_up_context);
  h2 ← value_move_assign 20 21 h1;
  value_dtor 21 h2.

Lemma set_up_reached :
  exists h, set_up = Some h /\ rtc lifetime_step (mk_host ∅ ∅ [] ∅ 1) h.
Proof.
  eexists. split; [by vm_compute|].
  eapply rtc_l; [apply (step_context_default 10); by vm_compute|].
  eapply rtc_l; [apply (step_context_ctor 11); by vm_compute|].
  eapply rtc_l; [apply (step_context_move_assign 10 11)|].
  eapply rtc_l; [apply (step_context_dtor 11)|].
  eapply rtc_l; [apply (step_value_default 20); by vm_compute|].
  eapply rtc_l; [apply (step_value_ctor 21 1 (JS_OBJECT 0)); by vm_compute|].
  eapply rtc_l; [apply (step_value_move_assign 20 21); by vm_compute|].
  eapply rtc_l; [apply (step_value_dtor 21); by vm_compute|].
  vm_compute. apply rtc_refl.
Qed.


Lemma value_abandon_other (a b : nat) (h : host) :
  b <> a -> values (value_abandon a h) !! b = values h !! b.
Proof.
  intros Hne. unfold value_abandon. destruct (values h !! a) as [v|]; [|done].
  destruct (v_owner_ v); simpl; by rewrite lookup_insert_ne.
Qed.

Lemma for_each_value_abandon_other (l : list nat) (b : nat) (h : host) :
  b ∉ l -> values (for_each l value_abandon h) !! b = values h !! b.
Proof.
  unfold for_each. revert h. induction l as [|a l IH]; intros h Hb; [done|].
  simpl. apply not_elem_of_cons in Hb as [Hne Hb].
  rewrite IH by done. by apply value_abandon_other.
Qed.

(** A value that is in no list survives the destruction of any context
    and of the runtime as it is. *)
Lemma unlinked_value_survives (a c : nat) (h : host) :
  is_linked a h = false ->
  values (context_dtor c h) !! a = values h !! a
  /\ values (runtime_dtor h) !! a = values h !! a.
Proof.
  intros Hfree. split; [|by rewrite runtime_dtor_values].
  unfold context_dtor. destruct (contexts h !! c) as [co|] eqn:Hc; [|done].
  assert (Hnot : a ∉ values_ co).
  { intros Hin. unfold is_linked in Hfree. apply bool_decide_eq_false in Hfree.
    apply Hfree. by exists c, co. }
  assert (Hvals : forall h', values (context_untrack c h') = values h').
  { intros h'. unfold context_untrack.
    destruct (contexts h' !! c) as [c'|]; [|done]. by destruct (c_owner_ c'). }
  destruct (c_ctx_ co); simpl; rewrite Hvals; by apply for_each_value_abandon_other.
Qed.

(** X12: move-assigning a valid value into a value that holds nothing
    and is owned by no context (a default-constructed one) leaves the
    target valid but tracked by no context: [operator=(value&&)] calls
    [track()] while the target's [ctx_] is still null, which does
    nothing, and then unlinks the source.  Destroying the context, or
    the runtime, afterwards does not invalidate the target: it still
    reports [valid()]. *)
Theorem X12_move_assigned_value_untracked (a from : nat) (v f : value_object) (h : host) :
  wf h -> a <> from ->
  values h !! a = Some v -> valid (v_handle v) = false -> v_owner_ v = None ->
  values h !! from = Some f -> valid (v_handle f) = true ->
  exists h',
    value_move_assign a from h = Some h'
    /\ values h' !! a = Some (mk_value_object None (v_handle f))
    /\ value_valid h' from = false
    /\ is_linked a h' = false
    /\ forall c, value_valid (context_dtor c h') a = true
                 /\ value_valid (runtime_dtor h') a = true.
Proof.
  intros Hwf Hne Ha Hv Ho Hf Hfv.
  assert (Hrun : value_move_assign a from h
                 = Some (value_untrack from
                           (set_handle from value_default (set_handle a (v_handle f) h)))).
  { unfold value_move_assign. rewrite decide_False by done.
    rewrite Ha, Hf, Hv, Hfv. unfold value_track. rewrite Ha, Ho.
    unfold valid in Hv. by destruct (ctx_ (v_handle v)). }
  eexists. split; [exact Hrun|].
  set (h2 := set_handle from value_default (set_handle a (v_handle f) h)).
  assert (Hwf' : wf (value_untrack from h2)).
  { apply wf_value_untrack. by do 2 apply wf_set_handle. }
  assert (Ha2 : values h2 !! a = Some (mk_value_object None (v_handle f))).
  { subst h2. unfold set_handle. simpl.
    rewrite lookup_alter_ne, lookup_alter_eq, Ha by done. simpl. by rewrite Ho. }
  assert (Ha' : values (value_untrack from h2) !! a
                = Some (mk_value_object None (v_handle f))).
  { unfold value_untrack. destruct (values h2 !! from) as [f2|]; [|done].
    destruct (v_owner_ f2); [|done]. simpl. by rewrite lookup_insert_ne. }
  assert (Hfree : is_linked a (value_untrack from h2) = false).
  { apply wf_unowned; [done|]. intros v'. rewrite Ha'. by intros [= <-]. }
  split; [done|]. split; [|split; [done|]].
  - unfold value_valid.
    pose proof (value_untrack_lookup from from h2) as Hl.
    destruct (values (value_untrack from h2) !! from) as [f'|]; [|done].
    subst h2. unfold set_handle in Hl. simpl in Hl.
    rewrite lookup_alter_eq, lookup_alter_ne, Hf in Hl by done.
    inversion Hl as [Hh]. by rewrite Hh.
  - intros c. destruct (unlinked_value_survives a c _ Hfree) as [Hd Hr].
    unfold value_valid. by rewrite Hd, Hr, Ha'.
Qed.

(** [g_ = ctx_.get_global_object()] of the fixture. *)
Lemma X12_move_assigned_value_untracked_witness :
  exists h1 h',
    value_ctor 21 1 (JS_OBJECT 0) (value_default_ctor 20 set_up_context) = Some h1
    /\ value_move_assign 20 21 h1 = Some h'
    /\ values h' !! 20 = Some (mk_value_object None (mk_value (Some 1) (JS_OBJECT 0)))
    /\ value_valid h' 21 = false
    /\ is_linked 20 h' = false
    /\ forall c, value_valid (context_dtor c h') 20 = true
                 /\ value_valid (runtime_dtor h') 20 = true.
Proof.
  assert (Hreach : exists h1,
            value_ctor 21 1 (JS_OBJECT 0) (value_default_ctor 20 set_up_context) = Some h1
            /\ rtc lifetime_step (mk_host ∅ ∅ [] ∅ 1) h1
            /\ values h1 !! 20 = Some (mk_value_object None value_default)
            /\ values h1 !! 21
               = Some (mk_value_object (Some 10) (mk_value (Some 1) (JS_OBJECT 0)))).
  { eexists. split; [by vm_compute|]. split; [|by vm_compute].
    eapply rtc_l; [apply (step_context_default 10); by vm_compute|].
    eapply rtc_l; [apply (step_context_ctor 11); by vm_compute|].
    eapply rtc_l; [apply (step_context_move_assign 10 11)|].
    eapply rtc_l; [apply (step_context_dtor 11)|].
    eapply rtc_l; [apply (step_value_default 20); by vm_compute|].
    eapply rtc_l; [apply (step_value_ctor 21 1 (JS_OBJECT 0)); by vm_compute|].
    vm_compute. apply rtc_refl. }
  destruct Hreach as (h1 & Hh1 & Hsteps & H20 & H21).
  exists h1.
  destruct (X12_move_assigned_value_untracked 20 21 _ _ h1
              (wf_lifetime_steps _ _ wf_empty Hsteps)
              ltac:(lia) H20 eq_refl eq_refl H21 eq_refl) as (h' & Hrun & Hrest).
  exists h'. split; [exact Hh1|]. split; [exact Hrun|exact Hrest].
Defined.



Lemma context_abandon_invalid (c d : nat) (h : host) :
  d = c \/ context_valid h d = false -> context_valid (context_abandon c h) d = false.
Proof.
  intros Hd. unfold context_abandon, context_valid.
  destruct (contexts h !! c) as [co|] eqn:Hc.
  - destruct (decide (d = c)) as [->|Hne].
    + destruct (c_ctx_ co) as [j|] eqn:Hj, (c_owner_ co) as [o|] eqn:Ho; simpl;
        rewrite ?lookup_alter_eq, ?lookup_insert_eq, ?Hc; simpl; rewrite ?Hj, ?Ho; done.
    + destruct Hd as [->|Hd]; [done|]. unfold context_valid in Hd.
      destruct (c_ctx_ co) as [j|], (c_owner_ co) as [o|]; simpl;
        by rewrite ?lookup_alter_ne, ?lookup_insert_ne by done.
  - destruct Hd as [->|Hd]; [by rewrite Hc|done].
Qed.

Lemma context_abandon_freed (c : nat) (j : JSContext) (h : host) :
  (exists co, contexts h !! c = Some co /\ c_ctx_ co = Some j)
  \/ engine_contexts h !! j = None ->
  engine_contexts (context_abandon c h) !! j = None.
Proof.
  intros Hj. unfold context_abandon.
  destruct (contexts h !! c) as [co|] eqn:Hc.
  - destruct (c_ctx_ co) as [j0|] eqn:Hj0.
    + assert (Hdel : delete j0 (engine_contexts h) !! j = None).
      { destruct Hj as [(co' & [= <-] & Hx)|Hnone].
        - rewrite Hj0 in Hx. injection Hx as ->. by rewrite lookup_delete_eq.
        - apply lookup_delete_None. by right. }
      by destruct (c_owner_ co).
    + destruct Hj as [(co' & [= <-] & Hx)|Hnone]; [congruence|].
      by destruct (c_owner_ co).
  - by destruct Hj as [(co' & ? & _)|Hnone].
Qed.

(** X14: the destructor of the runtime abandons every context linked in
    [contexts_]: afterwards such a context is invalid and the engine
    context it held is freed. *)
Theorem X14_runtime_destruction_invalidates_contexts (c : nat) (co : context_object)
    (j : JSContext) (h : host) :
  c ∈ contexts_ h -> contexts h !! c = Some co -> c_ctx_ co = Some j ->
  context_valid (runtime_dtor h) c = false
  /\ engine_contexts (runtime_dtor h) !! j = None.
Proof.
  intros Hin Hc Hj. unfold runtime_dtor, for_each.
  assert (Hgen : forall l h0,
            (c ∈ l /\ contexts h0 !! c = Some co)
            \/ (context_valid h0 c = false /\ engine_contexts h0 !! j = None) ->
            context_valid (foldl (fun h1 a => context_abandon a h1) h0 l) c = false
            /\ engine_contexts (foldl (fun h1 a => context_abandon a h1) h0 l) !! j = None).
  { induction l as [|d l IH]; intros h0; simpl.
    - intros [[Hl _]|Hdone]; [by apply elem_of_nil in Hl|done].
    - intros [[Hl Hc0]|[Hv He]].
      + destruct (decide (d = c)) as [->|Hne].
        * apply IH. right. split.
          -- apply context_abandon_invalid. by left.
          -- apply context_abandon_freed. left. by exists co.
        * apply elem_of_cons in Hl as [->|Hl]; [done|].
          apply IH. left. split; [done|].
          unfold context_abandon. destruct (contexts h0 !! d) as [cd|] eqn:Hd; [|done].
          destruct (c_ctx_ cd), (c_owner_ cd); simpl;
            by rewrite ?lookup_alter_ne, ?lookup_insert_ne by done.
      + apply IH. right. split.
        * apply context_abandon_invalid. by right.
        * apply context_abandon_freed. by right. }
  apply Hgen. left. done.
Qed.

(** [ctx_] of the fixture. *)
Lemma X14_runtime_destruction_invalidates_contexts_witness :
  context_valid set_up_context 10 = true
  /\ context_valid (runtime_dtor set_up_context) 10 = false
  /\ engine_contexts (runtime_dtor set_up_context) !! 1 = None.
Proof.
  split; [by vm_compute|].
  apply (X14_runtime_destruction_invalidates_contexts 10
           (mk_context_object (Some 1) (Some the_runtime) []) 1 set_up_context).
  - apply (bool_decide_unpack _). by vm_compute.
  - by vm_compute.
  - reflexivity.
Defined.

(** X15: a context is linked into the runtime's list only by a move.
    The constructor that [runtime::new_context] calls sets [owner_]
    before [track()] runs, so [track()] does nothing and the new context
    is valid but not in [contexts_]; moving it into a default-constructed
    context ([ctx = rt.new_context()] with the temporary at [tmp]) links
    the target, points the engine context's opaque pointer at it, and
    leaves nothing of the temporary. *)
Theorem X15_context_linked_by_move (a tmp : nat) (d : context_object) (h : host) :
  tmp <> a -> contexts h !! tmp = None ->
  contexts h !! a = Some d -> c_ctx_ d = None -> c_owner_ d = None ->
  let in_place := context_ctor tmp the_runtime h in
  let moved := context_dtor tmp (context_move_assign a tmp in_place) in
  (context_valid in_place tmp = true /\ contexts_ in_place = contexts_ h)
  /\ context_valid moved a = true
  /\ contexts_ moved = a :: filter (fun b => b <> tmp) (contexts_ h)
  /\ engine_contexts moved !! next_ctx h = Some (Some a)
  /\ contexts moved !! tmp = None.
Proof.
  intros Hne Htmp Ha Hctx Hown in_place moved.
  assert (Hplace : in_place
                   = mk_host (values h)
                       (<[tmp := mk_context_object (Some (next_ctx h)) (Some the_runtime) []]>
                          (contexts h))
                       (contexts_ h) (<[next_ctx h := Some tmp]> (engine_contexts h))
                       (S (next_ctx h))).
  { subst in_place. unfold context_ctor, context_track. simpl.
    by rewrite lookup_insert_eq. }
  split.
  { rewrite Hplace. unfold context_valid. simpl. by rewrite lookup_insert_eq. }
  subst moved. rewrite Hplace. clear Hplace in_place.
  unfold context_move_assign. rewrite decide_False by done.
  unfold move_ctx_. simpl.
  rewrite lookup_insert_ne, Ha, lookup_insert_eq by done. simpl. rewrite Hctx, Hown.
  unfold context_track_from, context_untrack. simpl.
  rewrite lookup_insert_ne, lookup_insert_eq by done. simpl.
  rewrite lookup_insert_ne, lookup_insert_eq by done. simpl.
  rewrite lookup_insert_ne, lookup_insert_eq by done. simpl.
  unfold context_dtor, context_untrack, for_each. simpl.
  rewrite lookup_insert_ne, lookup_insert_eq by done. simpl.
  rewrite lookup_insert_ne, lookup_insert_eq by done. simpl.
  unfold context_valid. simpl.
  rewrite lookup_delete_eq, lookup_delete_ne, !lookup_insert_eq by done.
  done.
Qed.

(** [ctx_ = rt_.new_context()] of the fixture. *)
Lemma X15_context_linked_by_move_witness :
  (context_valid (context_ctor 11 the_runtime (context_default 10 (mk_host ∅ ∅ [] ∅ 1))) 11
   = true
   /\ contexts_ (context_ctor 11 the_runtime (context_default 10 (mk_host ∅ ∅ [] ∅ 1))) = [])
  /\ context_valid set_up_context 10 = true
  /\ contexts_ set_up_context = [10]
  /\ engine_contexts set_up_context !! 1 = Some (Some 10)
  /\ contexts set_up_context !! 11 = None.
Proof.
  exact (X15_context_linked_by_move 10 11 (mk_context_object None None [])
           (context_default 10 (mk_host ∅ ∅ [] ∅ 1))
           ltac:(lia) ltac:(vm_compute; reflexivity) ltac:(vm_compute; reflexivity)
           eq_refl eq_refl).
Defined.

(** ** The runtime's list of contexts *)

(** The [owner_] of the context object at [c]. *)
Definition owner_of (h : host) (c : nat) : option (option nat) :=
  c_owner_ <$> contexts h !! c.

(** The runtime's list is sound: every entry is a live context object
    whose [owner_] is set, and no entry is there twice.  (A live context
    whose [owner_] is set need not be an entry: see X15.) *)
Record wf_runtime (h : host) : Prop := mk_wf_runtime {
  wfr_listed : forall c, c ∈ contexts_ h -> exists own, owner_of h c = Some (Some own);
  wfr_nodup : NoDup (contexts_ h)
}.

(** The list and the owners of the listed contexts are kept. *)
Lemma wf_runtime_keep (h h' : host) :
  contexts_ h' = contexts_ h ->
  (forall c own, c ∈ contexts_ h -> owner_of h c = Some (Some own) ->
                 exists own', owner_of h' c = Some (Some own')) ->
  wf_runtime h -> wf_runtime h'.
Proof.
  intros Hlist Hown [Hlisted Hnodup]. split; rewrite Hlist; [|done].
  intros c Hc. destruct (Hlisted c Hc) as [own Ho]. by apply (Hown c own).
Qed.

(** The entry [a] leaves the list. *)
Lemma wf_runtime_unlink (a : nat) (h h' : host) :
  contexts_ h' = filter (fun b => b <> a) (contexts_ h) ->
  (forall c, c <> a -> owner_of h' c = owner_of h c) ->
  wf_runtime h -> wf_runtime h'.
Proof.
  intros Hlist Hown [Hlisted Hnodup]. split; rewrite Hlist.
  - intros c [Hne Hc]%list_elem_of_filter. rewrite Hown by done. by apply Hlisted.
  - by apply NoDup_filter.
Qed.

(** The context [a], which is in no list, is put first. *)
Lemma wf_runtime_link (a : nat) (h h' : host) :
  contexts_ h' = a :: contexts_ h -> a ∉ contexts_ h ->
  (exists own, owner_of h' a = Some (Some own)) ->
  (forall c, c <> a -> owner_of h' c = owner_of h c) ->
  wf_runtime h -> wf_runtime h'.
Proof.
  intros Hlist Hnew Ha Hown [Hlisted Hnodup]. split; rewrite Hlist.
  - intros c [->|Hc]%elem_of_cons; [done|].
    rewrite Hown by (intros ->; done). by apply Hlisted.
  - by apply NoDup_cons.
Qed.

(** A context whose [owner_] is not set is in no list. *)
Lemma wf_runtime_unowned (a : nat) (h : host) :
  wf_runtime h -> owner_of h a = None \/ owner_of h a = Some None -> a ∉ contexts_ h.
Proof.
  intros [Hlisted _] Ho Hin. destruct (Hlisted a Hin) as [own Hown].
  destruct Ho as [Ho|Ho]; congruence.
Qed.

(** The operations of [value] leave the list of contexts and the owner
    of every context as they are. *)
Definition same_listing (h h' : host) : Prop :=
  contexts_ h' = contexts_ h /\ forall c, owner_of h' c = owner_of h c.

Lemma same_listing_refl (h : host) : same_listing h h.
Proof. by split. Qed.

Lemma same_listing_trans (h1 h2 h3 : host) :
  same_listing h1 h2 -> same_listing h2 h3 -> same_listing h1 h3.
Proof.
  intros [Hl1 Ho1] [Hl2 Ho2]. split; [congruence|]. intros c. by rewrite Ho2, Ho1.
Qed.

Lemma wf_runtime_same_listing (h h' : host) :
  same_listing h h' -> wf_runtime h -> wf_runtime h'.
Proof.
  intros [Hlist Hown]. apply wf_runtime_keep; [done|].
  intros c own _ Ho. exists own. by rewrite Hown.
Qed.

Lemma same_listing_set_values (f : gmap nat value_object -> gmap nat value_object)
    (h : host) : same_listing h (set_values f h).
Proof. by split. Qed.

Lemma same_listing_unlink_value (a : nat) (h : host) : same_listing h (unlink_value a h).
Proof.
  split; [done|]. intros c. unfold owner_of, unlink_value. simpl.
  rewrite lookup_fmap. by destruct (contexts h !! c).
Qed.

Lemma same_listing_link_value (a c : nat) (h : host) :
  same_listing h
    (set_contexts
       (alter (fun co => mk_context_object (c_ctx_ co) (c_owner_ co) (a :: values_ co)) c) h).
Proof.
  split; [done|]. intros c'. unfold owner_of. simpl.
  destruct (decide (c' = c)) as [->|Hne].
  - rewrite lookup_alter_eq. by destruct (contexts h !! c).
  - by rewrite lookup_alter_ne.
Qed.

Lemma same_listing_set_handle (a : nat) (hdl : value) (h : host) :
  same_listing h (set_handle a hdl h).
Proof. apply same_listing_set_values. Qed.

Lemma same_listing_value_untrack (a : nat) (h : host) : same_listing h (value_untrack a h).
Proof.
  unfold value_untrack. destruct (values h !! a) as [v|]; [|apply same_listing_refl].
  destruct (v_owner_ v); [|apply same_listing_refl].
  apply (same_listing_trans _ (unlink_value a h));
    [apply same_listing_unlink_value|apply same_listing_set_values].
Qed.

Lemma same_listing_value_track (a : nat) (h h' : host) :
  value_track a h = Some h' -> same_listing h h'.
Proof.
  unfold value_track. destruct (values h !! a) as [v|]; [|done].
  destruct (v_owner_ v); [intros [= <-]; apply same_listing_refl|].
  destruct (ctx_ (v_handle v)) as [j|]; [|intros [= <-]; apply same_listing_refl].
  destruct (engine_contexts h !! j) as [[c|]|]; try done. intros [= <-].
  eapply same_listing_trans; [apply same_listing_set_values|apply same_listing_link_value].
Qed.

Lemma same_listing_value_track_from (a from : nat) (h h' : host) :
  value_track_from a from h = Some h' -> same_listing h h'.
Proof.
  unfold value_track_from.
  assert (Hh2 : same_listing h (value_untrack a (value_untrack from h))).
  { eapply same_listing_trans; apply same_listing_value_untrack. }
  revert Hh2. generalize (value_untrack a (value_untrack from h)). intros h2 Hh2.
  destruct (values h2 !! a) as [v|]; [|done].
  destruct (ctx_ (v_handle v)) as [j|]; [|by intros [= <-]].
  destruct (engine_contexts h2 !! j) as [[c|]|]; try done. intros [= <-].
  eapply same_listing_trans; [exact Hh2|].
  eapply same_listing_trans; [apply same_listing_set_values|apply same_listing_link_value].
Qed.

Lemma same_listing_value_abandon (a : nat) (h : host) : same_listing h (value_abandon a h).
Proof.
  unfold value_abandon. destruct (values h !! a) as [v|]; [|apply same_listing_refl].
  destruct (v_owner_ v).
  - apply (same_listing_trans _ (unlink_value a h));
      [apply same_listing_unlink_value|apply same_listing_set_values].
  - apply same_listing_set_values.
Qed.

Lemma same_listing_for_each_value_abandon (l : list nat) (h : host) :
  same_listing h (for_each l value_abandon h).
Proof.
  unfold for_each. revert h. induction l as [|a l IH]; intros h; simpl.
  - apply same_listing_refl.
  - eapply same_listing_trans; [apply same_listing_value_abandon|apply IH].
Qed.

(** Every operation of [value] that has a result keeps the listing. *)
Lemma same_listing_value_step (h h' : host) :
  (exists a, h' = value_default_ctor a h)
  \/ (exists a ctx x, value_ctor a ctx x h = Some h')
  \/ (exists a other, value_copy_ctor a other h = Some h')
  \/ (exists a from, value_move_ctor a from h = Some h')
  \/ (exists a other, value_copy_assign a other h = Some h')
  \/ (exists a from, value_move_assign a from h = Some h')
  \/ (exists a, h' = value_steal a h)
  \/ (exists a, value_dtor a h = Some h') ->
  same_listing h h'.
Proof.
  intros [[a ->]|[(a & ctx & x & Hrun)|[(a & other & Hrun)|[(a & from & Hrun)|
          [(a & other & Hrun)|[(a & from & Hrun)|[[a ->]|[a Hrun]]]]]]]].
  - apply same_listing_set_values.
  - unfold value_ctor in Hrun.
    eapply same_listing_trans; [apply same_listing_set_values|].
    by eapply same_listing_value_track.
  - unfold value_copy_ctor in Hrun. destruct (values h !! other) as [o|]; [|done].
    destruct (valid (v_handle o)).
    + destruct (value_track a _) as [h2|] eqn:Htrack; [|done]. simpl in Hrun.
      injection Hrun as <-.
      eapply same_listing_trans; [apply same_listing_set_values|].
      eapply same_listing_trans; [by eapply same_listing_value_track|].
      apply same_listing_set_handle.
    + injection Hrun as <-. apply same_listing_set_values.
  - unfold value_move_ctor in Hrun. destruct (values h !! from) as [f|]; [|done].
    assert (Hh2 : same_listing h
              (set_handle from value_default
                 (set_values <[a := mk_value_object None (v_handle f)]> h))).
    { eapply same_listing_trans; [apply same_listing_set_values|].
      apply same_listing_set_handle. }
    destruct (valid (v_handle f)).
    + eapply same_listing_trans; [exact Hh2|]. by eapply same_listing_value_track_from.
    + by injection Hrun as <-.
  - unfold value_copy_assign in Hrun. destruct (decide (other = a)).
    { injection Hrun as <-. apply same_listing_refl. }
    destruct (values h !! a) as [v|]; [|done].
    destruct (values h !! other) as [o|]; [|done].
    assert (Hh1 : same_listing h (if valid (v_handle v) then value_untrack a h else h)).
    { destruct (valid (v_handle v));
        [apply same_listing_value_untrack|apply same_listing_refl]. }
    revert Hh1 Hrun. generalize (if valid (v_handle v) then value_untrack a h else h).
    intros h1 Hh1. cbv zeta.
    destruct (valid (v_handle o)).
    + destruct (value_track a _) as [h3|] eqn:Htrack; [|done]. simpl. intros [= <-].
      eapply same_listing_trans; [exact Hh1|].
      eapply same_listing_trans; [apply same_listing_set_handle|].
      eapply same_listing_trans; [by eapply same_listing_value_track|].
      apply same_listing_set_handle.
    + intros [= <-].
      eapply same_listing_trans; [exact Hh1|].
      eapply same_listing_trans; apply same_listing_set_handle.
  - unfold value_move_assign in Hrun. destruct (decide (from = a)).
    { injection Hrun as <-. apply same_listing_refl. }
    destruct (values h !! a) as [v|]; [|done].
    destruct (values h !! from) as [f|]; [|done].
    destruct (if valid (v_handle v)
              then Some (if valid (v_handle f) then h else value_untrack a h)
              else if valid (v_handle f) then value_track a h else Some h)
      as [h1|] eqn:Hfirst; [|done].
    assert (Hh1 : same_listing h h1).
    { destruct (valid (v_handle v)), (valid (v_handle f)); simplify_eq;
        try apply same_listing_refl;
        [apply same_listing_value_untrack|by eapply same_listing_value_track]. }
    simpl in Hrun. injection Hrun as <-.
    eapply same_listing_trans; [exact Hh1|].
    eapply same_listing_trans; [apply same_listing_set_handle|].
    eapply same_listing_trans; [apply same_listing_set_handle|].
    destruct (valid (v_handle f));
      [apply same_listing_value_untrack|apply same_listing_refl].
  - unfold value_steal. destruct (value_valid h a);
      [apply same_listing_set_handle|apply same_listing_refl].
  - unfold value_dtor in Hrun. destruct (is_linked a (value_untrack a h)); [done|].
    injection Hrun as <-.
    eapply same_listing_trans; [apply same_listing_value_untrack|].
    apply same_listing_set_values.
Qed.

Lemma owner_of_cases (h : host) (a : nat) :
  (exists own, owner_of h a = Some (Some own))
  \/ owner_of h a = None \/ owner_of h a = Some None.
Proof.
  unfold owner_of. destruct (contexts h !! a) as [c|]; simpl; [|by right; left].
  destruct (c_owner_ c) as [own|]; [left; by exists own|by right; right].
Qed.

Lemma context_untrack_owned (a own : nat) (h : host) :
  owner_of h a = Some (Some own) ->
  contexts_ (context_untrack a h) = filter (fun b => b <> a) (contexts_ h)
  /\ owner_of (context_untrack a h) a = Some None
  /\ forall c, c <> a -> owner_of (context_untrack a h) c = owner_of h c.
Proof.
  unfold owner_of, context_untrack. destruct (contexts h !! a) as [c|]; [|done].
  simpl. intros [= Ho]. rewrite Ho. simpl.
  split; [done|]. split; [by rewrite lookup_insert_eq|].
  intros c' Hne. by rewrite lookup_insert_ne.
Qed.

Lemma context_untrack_unowned (a : nat) (h : host) :
  owner_of h a = None \/ owner_of h a = Some None -> context_untrack a h = h.
Proof.
  unfold owner_of, context_untrack. destruct (contexts h !! a) as [c|]; [|done].
  simpl. intros [?|[= Ho]]; [done|]. by rewrite Ho.
Qed.

Lemma wf_runtime_context_untrack (a : nat) (h : host) :
  wf_runtime h ->
  wf_runtime (context_untrack a h)
  /\ (a ∉ contexts_ (context_untrack a h))
  /\ (owner_of (context_untrack a h) a = None \/ owner_of (context_untrack a h) a = Some None)
  /\ forall c, c <> a -> owner_of (context_untrack a h) c = owner_of h c.
Proof.
  intros Hwf. destruct (owner_of_cases h a) as [[own Ho]|Ho].
  - destruct (context_untrack_owned a own h Ho) as (Hlist & Ha & Hothers).
    split; [by apply (wf_runtime_unlink a h)|]. split; [|split; [by right|done]].
    rewrite Hlist. by intros [? _]%list_elem_of_filter.
  - rewrite (context_untrack_unowned a h Ho).
    split; [done|]. split; [by apply wf_runtime_unowned|]. by split.
Qed.

(** Putting an unlisted live context first, with the runtime as owner. *)
Lemma wf_runtime_insert_head (a : nat) (j : option JSContext) (vs : list nat) (h : host) :
  a ∉ contexts_ h -> wf_runtime h ->
  wf_runtime
    (set_contexts_ (cons a)
       (set_contexts <[a := mk_context_object j (Some the_runtime) vs]> h)).
Proof.
  intros Ha. apply (wf_runtime_link a); [done|done| |].
  - exists the_runtime. unfold owner_of. simpl. by rewrite lookup_insert_eq.
  - intros c' Hne. unfold owner_of. simpl. by rewrite lookup_insert_ne.
Qed.

Lemma wf_runtime_context_track_from (a from : nat) (h : host) :
  wf_runtime h -> wf_runtime (context_track_from a from h).
Proof.
  intros Hwf. unfold context_track_from.
  destruct (wf_runtime_context_untrack from h Hwf) as (Hwf1 & _).
  destruct (wf_runtime_context_untrack a _ Hwf1) as (Hwf2 & Ha & _).
  revert Hwf2 Ha. generalize (context_untrack a (context_untrack from h)). intros h2 Hwf2 Ha.
  destruct (contexts h2 !! a) as [c|]; [|done].
  destruct (c_ctx_ c); [|done]. by apply wf_runtime_insert_head.
Qed.

Lemma wf_runtime_context_default (a : nat) (h : host) :
  contexts h !! a = None -> wf_runtime h -> wf_runtime (context_default a h).
Proof.
  intros Ha. apply wf_runtime_keep; [done|].
  intros c own _ Ho. exists own. unfold owner_of, context_default in *. simpl.
  rewrite lookup_insert_ne; [done|]. intros ->. by rewrite Ha in Ho.
Qed.

Lemma wf_runtime_context_ctor (a own : nat) (h : host) :
  contexts h !! a = None -> wf_runtime h -> wf_runtime (context_ctor a own h).
Proof.
  intros Ha. unfold context_ctor, context_track. simpl. rewrite lookup_insert_eq. simpl.
  apply wf_runtime_keep; [done|].
  intros c own' _ Ho. exists own'. unfold owner_of in *. simpl.
  rewrite lookup_insert_ne; [done|]. intros ->. by rewrite Ha in Ho.
Qed.

Lemma wf_runtime_move_ctx_ (a from : nat) (keep : option nat -> option nat -> option nat)
    (h : host) :
  (a ∈ contexts_ h -> forall own theirs, exists own', keep (Some own) theirs = Some own') ->
  wf_runtime h -> wf_runtime (move_ctx_ a from keep h).
Proof.
  intros Hkeep. unfold move_ctx_.
  destruct (contexts h !! a) as [ca|] eqn:Ha; [|done].
  destruct (contexts h !! from) as [f|] eqn:Hf; [|done].
  apply wf_runtime_keep; [done|].
  intros c own Hin Ho. unfold owner_of in *. simpl.
  destruct (decide (c = a)) as [->|Hca].
  - rewrite lookup_insert_eq. simpl. rewrite Ha in Ho. simpl in Ho.
    injection Ho as Ho. rewrite Ho. destruct (Hkeep Hin own (c_owner_ f)) as [own' ->].
    by exists own'.
  - rewrite lookup_insert_ne by done. destruct (decide (c = from)) as [->|Hcf].
    + rewrite lookup_insert_eq. simpl. rewrite Hf in Ho. simpl in Ho. by exists own.
    + rewrite lookup_insert_ne by done. by exists own.
Qed.

Lemma wf_runtime_context_move_assign (a from : nat) (h : host) :
  wf_runtime h -> wf_runtime (context_move_assign a from h).
Proof.
  intros Hwf. unfold context_move_assign. destruct (decide (from = a)); [done|].
  apply wf_runtime_context_track_from, wf_runtime_move_ctx_; [|done].
  intros _ own theirs. by exists own.
Qed.

Lemma wf_runtime_context_move_ctor (a from : nat) (h : host) :
  contexts h !! a = None -> wf_runtime h -> wf_runtime (context_move_ctor a from h).
Proof.
  intros Ha Hwf. unfold context_move_ctor.
  apply wf_runtime_context_track_from, wf_runtime_move_ctx_;
    [|by apply wf_runtime_context_default].
  intros Hin. exfalso. simpl in Hin. destruct (wfr_listed _ Hwf a Hin) as [own Ho].
  unfold owner_of in Ho. by rewrite Ha in Ho.
Qed.

Lemma context_abandon_listing (a : nat) (h : host) :
  (forall c, c <> a -> owner_of (context_abandon a h) c = owner_of h c)
  /\ ((exists own, owner_of h a = Some (Some own))
      /\ contexts_ (context_abandon a h) = filter (fun b => b <> a) (contexts_ h)
      \/ (owner_of h a = None \/ owner_of h a = Some None)
         /\ contexts_ (context_abandon a h) = contexts_ h
         /\ owner_of (context_abandon a h) a = owner_of h a).
Proof.
  unfold owner_of, context_abandon.
  destruct (contexts h !! a) as [c|] eqn:Ha; simpl.
  - destruct (c_ctx_ c) as [j|], (c_owner_ c) as [own|] eqn:Ho; simpl; split;
      try (intros c' Hne; by rewrite ?lookup_alter_ne, ?lookup_insert_ne by done);
      try (left; split; [by exists own|done]);
      right; (split; [by right|]); (split; [done|]);
      rewrite ?lookup_insert_eq, ?Ha; simpl; by rewrite ?Ho.
  - split; [done|]. right. rewrite Ha. by repeat split; try left.
Qed.

Lemma wf_runtime_context_abandon (a : nat) (h : host) :
  wf_runtime h -> wf_runtime (context_abandon a h) /\ a ∉ contexts_ (context_abandon a h).
Proof.
  intros Hwf. destruct (context_abandon_listing a h) as [Hothers [[_ Hlist]|(Ho & Hlist & Ha)]].
  - split; [by apply (wf_runtime_unlink a h)|].
    rewrite Hlist. by intros [? _]%list_elem_of_filter.
  - split.
    + apply (wf_runtime_keep h); [done| |done].
      intros c own Hin Hown. exists own. rewrite Hothers; [done|].
      intros ->. destruct Ho; congruence.
    + rewrite Hlist. by apply wf_runtime_unowned.
Qed.

(** [~runtime] empties the list: the assertion of [~owner] holds. *)
Lemma for_each_context_abandon_listing (l : list nat) (h : host) :
  wf_runtime h ->
  wf_runtime (for_each l context_abandon h)
  /\ forall c, c ∈ contexts_ (for_each l context_abandon h) -> c ∈ contexts_ h /\ c ∉ l.
Proof.
  unfold for_each. revert h. induction l as [|a l IH]; intros h Hwf; simpl.
  - split; [done|]. intros c Hc. split; [done|]. by intros ?%elem_of_nil.
  - destruct (wf_runtime_context_abandon a h Hwf) as [Hwf1 Ha].
    destruct (IH _ Hwf1) as [Hwf2 Hsub]. split; [done|].
    intros c Hc. destruct (Hsub c Hc) as [Hc1 Hcl].
    assert (Hch : c ∈ contexts_ h).
    { destruct (context_abandon_listing a h) as [_ [[_ Hlist]|(_ & Hlist & _)]];
        rewrite Hlist in Hc1; [by apply list_elem_of_filter in Hc1 as [_ ?]|done]. }
    split; [done|]. intros [->|?]%elem_of_cons; done.
Qed.

Lemma wf_runtime_runtime_dtor (h : host) :
  wf_runtime h -> wf_runtime (runtime_dtor h) /\ contexts_ (runtime_dtor h) = [].
Proof.
  intros Hwf. unfold runtime_dtor.
  destruct (for_each_context_abandon_listing (contexts_ h) h Hwf) as [Hwf' Hsub].
  split; [done|]. apply elem_of_nil_inv. intros c Hc.
  by destruct (Hsub c Hc).
Qed.

Lemma wf_runtime_context_dtor (a : nat) (h : host) :
  wf_runtime h -> wf_runtime (context_dtor a h) /\ a ∉ contexts_ (context_dtor a h).
Proof.
  intros Hwf. unfold context_dtor.
  destruct (contexts h !! a) as [c|] eqn:Ha.
  2:{ split; [done|]. apply wf_runtime_unowned; [done|]. left. unfold owner_of. by rewrite Ha. }
  pose proof (wf_runtime_same_listing _ _
                (same_listing_for_each_value_abandon (values_ c) h) Hwf) as Hwf1.
  destruct (wf_runtime_context_untrack a _ Hwf1) as (Hwf2 & Hout & _).
  revert Hwf2 Hout.
  generalize (context_untrack a (for_each (values_ c) value_abandon h)). intros h2 Hwf2 Hout.
  assert (Hgoal : forall h3, contexts_ h3 = contexts_ h2 -> contexts h3 = contexts h2 ->
            wf_runtime (set_contexts (delete a) h3)
            /\ a ∉ contexts_ (set_contexts (delete a) h3)).
  { intros h3 Hl Hc. split; [|simpl; by rewrite Hl].
    apply (wf_runtime_keep h2); [by simpl|idtac|done].
    intros c' own Hin Ho. exists own. unfold owner_of in *. simpl.
    rewrite Hc, lookup_delete_ne; [done|]. by intros ->. }
  destruct (c_ctx_ c); by apply Hgoal.
Qed.

Lemma wf_runtime_lifetime_step (h h' : host) :
  wf_runtime h -> lifetime_step h h' -> wf_runtime h'.
Proof.
  intros Hwf Hstep.
  assert (Hvalue : same_listing h h' -> wf_runtime h')
    by (intros Hsame; by apply (wf_runtime_same_listing h)).
  destruct Hstep.
  - apply Hvalue, same_listing_value_step. left. by exists a.
  - apply Hvalue, same_listing_value_step. right. left. by exists a, ctx, x.
  - apply Hvalue, same_listing_value_step. do 2 right. left. by exists a, other.
  - apply Hvalue, same_listing_value_step. do 3 right. left. by exists a, from.
  - apply Hvalue, same_listing_value_step. do 4 right. left. by exists a, other.
  - apply Hvalue, same_listing_value_step. do 5 right. left. by exists a, from.
  - apply Hvalue, same_listing_value_step. do 6 right. left. by exists a.
  - apply Hvalue, same_listing_value_step. do 7 right. by exists a.
  - by apply wf_runtime_context_default.
  - by apply wf_runtime_context_ctor.
  - by apply wf_runtime_context_move_ctor.
  - by apply wf_runtime_context_move_assign.
  - by apply wf_runtime_context_dtor.
  - by apply wf_runtime_runtime_dtor.
Qed.

Lemma wf_runtime_lifetime_steps (h h' : host) :
  wf_runtime h -> rtc lifetime_step h h' -> wf_runtime h'.
Proof.
  intros Hwf Hsteps. induction Hsteps as [h|h h1 h2 Hstep Hsteps IH]; [done|].
  apply IH. by apply (wf_runtime_lifetime_step h).
Qed.

Lemma wf_runtime_empty (n : JSContext) : wf_runtime (mk_host ∅ ∅ [] ∅ n).
Proof. split; simpl; [by intros c ?%elem_of_nil|apply NoDup_nil_2]. Qed.

(** X23: the runtime's list of contexts never dangles.  Under every
    operation of [value] and [context] and under the runtime's
    destructor, every entry of [contexts_] is a live context object
    whose [owner_] is set, and no entry is there twice; a context that
    is destroyed is not left in the list, and the destructor of the
    runtime leaves the list empty, as the assertion of [~owner]
    demands. *)
Theorem X23_context_list_stays_sound (h h' : host) :
  wf_runtime h -> rtc lifetime_step h h' ->
  wf_runtime h'
  /\ (forall c, c ∈ contexts_ h' ->
        exists co own, contexts h' !! c = Some co /\ c_owner_ co = Some own)
  /\ (forall c, (c ∉ contexts_ (context_dtor c h'))
                /\ contexts (context_dtor c h') !! c = None)
  /\ contexts_ (runtime_dtor h') = [].
Proof.
  intros Hwf Hsteps.
  pose proof (wf_runtime_lifetime_steps h h' Hwf Hsteps) as Hwf'.
  split; [done|]. split; [|split].
  - intros c Hc. destruct (wfr_listed _ Hwf' c Hc) as [own Ho]. unfold owner_of in Ho.
    destruct (contexts h' !! c) as [co|]; [|done]. simpl in Ho. injection Ho as Ho.
    by exists co, own.
  - intros c. split; [by apply wf_runtime_context_dtor|].
    unfold context_dtor. destruct (contexts h' !! c) as [co|] eqn:Hc; [|done].
    simpl. by rewrite lookup_delete_eq.
  - by apply wf_runtime_runtime_dtor.
Qed.

(** The fixture of the tests: [ctx_] is the one entry of the list. *)
Lemma X23_context_list_stays_sound_witness :
  exists h,
    set_up = Some h
    /\ contexts_ h = [10]
    /\ wf_runtime h
    /\ (forall c, c ∈ contexts_ h ->
          exists co own, contexts h !! c = Some co /\ c_owner_ co = Some own)
    /\ (forall c, (c ∉ contexts_ (context_dtor c h))
                  /\ contexts (context_dtor c h) !! c = None)
    /\ contexts_ (runtime_dtor h) = [].
Proof.
  destruct set_up_reached as (h & Hh & Hsteps).
  exists h. split; [exact Hh|]. split.
  { revert Hh. vm_compute. by intros [= <-]. }
  exact (X23_context_list_stays_sound _ h (wf_runtime_empty 1) Hsteps).
Defined.

End Lifetime.

(** * Forwarded exceptions are always collected *)

(** The exception token pending in the host context behind [j]. *)
Definition token_of (st : state) (j : JSContext) : option cpp_exception :=
  JS_GetContextOpaque st j ≫= excpt_.

Definition token_free (st : state) : Prop := forall j, token_of st j = None.

Definition same_tokens (st st' : state) : Prop :=
  forall j, token_of st' j = token_of st j.

(** [m] never touches a token, however it ends. *)
Definition quiet {A} (m : M A) : Prop :=
  forall st r st', m st = (r, st') -> same_tokens st st'.

(** Host code: when [m] comes back, no token is pending. *)
Definition collects {A} (m : M A) : Prop :=
  forall st r st', token_free st -> m st = (r, st') -> settled r -> token_free st'.

(** What the engine may be left with when a function it called for the
    context [ctx] comes back: either no token is pending, or the call
    returned the marker, the token is in [ctx] and the pending exception
    is an uncatchable error, which no script can intercept. *)
Definition in_flight (ctx : JSContext) (r : outcome JSValue) (st : state) : Prop :=
  token_free st
  \/ (r = Ok JS_EXCEPTION
      /\ (forall j, j <> ctx -> token_of st j = None)
      /\ JS_IsUncatchableError st (current_exception st) = true).

Definition carries (ctx : JSContext) (m : M JSValue) : Prop :=
  forall st r st', token_free st -> m st = (r, st') -> settled r -> in_flight ctx r st'.

Lemma same_tokens_refl (st : state) : same_tokens st st.
Proof. by intros j. Qed.

Lemma same_tokens_free (st st' : state) : same_tokens st st' -> token_free st -> token_free st'.
Proof. intros Hsame Hfree j. by rewrite Hsame. Qed.

Lemma quiet_bind {A B} (m : M A) (f : A -> M B) :
  quiet m -> (forall a, quiet (f a)) -> quiet (m ≫= f).
Proof.
  intros Hm Hf st r st'. unfold mbind, M_bind.
  destruct (m st) as [[a|e| |] st1] eqn:Hrun; pose proof (Hm _ _ _ Hrun) as H1.
  - intros Hrun2 j. rewrite (Hf _ _ _ _ Hrun2). apply H1.
  - by intros [= <- <-].
  - by intros [= <- <-].
  - by intros [= <- <-].
Qed.

Lemma quiet_ret {A} (a : A) : quiet (mret a).
Proof. intros st r st' [= <- <-]. apply same_tokens_refl. Qed.

Lemma quiet_throw {A} (e : cpp_exception) : quiet (throw (A := A) e).
Proof. intros st r st' [= <- <-]. apply same_tokens_refl. Qed.

Lemma quiet_crash {A} : quiet (crash (A := A)).
Proof. intros st r st' [= <- <-]. apply same_tokens_refl. Qed.

Lemma quiet_get_state : quiet get_state.
Proof. intros st r st' [= <- <-]. apply same_tokens_refl. Qed.

Lemma quiet_modify (f : state -> state) :
  (forall st, ctxs (f st) = ctxs st) -> quiet (modify f).
Proof.
  intros Hf st r st' [= <- <-] j. unfold token_of, JS_GetContextOpaque. by rewrite Hf.
Qed.

Lemma quiet_update_context (ctx : JSContext) (f : context -> context) :
  (forall c, excpt_ (f c) = excpt_ c) -> quiet (update_context ctx f).
Proof.
  intros Hf st r st'. unfold update_context.
  rewrite (bind_Ok get_state _ st st st) by done.
  destruct (ctxs st !! ctx) as [[g [c|]]|] eqn:Hctx;
    try (intros [= <- <-]; apply same_tokens_refl).
  intros [= <- <-] j. unfold token_of, JS_GetContextOpaque. simpl.
  destruct (decide (j = ctx)) as [->|Hne].
  - rewrite lookup_insert_eq, Hctx. simpl. by rewrite Hf.
  - by rewrite lookup_insert_ne.
Qed.

Create HintDb quiet discriminated.

#[local] Hint Resolve quiet_ret quiet_throw quiet_crash quiet_get_state : quiet.
#[local] Hint Extern 2 (quiet (_ ≫= _)) => apply quiet_bind; [|intros ?] : quiet.
#[local] Hint Extern 3 (quiet (modify _)) => apply quiet_modify; intros ?; reflexivity : quiet.
#[local] Hint Extern 3 (quiet (update_context _ _)) =>
  apply quiet_update_context; intros ?; reflexivity : quiet.
#[local] Hint Extern 3 (quiet (if ?b then _ else _)) => destruct b : quiet.
#[local] Hint Extern 3 (quiet (match ?x with _ => _ end)) => destruct x : quiet.
#[local] Hint Extern 3 (quiet (let '(_, _) := ?x in _)) => destruct x : quiet.

Ltac quiet := eauto 30 with quiet.

Section Tokens.
Context `{Conversions}.
Variable JS_Call : JSContext -> JSValue -> JSValue -> list JSValue -> M JSValue.
Hypothesis JS_Call_carries :
  forall ctx func_obj this_val argv, carries ctx (JS_Call ctx func_obj this_val argv).

Lemma quiet_validate (v : value) : quiet (validate v).
Proof. unfold validate, throw_value_exception. quiet. Qed.

Lemma quiet_value_ctor (ctx : option JSContext) (x : JSValue) : quiet (value_ctor ctx x).
Proof. unfold value_ctor. pose proof quiet_validate. quiet. Qed.

Lemma quiet_steal (v : value) : quiet (steal v).
Proof. unfold steal. pose proof quiet_validate. quiet. Qed.

Lemma quiet_JS_Throw (ctx : JSContext) (x : JSValue) : quiet (JS_Throw ctx x).
Proof. unfold JS_Throw. quiet. Qed.

Lemma quiet_JS_GetException (ctx : JSContext) : quiet (JS_GetException ctx).
Proof. unfold JS_GetException. quiet. Qed.

Lemma quiet_new_object (o : JSObject) : quiet (new_object o).
Proof. unfold new_object. quiet. Qed.

Lemma quiet_JS_ThrowError (ctx : JSContext) (ename msg : string) :
  quiet (JS_ThrowError ctx ename msg).
Proof. unfold JS_ThrowError. pose proof quiet_new_object. pose proof quiet_JS_Throw. quiet. Qed.

Lemma quiet_JS_GetPropertyStr (ctx : JSContext) (this_obj : JSValue) (prop : string) :
  quiet (JS_GetPropertyStr ctx this_obj prop).
Proof. unfold JS_GetPropertyStr, JS_ThrowTypeError. pose proof quiet_JS_ThrowError. quiet. Qed.

Lemma quiet_JS_GetGlobalObject (ctx : JSContext) : quiet (JS_GetGlobalObject ctx).
Proof. unfold JS_GetGlobalObject. quiet. Qed.

Lemma quiet_get_property (v : value) (name : string) : quiet (get_property v name).
Proof.
  unfold get_property.
  pose proof quiet_validate. pose proof quiet_JS_GetPropertyStr.
  pose proof quiet_value_ctor. quiet.
Qed.

Lemma quiet_do_throw {A} (this exval : value) : quiet (do_throw (A := A) this exval).
Proof.
  unfold do_throw, is_undefined, as_cstring.
  pose proof quiet_get_property. pose proof quiet_validate. quiet.
Qed.

Lemma quiet_call_level_enter (ctx : JSContext) : quiet (call_level_enter ctx).
Proof. unfold call_level_enter. quiet. Qed.

Lemma quiet_call_level_leave (ctx : JSContext) : quiet (call_level_leave ctx).
Proof. unfold call_level_leave. quiet. Qed.

Lemma quiet_convert (p : param_type) (x : value) : quiet (convert p x).
Proof.
  intros st r st'.
  destruct p; unfold convert, is_string, as_string_out, as_cstring, as_int32_out,
    as_uint32_out, as_int64_out, as_bool_out, validate; munfold;
    repeat case_match; intros; unfold throw in *; simplify_eq; apply same_tokens_refl.
Qed.

Lemma quiet_mapM {A B} (g : A -> M B) (l : list A) :
  (forall x, quiet (g x)) -> quiet (mapM g l).
Proof. intros Hg. induction l as [|x l IH]; simpl; quiet. Qed.

Lemma quiet_collects {A} (m : M A) : quiet m -> collects m.
Proof. intros Hm st r st' Hfree Hrun _. exact (same_tokens_free st st' (Hm _ _ _ Hrun) Hfree). Qed.

Lemma collects_bind {A B} (m : M A) (f : A -> M B) :
  collects m -> (forall a, collects (f a)) -> collects (m ≫= f).
Proof.
  intros Hm Hf st r st' Hfree. unfold mbind, M_bind.
  destruct (m st) as [[a|e| |] st1] eqn:Hrun.
  - intros Hrun2 Hr. apply (Hf a st1 r st'); [|done|done]. by apply (Hm _ _ _ Hfree Hrun).
  - intros [= <- <-] _. by apply (Hm _ _ _ Hfree Hrun).
  - by intros [= <- <-].
  - by intros [= <- <-].
Qed.

Lemma token_of_put_context (ctx j : JSContext) (c c' : context) (st : state) :
  JS_GetContextOpaque st ctx = Some c ->
  token_of (put_context ctx c' st) j
  = if decide (j = ctx) then excpt_ c' else token_of st j.
Proof.
  intros Hc. unfold token_of. destruct (decide (j = ctx)) as [->|Hne].
  - by rewrite (JS_GetContextOpaque_put _ _ _ _ Hc).
  - by rewrite JS_GetContextOpaque_put_ne.
Qed.

(** [check_throw(true)] on a handle of [ctx] takes the token of [ctx]. *)
Lemma check_throw_takes_token (ctx : JSContext) (x : JSValue) (st st' : state)
    (r : outcome unit) :
  (forall j, j <> ctx -> token_of st j = None) ->
  check_throw (mk_value (Some ctx) x) true st = (r, st') -> settled r ->
  token_free st'.
Proof.
  intros Hothers Hrun Hr.
  destruct (JS_GetContextOpaque st ctx) as [c|] eqn:Hc.
  - rewrite (check_throw_run _ _ _ _ _ Hc) in Hrun.
    assert (Hpopped : token_free
              (put_context ctx (mk_context (clevel_ c) None (classes_ c)) st)).
    { intros j. rewrite (token_of_put_context _ _ _ _ _ Hc).
      destruct (decide (j = ctx)); [done|by apply Hothers]. }
    destruct (excpt_ c) as [e|].
    + by injection Hrun as <- <-.
    + simpl in Hrun. destruct (JS_IsException x); by injection Hrun as <- <-.
  - exfalso. revert Hrun. unfold check_throw, handle_pending_exception, get_context,
      pop_exception, validate. simpl. munfold. simpl. rewrite Hc.
    intros [= <- <-]. done.
Qed.

Lemma collects_check_throw (this : value) (b : bool) : collects (check_throw this b).
Proof.
  intros st r st' Hfree Hrun Hr. destruct this as [[ctx|] x].
  - destruct b.
    + apply (check_throw_takes_token ctx x st st' r); [|done|done]. intros j _. apply Hfree.
    + revert Hrun Hr. revert st r st' Hfree. apply quiet_collects.
      unfold check_throw. simpl.
      pose proof quiet_JS_GetException. pose proof quiet_value_ctor.
      pose proof (@quiet_do_throw unit). quiet.
  - unfold check_throw in Hrun. simpl in Hrun. by injection Hrun as <- <-.
Qed.

(** [functions::call_common_args] collects what the engine call left. *)
Lemma collects_call_common_args (func : value) (ctx : JSContext) (thisObj : value)
    (avals : list JSValue) :
  collects (call_common_args JS_Call func ctx thisObj avals).
Proof using JS_Call_carries.
  intros st r st' Hfree. unfold call_common_args, mbind at 1, M_bind at 1.
  destruct (call_level_enter ctx st) as [r1 st1] eqn:Henter.
  pose proof (same_tokens_free _ _ (quiet_call_level_enter _ _ _ _ Henter) Hfree) as Hfree1.
  destruct r1 as [[]|e| |]; try (by intros [= <- <-]).
  unfold scoped.
  set (this_val := if valid thisObj then val_ thisObj else JS_UNDEFINED).
  assert (Hbody : forall r2 st2,
            (r ← JS_Call ctx (val_ func) this_val avals;
             ret ← value_ctor (Some ctx) r;
             _ ← check_throw ret true;
             mret ret) st1 = (r2, st2) -> settled r2 -> token_free st2).
  { intros r2 st2. unfold mbind at 1, M_bind at 1.
    destruct (JS_Call ctx (val_ func) this_val avals st1) as [rc sc] eqn:Hcall.
    destruct rc as [x|e| |]; try (by intros [= <- <-]).
    - pose proof (JS_Call_carries _ _ _ _ _ _ _ Hfree1 Hcall I) as Hflight.
      rewrite (bind_Ok (value_ctor (Some ctx) x) _ sc (mk_value (Some ctx) x) sc) by done.
      unfold mbind, M_bind.
      destruct (check_throw (mk_value (Some ctx) x) true sc) as [rt s3] eqn:Hcheck.
      assert (Htaken : settled rt -> token_free s3).
      { intros Hrt. apply (check_throw_takes_token ctx x sc s3 rt); [|done|done].
        destruct Hflight as [Hf|(_ & Hothers & _)]; [intros j _; apply Hf|done]. }
      destruct rt as [[]|e| |]; intros [= <- <-]; try done; intros _; by apply Htaken.
    - intros [= <- <-] _.
      by destruct (JS_Call_carries _ _ _ _ _ _ _ Hfree1 Hcall I) as [Hf|(? & _)]. }
  destruct ((r ← JS_Call ctx (val_ func) this_val avals;
             ret ← value_ctor (Some ctx) r;
             _ ← check_throw ret true;
             mret ret) st1) as [r2 st2] eqn:Hrun2.
  destruct r2 as [a|e| |]; try (by intros [= <- <-]).
  - unfold mbind, M_bind.
    destruct (call_level_leave ctx st2) as [r3 st3] eqn:Hleave.
    pose proof (same_tokens_free _ _ (quiet_call_level_leave _ _ _ _ Hleave)
                  (Hbody _ _ eq_refl I)) as Hfree3.
    destruct r3 as [[]|e| |]; by intros [= <- <-].
  - unfold mbind, M_bind.
    destruct (call_level_leave ctx st2) as [r3 st3] eqn:Hleave.
    pose proof (same_tokens_free _ _ (quiet_call_level_leave _ _ _ _ Hleave)
                  (Hbody _ _ eq_refl I)) as Hfree3.
    destruct r3 as [[]|e'| |]; by intros [= <- <-].
Qed.

Lemma collects_value_call (this thisObj : value) (a : list call_arg) :
  collects (value_call JS_Call this thisObj a).
Proof using JS_Call_carries.
  unfold value_call, functions_call, call_common.
  apply collects_bind; [apply quiet_collects, quiet_validate|].
  intros ctx. apply collects_call_common_args.
Qed.

Lemma collects_value_operator_call (this : value) (a : list call_arg) :
  collects (value_operator_call JS_Call this a).
Proof using JS_Call_carries.
  unfold value_operator_call, value_undefined, functions_call, call_common.
  apply collects_bind; [apply quiet_collects, quiet_validate|]. intros ctx.
  apply collects_bind; [apply quiet_collects, quiet_value_ctor|]. intros u.
  apply collects_call_common_args.
Qed.

Lemma collects_call_member (this : value) (name : string) (a : list call_arg) :
  collects (call_member JS_Call this name a).
Proof using JS_Call_carries.
  unfold call_member.
  apply collects_bind; [apply quiet_collects, quiet_validate|]. intros ctx.
  apply collects_bind; [apply quiet_collects, quiet_get_property|]. intros f.
  apply collects_value_call.
Qed.

Lemma collects_run_nprog (p : nprog) : collects (run_nprog JS_Call p).
Proof using JS_Call_carries.
  induction p as [v|e|func thisObj a k IHk h IHh|ctx exval k IHk|line k IHk]; simpl.
  - apply quiet_collects. quiet.
  - apply quiet_collects. quiet.
  - intros st r st' Hfree.
    destruct (value_call JS_Call func thisObj a st) as [[x|e| |] st1] eqn:Hcall;
      try (by intros [= <- <-]).
    + intros Hrun Hr. apply (IHk x st1 r st'); [|done|done].
      by apply (collects_value_call _ _ _ _ _ _ Hfree Hcall).
    + intros Hrun Hr. apply (IHh e st1 r st'); [|done|done].
      by apply (collects_value_call _ _ _ _ _ _ Hfree Hcall).
  - apply collects_bind; [apply quiet_collects, quiet_JS_Throw|]. intros r.
    apply collects_bind; [apply quiet_collects, quiet_value_ctor|]. intros v. apply IHk.
  - apply collects_bind; [apply quiet_collects; quiet|]. intros []. apply IHk.
Qed.

(** The [catch] clauses of a handler, entered with no token pending. *)
Lemma closure_catch_in_flight (ctx : JSContext) (e : cpp_exception) (st st' : state)
    (r : outcome JSValue) :
  token_free st -> closure_catch ctx e st = (r, st') -> settled r -> in_flight ctx r st'.
Proof.
  intros Hfree Hrun Hr.
  destruct (is_throw_exception e) eqn:He.
  - left. destruct e; try done. simpl in Hrun.
    apply (same_tokens_free st); [|done].
    revert Hrun. revert st r st' Hfree Hr. intros st r st' _ _.
    assert (Hq : quiet ('(raw, _) ← steal v; JS_Throw ctx raw)).
    { pose proof quiet_steal. pose proof quiet_JS_Throw. quiet. }
    apply Hq.
  - destruct (JS_GetContextOpaque st ctx) as [c|] eqn:Hc.
    + assert (Hn : excpt_ c = None).
      { specialize (Hfree ctx). unfold token_of in Hfree. by rewrite Hc in Hfree. }
      rewrite (closure_catch_forwards _ _ _ _ He Hc Hn) in Hrun.
      injection Hrun as <- <-. right. split; [done|]. split.
      * intros j Hne. unfold token_of, forwarded, JS_GetContextOpaque. simpl.
        rewrite lookup_alter_ne by done. apply (Hfree j).
      * apply forwarded_uncatchable.
    + exfalso.
      assert (Hstore : forall x, store_exception ctx x st = (Crash, st)).
      { intros x. unfold store_exception.
        rewrite (bind_Ok get_state _ st st st) by done. by rewrite Hc. }
      destruct e; try done; simpl in Hrun; unfold mbind at 1, M_bind at 1 in Hrun;
        rewrite Hstore in Hrun; injection Hrun as <- <-; done.
Qed.

Lemma carries_try_catch (ctx : JSContext) (body : M JSValue) :
  collects body -> carries ctx (try_catch body (closure_catch ctx)).
Proof.
  intros Hbody st r st' Hfree. unfold try_catch.
  destruct (body st) as [[x|e| |] st0] eqn:Hrun; try (by intros [= <- <-]).
  - intros [= <- <-] _. left. by apply (Hbody _ _ _ Hfree Hrun).
  - intros Hcatch Hr.
    apply (closure_catch_in_flight ctx e st0); [|done|done].
    by apply (Hbody _ _ _ Hfree Hrun).
Qed.

Lemma carries_closure_handler (f : callable) (ctx : JSContext) (this_val : JSValue)
    (argv : list JSValue) :
  carries ctx (closure_handler JS_Call f ctx this_val argv).
Proof using JS_Call_carries.
  assert (Htail : forall r0, collects
            (let ret := value_copy_in (Some ctx) r0 in
             _ ← check_throw ret true;
             if valid ret then '(raw, _) ← steal ret; mret raw else mret JS_UNDEFINED)).
  { intros r0. cbv zeta. apply collects_bind; [apply collects_check_throw|]. intros [].
    apply quiet_collects. pose proof quiet_steal. quiet. }
  assert (Hparams : forall a, collects (expand_params f a)).
  { intros a. apply quiet_collects. unfold expand_params. apply quiet_mapM.
    intros x. apply quiet_convert. }
  unfold closure_handler, handle_closure_expand_with_args, handle_closure_expand,
    handle_closure_expand_with_args_helper, handle_closure_expand_helper.
  destruct (first_is_args f); apply carries_try_catch; cbv zeta;
    (apply collects_bind;
     [apply collects_bind; [apply Hparams|intros pv; apply collects_run_nprog]
     |intros r0; apply Htail]).
Qed.

Lemma carries_ret_free (ctx : JSContext) (m : M JSValue) : quiet m -> carries ctx m.
Proof. intros Hm st r st' Hfree Hrun _. left. exact (same_tokens_free _ _ (Hm _ _ _ Hrun) Hfree). Qed.

(** A script runs on while no token is pending, and only propagates
    once one is. *)
Lemma carries_exec_sprog (ctx : JSContext) (s : sprog) : carries ctx (exec_sprog JS_Call ctx s).
Proof using JS_Call_carries.
  assert (Hstep : forall (m : M JSValue) (k : JSValue -> sprog),
            carries ctx m -> (forall x, carries ctx (exec_sprog JS_Call ctx (k x))) ->
            carries ctx (r ← m;
                         if JS_IsException r then mret JS_EXCEPTION
                         else exec_sprog JS_Call ctx (k r))).
  { intros m k Hm Hk st r st' Hfree. unfold mbind, M_bind.
    destruct (m st) as [[x|e| |] st1] eqn:Hrun; try (by intros [= <- <-]).
    - pose proof (Hm _ _ _ Hfree Hrun I) as Hflight.
      destruct (JS_IsException x) eqn:Hx.
      + intros [= <- <-] _. destruct x; try done.
      + intros Hrun2 Hr. apply (Hk x st1); [|done|done].
        destruct Hflight as [Hf|([= ->] & _)]; done.
    - intros [= <- <-] _. destruct (Hm _ _ _ Hfree Hrun I) as [Hf|(? & _)]; [by left|done]. }
  induction s as [v|v|func this_val argv k IHk|name k IHk|body IHb handler IHh k IHk]; simpl.
  - apply carries_ret_free. quiet.
  - apply carries_ret_free. apply quiet_JS_Throw.
  - by apply Hstep.
  - intros st r st' Hfree. unfold mbind at 1, M_bind at 1.
    destruct (JS_GetGlobalObject ctx st) as [rg sg] eqn:Hglobal.
    pose proof (same_tokens_free _ _ (quiet_JS_GetGlobalObject _ _ _ _ Hglobal) Hfree)
      as Hfreeg.
    destruct rg as [g|e| |]; try (by intros [= <- <-]).
    + unfold mbind at 1, M_bind at 1, get_state at 1.
      destruct (object_at sg g ≫= _) as [v|].
      * by apply IHk.
      * intros Hrun Hr. left.
        exact (same_tokens_free _ _
                 (quiet_JS_ThrowError ctx "ReferenceError" _ _ _ _ Hrun) Hfreeg).
    + intros [= <- <-] _. by left.
  - intros st r st' Hfree. unfold mbind at 1, M_bind at 1.
    destruct (exec_sprog JS_Call ctx body st) as [[x|e| |] st1] eqn:Hbody;
      try (by intros [= <- <-]).
    2:{ intros [= <- <-] _.
        destruct (IHb _ _ _ Hfree Hbody I) as [Hf|(? & _)]; [by left|done]. }
    pose proof (IHb _ _ _ Hfree Hbody I) as Hflight.
    destruct (JS_IsException x) eqn:Hx.
    2:{ intros Hrun Hr. apply (IHk x st1); [|done|done].
        destruct Hflight as [Hf|([= ->] & _)]; done. }
    unfold mbind at 1, M_bind at 1, get_state at 1.
    destruct (JS_IsUncatchableError st1 (current_exception st1)) eqn:Hunc.
    { intros [= <- <-] _. destruct x; done. }
    assert (Hfree1 : token_free st1).
    { destruct Hflight as [Hf|(_ & _ & Hu)]; [done|congruence]. }
    unfold mbind at 1, M_bind at 1.
    destruct (JS_GetException ctx st1) as [rx sx] eqn:Hget.
    pose proof (same_tokens_free _ _ (quiet_JS_GetException _ _ _ _ Hget) Hfree1) as Hfreex.
    destruct rx as [ex|e| |]; try (by intros [= <- <-]).
    unfold mbind at 1, M_bind at 1, modify at 1.
    apply (Hstep _ k (IHh ex) IHk). intros j. apply (Hfreex j).
Qed.

Lemma carries_no_escape (ctx : JSContext) (m : M JSValue) :
  carries ctx m -> carries ctx (no_escape m).
Proof.
  intros Hm st r st' Hfree. unfold no_escape.
  destruct (m st) as [[x|e| |] st1] eqn:Hrun; intros [= <- <-]; try done.
  intros _. by apply (Hm _ _ _ Hfree Hrun).
Qed.

Lemma carries_JS_Call_body (ctx : JSContext) (func_obj this_val : JSValue)
    (argv : list JSValue) :
  carries ctx (JS_Call_body JS_Call ctx func_obj this_val argv).
Proof using JS_Call_carries.
  intros st r st' Hfree. unfold JS_Call_body, mbind at 1, M_bind at 1, get_state at 1.
  assert (Herror : forall msg, carries ctx (JS_ThrowTypeError ctx msg)).
  { intros msg. apply carries_ret_free. apply quiet_JS_ThrowError. }
  destruct (object_at st func_obj) as [[[]]|]; try (by apply Herror).
  - by apply carries_exec_sprog.
  - by apply (carries_no_escape ctx _ (carries_closure_handler f ctx this_val argv)).
Qed.

Lemma collects_eval (c : option JSContext) (src : sprog) : collects (eval JS_Call c src).
Proof using JS_Call_carries.
  intros st r st' Hfree. unfold eval, context_validate.
  destruct c as [ctx|]; [|by intros [= <- <-]].
  rewrite (bind_ret ctx). unfold mbind at 1, M_bind at 1.
  destruct (exec_sprog JS_Call ctx src st) as [rs s1] eqn:Hrun.
  destruct rs as [x|e| |]; try (by intros [= <- <-]).
  - pose proof (carries_exec_sprog _ _ _ _ _ Hfree Hrun I) as Hflight.
    rewrite (bind_Ok (value_ctor (Some ctx) x) _ s1 (mk_value (Some ctx) x) s1) by done.
    unfold mbind, M_bind.
    destruct (check_throw (mk_value (Some ctx) x) true s1) as [rt s2] eqn:Hcheck.
    assert (Htaken : settled rt -> token_free s2).
    { intros Hrt. apply (check_throw_takes_token ctx x s1 s2 rt); [|done|done].
      destruct Hflight as [Hf|(_ & Hothers & _)]; [intros j _; apply Hf|done]. }
    destruct rt as [[]|e| |]; intros [= <- <-]; try done; intros _; by apply Htaken.
  - intros [= <- <-] _.
    by destruct (carries_exec_sprog _ _ _ _ _ Hfree Hrun I) as [Hf|(? & _)].
Qed.

Lemma collects_call_global (c : option JSContext) (name : string) (a : list call_arg) :
  collects (call_global JS_Call c name a).
Proof using JS_Call_carries.
  assert (Hvalidate : quiet (context_validate c)) by (unfold context_validate; quiet).
  unfold call_global.
  apply collects_bind; [by apply quiet_collects|]. intros ctx.
  apply collects_bind.
  { apply quiet_collects. unfold get_global_object.
    pose proof quiet_JS_GetGlobalObject. pose proof quiet_value_ctor. quiet. }
  intros g. apply collects_bind; [apply quiet_collects, quiet_get_property|]. intros f.
  apply collects_bind; [apply quiet_collects, quiet_value_ctor|]. intros u.
  apply collects_value_operator_call.
Qed.

(** A native boundary: the engine call, then [check_throw(true)] on its
    result. *)
Lemma collects_boundary (ctx : JSContext) (m : M JSValue) :
  carries ctx m ->
  collects (r ← m; ret ← value_ctor (Some ctx) r; _ ← check_throw ret true; mret ret).
Proof.
  intros Hm st r st' Hfree. unfold mbind at 1, M_bind at 1.
  destruct (m st) as [rs s1] eqn:Hrun.
  destruct rs as [x|e| |]; try (by intros [= <- <-]).
  - pose proof (Hm _ _ _ Hfree Hrun I) as Hflight.
    rewrite (bind_Ok (value_ctor (Some ctx) x) _ s1 (mk_value (Some ctx) x) s1) by done.
    unfold mbind, M_bind.
    destruct (check_throw (mk_value (Some ctx) x) true s1) as [rt s2] eqn:Hcheck.
    assert (Htaken : settled rt -> token_free s2).
    { intros Hrt. apply (check_throw_takes_token ctx x s1 s2 rt); [|done|done].
      destruct Hflight as [Hf|(_ & Hothers & _)]; [intros j _; apply Hf|done]. }
    destruct rt as [[]|e| |]; intros [= <- <-]; try done; intros _; by apply Htaken.
  - intros [= <- <-] _.
    by destruct (Hm _ _ _ Hfree Hrun I) as [Hf|(? & _)].
Qed.

Lemma quiet_is_exception (v : value) : quiet (is_exception v).
Proof. unfold is_exception. pose proof quiet_validate. quiet. Qed.

Lemma quiet_JS_SetOpaque (v : JSValue) (opaque : void_ptr) : quiet (JS_SetOpaque v opaque).
Proof.
  intros st r st'. unfold JS_SetOpaque. rewrite (bind_Ok get_state _ st st st) by done.
  destruct v; try (intros [= <- <-]; apply same_tokens_refl).
  destruct (object_at st (JS_OBJECT p)) as [[[] ps]|];
    intros [= <- <-]; by intros j.
Qed.

Lemma collects_class_make_inst (cdef : class_definition) (ctx : JSContext)
    (new_target : JSValue) (argv : list JSValue) :
  collects (class_make_inst JS_Call cdef ctx new_target argv).
Proof using JS_Call_carries.
  assert (Hsteal : forall v, collects ('(raw, _) ← steal v; mret raw)).
  { intros v. apply quiet_collects. pose proof quiet_steal. quiet. }
  unfold class_make_inst.
  apply collects_bind; [apply quiet_collects, quiet_value_ctor|]. intros target.
  apply collects_bind; [apply quiet_collects, quiet_get_property|]. intros proto.
  destruct (negb (valid proto)); [apply quiet_collects; quiet|].
  apply collects_bind; [apply quiet_collects, quiet_is_exception|]. intros pe.
  destruct pe; [apply Hsteal|].
  apply collects_bind.
  { apply quiet_collects. unfold JS_NewObjectProtoClass. apply quiet_new_object. }
  intros o.
  apply collects_bind; [apply quiet_collects, quiet_value_ctor|]. intros obj.
  destruct (negb (valid obj)); [apply quiet_collects; quiet|].
  apply collects_bind; [apply quiet_collects, quiet_is_exception|]. intros oe.
  apply collects_bind; [|intros []; apply Hsteal].
  destruct oe; [apply quiet_collects; quiet|].
  apply collects_bind.
  { unfold new_instance.
    apply collects_bind; [apply collects_run_nprog|]. intros _.
    apply quiet_collects. quiet. }
  intros raw. apply collects_bind; [|intros []; apply quiet_collects, quiet_JS_SetOpaque].
  destruct (shared cdef); apply quiet_collects; [|quiet].
  unfold ref_inst_value. quiet.
Qed.

Lemma carries_JS_CallConstructor (ctx : JSContext) (func_obj : JSValue)
    (argv : list JSValue) :
  carries ctx (JS_CallConstructor JS_Call ctx func_obj argv).
Proof using JS_Call_carries.
  intros st r st' Hfree.
  unfold JS_CallConstructor, mbind at 1, M_bind at 1, get_state at 1.
  assert (Herror : forall msg, carries ctx (JS_ThrowTypeError ctx msg)).
  { intros msg. apply carries_ret_free. apply quiet_JS_ThrowError. }
  destruct (object_at st func_obj) as [[[]]|]; try (by apply Herror).
  apply (carries_no_escape ctx); [|done].
  unfold classes_ctor. apply carries_try_catch, collects_class_make_inst.
Qed.

(** [context::make_object], whatever it leaves in its out parameter. *)
Lemma collects_make_object (c : option JSContext) (cdef : class_definition)
    (a : list value) (inst : option void_ptr) (st st' : state) (r : outcome value)
    (i : option void_ptr) :
  token_free st -> make_object JS_Call c cdef a inst st = ((r, i), st') -> settled r ->
  token_free st'.
Proof using JS_Call_carries.
  intros Hfree. unfold make_object.
  assert (Hcall : collects
            (ctx ← context_validate c;
             info ← get_class_info ctx (id cdef);
             let av := val_ <$> a in
             r ← JS_CallConstructor JS_Call ctx (ctor info) av;
             ret ← value_ctor (Some ctx) r;
             _ ← check_throw ret true;
             mret ret)).
  { apply collects_bind; [apply quiet_collects; unfold context_validate; quiet|].
    intros ctx. apply collects_bind; [apply quiet_collects; unfold get_class_info; quiet|].
    intros info. cbv zeta. apply collects_boundary, carries_JS_CallConstructor. }
  destruct ((ctx ← context_validate c;
             info ← get_class_info ctx (id cdef);
             let av := val_ <$> a in
             r ← JS_CallConstructor JS_Call ctx (ctor info) av;
             ret ← value_ctor (Some ctx) r;
             _ ← check_throw ret true;
             mret ret) st) as [[ret|e| |] st1] eqn:Hrun;
    try (by intros [= <- <- <-]).
  2:{ intros [= <- <- <-] _. by apply (Hcall _ _ _ Hfree Hrun). }
  pose proof (Hcall _ _ _ Hfree Hrun I) as Hfree1.
  assert (Hlook : quiet (if valid ret then e ← is_exception ret; mret (negb e)
                         else mret false)).
  { pose proof quiet_is_exception. quiet. }
  destruct ((if valid ret then e ← is_exception ret; mret (negb e) else mret false) st1)
    as [[[]|e| |] st2] eqn:Hrun2; try (by intros [= <- <- <-]);
    pose proof (same_tokens_free _ _ (Hlook _ _ _ Hrun2) Hfree1) as Hfree2;
    try (by intros [= <- <- <-]).
  assert (Hget : quiet (get_inst cdef (val_ ret))) by (unfold get_inst; quiet).
  destruct (get_inst cdef (val_ ret) st2) as [[x|e| |] st3] eqn:Hrun3;
    intros [= <- <- <-]; try done; intros _;
    exact (same_tokens_free _ _ (Hget _ _ _ Hrun3) Hfree2).
Qed.

End Tokens.

Lemma carries_JS_Call `{Conversions} (fuel : nat) (ctx : JSContext)
    (func_obj this_val : JSValue) (argv : list JSValue) :
  carries ctx (JS_Call fuel ctx func_obj this_val argv).
Proof.
  revert ctx func_obj this_val argv. induction fuel as [|n IH]; intros ctx f t a.
  - by intros st r st' _ [= <- <-].
  - simpl. by apply carries_JS_Call_body.
Qed.

(** [m], run from [st], comes back with no token pending. *)
Definition collected {A} (m : M A) (st : state) : Prop :=
  forall r st', m st = (r, st') -> settled r -> token_free st'.

(** X16: a native exception that a callable threw is not left behind
    by a call.  From a state where no context holds a pending exception
    token, [value::call], [value::operator()], [value::call_member],
    [context::call_global], [context::eval] and [context::make_object]
    come back, by a return or by an exception, with no token pending in
    any context: whatever a handler stored for the way through the
    engine (which the script cannot intercept, the pending exception
    being an uncatchable error) has been taken and rethrown by
    [check_throw(true)].  [value::get_property] and
    [value::set_property] are not among them (see [Accessors]). *)
Theorem X16_forwarded_exceptions_collected `{Conversions} (fuel : nat) (st : state) :
  token_free st ->
  (forall this thisObj a, collected (value_call (JS_Call fuel) this thisObj a) st)
  /\ (forall this a, collected (value_operator_call (JS_Call fuel) this a) st)
  /\ (forall this name a, collected (call_member (JS_Call fuel) this name a) st)
  /\ (forall c name a, collected (call_global (JS_Call fuel) c name a) st)
  /\ (forall c src, collected (eval (JS_Call fuel) c src) st)
  /\ (forall c cdef a inst r i st',
        make_object (JS_Call fuel) c cdef a inst st = ((r, i), st') -> settled r ->
        token_free st').
Proof.
  intros Hfree.
  pose proof (carries_JS_Call fuel) as Hcall.
  split; [|split; [|split; [|split; [|split]]]]; intros.
  - intros r st' Hrun Hr. exact (collects_value_call _ Hcall _ _ _ _ _ _ Hfree Hrun Hr).
  - intros r st' Hrun Hr.
    exact (collects_value_operator_call _ Hcall _ _ _ _ _ Hfree Hrun Hr).
  - intros r st' Hrun Hr. exact (collects_call_member _ Hcall _ _ _ _ _ _ Hfree Hrun Hr).
  - intros r st' Hrun Hr. exact (collects_call_global _ Hcall _ _ _ _ _ _ Hfree Hrun Hr).
  - intros r st' Hrun Hr. exact (collects_eval _ Hcall _ _ _ _ _ Hfree Hrun Hr).
  - by apply (collects_make_object _ Hcall c cdef a inst st st' r i).
Qed.

Lemma token_free_example_state (h : gmap nat JSObject) (n : nat) (level : Z) :
  token_free (example_state h n level).
Proof.
  intros j. unfold token_of, JS_GetContextOpaque, example_state. simpl.
  destruct (decide (j = the_ctx)) as [->|Hne].
  - by rewrite lookup_singleton_eq.
  - by rewrite lookup_singleton_ne.
Qed.

(** [guarded] is called from native code and [thrower] throws
    [my_exception]: the caller gets it and no token is left. *)
Lemma X16_forwarded_exceptions_collected_witness :
  (value_call (JS_Call 2) (in_ctx (JS_OBJECT 1)) value_default []
     (example_state (guarded_heap my_exception) 3 0)).1 = Thrown my_exception
  /\ token_of (value_call (JS_Call 2) (in_ctx (JS_OBJECT 1)) value_default []
                 (example_state (guarded_heap my_exception) 3 0)).2 the_ctx = None.
Proof.
  split; [vm_compute; reflexivity|].
  destruct (X16_forwarded_exceptions_collected 2
              (example_state (guarded_heap my_exception) 3 0)
              (token_free_example_state _ _ _)) as (Hcall & _).
  apply (Hcall (in_ctx (JS_OBJECT 1)) value_default []
           (value_call (JS_Call 2) (in_ctx (JS_OBJECT 1)) value_default []
              (example_state (guarded_heap my_exception) 3 0)).1).
  - by destruct (value_call _ _ _ _ _).
  - vm_compute. exact I.
Defined.

(** * Registering a class twice *)

Lemma keeps_contexts_ret {A} (a : A) : keeps_contexts (mret a).
Proof. by intros st r st' [= <- <-]. Qed.

Lemma keeps_contexts_throw {A} (e : cpp_exception) : keeps_contexts (throw (A := A) e).
Proof. by intros st r st' [= <- <-]. Qed.

Lemma keeps_contexts_crash {A} : keeps_contexts (crash (A := A)).
Proof. by intros st r st' [= <- <-]. Qed.

Lemma keeps_contexts_get_state : keeps_contexts get_state.
Proof. by intros st r st' [= <- <-]. Qed.

Lemma keeps_contexts_modify (f : state -> state) :
  (forall st, ctxs (f st) = ctxs st) -> keeps_contexts (modify f).
Proof. intros Hf st r st' [= <- <-]. apply Hf. Qed.

Create HintDb keeps discriminated.

#[local] Hint Resolve keeps_contexts_ret keeps_contexts_throw keeps_contexts_crash
  keeps_contexts_get_state : keeps.
#[local] Hint Extern 2 (keeps_contexts (_ ≫= _)) =>
  apply keeps_contexts_bind; [|intros ?] : keeps.
#[local] Hint Extern 3 (keeps_contexts (modify _)) =>
  apply keeps_contexts_modify; intros ?; reflexivity : keeps.
#[local] Hint Extern 3 (keeps_contexts (if ?b then _ else _)) => destruct b : keeps.
#[local] Hint Extern 3 (keeps_contexts (match ?x with _ => _ end)) => destruct x : keeps.
#[local] Hint Extern 3 (keeps_contexts (let '(_, _) := ?x in _)) => destruct x : keeps.

Ltac keeps := eauto 40 with keeps.

Section Registration.
Context `{Conversions}.

Lemma keeps_validate (v : value) : keeps_contexts (validate v).
Proof. unfold validate, throw_value_exception. keeps. Qed.

Lemma keeps_value_ctor (ctx : option JSContext) (x : JSValue) :
  keeps_contexts (value_ctor ctx x).
Proof. unfold value_ctor. pose proof keeps_validate. keeps. Qed.

Lemma keeps_steal (v : value) : keeps_contexts (steal v).
Proof. unfold steal. pose proof keeps_validate. keeps. Qed.

Lemma keeps_new_object (o : JSObject) : keeps_contexts (new_object o).
Proof. unfold new_object. keeps. Qed.

Lemma keeps_JS_ThrowError (ctx : JSContext) (ename msg : string) :
  keeps_contexts (JS_ThrowError ctx ename msg).
Proof. unfold JS_ThrowError, JS_Throw. pose proof keeps_new_object. keeps. Qed.

Lemma keeps_JS_GetPropertyStr (ctx : JSContext) (this_obj : JSValue) (prop : string) :
  keeps_contexts (JS_GetPropertyStr ctx this_obj prop).
Proof. unfold JS_GetPropertyStr, JS_ThrowTypeError. pose proof keeps_JS_ThrowError. keeps. Qed.

Lemma keeps_JS_SetPropertyStr (ctx : JSContext) (this_obj : JSValue) (prop : string)
    (val : JSValue) :
  keeps_contexts (JS_SetPropertyStr ctx this_obj prop val).
Proof. unfold JS_SetPropertyStr, JS_ThrowTypeError. pose proof keeps_JS_ThrowError. keeps. Qed.

Lemma keeps_get_property (v : value) (name : string) : keeps_contexts (get_property v name).
Proof.
  unfold get_property.
  pose proof keeps_validate. pose proof keeps_JS_GetPropertyStr.
  pose proof keeps_value_ctor. keeps.
Qed.

Lemma keeps_do_throw {A} (this exval : value) : keeps_contexts (do_throw (A := A) this exval).
Proof.
  unfold do_throw, is_undefined, as_cstring.
  pose proof keeps_get_property. pose proof keeps_validate. keeps.
Qed.

Lemma keeps_set_property (this : value) (name : string) (val : value) :
  keeps_contexts (set_property this name val).
Proof.
  unfold set_property, JS_GetException.
  pose proof keeps_validate. pose proof keeps_steal. pose proof keeps_JS_SetPropertyStr.
  pose proof keeps_value_ctor. pose proof (@keeps_do_throw bool). keeps.
Qed.

Lemma keeps_get_global_object (c : option JSContext) : keeps_contexts (get_global_object c).
Proof.
  unfold get_global_object, context_validate, JS_GetGlobalObject.
  pose proof keeps_value_ctor. keeps.
Qed.

(** The class [cid] is in [classes_] of the host context behind [ctx]. *)
Definition class_known (ctx : JSContext) (cid : JSClassID) (st : state) : Prop :=
  is_Some (JS_GetContextOpaque st ctx ≫= (fun c => classes_ c !! cid)).

(** From a state where the class is known, [m] does not return. *)
Definition fails_known {A} (ctx : JSContext) (cid : JSClassID) (m : M A) : Prop :=
  forall st r st', class_known ctx cid st -> m st = (r, st') -> forall a, r <> Ok a.

Lemma fails_known_bind {A B} (ctx : JSContext) (cid : JSClassID) (m : M A) (f : A -> M B) :
  keeps_contexts m -> (forall a, fails_known ctx cid (f a)) -> fails_known ctx cid (m ≫= f).
Proof.
  intros Hm Hf st r st' Hknown. unfold mbind, M_bind.
  destruct (m st) as [[a|e| |] st1] eqn:Hrun; try (by intros [= <- <-]).
  apply (Hf a). unfold class_known, JS_GetContextOpaque in *. by rewrite (Hm _ _ _ Hrun).
Qed.

Lemma register_class_known (ctx : JSContext) (cdef : class_definition) :
  fails_known ctx (id cdef) (register_class (Some ctx) cdef).
Proof.
  unfold register_class.
  change (context_validate (Some ctx) ≫= ?f) with (f ctx).
  apply fails_known_bind; [keeps|]. intros _.
  apply fails_known_bind; [keeps|]. intros st0.
  apply fails_known_bind; [keeps|]. intros _.
  apply fails_known_bind; [apply keeps_new_object|]. intros po.
  apply fails_known_bind; [apply keeps_value_ctor|]. intros proto.
  apply fails_known_bind; [apply keeps_new_object|]. intros co.
  apply fails_known_bind; [apply keeps_value_ctor|]. intros ctor.
  apply fails_known_bind.
  { unfold is_exception. pose proof keeps_validate. keeps. }
  intros [|]; [by intros st r st' _ [= <- <-]|].
  apply fails_known_bind; [apply keeps_value_ctor|]. intros pd.
  apply fails_known_bind; [apply keeps_steal|]. intros [praw ?].
  apply fails_known_bind.
  { unfold JS_SetConstructor. pose proof keeps_JS_SetPropertyStr. keeps. }
  intros _.
  apply fails_known_bind; [apply keeps_get_global_object|]. intros g.
  apply fails_known_bind; [apply keeps_set_property|]. intros _.
  apply fails_known_bind; [apply keeps_steal|]. intros [craw ?].
  apply fails_known_bind; [apply keeps_steal|]. intros [praw' ?].
  intros st r st' Hknown. rewrite (bind_Ok get_state _ st st st) by done.
  destruct Hknown as [info Hinfo]. rewrite Hinfo. by intros [= <- <-].
Qed.

End Registration.

(** The computation came back with a result. *)
Definition returned {A} (r : outcome A) : bool :=
  match r with Ok _ => true | _ => false end.

(** X24: a class is registered on a context once.  When the class is
    already in [classes_] of the context, [context::register_class]
    never returns normally: [classes_.insert] drops the new
    [class_info], whose destructor asserts that it was cleaned up, which
    it was not. *)
Theorem X24_register_class_twice_fails `{Conversions} (ctx : JSContext)
    (cdef : class_definition) (c : context) (info : class_info) (st : state) :
  JS_GetContextOpaque st ctx = Some c -> classes_ c !! id cdef = Some info ->
  returned (register_class (Some ctx) cdef st).1 = false.
Proof.
  intros Hc Hinfo.
  destruct (register_class (Some ctx) cdef st) as [r st'] eqn:Hrun. simpl.
  destruct r as [[]| | |]; try done. exfalso.
  apply (register_class_known ctx cdef st (Ok tt) st' (ex_intro _ info
           (eq_trans (f_equal (fun o => o ≫= (fun c => classes_ c !! id cdef)) Hc) Hinfo))
           Hrun tt eq_refl).
Qed.

(** [ctx.register_class<my_class>()] a second time: the assertion. *)
Lemma X24_register_class_twice_fails_witness :
  returned (register_class (Some the_ctx) my_class registered).1 = false
  /\ (register_class (Some the_ctx) my_class registered).1 = Crash.
Proof.
  split; [|vm_compute; reflexivity].
  exact (X24_register_class_twice_fails the_ctx my_class registered_context
           (mk_class_info (JS_OBJECT 2) (JS_OBJECT 1)) registered
           ltac:(vm_compute; reflexivity) ltac:(vm_compute; reflexivity)).
Defined.

(** * The intrusive list of [detail::list_entry] and [detail::owner]

    The list links themselves: every [list_entry] (the base of [value]
    and [context], and the [head_] of an [owner]) holds the addresses of
    its successor and its predecessor.  A read or write through the
    address of no entry has no result. *)
Module IntrusiveList.

Record list_entry := mk_list_entry { flink_ : nat; blink_ : nat }.

Abbreviation memory := (gmap nat list_entry).

Definition flink (m : memory) (a : nat) : option nat := flink_ <$> m !! a.
Definition blink (m : memory) (a : nat) : option nat := blink_ <$> m !! a.

Definition set_flink (a x : nat) (m : memory) : option memory :=
  e ← m !! a; Some (<[a := mk_list_entry x (blink_ e)]> m).
Definition set_blink (a x : nat) (m : memory) : option memory :=
  e ← m !! a; Some (<[a := mk_list_entry (flink_ e) x]> m).

(** [list_entry::list_entry()] for the entry at [a]. *)
Definition list_entry_ctor (a : nat) (m : memory) : memory :=
  <[a := mk_list_entry a a]> m.

(** [list_entry::is_linked]. *)
Definition is_linked (a : nat) (m : memory) : option bool :=
  e ← m !! a;
  Some (negb (bool_decide (flink_ e = a)) && negb (bool_decide (blink_ e = a))).

(** [list_entry::unlink]. *)
Definition unlink (a : nat) (m : memory) : option memory :=
  linked ← is_linked a m;
  if linked : bool then
    next ← flink m a;
    prev ← blink m a;
    m1 ← set_blink next prev m;
    m2 ← set_flink prev next m1;
    m3 ← set_flink a a m2;
    set_blink a a m3
  else Some m.

(** [owner::insert_head], with its two assertions. *)
Definition insert_head (head entry : nat) (m : memory) : option memory :=
  if decide (entry = head) then None
  else
    linked ← is_linked entry m;
    if linked : bool then None
    else
      next ← flink m head;
      m1 ← set_flink head entry m;
      m2 ← set_blink entry head m1;
      m3 ← set_flink entry next m2;
      m4 ← set_blink next entry m3;
      last ← blink m4 head;
      if decide (last = head) then set_blink head entry m4 else Some m4.

(** [owner::for_each]: the loop, with the entries it visited; the
    successor is read before [f] is called on the current entry. *)
Fixpoint for_each_from (fuel : nat) (head current : nat)
    (f : nat -> memory -> option memory) (m : memory) : option (list nat * memory) :=
  if decide (current = head) then Some ([], m)
  else
    match fuel with
    | 0 => None
    | S n =>
        next ← flink m current;
        m1 ← f current m;
        '(visited, m2) ← for_each_from n head next f m1;
        Some (current :: visited, m2)
    end.

Definition for_each (fuel : nat) (head : nat) (f : nat -> memory -> option memory)
    (m : memory) : option (list nat * memory) :=
  first ← flink m head;
  for_each_from fuel head first f m.

(** The entries [l], in order, lead from [x] to [y] by their forward
    links, and back by their backward links. *)
Fixpoint path (m : memory) (x : nat) (l : list nat) (y : nat) : Prop :=
  match l with
  | [] => flink m x = Some y /\ blink m y = Some x
  | e :: l' => flink m x = Some e /\ blink m e = Some x /\ path m e l' y
  end.

(** The list of the owner whose head is at [head] holds the entries [l],
    first to last. *)
Definition ring (m : memory) (head : nat) (l : list nat) : Prop :=
  NoDup (head :: l) /\ path m head l head.

Lemma flink_set_flink (a x b : nat) (m m' : memory) :
  set_flink a x m = Some m' ->
  flink m' b = (if decide (b = a) then Some x else flink m b)
  /\ blink m' b = blink m b.
Proof.
  unfold set_flink, flink, blink. destruct (m !! a) as [e|] eqn:Ha; [|done].
  simpl. intros [= <-]. destruct (decide (b = a)) as [->|Hne].
  - by rewrite !lookup_insert_eq, Ha.
  - by rewrite !lookup_insert_ne.
Qed.

Lemma blink_set_blink (a x b : nat) (m m' : memory) :
  set_blink a x m = Some m' ->
  blink m' b = (if decide (b = a) then Some x else blink m b)
  /\ flink m' b = flink m b.
Proof.
  unfold set_blink, flink, blink. destruct (m !! a) as [e|] eqn:Ha; [|done].
  simpl. intros [= <-]. destruct (decide (b = a)) as [->|Hne].
  - by rewrite !lookup_insert_eq, Ha.
  - by rewrite !lookup_insert_ne.
Qed.

Lemma set_flink_Some (a x : nat) (m : memory) :
  is_Some (flink m a) -> exists m', set_flink a x m = Some m'.
Proof.
  unfold set_flink, flink. destruct (m !! a); [by eexists|by intros [? ?]].
Qed.

Lemma set_blink_Some (a x : nat) (m : memory) :
  is_Some (flink m a) -> exists m', set_blink a x m = Some m'.
Proof.
  unfold set_blink, flink. destruct (m !! a); [by eexists|by intros [? ?]].
Qed.

Lemma flink_blink_Some (m : memory) (a : nat) : is_Some (flink m a) <-> is_Some (blink m a).
Proof. unfold flink, blink. destruct (m !! a); simpl; split; intros [? ?]; by eauto. Qed.

(** A path depends on the forward links of its start and entries and on
    the backward links of its entries and end. *)
Lemma path_frame (m m' : memory) (x y : nat) (l : list nat) :
  (forall a, a ∈ x :: l -> flink m' a = flink m a) ->
  (forall a, a ∈ l ++ [y] -> blink m' a = blink m a) ->
  path m x l y -> path m' x l y.
Proof.
  revert x. induction l as [|e l IH]; intros x Hf Hb; simpl.
  - intros [H1 H2]. rewrite Hf by apply list_elem_of_here.
    rewrite Hb by apply list_elem_of_here. done.
  - intros (H1 & H2 & H3). rewrite Hf by apply list_elem_of_here.
    rewrite Hb by apply list_elem_of_here. split; [done|]. split; [done|].
    apply IH; [| |done]; intros a Ha.
    + apply Hf. by apply list_elem_of_further.
    + apply Hb. by apply list_elem_of_further.
Qed.

Lemma path_app (m : memory) (x y e : nat) (l1 l2 : list nat) :
  path m x (l1 ++ e :: l2) y <-> path m x l1 e /\ path m e l2 y.
Proof.
  revert x. induction l1 as [|a l1 IH]; intros x; simpl.
  - tauto.
  - rewrite IH. tauto.
Qed.

(** The last entry before the end of a path. *)
Definition before_end (x : nat) (l : list nat) : nat := default x (last l).

Lemma before_end_cons (x e : nat) (l : list nat) :
  before_end x (e :: l) = before_end e l.
Proof.
  unfold before_end. destruct l as [|e' l]; [done|].
  change (last (e :: e' :: l)) with (last (e' :: l)).
  destruct (last (e' :: l)) eqn:Hl; [done|]. by apply last_None in Hl.
Qed.

Lemma before_end_elem (x : nat) (l : list nat) : before_end x l ∈ x :: l.
Proof.
  revert x. induction l as [|e l IH]; intros x.
  - apply list_elem_of_here.
  - rewrite before_end_cons. apply list_elem_of_further, IH.
Qed.

Lemma path_end (m : memory) (x y : nat) (l : list nat) :
  path m x l y ->
  flink m (before_end x l) = Some y /\ blink m y = Some (before_end x l).
Proof.
  revert x. induction l as [|e l IH]; intros x; simpl.
  - done.
  - intros (_ & _ & Hp). rewrite before_end_cons. by apply IH.
Qed.

(** Pointing the end of a path somewhere else. *)
Lemma path_retarget (m m' : memory) (x y z : nat) (l : list nat) :
  NoDup (x :: l) ->
  (forall a, a ∈ x :: l -> a <> before_end x l -> flink m' a = flink m a) ->
  (forall a, a ∈ l -> blink m' a = blink m a) ->
  flink m' (before_end x l) = Some z -> blink m' z = Some (before_end x l) ->
  path m x l y -> path m' x l z.
Proof.
  revert x. induction l as [|e l IH]; intros x Hnd Hf Hb Hz1 Hz2; simpl.
  - intros _. done.
  - intros (H1 & H2 & H3). rewrite before_end_cons in *.
    apply NoDup_cons in Hnd as [Hx Hnd].
    assert (Hxe : x <> before_end e l).
    { intros ->. apply Hx, before_end_elem. }
    rewrite Hf by (done || apply list_elem_of_here).
    rewrite Hb by apply list_elem_of_here.
    split; [done|]. split; [done|].
    apply IH; try done.
    + intros a Ha Hne. apply Hf; [by apply list_elem_of_further|done].
    + intros a Ha. apply Hb. by apply list_elem_of_further.
Qed.

Lemma set_flink_links (a x : nat) (m : memory) :
  is_Some (flink m a) ->
  exists m', set_flink a x m = Some m'
    /\ (forall b, flink m' b = if decide (b = a) then Some x else flink m b)
    /\ (forall b, blink m' b = blink m b).
Proof.
  intros Ha. destruct (set_flink_Some a x m Ha) as [m' Hm']. exists m'.
  split; [done|]. split; intros b; by destruct (flink_set_flink a x b m m' Hm').
Qed.

Lemma set_blink_links (a x : nat) (m : memory) :
  is_Some (flink m a) ->
  exists m', set_blink a x m = Some m'
    /\ (forall b, flink m' b = flink m b)
    /\ (forall b, blink m' b = if decide (b = a) then Some x else blink m b).
Proof.
  intros Ha. destruct (set_blink_Some a x m Ha) as [m' Hm']. exists m'.
  split; [done|]. split; intros b; by destruct (blink_set_blink a x b m m' Hm').
Qed.

Lemma is_linked_links (m : memory) (a x y : nat) :
  flink m a = Some x -> blink m a = Some y ->
  is_linked a m = Some (negb (bool_decide (x = a)) && negb (bool_decide (y = a))).
Proof.
  unfold flink, blink, is_linked. destruct (m !! a) as [e|]; [|done]. simpl.
  by intros [= ->] [= ->].
Qed.

Lemma is_linked_Some (m : memory) (a : nat) (b : bool) :
  is_linked a m = Some b -> is_Some (flink m a).
Proof. unfold is_linked, flink. destruct (m !! a); [by eauto|done]. Qed.

(** The links of the memory after [unlink]. *)
Lemma unlink_links (m : memory) (e next prev : nat) :
  flink m e = Some next -> blink m e = Some prev ->
  next <> e -> prev <> e ->
  is_Some (flink m next) -> is_Some (flink m prev) ->
  exists m', unlink e m = Some m'
    /\ (forall a, flink m' a =
          if decide (a = e) then Some e
          else if decide (a = prev) then Some next else flink m a)
    /\ (forall a, blink m' a =
          if decide (a = e) then Some e
          else if decide (a = next) then Some prev else blink m a).
Proof.
  intros Hf Hb Hn Hp Hnext Hprev. unfold unlink.
  rewrite (is_linked_links m e next prev Hf Hb).
  rewrite !bool_decide_eq_false_2 by done. simpl. rewrite Hf, Hb. simpl.
  destruct (set_blink_links next prev m Hnext) as (m1 & -> & Hf1 & Hb1). simpl.
  destruct (set_flink_links prev next m1) as (m2 & -> & Hf2 & Hb2);
    [by rewrite Hf1|]. simpl.
  destruct (set_flink_links e e m2) as (m3 & -> & Hf3 & Hb3).
  { rewrite Hf2, Hf1. destruct (decide (e = prev)); [by eauto|by rewrite Hf]. }
  simpl.
  destruct (set_blink_links e e m3) as (m4 & -> & Hf4 & Hb4).
  { rewrite Hf3. destruct (decide (e = e)); by eauto. }
  exists m4. split; [done|]. split; intros a.
  - rewrite Hf4, Hf3, Hf2, Hf1. done.
  - rewrite Hb4, Hb3, Hb2, Hb1. done.
Qed.

(** The first entry after the start of a path. *)
Definition after_start (l : list nat) (y : nat) : nat := hd y l.

Lemma path_start (m : memory) (x y : nat) (l : list nat) :
  path m x l y -> flink m x = Some (after_start l y).
Proof. destruct l; simpl; tauto. Qed.

Lemma after_start_elem (l : list nat) (y : nat) : after_start l y ∈ l ++ [y].
Proof. destruct l; simpl; apply list_elem_of_here. Qed.

Lemma path_is_Some (m : memory) (x y : nat) (l : list nat) (a : nat) :
  path m x l y -> a ∈ x :: l ++ [y] -> is_Some (flink m a).
Proof.
  revert x. induction l as [|e l IH]; intros x; simpl.
  - intros [H1 H2] Ha. apply elem_of_cons in Ha as [->|Ha]; [by eauto|].
    apply list_elem_of_singleton in Ha as ->. apply flink_blink_Some. by eauto.
  - intros (H1 & H2 & H3) Ha. apply elem_of_cons in Ha as [->|Ha]; [by eauto|].
    by apply (IH e).
Qed.

Lemma NoDup_middle (x e : nat) (l1 l2 : list nat) :
  NoDup (x :: l1 ++ e :: l2) ->
  NoDup (x :: l1) /\ NoDup (e :: l2) /\ NoDup (x :: l1 ++ l2)
  /\ (e ∉ x :: l1) /\ (forall a, a ∈ x :: l1 -> a ∉ l2).
Proof.
  intros Hnd. change (x :: l1 ++ e :: l2) with ((x :: l1) ++ e :: l2) in Hnd.
  apply NoDup_app in Hnd as (H1 & H2 & H3).
  pose proof H3 as H3'. apply NoDup_cons in H3' as [He Hl2].
  split; [done|]. split; [done|]. split; [|split].
  - change (x :: l1 ++ l2) with ((x :: l1) ++ l2). apply NoDup_app.
    split; [done|]. split; [|done]. intros a Ha Ha2. apply (H2 a Ha).
    by apply list_elem_of_further.
  - intros He1. apply (H2 e He1). apply list_elem_of_here.
  - intros a Ha Ha2. apply (H2 a Ha). by apply list_elem_of_further.
Qed.

(** An entry of a list is linked. *)
Lemma ring_entry_links (m : memory) (head e : nat) (l1 l2 : list nat) :
  ring m head (l1 ++ e :: l2) ->
  flink m e = Some (after_start l2 head) /\ blink m e = Some (before_end head l1)
  /\ after_start l2 head <> e /\ before_end head l1 <> e.
Proof.
  intros [Hnd Hp]. apply path_app in Hp as [Hp1 Hp2].
  destruct (NoDup_middle _ _ _ _ Hnd) as (Hn1 & Hn2 & Hn3 & He & Hdis).
  split; [exact (path_start _ _ _ _ Hp2)|].
  split; [exact (proj2 (path_end _ _ _ _ Hp1))|]. split.
  - intros Heq. pose proof (after_start_elem l2 head) as Hin. rewrite Heq in Hin.
    apply elem_of_app in Hin as [Hin|Hin].
    + by apply NoDup_cons in Hn2 as [? _].
    + apply list_elem_of_singleton in Hin as ->. apply He, list_elem_of_here.
  - intros Heq. apply He. rewrite <- Heq. apply before_end_elem.
Qed.

Lemma ring_entry_linked (m : memory) (head e : nat) (l : list nat) :
  ring m head l -> e ∈ l -> is_linked e m = Some true.
Proof.
  intros Hr He. apply list_elem_of_split in He as (l1 & l2 & ->).
  destruct (ring_entry_links m head e l1 l2 Hr) as (Hf & Hb & Hn & Hp).
  rewrite (is_linked_links m e _ _ Hf Hb). by rewrite !bool_decide_eq_false_2.
Qed.

(** [unlink] takes an entry out of the list it is in and leaves the
    other entries in their order. *)
Lemma unlink_ring (m : memory) (head e : nat) (l1 l2 : list nat) :
  ring m head (l1 ++ e :: l2) ->
  exists m', unlink e m = Some m'
    /\ ring m' head (l1 ++ l2)
    /\ flink m' e = Some e /\ blink m' e = Some e
    /\ forall a, a ∉ head :: l1 ++ e :: l2 ->
         flink m' a = flink m a /\ blink m' a = blink m a.
Proof.
  intros Hr. pose proof Hr as [Hnd Hp].
  destruct (ring_entry_links m head e l1 l2 Hr) as (Hf & Hb & Hn & Hpv).
  destruct (NoDup_middle _ _ _ _ Hnd) as (Hn1 & Hn2 & Hn3 & He & Hdis).
  pose proof (before_end_elem head l1) as Hprev_in.
  pose proof (after_start_elem l2 head) as Hnext_in.
  set (next := after_start l2 head) in *. set (prev := before_end head l1) in *.
  assert (Hall : forall a, a ∈ head :: (l1 ++ e :: l2) ++ [head] -> is_Some (flink m a))
    by (intros a; apply (path_is_Some m head head _ a Hp)).
  destruct (unlink_links m e next prev Hf Hb Hn Hpv) as (m' & Hm' & Hfl & Hbl).
  { apply Hall. apply list_elem_of_further. rewrite <- app_assoc. apply elem_of_app. right.
    by apply list_elem_of_further. }
  { apply Hall. apply elem_of_cons in Hprev_in as [->|Hin]; [apply list_elem_of_here|].
    apply list_elem_of_further, elem_of_app. left. apply elem_of_app. by left. }
  exists m'. split; [done|].
  apply path_app in Hp as [Hp1 Hp2].
  assert (Hnext_l1 : forall a, a ∈ l1 -> a <> next).
  { intros a Ha ->. apply elem_of_app in Hnext_in as [Hin|Hin].
    - apply (Hdis next); [by apply list_elem_of_further|done].
    - apply list_elem_of_singleton in Hin. apply NoDup_cons in Hn1 as [Hh _].
      apply Hh. by rewrite <- Hin. }
  assert (Hp1' : path m' head l1 next).
  { apply (path_retarget m m' head e next l1 Hn1); [| | | |exact Hp1].
    - intros a Ha Hne. rewrite Hfl. rewrite decide_False by (intros ->; by apply He).
      by rewrite decide_False.
    - intros a Ha. rewrite Hbl.
      rewrite decide_False by (intros ->; by apply He, list_elem_of_further).
      by rewrite decide_False by by apply Hnext_l1.
    - rewrite Hfl. fold prev. rewrite decide_False by done. by rewrite decide_True.
    - rewrite Hbl. rewrite decide_False by done. by rewrite decide_True. }
  split; [|split; [|split]].
  - split; [done|].
    destruct l2 as [|n l2].
    + rewrite app_nil_r. exact Hp1'.
    + apply path_app. split; [exact Hp1'|].
      simpl in Hp2. destruct Hp2 as (_ & _ & Hp2).
      apply NoDup_cons in Hn2 as [He2 Hn2]. apply NoDup_cons in Hn2 as [Hn2 Hl2].
      apply (path_frame m m' n head l2); [| |exact Hp2].
      * intros a Ha. rewrite Hfl.
        rewrite decide_False by (intros ->; by apply He2).
        rewrite decide_False; [done|]. intros ->. by apply (Hdis prev).
      * intros a Ha. rewrite Hbl.
        assert (a <> e).
        { intros ->. apply elem_of_app in Ha as [Ha|Ha].
          - apply He2. by apply list_elem_of_further.
          - apply list_elem_of_singleton in Ha. apply He. rewrite Ha.
            apply list_elem_of_here. }
        rewrite decide_False by done.
        rewrite decide_False; [done|]. unfold next. simpl. intros ->.
        apply elem_of_app in Ha as [Ha|Ha]; [done|].
        apply list_elem_of_singleton in Ha.
        apply (Hdis head); [apply list_elem_of_here|]. rewrite <- Ha.
        apply list_elem_of_here.
  - rewrite Hfl. by rewrite decide_True.
  - rewrite Hbl. by rewrite decide_True.
  - intros a Ha. rewrite Hfl, Hbl.
    assert (a <> e).
    { intros ->. apply Ha. apply list_elem_of_further, elem_of_app. right.
      apply list_elem_of_here. }
    assert (a <> prev).
    { intros ->. apply Ha. apply elem_of_cons in Hprev_in as [->|Hin];
        [apply list_elem_of_here|].
      apply list_elem_of_further, elem_of_app. by left. }
    assert (a <> next).
    { intros ->. apply Ha. apply elem_of_app in Hnext_in as [Hin|Hin].
      - apply list_elem_of_further, elem_of_app. right. by apply list_elem_of_further.
      - apply list_elem_of_singleton in Hin. rewrite Hin. apply list_elem_of_here. }
    by rewrite !decide_False.
Qed.

(** [insert_head] puts an entry that is in no list first in the list. *)
Lemma insert_head_ring (m : memory) (head entry : nat) (l : list nat) :
  ring m head l -> entry <> head -> is_linked entry m = Some false ->
  exists m', insert_head head entry m = Some m'
    /\ ring m' head (entry :: l)
    /\ forall a, a ∉ head :: entry :: l ->
         flink m' a = flink m a /\ blink m' a = blink m a.
Proof.
  intros Hr Hne Hunl. pose proof Hr as [Hnd Hp].
  assert (Hnotin : entry ∉ l).
  { intros Hin. by rewrite (ring_entry_linked m head entry l Hr Hin) in Hunl. }
  pose proof (path_start m head head l Hp) as Hnext.
  pose proof (after_start_elem l head) as Hnext_in.
  set (next := after_start l head) in *.
  assert (Hnext_ne : next <> entry).
  { intros Heq. rewrite Heq in Hnext_in. apply elem_of_app in Hnext_in as [Hin|Hin];
      [done|]. by apply list_elem_of_singleton in Hin. }
  apply NoDup_cons in Hnd as [Hhead Hndl].
  unfold insert_head. rewrite decide_False by done. rewrite Hunl. simpl.
  rewrite Hnext. simpl.
  destruct (set_flink_links head entry m) as (m1 & -> & Hf1 & Hb1); [by eauto|]. simpl.
  destruct (set_blink_links entry head m1) as (m2 & -> & Hf2 & Hb2).
  { rewrite Hf1, decide_False by done. by apply is_linked_Some in Hunl. }
  simpl.
  destruct (set_flink_links entry next m2) as (m3 & -> & Hf3 & Hb3).
  { rewrite Hf2, Hf1, decide_False by done. by apply is_linked_Some in Hunl. }
  simpl.
  destruct (set_blink_links next entry m3) as (m4 & -> & Hf4 & Hb4).
  { rewrite Hf3, Hf2, Hf1. rewrite decide_False by done.
    destruct (decide (next = head)); [by eauto|].
    apply (path_is_Some m head head l next Hp). by apply list_elem_of_further. }
  simpl.
  assert (Hfl : forall a, flink m4 a =
            if decide (a = entry) then Some next
            else if decide (a = head) then Some entry else flink m a).
  { intros a. by rewrite Hf4, Hf3, Hf2, Hf1. }
  assert (Hbl : forall a, blink m4 a =
            if decide (a = next) then Some entry
            else if decide (a = entry) then Some head else blink m a).
  { intros a. by rewrite Hb4, Hb3, Hb2, Hb1. }
  clear Hf1 Hb1 Hf2 Hb2 Hf3 Hb3 Hf4 Hb4.
  assert (Hlast : exists last, blink m4 head = Some last /\ last <> head).
  { rewrite Hbl. destruct (decide (head = next)) as [Heq|Hneq].
    - exists entry. done.
    - rewrite decide_False by done. destruct (path_end m head head l Hp) as [_ Hb].
      exists (before_end head l). split; [done|].
      destruct l as [|n l]; [done|]. rewrite before_end_cons. intros Heq.
      apply Hhead. rewrite <- Heq. apply before_end_elem. }
  destruct Hlast as (last & -> & Hlast). simpl. rewrite decide_False by done.
  exists m4. split; [done|]. split.
  - split.
    { apply NoDup_cons. split; [|apply NoDup_cons; by split].
      intros Hin. apply elem_of_cons in Hin as [Hin|Hin]; [by symmetry in Hin|done]. }
    simpl. split; [|split].
    + rewrite Hfl. rewrite decide_False by done. by rewrite decide_True.
    + rewrite Hbl. rewrite decide_False by done. by rewrite decide_True.
    + destruct l as [|n l]; simpl in *.
      * rewrite Hfl, Hbl. by rewrite !decide_True.
      * destruct Hp as (_ & _ & Hp'). rewrite Hfl, Hbl. rewrite !decide_True by done.
        split; [done|]. split; [done|].
        apply NoDup_cons in Hndl as [Hn Hndl].
        apply (path_frame m m4 n head l); [| |exact Hp'].
        -- intros a Ha. rewrite Hfl.
           rewrite decide_False by (intros ->; by apply Hnotin).
           rewrite decide_False; [done|]. intros ->. by apply Hhead.
        -- intros a Ha. rewrite Hbl.
           assert (a <> n).
           { intros ->. apply elem_of_app in Ha as [Ha|Ha]; [done|].
             apply list_elem_of_singleton in Ha. apply Hhead. rewrite <- Ha.
             apply list_elem_of_here. }
           rewrite decide_False by done.
           rewrite decide_False; [done|]. intros ->.
           apply elem_of_app in Ha as [Ha|Ha].
           ++ apply Hnotin. by apply list_elem_of_further.
           ++ by apply list_elem_of_singleton in Ha.
  - intros a Ha. rewrite Hfl, Hbl.
    assert (a <> entry).
    { intros ->. apply Ha. apply list_elem_of_further, list_elem_of_here. }
    assert (a <> head) by (intros ->; apply Ha, list_elem_of_here).
    assert (a <> next).
    { intros ->. apply Ha. apply elem_of_app in Hnext_in as [Hin|Hin].
      - by do 2 apply list_elem_of_further.
      - apply list_elem_of_singleton in Hin. rewrite Hin. apply list_elem_of_here. }
    by rewrite !decide_False.
Qed.


(** The memory of an owner at address 1 with an empty list and an entry
    at address 2 that is in no list, and the same with the entry in the
    list. *)
Definition example_memory : memory :=
  list_entry_ctor 2 (list_entry_ctor 1 ∅).

Definition example_memory_linked : memory :=
  default ∅ (insert_head 1 2 example_memory).

Lemma example_ring : ring example_memory 1 [].
Proof. split; [apply NoDup_singleton|]. by vm_compute. Qed.

Lemma example_ring_linked : ring example_memory_linked 1 [2].
Proof.
  split; [|by vm_compute].
  apply (bool_decide_unpack _). by vm_compute.
Qed.

(** X17 [owner::insert_head]: an entry that is in no list and is not the
    head becomes the first entry of the list, before the entries that
    were there, which keep their order; entries elsewhere keep their
    links. *)
Theorem X17_insert_head_puts_first (m : memory) (head entry : nat) (l : list nat) :
  ring m head l -> entry <> head -> is_linked entry m = Some false ->
  exists m', insert_head head entry m = Some m'
    /\ ring m' head (entry :: l)
    /\ is_linked entry m' = Some true
    /\ forall a, a ∉ head :: entry :: l ->
         flink m' a = flink m a /\ blink m' a = blink m a.
Proof.
  intros Hr Hne Hunl.
  destruct (insert_head_ring m head entry l Hr Hne Hunl) as (m' & Hm' & Hr' & Hframe).
  exists m'. split; [done|]. split; [done|]. split; [|done].
  apply (ring_entry_linked m' head entry (entry :: l) Hr'), list_elem_of_here.
Qed.

Lemma X17_insert_head_puts_first_witness :
  exists m', insert_head 1 2 example_memory = Some m'
    /\ ring m' 1 [2]
    /\ is_linked 2 m' = Some true
    /\ forall a, a ∉ [1; 2] ->
         flink m' a = flink example_memory a /\ blink m' a = blink example_memory a.
Proof.
  apply (X17_insert_head_puts_first example_memory 1 2 []).
  - exact example_ring.
  - lia.
  - by vm_compute.
Defined.

(** X18 [owner::insert_head]: with the assertions compiled in, the head
    itself and an entry that is already in the list are refused. *)
Theorem X18_insert_head_refuses_listed (m : memory) (head entry : nat) (l : list nat) :
  ring m head l -> entry ∈ head :: l -> insert_head head entry m = None.
Proof.
  intros Hr Hin. unfold insert_head.
  destruct (decide (entry = head)) as [|Hne]; [done|].
  apply elem_of_cons in Hin as [Hin|Hin]; [done|].
  by rewrite (ring_entry_linked m head entry l Hr Hin).
Qed.

Lemma X18_insert_head_refuses_listed_witness :
  insert_head 1 2 example_memory_linked = None.
Proof.
  apply (X18_insert_head_refuses_listed example_memory_linked 1 2 [2]).
  - exact example_ring_linked.
  - apply list_elem_of_further, list_elem_of_here.
Defined.

(** X19 [list_entry::unlink]: unlinking an entry of a list takes just
    that entry out, the others keep their order, and the entry is left
    linked to itself, so that unlinking it again changes nothing. *)
Theorem X19_unlink_takes_entry_out (m : memory) (head e : nat) (l1 l2 : list nat) :
  ring m head (l1 ++ e :: l2) ->
  exists m', unlink e m = Some m'
    /\ ring m' head (l1 ++ l2)
    /\ is_linked e m' = Some false
    /\ unlink e m' = Some m'
    /\ forall a, a ∉ head :: l1 ++ e :: l2 ->
         flink m' a = flink m a /\ blink m' a = blink m a.
Proof.
  intros Hr.
  destruct (unlink_ring m head e l1 l2 Hr) as (m' & Hm' & Hr' & Hf & Hb & Hframe).
  assert (Hunl : is_linked e m' = Some false).
  { rewrite (is_linked_links m' e e e Hf Hb). by rewrite bool_decide_eq_true_2. }
  exists m'. split; [done|]. split; [done|]. split; [done|]. split; [|done].
  unfold unlink. by rewrite Hunl.
Qed.

Lemma X19_unlink_takes_entry_out_witness :
  exists m', unlink 2 example_memory_linked = Some m'
    /\ ring m' 1 ([] ++ [])
    /\ is_linked 2 m' = Some false
    /\ unlink 2 m' = Some m'
    /\ forall a, a ∉ 1 :: [] ++ 2 :: [] ->
         flink m' a = flink example_memory_linked a
         /\ blink m' a = blink example_memory_linked a.
Proof.
  apply (X19_unlink_takes_entry_out example_memory_linked 1 2 [] []).
  exact example_ring_linked.
Defined.



End IntrusiveList.

(** * Property access that runs code

    [value::get_property] and [value::set_property] reach the engine's
    property lookup, which calls a function when the property is an
    accessor: a getter or a setter written in script, or one of the
    thunks [invoke_getter] and [invoke_setter] that [class object] puts
    in the member table of a native class. *)
Module Accessors.

(** The entries [class object] makes with [getset], [get_only] and
    [set_only], by the member functions they are instantiated with; an
    entry made with [function] is a data property that holds a function
    object and is not represented. *)
Inductive member :=
| object_getset (name : string) (Getter : void_ptr -> value -> nprog)
                (Setter : void_ptr -> value -> value -> nprog)
| object_get_only (name : string) (Getter : void_ptr -> value -> nprog)
| object_set_only (name : string) (Setter : void_ptr -> value -> value -> nprog).

Definition member_name (m : member) : string :=
  match m with
  | object_getset name _ _ | object_get_only name _ | object_set_only name _ => name
  end.

(** An accessor property as the engine holds it: what it calls for a
    read and for a write of the property. *)
Record accessor := mk_accessor {
  getter : JSContext -> JSValue -> M JSValue;
  setter : JSContext -> JSValue -> JSValue -> M JSValue
}.

#[local] Abbreviation data_JS_GetPropertyStr := JS_GetPropertyStr.
#[local] Abbreviation data_JS_SetPropertyStr := JS_SetPropertyStr.
#[local] Abbreviation data_get_property := get_property.
#[local] Abbreviation data_set_property := set_property.

Section Accessors.
Context `{Conversions}.
Variable JS_Call : JSContext -> JSValue -> JSValue -> list JSValue -> M JSValue.

(** [members cid] is the member table [ClassType::class_definition.members]
    of the class with the id [cid], which [register_class] sets on the
    prototype of the objects of the class.  [defined p prop] is the
    accessor property [prop] that script code defined on the object at
    [p] ([Object.defineProperty]): its getter and its setter function,
    [JS_UNDEFINED] for a missing one.  Neither changes while the host is
    running. *)
Variable members : JSClassID -> list member.
Variable defined : nat -> string -> option (JSValue * JSValue).

(** [JS_CGETSET_DEF(name, getter, setter)] of [object::getset],
    [object::get_only] and [object::set_only]. *)
Definition JS_CGETSET_DEF (cdef : class_definition) (m : member) : accessor :=
  match m with
  | object_getset _ Getter Setter =>
      mk_accessor (invoke_getter JS_Call cdef Getter) (invoke_setter JS_Call cdef Setter)
  | object_get_only _ Getter =>
      mk_accessor (invoke_getter JS_Call cdef Getter)
                  (fun ctx _ _ => JS_ThrowTypeError ctx "property is read-only")
  | object_set_only _ Setter =>
      mk_accessor (fun ctx _ => JS_ThrowTypeError ctx "property is write-only")
                  (invoke_setter JS_Call cdef Setter)
  end.

(** Modelled from the spec: the engine's "get/set a named property"
    (section 6) for a property that is an accessor.  An accessor defined
    by script is a pair of function objects, which the engine calls with
    the object as receiver. *)
Definition script_accessor (get set : JSValue) : accessor :=
  mk_accessor
    (fun ctx this_obj =>
       if JS_IsUndefined get then mret JS_UNDEFINED else JS_Call ctx get this_obj [])
    (fun ctx this_obj val =>
       if JS_IsUndefined set then JS_ThrowTypeError ctx "no setter for property"
       else JS_Call ctx set this_obj [val]).

(** The accessor the engine finds for [prop] of an object: none when the
    object has [prop] as a data property of its own, else the one
    defined on the object, else, for an object of a native class, the
    entry of the member table that its prototype has. *)
Definition find_accessor (st : state) (this_obj : JSValue) (prop : string)
    : option accessor :=
  match this_obj with
  | JS_OBJECT p =>
      o ← heap st !! p;
      match props o !! prop with
      | Some _ => None
      | None =>
          match defined p prop with
          | Some (get, set) => Some (script_accessor get set)
          | None =>
              match class_of o with
              | JS_CLASS_native cid _ =>
                  cdef ← class_array st !! cid;
                  m ← list_find (fun m => String.eqb (member_name m) prop = true)
                        (members cid);
                  Some (JS_CGETSET_DEF cdef m.2)
              | _ => None
              end
          end
      end
  | _ => None
  end.

(** [JS_GetPropertyStr]: the getter of an accessor is called, a data
    property is read as before. *)
Definition JS_GetPropertyStr (ctx : JSContext) (this_obj : JSValue) (prop : string)
    : M JSValue :=
  st ← get_state;
  match find_accessor st this_obj prop with
  | Some acc => no_escape (getter acc ctx this_obj)
  | None => data_JS_GetPropertyStr ctx this_obj prop
  end.

(** [JS_SetPropertyStr]: the setter of an accessor is called, and the
    result is [-1] when it comes back with the marker; a data property is
    written as before. *)
Definition JS_SetPropertyStr (ctx : JSContext) (this_obj : JSValue) (prop : string)
    (val : JSValue) : M Z :=
  st ← get_state;
  match find_accessor st this_obj prop with
  | Some acc =>
      r ← no_escape (setter acc ctx this_obj val);
      if JS_IsException r then mret (-1)%Z else mret 1%Z
  | None => data_JS_SetPropertyStr ctx this_obj prop val
  end.

(** [value::get_property]. *)
Definition get_property (v : value) (name : string) : M value :=
  ctx ← validate v;
  r ← JS_GetPropertyStr ctx (val_ v) name;
  value_ctor (Some ctx) r.

(** [value::set_property(const char*, value)]. *)
Definition set_property (this : value) (name : string) (val : value) : M bool :=
  ctx ← validate this;
  '(raw, _) ← steal val;
  ret ← JS_SetPropertyStr ctx (val_ this) name raw;
  if (ret <? 0)%Z then
    ex ← JS_GetException ctx;
    exval ← value_ctor (Some ctx) ex;
    do_throw this exval
  else mret (negb (ret =? 0)%Z).

(** Without an accessor, reads and writes are those of a data property. *)
Lemma get_property_data (v : value) (name : string) (st : state) :
  find_accessor st (val_ v) name = None ->
  get_property v name st = data_get_property v name st.
Proof.
  intros Hnone. unfold get_property, JS_GetPropertyStr.
  destruct v as [[ctx|] x]; [|done]. simpl in *.
  rewrite (bind_Ok (validate (mk_value (Some ctx) x)) _ st ctx st) by done.
  unfold mbind at 1, M_bind at 1, mbind at 1, M_bind at 1, get_state at 1.
  rewrite Hnone. reflexivity.
Qed.

Lemma set_property_data (this : value) (name : string) (val : value) (st : state) :
  find_accessor st (val_ this) name = None ->
  set_property this name val st = data_set_property this name val st.
Proof.
  intros Hnone. unfold set_property, JS_SetPropertyStr.
  destruct this as [[ctx|] x]; [|done]. simpl in *.
  rewrite (bind_Ok (validate (mk_value (Some ctx) x)) _ st ctx st) by done.
  destruct val as [[cv|] raw]; [|done].
  rewrite (bind_Ok (steal (mk_value (Some cv) raw)) _ st (raw, value_default) st) by done.
  unfold mbind at 1, M_bind at 1, mbind at 1, M_bind at 1, get_state at 1.
  rewrite Hnone. reflexivity.
Qed.

(** [value::set_property] when the setter came back with the marker and
    a native exception is stored on the context. *)
Lemma set_property_run (ctx cv : JSContext) (this_obj raw : JSValue) (name : string)
    (acc : accessor) (st st1 : state) (c1 : context) :
  find_accessor st this_obj name = Some acc ->
  setter acc ctx this_obj raw st = (Ok JS_EXCEPTION, st1) ->
  JS_GetContextOpaque st1 ctx = Some c1 ->
  JS_IsError st1 this_obj = false ->
  set_property (mk_value (Some ctx) this_obj) name (mk_value (Some cv) raw) st
  = (Thrown (if (1 <? clevel_ c1)%Z
             then throw_exception (mk_value (Some ctx) (current_exception st1))
             else value_exception (mk_value (Some ctx) (current_exception st1))),
     set_current_exception JS_NULL st1).
Proof.
  intros Hacc Hset Hc1 Herr. unfold set_property.
  rewrite (bind_Ok (validate (mk_value (Some ctx) this_obj)) _ st ctx st) by done.
  rewrite (bind_Ok (steal (mk_value (Some cv) raw)) _ st (raw, value_default) st) by done.
  assert (Hengine : JS_SetPropertyStr ctx this_obj name raw st = (Ok (-1)%Z, st1)).
  { unfold JS_SetPropertyStr.
    rewrite (bind_Ok get_state _ st st st) by done. rewrite Hacc.
    assert (Hcall : no_escape (setter acc ctx this_obj raw) st = (Ok JS_EXCEPTION, st1))
      by (unfold no_escape; by rewrite Hset).
    by rewrite (bind_Ok _ _ _ _ _ Hcall). }
  simpl val_. rewrite (bind_Ok _ _ _ _ _ Hengine). simpl.
  rewrite (bind_Ok (JS_GetException ctx) _ st1 (current_exception st1)
             (set_current_exception JS_NULL st1)) by done.
  rewrite (bind_Ok (value_ctor (Some ctx) (current_exception st1)) _ _
             (mk_value (Some ctx) (current_exception st1))
             (set_current_exception JS_NULL st1)) by done.
  unfold do_throw.
  rewrite (bind_Ok get_state _ _ (set_current_exception JS_NULL st1)
             (set_current_exception JS_NULL st1)) by done.
  cbn [val_ ctx_].
  change (JS_IsError (set_current_exception JS_NULL st1) this_obj)
    with (JS_IsError st1 this_obj).
  rewrite Herr. cbn [mbind option_bind].
  change (JS_GetContextOpaque (set_current_exception JS_NULL st1) ctx)
    with (JS_GetContextOpaque st1 ctx).
  rewrite Hc1. by destruct (1 <? clevel_ c1)%Z.
Qed.

(** X22: when the setter of an accessor property comes back with the
    exception marker while a native exception is stored on the context
    (the setter, or a callable it reached, threw it), and the receiver is
    not an Error object, [value::set_property] does not rethrow the
    stored exception: it raises [throw_exception] above call level 1 and
    [value_exception] at or below it, holding the engine's pending
    exception, and the stored exception stays on the context. *)
Theorem X22_set_property_keeps_stored_exception (ctx cv : JSContext)
    (this_obj raw : JSValue) (name : string) (acc : accessor) (st st1 : state)
    (c1 : context) (e : cpp_exception) :
  find_accessor st this_obj name = Some acc ->
  setter acc ctx this_obj raw st = (Ok JS_EXCEPTION, st1) ->
  JS_GetContextOpaque st1 ctx = Some c1 -> excpt_ c1 = Some e ->
  JS_IsError st1 this_obj = false ->
  exists st',
    set_property (mk_value (Some ctx) this_obj) name (mk_value (Some cv) raw) st
    = (Thrown (if (1 <? clevel_ c1)%Z
               then throw_exception (mk_value (Some ctx) (current_exception st1))
               else value_exception (mk_value (Some ctx) (current_exception st1))),
       st')
    /\ token_of st' ctx = Some e
    /\ current_exception st' = JS_NULL.
Proof.
  intros Hacc Hset Hc1 He Herr. eexists. split.
  - exact (set_property_run ctx cv this_obj raw name acc st st1 c1 Hacc Hset Hc1 Herr).
  - split; [|done]. unfold token_of.
    change (JS_GetContextOpaque (set_current_exception JS_NULL st1) ctx)
      with (JS_GetContextOpaque st1 ctx).
    by rewrite Hc1.
Qed.

End Accessors.

(** *** The examples

    The script function [guarded] ([try { thrower() } catch (ex) { throw ex }],
    object 1 of [guarded_heap]) as the getter and the setter of the
    property [x] of the global object, [thrower] being a native callable
    that throws [my_exception]. *)
Definition defined_x (p : nat) (prop : string) : option (JSValue * JSValue) :=
  if decide (p = 0) then
    if String.eqb prop "x" then Some (JS_OBJECT 1, JS_OBJECT 1) else None
  else None.

Definition no_members (cid : JSClassID) : list member := [].
Definition none_defined (p : nat) (prop : string) : option (JSValue * JSValue) := None.

(** [my_class_shared::readonly_property] and
    [my_class_shared::writeonly_property] of [example/classes.cpp];
    [val.as_string] gives the text of a string value, the value written
    is not kept. *)
Definition readonly_property (raw : void_ptr) (thisObj : value) : nprog :=
  NReturn (mk_value (ctx_ thisObj) (JS_STRING "this is a read-only property value")).

Definition writeonly_property (raw : void_ptr) (thisObj val : value) : nprog :=
  match val_ val with
  | JS_STRING str =>
      if String.eqb str "fatal" then NThrow my_exception
      else if String.eqb str "throw" then
        NThrow (throw_exception (mk_value (ctx_ thisObj) (JS_STRING "the exception")))
      else NReturn value_default
  | _ => NReturn value_default
  end.

Definition members_my_class_shared (cid : JSClassID) : list member :=
  if decide (cid = id my_class_shared) then
    [object_get_only "readonly_property" readonly_property;
     object_set_only "writeonly_property" writeonly_property]
  else [].

(** The host context of [wrapped_once]. *)
Definition shared_context : context :=
  default (mk_context 0 None ∅) (JS_GetContextOpaque wrapped_once the_ctx).

(** [g.set_property("x", 5)] and [g.get_property("x")] at call level 0. *)
Definition set_x : outcome bool * state :=
  set_property (JS_Call 2) no_members defined_x (in_ctx (JS_OBJECT 0)) "x"
    (in_ctx (JS_INT 5)) (example_state (guarded_heap my_exception) 3 0).

Definition get_x : outcome value * state :=
  get_property (JS_Call 2) no_members defined_x (in_ctx (JS_OBJECT 0)) "x"
    (example_state (guarded_heap my_exception) 3 0).

(** [o.set_property("writeonly_property", "fatal")] on the wrapper of
    [some_other_instance]. *)
Definition set_writeonly_fatal : outcome bool * state :=
  set_property (JS_Call 2) members_my_class_shared none_defined (in_ctx (JS_OBJECT 3))
    "writeonly_property" (in_ctx (JS_STRING "fatal")) wrapped_once.

(** The accessors of the examples behave as the scripts of
    [example/classes.cpp] show them. *)
Example accessors_my_class_shared :
  (get_property (JS_Call 2) members_my_class_shared none_defined (in_ctx (JS_OBJECT 3))
     "readonly_property" wrapped_once).1
  = Ok (in_ctx (JS_STRING "this is a read-only property value"))
  /\ (set_property (JS_Call 2) members_my_class_shared none_defined (in_ctx (JS_OBJECT 3))
        "writeonly_property" (in_ctx (JS_STRING "value written")) wrapped_once).1
     = Ok true
  /\ (set_property (JS_Call 2) members_my_class_shared none_defined (in_ctx (JS_OBJECT 3))
        "writeonly_property" (in_ctx (JS_STRING "throw")) wrapped_once).1
     = Thrown (value_exception (in_ctx (JS_STRING "the exception"))).
Proof. repeat split; vm_compute; reflexivity. Qed.

(** C2 fails on the code at a property access.  The native callable
    [thrower] throws [my_exception] inside the script function [guarded],
    which the engine runs as the setter, or the getter, of the property
    [x]; the handler stores the exception and no [catch] clause of the
    script receives anything.  Called through [value::call], [guarded]
    gives the caller [my_exception].  Reached through
    [value::set_property], the nearest native boundary raises
    [value_exception] with the uncatchable Error object and the
    exception stays stored on the context; [value::get_property] returns
    a handle that holds the marker, the exception stored as well.  The
    stored exception then surfaces at an unrelated boundary, an [eval]
    that the script ended without an error, and the next native
    exception a handler wants to store runs into the assertion of
    [store_exception].  The same for the native setter
    [writeonly_property] of a class, written with "fatal". *)
Theorem C2_property_access_keeps_native_exception :
  (value_call (JS_Call 2) (in_ctx (JS_OBJECT 1)) (in_ctx (JS_OBJECT 0)) [arg_int32 5]
     (example_state (guarded_heap my_exception) 3 0)).1 = Thrown my_exception
  /\ set_x.1 = Thrown (value_exception (in_ctx (JS_OBJECT 3)))
  /\ JS_IsUncatchableError set_x.2 (JS_OBJECT 3) = true
  /\ token_of set_x.2 the_ctx = Some my_exception
  /\ catch_log set_x.2 = []
  /\ get_x.1 = Ok (in_ctx JS_EXCEPTION)
  /\ token_of get_x.2 the_ctx = Some my_exception
  /\ catch_log get_x.2 = []
  /\ (eval (JS_Call 2) (Some the_ctx) (SReturn (JS_INT 1)) set_x.2).1 = Thrown my_exception
  /\ (value_call (JS_Call 2) (in_ctx (JS_OBJECT 1)) (in_ctx (JS_OBJECT 0)) [] get_x.2).1
     = Crash
  /\ set_writeonly_fatal.1 = Thrown (value_exception (in_ctx (JS_OBJECT 4)))
  /\ JS_IsUncatchableError set_writeonly_fatal.2 (JS_OBJECT 4) = true
  /\ token_of set_writeonly_fatal.2 the_ctx = Some my_exception.
Proof. repeat split; vm_compute; reflexivity. Qed.

(** The native setter of [example/classes.cpp], written with "fatal":
    the state its thunk leaves, and [set_property] on top of it. *)
Definition fatal_forwarded : state :=
  (setter (JS_CGETSET_DEF (JS_Call 2) my_class_shared
             (object_set_only "writeonly_property" writeonly_property))
     the_ctx (JS_OBJECT 3) (JS_STRING "fatal") wrapped_once).2.

Lemma X22_set_property_keeps_stored_exception_witness :
  (exists st',
     set_property (JS_Call 2) members_my_class_shared none_defined
       (mk_value (Some the_ctx) (JS_OBJECT 3)) "writeonly_property"
       (mk_value (Some the_ctx) (JS_STRING "fatal")) wrapped_once
     = (Thrown (if (1 <? clevel_ (mk_context 0 (Some my_exception)
                                    (classes_ shared_context)))%Z
                then throw_exception
                       (mk_value (Some the_ctx) (current_exception fatal_forwarded))
                else value_exception
                       (mk_value (Some the_ctx) (current_exception fatal_forwarded))),
        st')
     /\ token_of st' the_ctx = Some my_exception
     /\ current_exception st' = JS_NULL)
  /\ current_exception fatal_forwarded = JS_OBJECT 4
  /\ JS_IsUncatchableError fatal_forwarded (JS_OBJECT 4) = true.
Proof.
  split; [|split; vm_compute; reflexivity].
  exact (X22_set_property_keeps_stored_exception (JS_Call 2) members_my_class_shared
           none_defined the_ctx the_ctx (JS_OBJECT 3) (JS_STRING "fatal")
           "writeonly_property"
           (JS_CGETSET_DEF (JS_Call 2) my_class_shared
              (object_set_only "writeonly_property" writeonly_property))
           wrapped_once fatal_forwarded
           (mk_context 0 (Some my_exception) (classes_ shared_context))
           my_exception
           eq_refl ltac:(vm_compute; reflexivity)
           ltac:(vm_compute; reflexivity) eq_refl ltac:(vm_compute; reflexivity)).
Defined.

End Accessors.
